(** * Polyhedra viewer: the polyhedron mesh core

    A shallow embedding of [Polyhedron.jsx] (the mesh entity, its lazily
    memoised derived graphs and its structural transforms) and of
    [math/linAlg.js], together with the properties of the written
    specification that concern them and further properties read off the
    code.

    JavaScript objects live in an explicit store, methods are computations
    in a state-and-exception monad over that store, and every memoising
    accessor writes its cache into the receiver.  Floating-point arithmetic
    and the toxiclibs vector library are kept abstract behind an interface. *)

From Stdlib Require Import ZArith List Bool Lia.
From Stdlib Require QArith Qround.
From stdpp Require Import base option gmap list sorting strings pretty.

Set Default Proof Using "Type".


(** ** JavaScript run-time outcomes *)

(** The exceptions the modelled code can raise: [throw new Error(msg)] and
    the engine's own [TypeError] (a property read or a call on
    [undefined]). *)
Inductive exn : Type :=
  | Error (msg : string)
  | TypeError.

Inductive result (A : Type) : Type :=
  | Ok (a : A)
  | Throw (e : exn).
Arguments Ok {A} a.
Arguments Throw {A} e.

Definition is_Ok {A} (r : result A) : bool :=
  match r with Ok _ => true | Throw _ => false end.

Definition result_bind {A B} (r : result A) (f : A → result B) : result B :=
  match r with Ok a => f a | Throw e => Throw e end.

(** Left-to-right iteration of a step that may throw ([_.forEach]). *)
Fixpoint foldR {A X} (f : A → X → result A) (xs : list X) (a : A) : result A :=
  match xs with
  | [] => Ok a
  | x :: xs' => result_bind (f a x) (foldR f xs')
  end.

(** ** The lodash functions the code calls *)

Module Lodash.

(** [_.range(n)]. *)
Definition range (n : nat) : list nat := seq 0 n.

(** [_.uniqBy(array, iteratee)]: the first occurrence of every key is
    kept, in order. *)
Fixpoint uniqBy_from {A K} `{EqDecision K} (iteratee : A → K)
    (seen : list K) (array : list A) : list A :=
  match array with
  | [] => []
  | x :: rest =>
      if bool_decide (iteratee x ∈ seen) then uniqBy_from iteratee seen rest
      else x :: uniqBy_from iteratee (iteratee x :: seen) rest
  end.

Definition uniqBy {A K} `{EqDecision K} (iteratee : A → K) (array : list A)
  : list A := uniqBy_from iteratee [] array.

(** [_.uniqWith(array, _.isEqual)] and [_.uniq] on values whose deep
    equality is decidable equality. *)
Definition uniq {A} `{EqDecision A} (array : list A) : list A :=
  uniqBy (λ x, x) array.

(** [_.countBy(collection, iteratee)]: an object from key to number of
    elements with that key. *)
Definition countBy {A} (iteratee : A → nat) (collection : list A)
  : gmap nat nat :=
  fold_left
    (λ acc x, <[iteratee x := S (default 0 (acc !! iteratee x))]> acc)
    collection ∅.

(** [compareAscending] on values that are numbers or [undefined]:
    [undefined] sorts after every number. *)
Definition compareAscending (value other : option nat) : comparison :=
  match value, other with
  | Some a, Some b => Nat.compare a b
  | Some _, None => Lt
  | None, Some _ => Gt
  | None, None => Eq
  end.

(** [compareMultiple] with all orders ascending: the first criterion that
    differs decides. *)
Fixpoint compareMultiple (object other : list (option nat)) : comparison :=
  match object, other with
  | a :: object', b :: other' =>
      match compareAscending a b with
      | Eq => compareMultiple object' other'
      | c => c
      end
  | _, _ => Eq
  end.

Definition criteria_le (object other : list (option nat)) : bool :=
  match compareMultiple object other with Gt => false | _ => true end.

(** Insertion into a sorted list, before the first element that is not
    smaller: an element stays in front of the equal ones that followed it
    in the input, which is the index tie-break of [baseOrderBy]. *)
Fixpoint sortBy_insert {A} (criteria : A → list (option nat)) (x : A)
    (sorted : list A) : list A :=
  match sorted with
  | [] => [x]
  | y :: rest =>
      if criteria_le (criteria x) (criteria y) then x :: y :: rest
      else y :: sortBy_insert criteria x rest
  end.

(** [_.sortBy(collection, iteratees)]: a stable ascending sort by the
    list of criteria. *)
Definition sortBy {A} (criteria : A → list (option nat))
    (collection : list A) : list A :=
  foldr (sortBy_insert criteria) [] collection.

(** [basePullAt]: the sorted indexes are visited from the last to the
    first, an index equal to the previous one is skipped, and
    [splice(index, 1)] removes one position (nothing when the index is
    out of range). *)
Fixpoint basePullAt {A} (array : list A) (indexes_desc : list nat)
    (previous : option nat) : list A :=
  match indexes_desc with
  | [] => array
  | index :: rest =>
      if bool_decide (previous = Some index)
      then basePullAt array rest previous
      else basePullAt (delete index array) rest (Some index)
  end.

(** [_.pullAt(array, indexes)]; the result is the array after the
    in-place removal. *)
Definition pullAt {A} (array : list A) (indexes : list nat) : list A :=
  basePullAt array (reverse (sortBy (λ i, [Some i]) indexes)) None.

(** [_.take(array, n)] and [_.every(array, predicate)]. *)
Definition take {A} (count : nat) (array : list A) : list A :=
  firstn count array.
Definition every {A} (predicate : A → bool) (array : list A) : bool :=
  forallb predicate array.

(** [_.maxBy(array, iteratee)] with a numeric iteratee ([baseExtremum]
    with [baseGt]): the elements are visited in order and the current one
    replaces the result when its key is greater; [undefined] on an empty
    array. *)
Fixpoint baseExtremum {A} (iteratee : A → nat) (array : list A)
    (computed : option (nat * A)) : option A :=
  match array with
  | [] => snd <$> computed
  | value :: rest =>
      let current := iteratee value in
      match computed with
      | None => baseExtremum iteratee rest (Some (current, value))
      | Some (c, _) =>
          if c <? current
          then baseExtremum iteratee rest (Some (current, value))
          else baseExtremum iteratee rest computed
      end
  end.

Definition maxBy {A} (iteratee : A → nat) (array : list A) : option A :=
  baseExtremum iteratee array None.

End Lodash.

(** ** Numbers and the toxiclibs geometry library

    JavaScript numbers are IEEE doubles and [Vec3D], [Triangle3D], [Plane]
    come from an external library; both are an interface here, so that
    everything proved holds for every arithmetic. *)

Class Toxiclibs (number Vec3D : Type) : Type := {
  Plane : Type;
  (** [new Vec3D(...p)] *)
  Vec3D_new : list number → Vec3D;
  Vec3D_add : Vec3D → Vec3D → Vec3D;
  (** [v.add(undefined)]: the library reads the coordinates of its argument
      only when it has them, and raises nothing *)
  Vec3D_add_undefined : Vec3D → Vec3D;
  Vec3D_sub : Vec3D → Vec3D → Vec3D;
  Vec3D_scale : Vec3D → number → Vec3D;
  (** [v.angleBetween(w, forceNormalize)] *)
  Vec3D_angleBetween : Vec3D → Vec3D → bool → number;
  (** [new Plane(new Triangle3D(a, b, c))] *)
  Plane_new : Vec3D → Vec3D → Vec3D → Plane;
  Plane_getDistanceToPoint : Plane → Vec3D → number;
  (** integer literals, the literal [0.5], unary minus, [/], [Math.pow], [<] *)
  number_of_nat : nat → number;
  number_half : number;
  number_opp : number → number;
  number_div : number → number → number;
  Math_pow : number → number → number;
  number_lt : number → number → bool
}.

(** ** [math/linAlg.js] *)

Section linAlg.
Context {number Vec3D : Type} `{!Toxiclibs number Vec3D}.

Definition PRECISION_DIGITS : number := number_of_nat 3.
Definition PRECISION : number :=
  Math_pow (number_of_nat 10) (number_opp PRECISION_DIGITS).

(** [vec]: convert an array of coordinates into a vector. *)
Definition vec (p : list number) : Vec3D := Vec3D_new p.

Definition getMidpoint (v1 v2 : Vec3D) : Vec3D :=
  Vec3D_scale (Vec3D_add v1 v2) number_half.

Definition getPlane_message : string :=
  "Need at least three points for a plane"%string.

(** [getPlane]: the plane containing the given points. *)
Definition getPlane (points : list Vec3D) : result Plane :=
  if length points <? 3 then Throw (Error getPlane_message)
  else
    match Lodash.take 3 points with
    | [a; b; c] => Ok (Plane_new a b c)
    | _ => Throw TypeError
    end.

(** [isPlanar]: whether the points lie on a plane. *)
Definition isPlanar (points : list Vec3D) : result bool :=
  result_bind (getPlane points) (λ plane,
    Ok (Lodash.every
          (λ v, number_lt (Plane_getDistanceToPoint plane v) PRECISION)
          points)).

(** [getCentroid]: [vectors.reduce((v1, v2) => v1.add(v2))] has no initial
    value and raises a [TypeError] on an empty array. *)
Definition getCentroid (vectors : list Vec3D) : result Vec3D :=
  match vectors with
  | [] => Throw TypeError
  | v :: rest =>
      Ok (Vec3D_scale (fold_left Vec3D_add rest v)
            (number_div (number_of_nat 1) (number_of_nat (length vectors))))
  end.

(** [v.add(w)] where the entry [w] of an array may be [undefined]. *)
Definition add_entry (v : Vec3D) (w : option Vec3D) : Vec3D :=
  match w with
  | Some w => Vec3D_add v w
  | None => Vec3D_add_undefined v
  end.

(** [getCentroid] on an array some entries of which are [undefined]: the
    first entry is the receiver of [add] (or, alone, of [scale]), so it
    being [undefined] is a [TypeError]; a later one is an argument of
    [add]. *)
Definition getCentroid_entries (vectors : list (option Vec3D))
  : result Vec3D :=
  match vectors with
  | Some v :: rest =>
      Ok (Vec3D_scale (fold_left add_entry rest v)
            (number_div (number_of_nat 1) (number_of_nat (length vectors))))
  | _ => Throw TypeError
  end.
End linAlg.

(** ** Mesh data *)

Abbreviation VIndex := nat (only parsing).
Abbreviation FIndex := nat (only parsing).
(** A face is the cyclic list of its vertex indices; an edge is a pair of
    vertex indices. *)
Abbreviation Face := (list nat) (only parsing).
Abbreviation Edge := (nat * nat)%type (only parsing).

(** Objects are referred to by their address in the store. *)
Abbreviation loc := nat (only parsing).

(** A face view [new FaceObj(polyhedron, fIndex)]. *)
Record FaceObj : Type := mkFaceObj {
  polyhedron : loc;
  fIndex : FIndex
}.

Global Instance FaceObj_eq_dec : EqDecision FaceObj.
Proof. solve_decision. Defined.

(** One entry of the face-adjacency fingerprint, [{ n, adj }]. *)
Module AdjCount.
Record t : Type := mk { n : nat; adj : gmap nat nat }.
Global Instance eq_dec : EqDecision t.
Proof. solve_decision. Defined.
End AdjCount.

(** The argument of the constructor and the value of [toJSON]
    ([BasePolyhedron]); an absent property is [None]. *)
Record BasePolyhedron (number : Type) : Type := mkBase {
  base_vertices : list (list number);
  base_faces : list Face;
  base_edges : option (list Edge);
  base_name : option string
}.
Arguments mkBase {number}.
Arguments base_vertices {number}.
Arguments base_faces {number}.
Arguments base_edges {number}.
Arguments base_name {number}.

(** A [Polyhedron] instance: its two collections, the [_edges] and
    [_vertexVectors] fields (absent until set) and the cache of each
    per-instance [_.memoize] wrapper. *)
Record PolyObj (number Vec3D : Type) : Type := mkPoly {
  vertices : list (list number);
  faces : list Face;
  _edges : option (list Edge);
  _vertexVectors : option (list Vec3D);
  getFace_cache : gmap FIndex FaceObj;
  vertexGraph_cache : option (gmap VIndex (list VIndex));
  vertexToFaceGraph_cache : option (list (list FaceObj));
  faceGraph_cache : option (gmap FIndex (list FaceObj));
  directedEdgeToFaceGraph_cache : option (gmap VIndex (gmap VIndex FaceObj))
}.
Arguments mkPoly {number Vec3D}.
Arguments vertices {number Vec3D}.
Arguments faces {number Vec3D}.
Arguments _edges {number Vec3D}.
Arguments _vertexVectors {number Vec3D}.
Arguments getFace_cache {number Vec3D}.
Arguments vertexGraph_cache {number Vec3D}.
Arguments vertexToFaceGraph_cache {number Vec3D}.
Arguments faceGraph_cache {number Vec3D}.
Arguments directedEdgeToFaceGraph_cache {number Vec3D}.

(** ** The store and the method monad *)

Section Store.
Context {number Vec3D : Type}.

(** The store: the object at address [l] is the [l]-th element; objects
    are never freed and [new] appends. *)
Local Abbreviation heap := (list (PolyObj number Vec3D)).

(** A method body: it may update the store (also before it throws). *)
Definition M (A : Type) : Type := heap → heap * result A.

Definition ret {A} (a : A) : M A := λ h, (h, Ok a).
Definition throw {A} (e : exn) : M A := λ h, (h, Throw e).
Definition bind {A B} (m : M A) (f : A → M B) : M B :=
  λ h, match m h with
       | (h', Ok a) => f a h'
       | (h', Throw e) => (h', Throw e)
       end.
Definition lift {A} (r : result A) : M A := λ h, (h, r).

(** Reading the receiver; a dangling address behaves like [undefined]. *)
Definition deref (l : loc) : M (PolyObj number Vec3D) :=
  λ h, match h !! l with
       | Some o => (h, Ok o)
       | None => (h, Throw TypeError)
       end.

(** Assigning fields of the object at [l]. *)
Definition update (l : loc) (f : PolyObj number Vec3D → PolyObj number Vec3D)
  : M unit :=
  λ h, match h !! l with
       | Some o => (<[l := f o]> h, Ok tt)
       | None => (h, Throw TypeError)
       end.

(** [new]: the fresh object is appended and its address returned. *)
Definition alloc (o : PolyObj number Vec3D) : M loc :=
  λ h, (h ++ [o], Ok (length h)).

(** [array.map(f)] and [_.forEach] with a callback that runs methods. *)
Fixpoint M_map {A B} (f : A → M B) (xs : list A) : M (list B) :=
  match xs with
  | [] => ret []
  | x :: xs' => bind (f x) (λ y, bind (M_map f xs') (λ ys, ret (y :: ys)))
  end.

Fixpoint M_fold {A X} (f : A → X → M A) (xs : list X) (a : A) : M A :=
  match xs with
  | [] => ret a
  | x :: xs' => bind (f a x) (M_fold f xs')
  end.
End Store.

Arguments M : clear implicits.

Abbreviation heap number Vec3D := (list (PolyObj number Vec3D)) (only parsing).

Declare Scope js_scope.
Delimit Scope js_scope with js.
Notation "x <- m ;; k" := (bind m (λ x, k))
  (at level 100, m at next level, right associativity,
   format "'[v' x  <-  m  ;;  '/' k ']'") : js_scope.
Notation "m ;;; k" := (bind m (λ _, k))
  (at level 100, right associativity) : js_scope.
Open Scope js_scope.

(** ** Helpers of the repository that the mesh code imports *)

(** Modelled from the spec: [getCyclic] of [solidUtils] is not among the
    sources; it reads an array at an index taken modulo the length (the
    "next/previous vertex ... within this face's cyclic order" of the Face
    View), and is [undefined] on an empty array. *)
Definition getCyclic {A} (array : list A) (index : Z) : option A :=
  match array with
  | [] => None
  | _ => array !! Z.to_nat (index mod Z.of_nat (length array))
  end.

(** [array.indexOf(x)]: the first position of [x], [-1] when absent. *)
Fixpoint indexOf (x : nat) (array : list nat) : Z :=
  match array with
  | [] => (-1)%Z
  | y :: rest =>
      if bool_decide (y = x) then 0%Z
      else let i := indexOf x rest in if (i <? 0)%Z then (-1)%Z else (i + 1)%Z
  end.

(** Modelled from the spec: the edges of a face are its "consecutive pairs,
    including wrap"; the directed edge keeps the order of traversal. *)
Definition consecutive_pairs (face : Face) : list Edge :=
  match face with
  | [] => []
  | v :: rest => zip face (rest ++ [v])
  end.

(** Modelled from the spec: an edge is "an unordered pair of vertex
    indices"; the pair is kept with the smaller index first. *)
Definition sort_pair (e : Edge) : Edge :=
  if (e.1 <=? e.2)%nat then e else (e.2, e.1).

Definition swap_pair (e : Edge) : Edge := (e.2, e.1).

(** ** [Polyhedron.jsx]: construction, face views and derived graphs *)

Section Polyhedron.
Context {number Vec3D : Type}.
Local Abbreviation PolyObj := (PolyObj number Vec3D).
Local Abbreviation M := (M number Vec3D).

(** Field assignments. *)
Definition set_edges (es : list Edge) (o : PolyObj) : PolyObj :=
  mkPoly (vertices o) (faces o) (Some es) (_vertexVectors o)
    (getFace_cache o) (vertexGraph_cache o) (vertexToFaceGraph_cache o)
    (faceGraph_cache o) (directedEdgeToFaceGraph_cache o).
Definition set_vertexVectors (vs : list Vec3D) (o : PolyObj) : PolyObj :=
  mkPoly (vertices o) (faces o) (_edges o) (Some vs)
    (getFace_cache o) (vertexGraph_cache o) (vertexToFaceGraph_cache o)
    (faceGraph_cache o) (directedEdgeToFaceGraph_cache o).
Definition set_getFace (i : FIndex) (f : FaceObj) (o : PolyObj) : PolyObj :=
  mkPoly (vertices o) (faces o) (_edges o) (_vertexVectors o)
    (<[i := f]> (getFace_cache o)) (vertexGraph_cache o)
    (vertexToFaceGraph_cache o) (faceGraph_cache o)
    (directedEdgeToFaceGraph_cache o).
Definition set_vertexGraph (g : gmap VIndex (list VIndex)) (o : PolyObj)
  : PolyObj :=
  mkPoly (vertices o) (faces o) (_edges o) (_vertexVectors o)
    (getFace_cache o) (Some g) (vertexToFaceGraph_cache o)
    (faceGraph_cache o) (directedEdgeToFaceGraph_cache o).
Definition set_vertexToFaceGraph (g : list (list FaceObj)) (o : PolyObj)
  : PolyObj :=
  mkPoly (vertices o) (faces o) (_edges o) (_vertexVectors o)
    (getFace_cache o) (vertexGraph_cache o) (Some g)
    (faceGraph_cache o) (directedEdgeToFaceGraph_cache o).
Definition set_faceGraph (g : gmap FIndex (list FaceObj)) (o : PolyObj)
  : PolyObj :=
  mkPoly (vertices o) (faces o) (_edges o) (_vertexVectors o)
    (getFace_cache o) (vertexGraph_cache o) (vertexToFaceGraph_cache o)
    (Some g) (directedEdgeToFaceGraph_cache o).
Definition set_directedEdgeToFaceGraph
    (g : gmap VIndex (gmap VIndex FaceObj)) (o : PolyObj) : PolyObj :=
  mkPoly (vertices o) (faces o) (_edges o) (_vertexVectors o)
    (getFace_cache o) (vertexGraph_cache o) (vertexToFaceGraph_cache o)
    (faceGraph_cache o) (Some g).

(** The constructor keeps [vertices] and [faces], sets [_edges] when
    [edges] is given, and ignores [name]; the memoising wrappers are
    instance properties, so their caches start empty. *)
Definition Polyhedron_new (b : BasePolyhedron number) : M loc :=
  alloc (mkPoly (base_vertices b) (base_faces b) (base_edges b) None
           ∅ None None None None).

(** [Polyhedron.of(vertices, faces)]. *)
Definition Polyhedron_of (vertices : list (list number)) (faces : list Face)
  : M loc :=
  Polyhedron_new (mkBase vertices faces None None).

Definition numVertices (this : loc) : M nat :=
  o <- deref this ;; ret (length (vertices o)).
Definition numFaces (this : loc) : M nat :=
  o <- deref this ;; ret (length (faces o)).
Definition vIndices (this : loc) : M (list VIndex) :=
  n <- numVertices this ;; ret (Lodash.range n).
Definition fIndices (this : loc) : M (list FIndex) :=
  n <- numFaces this ;; ret (Lodash.range n).

(** [getFace = _.memoize(fIndex => new FaceObj(this, fIndex))]. *)
Definition getFace (this : loc) (fIndex : FIndex) : M FaceObj :=
  o <- deref this ;;
  match getFace_cache o !! fIndex with
  | Some f => ret f
  | None =>
      let f := mkFaceObj this fIndex in
      update this (set_getFace fIndex f) ;;; ret f
  end.

Definition getFaces (this : loc) : M (list FaceObj) :=
  fIndexes <- fIndices this ;; M_map (getFace this) fIndexes.

(** *** Face views

    [Face.js] is not among the sources; its methods follow the Face View
    of the spec: "ordered vertex list and edges (consecutive pairs,
    including wrap); directed edges; side count; ... next/previous vertex
    relative to a query vertex within this face's cyclic order". *)

(** Modelled from the spec: the "ordered vertex list" of a face view, read
    from the face list of its polyhedron.  A view whose index is out of
    range has no vertex list, and using it is a [TypeError]. *)
Definition FaceObj_vIndices (f : FaceObj) : M Face :=
  o <- deref (polyhedron f) ;;
  match faces o !! fIndex f with
  | Some vs => ret vs
  | None => throw TypeError
  end.

(** Modelled from the spec: the "side count" of a face view. *)
Definition FaceObj_numSides (f : FaceObj) : M nat :=
  vs <- FaceObj_vIndices f ;; ret (length vs).

(** Modelled from the spec: the "directed edges" of a face view, in the
    order of traversal. *)
Definition FaceObj_directedEdges (f : FaceObj) : M (list Edge) :=
  vs <- FaceObj_vIndices f ;; ret (consecutive_pairs vs).

(** Modelled from the spec: the "edges (consecutive pairs, including
    wrap)" of a face view, each an unordered pair. *)
Definition FaceObj_getEdges (f : FaceObj) : M (list Edge) :=
  vs <- FaceObj_vIndices f ;; ret (map sort_pair (consecutive_pairs vs)).

(** Modelled from the spec: the "next ... vertex relative to a query
    vertex within this face's cyclic order". *)
Definition FaceObj_nextVertex (f : FaceObj) (vIndex : VIndex)
  : M (option VIndex) :=
  vs <- FaceObj_vIndices f ;; ret (getCyclic vs (indexOf vIndex vs + 1)).

(** Modelled from the spec: the "previous vertex relative to a query
    vertex within this face's cyclic order". *)
Definition FaceObj_prevVertex (f : FaceObj) (vIndex : VIndex)
  : M (option VIndex) :=
  vs <- FaceObj_vIndices f ;; ret (getCyclic vs (indexOf vIndex vs - 1)).

(** *** Edges and the snapshot *)

(** [getAllEdges]: the edges of all faces, duplicates (by [_.isEqual])
    removed. *)
Definition getAllEdges (this : loc) : M (list Edge) :=
  fs <- getFaces this ;;
  es <- M_map FaceObj_getEdges fs ;;
  ret (Lodash.uniq (concat es)).

(** The [edges] getter: computed on first use unless given to the
    constructor. *)
Definition edges (this : loc) : M (list Edge) :=
  o <- deref this ;;
  match _edges o with
  | Some es => ret es
  | None =>
      es <- getAllEdges this ;;
      update this (set_edges es) ;;; ret es
  end.

(** [toJSON = _.pick(this, ['vertices', 'faces', 'edges', 'name'])]:
    [edges] is the getter of the prototype, so it is picked (and thereby
    computed); no instance has a [name] property. *)
Definition toJSON (this : loc) : M (BasePolyhedron number) :=
  o <- deref this ;;
  es <- edges this ;;
  ret (mkBase (vertices o) (faces o) (Some es) None).

(** [faceCount]: the number of faces of each side count. *)
Definition faceCount (this : loc) : M (gmap nat nat) :=
  fs <- getFaces this ;;
  ns <- M_map FaceObj_numSides fs ;;
  ret (Lodash.countBy (λ n, n) ns).

(** *** Memoised graphs *)

Definition vertexGraph_step (graph : gmap VIndex (list VIndex)) (e : Edge)
  : gmap VIndex (list VIndex) :=
  <[e.1 := default [] (graph !! e.1) ++ [e.2]]> graph.

(** [vertexGraph]: for every vertex, the next vertex in each face. *)
Definition vertexGraph (this : loc) : M (gmap VIndex (list VIndex)) :=
  o <- deref this ;;
  match vertexGraph_cache o with
  | Some g => ret g
  | None =>
      let g := fold_left
                 (λ graph face,
                    fold_left vertexGraph_step (consecutive_pairs face) graph)
                 (faces o) ∅ in
      update this (set_vertexGraph g) ;;; ret g
  end.

(** [mapping[vIndex].push(face)]; an index without a slot is a
    [TypeError]. *)
Definition vertexToFaceGraph_step (face : FaceObj)
    (mapping : list (list FaceObj)) (vIndex : VIndex)
  : result (list (list FaceObj)) :=
  match mapping !! vIndex with
  | Some l => Ok (<[vIndex := l ++ [face]]> mapping)
  | None => Throw TypeError
  end.

Definition vertexToFaceGraph_body (this : loc) : M (list (list FaceObj)) :=
  o <- deref this ;;
  let mapping := map (λ _, []) (vertices o) in
  fs <- getFaces this ;;
  M_fold (λ mapping face,
            vs <- FaceObj_vIndices face ;;
            lift (foldR (vertexToFaceGraph_step face) vs mapping))
         fs mapping.

Definition vertexToFaceGraph (this : loc) : M (list (list FaceObj)) :=
  o <- deref this ;;
  match vertexToFaceGraph_cache o with
  | Some g => ret g
  | None =>
      g <- vertexToFaceGraph_body this ;;
      update this (set_vertexToFaceGraph g) ;;; ret g
  end.

(** [_.set(edgesToFaces, [v1, v2], face)]. *)
Definition directedEdge_set (face : FaceObj)
    (edgesToFaces : gmap VIndex (gmap VIndex FaceObj)) (e : Edge)
  : gmap VIndex (gmap VIndex FaceObj) :=
  <[e.1 := <[e.2 := face]> (default ∅ (edgesToFaces !! e.1))]> edgesToFaces.

Definition directedEdgeToFaceGraph_body (this : loc)
  : M (gmap VIndex (gmap VIndex FaceObj)) :=
  fs <- getFaces this ;;
  M_fold (λ edgesToFaces face,
            des <- FaceObj_directedEdges face ;;
            ret (fold_left (directedEdge_set face) des edgesToFaces))
         fs ∅.

Definition directedEdgeToFaceGraph (this : loc)
  : M (gmap VIndex (gmap VIndex FaceObj)) :=
  o <- deref this ;;
  match directedEdgeToFaceGraph_cache o with
  | Some g => ret g
  | None =>
      g <- directedEdgeToFaceGraph_body this ;;
      update this (set_directedEdgeToFaceGraph g) ;;; ret g
  end.

(** [edgeFaces]: the faces adjacent to the edge, the directed face first;
    either may be [undefined], and [graph[v]] being [undefined] is a
    [TypeError]. *)
Definition edgeFaces_in (graph : gmap VIndex (gmap VIndex FaceObj))
    (e : Edge) : result (option FaceObj * option FaceObj) :=
  match graph !! e.1 with
  | None => Throw TypeError
  | Some row1 =>
      match graph !! e.2 with
      | None => Throw TypeError
      | Some row2 => Ok (row1 !! e.2, row2 !! e.1)
      end
  end.

Definition edgeFaces (this : loc) (e : Edge)
  : M (option FaceObj * option FaceObj) :=
  graph <- directedEdgeToFaceGraph this ;;
  lift (edgeFaces_in graph e).

(** One round of the loop of [faceGraph]. *)
Definition faceGraph_step (graph : gmap FIndex (list FaceObj))
    (fs : option FaceObj * option FaceObj)
  : result (gmap FIndex (list FaceObj)) :=
  match fs with
  | (Some f1, Some f2) =>
      let graph1 :=
        match graph !! fIndex f1 with
        | Some _ => graph | None => <[fIndex f1 := []]> graph end in
      let graph2 :=
        match graph1 !! fIndex f2 with
        | Some _ => graph1 | None => <[fIndex f2 := []]> graph1 end in
      let graph3 := alter (λ l, l ++ [f2]) (fIndex f1) graph2 in
      Ok (alter (λ l, l ++ [f1]) (fIndex f2) graph3)
  | _ => Throw TypeError
  end.

Definition faceGraph_body (this : loc) : M (gmap FIndex (list FaceObj)) :=
  es <- edges this ;;
  M_fold (λ graph edge,
            fs <- edgeFaces this edge ;;
            lift (faceGraph_step graph fs))
         es ∅.

Definition faceGraph (this : loc) : M (gmap FIndex (list FaceObj)) :=
  o <- deref this ;;
  match faceGraph_cache o with
  | Some g => ret g
  | None =>
      g <- faceGraph_body this ;;
      update this (set_faceGraph g) ;;; ret g
  end.

(** Modelled from the spec: the adjacent faces of a face view, "through
    the mesh's face-adjacency graph"; [undefined] for a face the graph
    has no entry for. *)
Definition FaceObj_adjacentFaces (f : FaceObj) : M (option (list FaceObj)) :=
  graph <- faceGraph (polyhedron f) ;; ret (graph !! fIndex f).
End Polyhedron.

(** ** [Polyhedron.jsx]: vertex fans, the fingerprint and the transforms *)

Section PolyhedronQueries.
Context {number Vec3D : Type}.
Local Abbreviation M := (M number Vec3D).

(** [adjacentFaces(...vIndices)]: the faces touching any of the vertices,
    without duplicates (by face index).  [graph[vIndex]] is [undefined]
    for an index out of range, and [uniqBy] then reads [fIndex] of
    [undefined]. *)
Definition adjacentFaces (this : loc) (vIndices : list VIndex)
  : M (list FaceObj) :=
  per_vertex <- M_map (λ vIndex,
                         graph <- vertexToFaceGraph this ;;
                         ret (graph !! vIndex)) vIndices ;;
  match mapM (λ x, x) per_vertex with
  | Some lists => ret (Lodash.uniqBy fIndex (concat lists))
  | None => throw TypeError
  end.

(** [_.find] with a predicate that calls methods: the first element the
    predicate holds for. *)
Fixpoint find_first {A} (predicate : A → M bool) (array : list A)
  : M (option A) :=
  match array with
  | [] => ret None
  | x :: rest =>
      b <- predicate x ;;
      if b then ret (Some x) else find_first predicate rest
  end.

(** The message of the error a strict [find] throws. *)
Definition find_message : string := "Unable to find the element"%string.

(** Modelled from the spec: [find] of [util.js] is not among the sources.
    It returns the first element that satisfies the predicate; the spec
    leaves open what happens when there is none ("fails (or is
    undefined)"), so both behaviours are covered: with [strict] it throws,
    otherwise it returns [undefined] like [_.find]. *)
Definition find {A} (strict : bool) (array : list A) (predicate : A → M bool)
  : M (option A) :=
  r <- find_first predicate array ;;
  match r with
  | Some x => ret (Some x)
  | None => if strict then throw (Error find_message) else ret None
  end.

(** [checkVertex] of [directedAdjacentFaces]; [next] is the loop
    variable, and calling [prevVertex] on [undefined] is a
    [TypeError]. *)
Definition checkVertex (vIndex : VIndex) (next : option FaceObj)
    (f : FaceObj) : M bool :=
  match next with
  | None => throw TypeError
  | Some nx =>
      a <- FaceObj_prevVertex nx vIndex ;;
      b <- FaceObj_nextVertex f vIndex ;;
      ret (bool_decide (a = b))
  end.

(** The [do ... while (result.length < touchingFaces.length)] loop.
    [remaining] is [touchingFaces.length - result.length] after the push
    (cut off at zero), the quantity the loop test compares with zero; it
    decreases by one each round. *)
Fixpoint directedAdjacentFaces_loop (strict : bool)
    (touchingFaces : list FaceObj) (vIndex : VIndex) (remaining : nat)
    (next : option FaceObj) (result : list (option FaceObj))
  : M (list (option FaceObj)) :=
  let result := result ++ [next] in
  next' <- find strict touchingFaces (checkVertex vIndex next) ;;
  match remaining with
  | O => ret result
  | S remaining' =>
      directedAdjacentFaces_loop strict touchingFaces vIndex remaining'
        next' result
  end.

Definition directedAdjacentFaces (strict : bool) (this : loc)
    (vIndex : VIndex) : M (list (option FaceObj)) :=
  touchingFaces <- adjacentFaces this [vIndex] ;;
  directedAdjacentFaces_loop strict touchingFaces vIndex
    (length touchingFaces - 1) (head touchingFaces) [].

(** The sort criteria of [faceAdjacencyList]:
    [['n', 'adj.length', 'adj[3]', 'adj[4]', 'adj[5]', 'adj[6]', 'adj[8]',
    'adj[10]']]; [adj] is a plain object, so [adj.length] is
    [undefined]. *)
Definition faceAdjacency_criteria (c : AdjCount.t) : list (option nat) :=
  [Some (AdjCount.n c); None]
  ++ map (λ k, AdjCount.adj c !! k) [3; 4; 5; 6; 8; 10].

Definition faceAdjacencyCount (face : FaceObj) : M AdjCount.t :=
  n <- FaceObj_numSides face ;;
  adjacent <- FaceObj_adjacentFaces face ;;
  ns <- M_map FaceObj_numSides (default [] adjacent) ;;
  ret (AdjCount.mk n (Lodash.countBy (λ k, k) ns)).

Definition faceAdjacencyList (this : loc) : M (list AdjCount.t) :=
  fs <- getFaces this ;;
  faceAdjacencyCounts <- M_map faceAdjacencyCount fs ;;
  ret (Lodash.sortBy faceAdjacency_criteria faceAdjacencyCounts).

Definition isSame (this other : loc) : M bool :=
  c1 <- faceCount this ;;
  c2 <- faceCount other ;;
  if negb (bool_decide (c1 = c2)) then ret false
  else
    l1 <- faceAdjacencyList this ;;
    l2 <- faceAdjacencyList other ;;
    ret (bool_decide (l1 = l2)).

(** *** Structural transforms *)

(** [new Polyhedron({ ...this.toJSON(), vertices })]. *)
Definition withVertices (this : loc) (vertices : list (list number)) : M loc :=
  b <- toJSON this ;;
  Polyhedron_new (mkBase vertices (base_faces b) (base_edges b) (base_name b)).

(** [new Polyhedron({ ...this.toJSON(), faces })]. *)
Definition withFaces (this : loc) (faces : list Face) : M loc :=
  b <- toJSON this ;;
  Polyhedron_new (mkBase (base_vertices b) faces (base_edges b) (base_name b)).

Definition addVertices (this : loc) (vs : list (list number)) : M loc :=
  o <- deref this ;; withVertices this (vertices o ++ vs).

Definition addFaces (this : loc) (fs : list Face) : M loc :=
  o <- deref this ;; withFaces this (faces o ++ fs).

(** [addPolyhedron]: the receiver [this.addVertices(other.vertices)] is
    evaluated first; the offset is the vertex count of [this]. *)
Definition addPolyhedron (this other : loc) : M loc :=
  oo <- deref other ;;
  extended <- addVertices this (vertices oo) ;;
  n <- numVertices this ;;
  addFaces extended (map (map (λ vIndex, vIndex + n)) (faces oo)).

Definition removeFace (this : loc) (face : FaceObj) : M loc :=
  o <- deref this ;;
  withFaces this (Lodash.pullAt (faces o) [fIndex face]).

Definition removeFaces (this : loc) (faceObjs : list FaceObj) : M loc :=
  o <- deref this ;;
  withFaces this (Lodash.pullAt (faces o) (map fIndex faceObjs)).

(** [this.vertices.map(iteratee)]; the iteratee receives the vertex and
    its index. *)
Definition mapVertices (this : loc)
    (iteratee : list number → VIndex → list number) : M loc :=
  o <- deref this ;;
  withVertices this (imap (λ i v, iteratee v i) (vertices o)).

(** [this.getFaces().map(iteratee)]; the iteratee is a pure transform of
    the face view: it may read the store but does not write it. *)
Definition mapFaces (this : loc)
    (iteratee : heap number Vec3D → FaceObj → Face) : M loc :=
  fs <- getFaces this ;;
  fs' <- M_map (λ face, λ h, (h, Ok (iteratee h face))) fs ;;
  withFaces this fs'.
End PolyhedronQueries.

(** ** [Polyhedron.jsx]: geometric queries *)

Section PolyhedronGeometry.
Context {number Vec3D : Type} `{!Toxiclibs number Vec3D}.
Local Abbreviation M := (M number Vec3D).

(** [vertexVectors()]: all vertices as vectors, computed once. *)
Definition vertexVectors_all (this : loc) : M (list Vec3D) :=
  o <- deref this ;;
  match _vertexVectors o with
  | Some vs => ret vs
  | None =>
      let vs := map vec (vertices o) in
      update this (set_vertexVectors vs) ;;; ret vs
  end.

(** [vertexVectors(vIndices)]: an index out of range yields
    [undefined]. *)
Definition vertexVectors (this : loc) (vIndices : list VIndex)
  : M (list (option Vec3D)) :=
  vs <- vertexVectors_all this ;;
  ret (map (λ vIndex, vs !! vIndex) vIndices).

(** Modelled from the spec: the "centroid" of a face view, the centroid
    ([getCentroid]) of the vectors of its vertices; the vector of a corner
    that is no vertex is [undefined]. *)
Definition FaceObj_centroid (f : FaceObj) : M Vec3D :=
  vIndices <- FaceObj_vIndices f ;;
  vectors <- vertexVectors (polyhedron f) vIndices ;;
  lift (getCentroid_entries vectors).

Definition getDihedralAngle_message (e : Edge) : string :=
  ("The edge " +:+ pretty e.1 +:+ "," +:+ pretty e.2
     +:+ " is not connected to two faces.")%string.

(** [getDihedralAngle].  [getMidpoint(v1, v2)] needs [v1], the receiver
    of [add]; [v2] may be [undefined].  The two chained [map]s run before
    the test [!c1 || !c2]: [face.centroid()] is called on each adjacent
    face, and [v.sub(midpoint)] yields a vector object, which is never
    falsy. *)
Definition getDihedralAngle (this : loc) (e : Edge) : M number :=
  vs <- vertexVectors this [e.1; e.2] ;;
  match vs with
  | [Some v1; v2] =>
      let midpoint :=
        match v2 with
        | Some v2 => getMidpoint v1 v2
        | None => Vec3D_scale (Vec3D_add_undefined v1) number_half
        end in
      fs <- edgeFaces this e ;;
      match fs with
      | (Some f1, Some f2) =>
          centroid1 <- FaceObj_centroid f1 ;;
          centroid2 <- FaceObj_centroid f2 ;;
          let c1 : option Vec3D := Some (Vec3D_sub centroid1 midpoint) in
          let c2 : option Vec3D := Some (Vec3D_sub centroid2 midpoint) in
          match c1, c2 with
          | Some c1, Some c2 => ret (Vec3D_angleBetween c1 c2 true)
          | _, _ => throw (Error (getDihedralAngle_message e))
          end
      | _ => throw TypeError
      end
  | _ => throw TypeError
  end.
End PolyhedronGeometry.

(** ** [Polyhedron.jsx]: the remaining queries *)

Section PolyhedronCatalog.
Context {number Vec3D : Type}.
Local Abbreviation M := (M number Vec3D).

(** The catalog of the [data] module, which is not among the sources:
    whether a name is a solid of the catalog, and the data stored under
    a name. *)
Context (isValidSolid : string → bool).
Context (getSolidData : string → BasePolyhedron number).

Definition get_message (name : string) : string :=
  ("Invalid solid name: " +:+ name)%string.

(** [Polyhedron.get(name)]:
    [new Polyhedron({ ...getSolidData(name), name })]. *)
Definition Polyhedron_get (name : string) : M loc :=
  if negb (isValidSolid name) then throw (Error (get_message name))
  else
    let data := getSolidData name in
    Polyhedron_new
      (mkBase (base_vertices data) (base_faces data) (base_edges data)
         (Some name)).
End PolyhedronCatalog.

Section PolyhedronCounts.
Context {number Vec3D : Type}.
Local Abbreviation M := (M number Vec3D).

(** [biggestFace]: [_.maxBy(this.getFaces(), face => face.numSides())]. *)
Definition biggestFace (this : loc) : M (option FaceObj) :=
  fs <- getFaces this ;;
  ns <- M_map FaceObj_numSides fs ;;
  ret (fst <$> Lodash.maxBy snd (zip fs ns)).

(** [faceTypes]: the side counts that occur, without duplicates, in
    ascending order ([_.sortBy] without iteratees sorts by the values). *)
Definition faceTypes (this : loc) : M (list nat) :=
  fs <- getFaces this ;;
  ns <- M_map FaceObj_numSides fs ;;
  ret (Lodash.sortBy (λ n, [Some n]) (Lodash.uniq ns)).

(** [adjacentFaceCount]: the number of faces by side count at a
    vertex. *)
Definition adjacentFaceCount (this : loc) (vIndex : VIndex)
  : M (gmap nat nat) :=
  fs <- adjacentFaces this [vIndex] ;;
  ns <- M_map FaceObj_numSides fs ;;
  ret (Lodash.countBy (λ n, n) ns).

(** [adjacentVertexIndices(...vIndices)]:
    [_.propertyOf(graph)] reads [graph[vIndex]]; [flatMap] splices an
    array and keeps anything else, so a vertex without an entry
    contributes one [undefined]. *)
Definition adjacentVertexIndices (this : loc) (vIndices : list VIndex)
  : M (list (option VIndex)) :=
  graph <- vertexGraph this ;;
  ret (Lodash.uniq
         (flat_map (λ vIndex,
                      match graph !! vIndex with
                      | Some next => map Some next
                      | None => [None]
                      end) vIndices)).
End PolyhedronCounts.

Section PolyhedronCentre.
Context {number Vec3D : Type} `{!Toxiclibs number Vec3D}.
Local Abbreviation M := (M number Vec3D).

(** [v.toArray()] of the vector library. *)
Context (Vec3D_toArray : Vec3D → list number).

(** [vertexVector(vIndex)]: [this.vertexVectors([vIndex])[0]]. *)
Definition vertexVector (this : loc) (vIndex : VIndex) : M (option Vec3D) :=
  vs <- vertexVectors this [vIndex] ;; ret (mjoin (head vs)).

(** [centroid()]: [getCentroid(this.vertexVectors())]. *)
Definition centroid (this : loc) : M Vec3D :=
  vs <- vertexVectors_all this ;; lift (getCentroid vs).

(** [center()]: the polyhedron moved so that its centroid is the
    origin. *)
Definition center (this : loc) : M loc :=
  c <- centroid this ;;
  vs <- vertexVectors_all this ;;
  withVertices this (map (λ v, Vec3D_toArray (Vec3D_sub v c)) vs).
End PolyhedronCentre.

(** ** What the derived values are: store-free characterisations

    The functions below compute, from the two collections alone, the value
    each memoising accessor returns; the well-formedness of a store says
    that every filled cache holds exactly that value. *)

(** [array.map] with a callback that may throw. *)
Fixpoint mapR {A B} (f : A → result B) (xs : list A) : result (list B) :=
  match xs with
  | [] => Ok []
  | x :: xs' =>
      result_bind (f x) (λ y, result_bind (mapR f xs') (λ ys, Ok (y :: ys)))
  end.

Definition face_views (this : loc) (count : nat) : list FaceObj :=
  map (mkFaceObj this) (seq 0 count).

Definition face_edges (face : Face) : list Edge :=
  map sort_pair (consecutive_pairs face).

Definition all_edges (faces : list Face) : list Edge :=
  Lodash.uniq (concat (map face_edges faces)).

Definition view_face (faces : list Face) (f : FaceObj) : Face :=
  default [] (faces !! fIndex f).

(** The vertex list a view reads; a view out of range has none. *)
Definition view_vIndices (faces : list Face) (f : FaceObj) : result Face :=
  match faces !! fIndex f with
  | Some vs => Ok vs
  | None => Throw TypeError
  end.

(** The face list with the given positions deleted. *)
Fixpoint drop_where {A} (P : nat → bool) (k : nat) (l : list A) : list A :=
  match l with
  | [] => []
  | x :: l' => if P k then drop_where P (S k) l' else x :: drop_where P (S k) l'
  end.

Definition remove_positions {A} (indexes : list nat) (l : list A) : list A :=
  drop_where (λ i, bool_decide (i ∈ indexes)) 0 l.

Definition vertexGraph_of (faces : list Face) : gmap VIndex (list VIndex) :=
  fold_left
    (λ graph face, fold_left vertexGraph_step (consecutive_pairs face) graph)
    faces ∅.

Definition vertexToFaceGraph_of (this : loc) (vertex_count : nat)
    (faces : list Face) : result (list (list FaceObj)) :=
  foldR (λ mapping face,
           foldR (vertexToFaceGraph_step face) (view_face faces face) mapping)
        (face_views this (length faces)) (replicate vertex_count []).

Definition directedEdgeToFaceGraph_of (this : loc) (faces : list Face)
  : gmap VIndex (gmap VIndex FaceObj) :=
  fold_left
    (λ edgesToFaces face,
       fold_left (directedEdge_set face)
         (consecutive_pairs (view_face faces face)) edgesToFaces)
    (face_views this (length faces)) ∅.

(** The directed edges of all faces in the order they are entered into the
    directed-edge lookup, each with the view of its face. *)
Definition directed_list (this : loc) (faces : list Face)
  : list (Edge * FaceObj) :=
  flat_map (λ f, map (λ e, (e, f)) (consecutive_pairs (view_face faces f)))
    (face_views this (length faces)).

(** [graph[v1][v2]] when both levels exist. *)
Definition directedEdge_lookup (graph : gmap VIndex (gmap VIndex FaceObj))
    (e : Edge) : option FaceObj :=
  graph !! e.1 ≫= (λ row, row !! e.2).

(** Entering one directed edge with its face. *)
Definition enter (graph : gmap VIndex (gmap VIndex FaceObj))
    (p : Edge * FaceObj) : gmap VIndex (gmap VIndex FaceObj) :=
  directedEdge_set p.2 graph p.1.

(** What one round of [faceGraph] appends to the entry of face [i]. *)
Definition neighbours_step (i : FIndex) (fs : FaceObj * FaceObj)
  : list FaceObj :=
  (if bool_decide (i = fIndex fs.1) then [fs.2] else [])
  ++ (if bool_decide (i = fIndex fs.2) then [fs.1] else []).

(** The faces an edge resolves to, when both directions resolve. *)
Definition resolve (graph : gmap VIndex (gmap VIndex FaceObj)) (e : Edge)
  : option (FaceObj * FaceObj) :=
  match directedEdge_lookup graph e, directedEdge_lookup graph (swap_pair e) with
  | Some f1, Some f2 => Some (f1, f2)
  | _, _ => None
  end.

Definition faceGraph_of (this : loc) (faces : list Face) (es : list Edge)
  : result (gmap FIndex (list FaceObj)) :=
  foldR (λ graph e,
           result_bind (edgeFaces_in (directedEdgeToFaceGraph_of this faces) e)
             (faceGraph_step graph))
        es ∅.

Definition view_numSides (this : loc) (faces : list Face) (f : FaceObj)
  : result nat :=
  if bool_decide (polyhedron f = this) then
    match faces !! fIndex f with
    | Some vs => Ok (length vs)
    | None => Throw TypeError
    end
  else Throw TypeError.

Definition faceAdjacencyCount_of (this : loc) (faces : list Face)
    (es : list Edge) (f : FaceObj) : result AdjCount.t :=
  result_bind (view_numSides this faces f) (λ n,
  result_bind (faceGraph_of this faces es) (λ graph,
  result_bind (mapR (view_numSides this faces) (default [] (graph !! fIndex f)))
    (λ ns, Ok (AdjCount.mk n (Lodash.countBy (λ k, k) ns))))).

Definition faceAdjacencyList_of (this : loc) (faces : list Face)
    (es : list Edge) : result (list AdjCount.t) :=
  result_bind
    (mapR (faceAdjacencyCount_of this faces es) (face_views this (length faces)))
    (λ counts, Ok (Lodash.sortBy faceAdjacency_criteria counts)).

Definition faceCount_of (faces : list Face) : gmap nat nat :=
  Lodash.countBy (λ n, n) (map length faces).

(** [isSame] on two meshes: the face-count histograms, then the
    fingerprints. *)
Definition isSame_of (this other : loc) (faces1 : list Face) (es1 : list Edge)
    (faces2 : list Face) (es2 : list Edge) : result bool :=
  if negb (bool_decide (faceCount_of faces1 = faceCount_of faces2))
  then Ok false
  else
    result_bind (faceAdjacencyList_of this faces1 es1) (λ fp1,
      result_bind (faceAdjacencyList_of other faces2 es2) (λ fp2,
        Ok (bool_decide (fp1 = fp2)))).

(** The order [_.sortBy] sorts by. *)
Definition sorted_le {A} (criteria : A → list (option nat)) (x y : A) : Prop :=
  Lodash.criteria_le (criteria x) (criteria y) = true.

(** The same face view, of another instance. *)
Definition retarget (l : loc) (f : FaceObj) : FaceObj := mkFaceObj l (fIndex f).

(** ** The invariants of the data model *)

(** All directed edges of the mesh, face by face. *)
Definition all_directed (faces : list Face) : list Edge :=
  flat_map consecutive_pairs faces.

(** A closed, consistently oriented mesh: "each directed edge appears in
    exactly one face", "every edge is shared by exactly two faces", and an
    edge joins two different vertices. *)
Definition closed_mesh (faces : list Face) : Prop :=
  NoDup (all_directed faces) ∧
  Forall (λ e, swap_pair e ∈ all_directed faces) (all_directed faces) ∧
  Forall (λ e : Edge, e.1 ≠ e.2) (all_directed faces).

Global Instance closed_mesh_dec faces : Decision (closed_mesh faces).
Proof. unfold closed_mesh. apply _. Defined.

(** The side counts the sort criteria of the fingerprint look at. *)
Definition fingerprint_sides : list nat := [3; 4; 5; 6; 8; 10].

Definition sides_in_key (faces : list Face) : Prop :=
  Forall (λ face : Face, length face ∈ fingerprint_sides) faces.

Global Instance sides_in_key_dec faces : Decision (sides_in_key faces).
Proof. unfold sides_in_key. apply _. Defined.

(** The edge collection lists every edge of the mesh once, in either
    direction. *)
Definition edges_cover (faces : list Face) (es : list Edge) : Prop :=
  es ++ map swap_pair es ≡ₚ all_directed faces.

Global Instance edges_cover_dec faces es : Decision (edges_cover faces es).
Proof. unfold edges_cover. apply _. Defined.

(** [faces'] is [faces] with the vertices renamed by [σ] and the faces
    listed in another order. *)
Definition relabeled (σ : VIndex → VIndex) (faces faces' : list Face) : Prop :=
  (∀ x y, σ x = σ y → x = y) ∧ faces' ≡ₚ map (map σ) faces.

(** The side count of the face that has the directed edge. *)
Definition side_of (faces : list Face) (d : Edge) : nat :=
  from_option length 0
    (List.find (λ face, bool_decide (d ∈ consecutive_pairs face)) faces).

(** The fingerprint entry of a face, from the mesh alone. *)
Definition entry_of (faces : list Face) (face : Face) : AdjCount.t :=
  AdjCount.mk (length face)
    (Lodash.countBy (λ k, k)
       (map (λ d, side_of faces (swap_pair d)) (consecutive_pairs face))).

Section WellFormed.
Context {number Vec3D : Type}.
Local Abbreviation PolyObj := (PolyObj number Vec3D).
Local Abbreviation heap := (heap number Vec3D).

(** The edge collection of an instance: given to the constructor, or
    else what the getter computes. *)
Definition edges_of (o : PolyObj) : list Edge :=
  default (all_edges (faces o)) (_edges o).

(** Everything of an instance but the caches of its memoised methods. *)
Record Mesh : Type := mkMesh {
  mesh_vertices : list (list number);
  mesh_faces : list Face;
  mesh_edges : list Edge;
  mesh_vectors : option (list Vec3D)
}.

Definition mesh_of (o : PolyObj) : Mesh :=
  mkMesh (vertices o) (faces o) (edges_of o) (_vertexVectors o).

Definition mesh_at (h : heap) (l : loc) : option Mesh := mesh_of <$> h !! l.

(** Every filled cache of the object at [l] holds the value its method
    computes. *)
Record wf_obj (l : loc) (o : PolyObj) : Prop := mk_wf_obj {
  wf_getFace : ∀ i f, getFace_cache o !! i = Some f → f = mkFaceObj l i;
  wf_vertexGraph :
    ∀ g, vertexGraph_cache o = Some g → g = vertexGraph_of (faces o);
  wf_vertexToFaceGraph :
    ∀ g, vertexToFaceGraph_cache o = Some g →
         vertexToFaceGraph_of l (length (vertices o)) (faces o) = Ok g;
  wf_faceGraph :
    ∀ g, faceGraph_cache o = Some g →
         faceGraph_of l (faces o) (edges_of o) = Ok g;
  wf_directedEdgeToFaceGraph :
    ∀ g, directedEdgeToFaceGraph_cache o = Some g →
         g = directedEdgeToFaceGraph_of l (faces o)
}.

Definition wf_heap (h : heap) : Prop :=
  ∀ l o, h !! l = Some o → wf_obj l o.

(** [h'] is a later store: well-formed, and every object of [h] is still
    there with the same mesh. *)
Definition ext (h h' : heap) : Prop :=
  wf_heap h' ∧ ∀ l m, mesh_at h l = Some m → mesh_at h' l = Some m.

(** [m] run in [h] ends with [r], in a later store. *)
Definition returns {A} (m : M number Vec3D A) (h : heap) (r : result A)
  : Prop :=
  ∃ h', m h = (h', r) ∧ ext h h'.

(** [m] only reads the store. *)
Definition reads {A} (m : M number Vec3D A) (h : heap) (r : result A)
  : Prop :=
  m h = (h, r).
End WellFormed.

(** ** The structural transforms as one family *)

Section Transforms.
Context {number Vec3D : Type}.
Local Abbreviation PolyObj := (PolyObj number Vec3D).

Inductive transform : Type :=
  | WithVertices (vs : list (list number))
  | WithFaces (fs : list Face)
  | AddVertices (vs : list (list number))
  | AddFaces (fs : list Face)
  | AddPolyhedron (other : loc)
  | RemoveFace (face : FaceObj)
  | RemoveFaces (faceObjs : list FaceObj)
  | MapVertices (iteratee : list number → VIndex → list number)
  | MapFaces (iteratee : heap number Vec3D → FaceObj → Face).

Definition apply_transform (t : transform) (this : loc) : M number Vec3D loc :=
  match t with
  | WithVertices vs => withVertices this vs
  | WithFaces fs => withFaces this fs
  | AddVertices vs => addVertices this vs
  | AddFaces fs => addFaces this fs
  | AddPolyhedron other => addPolyhedron this other
  | RemoveFace face => removeFace this face
  | RemoveFaces faceObjs => removeFaces this faceObjs
  | MapVertices iteratee => mapVertices this iteratee
  | MapFaces iteratee => mapFaces this iteratee
  end.

(** The transforms that replace the vertex collection and keep the
    faces. *)
Definition keeps_faces (t : transform) : bool :=
  match t with
  | WithVertices _ | AddVertices _ | MapVertices _ => true
  | _ => false
  end.

(** The argument of [addPolyhedron] is an object of the store. *)
Definition transform_ready (h : heap number Vec3D) (t : transform) : Prop :=
  match t with
  | AddPolyhedron other => is_Some (h !! other)
  | _ => True
  end.

(** No cache of a memoised method is filled, and no vector cache. *)
Definition graphs_uncomputed (o : PolyObj) : Prop :=
  _vertexVectors o = None ∧ getFace_cache o = ∅ ∧
  vertexGraph_cache o = None ∧ vertexToFaceGraph_cache o = None ∧
  faceGraph_cache o = None ∧ directedEdgeToFaceGraph_cache o = None.

(** All derived data is uncomputed, the edge collection included. *)
Definition caches_uncomputed (o : PolyObj) : Prop :=
  _edges o = None ∧ graphs_uncomputed o.

(** The object the constructor builds. *)
Definition constructed (vs : list (list number)) (fs : list Face)
    (es : option (list Edge)) : PolyObj :=
  mkPoly vs fs es None ∅ None None None None.

(** [h'] is a later store of [h] with one new object [o'] at [l']. *)
Definition created (h h' : heap number Vec3D) (l' : loc) (o' : PolyObj)
  : Prop :=
  ∃ h1, h' = h1 ++ [o'] ∧ l' = length h1 ∧ ext h h1.

(** The shape of every transform: it ends in [new Polyhedron] with the
    snapshot of the receiver, one collection replaced. *)
Definition transformed (tm : M number Vec3D loc) (h : heap number Vec3D)
    (vs : list (list number)) (fs : list Face) (es : list Edge) : Prop :=
  ∃ h' l', tm h = (h', Ok l') ∧ created h h' l' (constructed vs fs (Some es)).

(** The vertices and faces each transform builds its result from, [m]
    being the mesh of the receiver; of the faces of [mapFaces], whose
    iteratee is arbitrary, only the number is recorded. *)
Definition transform_result (t : transform) (h : heap number Vec3D)
    (m : @Mesh number Vec3D) (vs : list (list number)) (fs : list Face)
  : Prop :=
  match t with
  | WithVertices vs' => vs = vs' ∧ fs = mesh_faces m
  | WithFaces fs' => vs = mesh_vertices m ∧ fs = fs'
  | AddVertices vs' => vs = mesh_vertices m ++ vs' ∧ fs = mesh_faces m
  | AddFaces fs' => vs = mesh_vertices m ∧ fs = mesh_faces m ++ fs'
  | AddPolyhedron other =>
      ∃ mo, mesh_at h other = Some mo ∧
        vs = mesh_vertices m ++ mesh_vertices mo ∧
        fs = mesh_faces m
             ++ map (map (λ v, v + length (mesh_vertices m))) (mesh_faces mo)
  | RemoveFace face =>
      vs = mesh_vertices m ∧ fs = remove_positions [fIndex face] (mesh_faces m)
  | RemoveFaces faceObjs =>
      vs = mesh_vertices m ∧
      fs = remove_positions (map fIndex faceObjs) (mesh_faces m)
  | MapVertices iteratee =>
      vs = imap (λ i v, iteratee v i) (mesh_vertices m) ∧ fs = mesh_faces m
  | MapFaces iteratee =>
      vs = mesh_vertices m ∧ length fs = length (mesh_faces m)
  end.
End Transforms.

(** ** The fan of faces around a vertex, store-free *)

(** The vertex after and before [v] in the face a view reads. *)
Definition next_of (faces : list Face) (v : VIndex) (f : FaceObj)
  : option VIndex :=
  getCyclic (view_face faces f) (indexOf v (view_face faces f) + 1).

Definition prev_of (faces : list Face) (v : VIndex) (f : FaceObj)
  : option VIndex :=
  getCyclic (view_face faces f) (indexOf v (view_face faces f) - 1).

(** [checkVertex]: [g] is the face whose next vertex is the previous vertex
    of [f]. *)
Definition follows (faces : list Face) (v : VIndex) (f g : FaceObj) : bool :=
  bool_decide (prev_of faces v f = next_of faces v g).

(** One [find(touchingFaces, checkVertex)]. *)
Definition find_step (strict : bool) (faces : list Face) (v : VIndex)
    (touching : list FaceObj) (next : option FaceObj)
  : result (option FaceObj) :=
  let missing := if strict then Throw (Error find_message) else Ok None in
  match next with
  | Some nx =>
      match List.find (follows faces v nx) touching with
      | Some g => Ok (Some g)
      | None => missing
      end
  | None =>
      match touching with
      | [] => missing
      | _ :: _ => Throw TypeError
      end
  end.

Fixpoint fan_loop (strict : bool) (faces : list Face) (v : VIndex)
    (touching : list FaceObj) (remaining : nat) (next : option FaceObj)
    (collected : list (option FaceObj)) : result (list (option FaceObj)) :=
  let collected := collected ++ [next] in
  result_bind (find_step strict faces v touching next) (λ next',
    match remaining with
    | O => Ok collected
    | S remaining' =>
        fan_loop strict faces v touching remaining' next' collected
    end).

(** The faces touching [v], as [adjacentFaces(v)] lists them. *)
Definition touching_of (this : loc) (vertex_count : nat) (faces : list Face)
    (v : VIndex) : result (list FaceObj) :=
  result_bind (vertexToFaceGraph_of this vertex_count faces) (λ graph,
    match graph !! v with
    | Some l => Ok (Lodash.uniqBy fIndex l)
    | None => Throw TypeError
    end).

Definition directedAdjacentFaces_of (strict : bool) (this : loc)
    (vertex_count : nat) (faces : list Face) (v : VIndex)
  : result (list (option FaceObj)) :=
  result_bind (touching_of this vertex_count faces v) (λ touching,
    fan_loop strict faces v touching (length touching - 1) (head touching) []).

(** The touching faces form one consistent cycle: [cycle] lists each of
    them once, starting with the first, every face is followed (cyclically)
    by the face whose next vertex at [v] is its previous vertex at [v], and
    no two touching faces have the same next vertex at [v]. *)
Definition one_cycle (faces : list Face) (v : VIndex)
    (touching cycle : list FaceObj) : Prop :=
  cycle ≡ₚ touching ∧ cycle ≠ [] ∧ head cycle = head touching ∧
  Forall (λ i, prev_of faces v <$> cycle !! i
               = next_of faces v <$> cycle !! (S i mod length cycle))
    (seq 0 (length cycle)) ∧
  Forall (λ f, Forall (λ g, next_of faces v f = next_of faces v g → f = g)
                 touching) touching.

Global Instance one_cycle_dec faces v touching cycle :
  Decision (one_cycle faces v touching cycle).
Proof. unfold one_cycle. apply _. Defined.

(** ** Auxiliary notions of the proofs *)

(** The index of the face that owns a directed edge, and what the edge
    contributes to the neighbour side counts of face [i]. *)
Definition owner_index (graph : gmap VIndex (gmap VIndex FaceObj)) (d : Edge)
  : option FIndex :=
  fIndex <$> directedEdge_lookup graph d.

Definition contributes (faces : list Face)
    (graph : gmap VIndex (gmap VIndex FaceObj)) (i : FIndex) (d : Edge)
  : list nat :=
  if bool_decide (owner_index graph d = Some i)
  then [side_of faces (swap_pair d)] else [].

(** A directed edge with its two vertices renamed. *)
Definition rename_edge (σ : VIndex → VIndex) (e : Edge) : Edge :=
  (σ e.1, σ e.2).

(** The graphs of one instance, re-read as graphs of another. *)
Definition retarget_rows (l : loc) (g : gmap VIndex (gmap VIndex FaceObj))
  : gmap VIndex (gmap VIndex FaceObj) :=
  (λ row : gmap VIndex FaceObj, retarget l <$> row) <$> g.

Definition retarget_graph (l : loc) (graph : gmap FIndex (list FaceObj))
  : gmap FIndex (list FaceObj) :=
  map (retarget l) <$> graph.

Definition retarget_pair (l : loc) (fs : option FaceObj * option FaceObj)
  : option FaceObj * option FaceObj :=
  (retarget l <$> fs.1, retarget l <$> fs.2).

Section GeometryNotions.
Context {number Vec3D : Type} `{!Toxiclibs number Vec3D}.

(** Whether a point is within the tolerance of a plane. *)
Definition within_tolerance (plane : Plane) (v : Vec3D) : Prop :=
  number_lt (Plane_getDistanceToPoint plane v) PRECISION = true.

Global Instance within_tolerance_dec plane v :
  Decision (within_tolerance plane v).
Proof. unfold within_tolerance. apply _. Defined.

(** [m] raises nothing but [TypeError]. *)
Definition only_TypeError {A} (m : M number Vec3D A) : Prop :=
  ∀ h e, (m h).2 = Throw e → e = TypeError.

(** A filled vector cache holds the vectors of the vertices. *)
Definition vectors_ok (o : PolyObj number Vec3D) : Prop :=
  ∀ vs, _vertexVectors o = Some vs → vs = map vec (vertices o).

(** The centroid of a face, from the vectors of all vertices. *)
Definition centroid_of (vectors : list Vec3D) (face : Face) : result Vec3D :=
  getCentroid_entries (map (λ i, vectors !! i) face).
End GeometryNotions.

(** ** Notions of the further properties *)

(** Every corner of every face is the index of a vertex. *)
Definition corners_in_range (vertex_count : nat) (faces : list Face) : Prop :=
  Forall (Forall (λ v, v < vertex_count)) faces.

Global Instance corners_in_range_dec vertex_count faces :
  Decision (corners_in_range vertex_count faces).
Proof. unfold corners_in_range. apply _. Defined.

(** The face views a row of [vertexToFaceGraph] receives for vertex [v]:
    one for every occurrence of [v] in a face. *)
Definition pushed (vsof : FaceObj → Face) (views : list FaceObj) (v : VIndex)
  : list FaceObj :=
  flat_map (λ f, flat_map (λ w, if bool_decide (w = v) then [f] else [])
                   (vsof f)) views.

(** [adjacentFaces(...vIndices)], store-free. *)
Definition adjacentFaces_of (this : loc) (vertex_count : nat)
    (faces : list Face) (vIndices : list VIndex) : result (list FaceObj) :=
  result_bind
    (mapR (λ v, result_bind (vertexToFaceGraph_of this vertex_count faces)
                  (λ graph, Ok (graph !! v))) vIndices)
    (λ per_vertex,
       match mapM (λ x, x) per_vertex with
       | Some lists => Ok (Lodash.uniqBy fIndex (concat lists))
       | None => Throw TypeError
       end).

(** The sum of the counts of a histogram. *)
Definition histogram_total (count : gmap nat nat) : nat :=
  map_fold (λ _ c total, c + total) 0 count.

(** ** Determinism *)

Section Determinism.
Context {number Vec3D : Type} `{!Toxiclibs number Vec3D}.
Local Abbreviation PolyObj := (PolyObj number Vec3D).
Local Abbreviation heap := (heap number Vec3D).
Local Abbreviation M := (M number Vec3D).

(** Two instances are the same polyhedron: the same vertices, faces and
    edge collection; their caches may be in different states. *)
Definition same_polyhedron (o1 o2 : PolyObj) : Prop :=
  vertices o1 = vertices o2 ∧ faces o1 = faces o2 ∧ edges_of o1 = edges_of o2.

(** Two stores hold the same polyhedra at the same addresses. *)
Definition same_polyhedra (h1 h2 : heap) : Prop :=
  Forall2 same_polyhedron h1 h2.

(** Every filled cache of the store holds what its method computes, the
    vector cache included. *)
Definition consistent (h : heap) : Prop :=
  wf_heap h ∧ Forall vectors_ok h.

(** [c] is deterministic: run in two stores that hold the same polyhedra,
    it returns the same result (or raises the same exception), and leaves
    stores that again hold the same polyhedra. *)
Definition deterministic {A} (c : M A) : Prop :=
  ∀ h1 h2, consistent h1 → consistent h2 → same_polyhedra h1 h2 →
    (c h1).2 = (c h2).2 ∧
    consistent (c h1).1 ∧ consistent (c h2).1 ∧
    same_polyhedra (c h1).1 (c h2).1.

(** [c] creates no object. *)
Definition keeps_length {A} (c : M A) : Prop :=
  ∀ h, length (c h).1 = length h.
End Determinism.

(** ** The calls of the core, as one family *)

Section Calls.
Context {number Vec3D : Type} `{!Toxiclibs number Vec3D}.
Local Abbreviation M := (M number Vec3D).

(** The catalog of the [data] module and [v.toArray()] of the vector
    library, which the code imports. *)
Context (isValidSolid : string → bool).
Context (getSolidData : string → BasePolyhedron number).
Context (Vec3D_toArray : Vec3D → list number).

(** A call of a function of [linAlg.js], of a method of [Polyhedron] or
    of a face view, with its receiver and arguments, indexed by the type
    of what it returns.  [strict] is the behaviour of [find] when nothing
    matches. *)
Inductive call : Type → Type :=
  | Vec (p : list number) : call Vec3D
  | GetMidpoint (v1 v2 : Vec3D) : call Vec3D
  | GetPlane (points : list Vec3D) : call Plane
  | IsPlanar (points : list Vec3D) : call bool
  | GetCentroid (vectors : list Vec3D) : call Vec3D
  | PolyhedronGet (name : string) : call loc
  | PolyhedronOf (vertices : list (list number)) (faces : list Face) : call loc
  | GetAllEdges (this : loc) : call (list Edge)
  | Edges (this : loc) : call (list Edge)
  | ToJSON (this : loc) : call (BasePolyhedron number)
  | GetFace (this : loc) (fIndex : FIndex) : call FaceObj
  | GetFaces (this : loc) : call (list FaceObj)
  | BiggestFace (this : loc) : call (option FaceObj)
  | NumVertices (this : loc) : call nat
  | NumFaces (this : loc) : call nat
  | VIndices (this : loc) : call (list VIndex)
  | FIndices (this : loc) : call (list FIndex)
  | FaceCount (this : loc) : call (gmap nat nat)
  | FaceTypes (this : loc) : call (list nat)
  | VertexVectorsAll (this : loc) : call (list Vec3D)
  | VertexVectors (this : loc) (vIndices : list VIndex)
      : call (list (option Vec3D))
  | VertexVector (this : loc) (vIndex : VIndex) : call (option Vec3D)
  | AdjacentFaces (this : loc) (vIndices : list VIndex) : call (list FaceObj)
  | DirectedAdjacentFaces (strict : bool) (this : loc) (vIndex : VIndex)
      : call (list (option FaceObj))
  | AdjacentFaceCount (this : loc) (vIndex : VIndex) : call (gmap nat nat)
  | AdjacentVertexIndices (this : loc) (vIndices : list VIndex)
      : call (list (option VIndex))
  | VertexGraph (this : loc) : call (gmap VIndex (list VIndex))
  | VertexToFaceGraph (this : loc) : call (list (list FaceObj))
  | FaceGraph (this : loc) : call (gmap FIndex (list FaceObj))
  | DirectedEdgeToFaceGraph (this : loc)
      : call (gmap VIndex (gmap VIndex FaceObj))
  | Transform (t : @transform number Vec3D) (this : loc) : call loc
  | Centroid (this : loc) : call Vec3D
  | EdgeFaces (this : loc) (e : Edge)
      : call (option FaceObj * option FaceObj)
  | GetDihedralAngle (this : loc) (e : Edge) : call number
  | FaceAdjacencyList (this : loc) : call (list AdjCount.t)
  | IsSame (this other : loc) : call bool
  | Center (this : loc) : call loc
  | FaceVIndices (f : FaceObj) : call Face
  | FaceNumSides (f : FaceObj) : call nat
  | FaceDirectedEdges (f : FaceObj) : call (list Edge)
  | FaceGetEdges (f : FaceObj) : call (list Edge)
  | FaceNextVertex (f : FaceObj) (vIndex : VIndex) : call (option VIndex)
  | FacePrevVertex (f : FaceObj) (vIndex : VIndex) : call (option VIndex)
  | FaceAdjacentFaces (f : FaceObj) : call (option (list FaceObj))
  | FaceCentroid (f : FaceObj) : call Vec3D.

Definition run {A} (c : call A) : M A :=
  match c with
  | Vec p => ret (vec p)
  | GetMidpoint v1 v2 => ret (getMidpoint v1 v2)
  | GetPlane points => lift (getPlane points)
  | IsPlanar points => lift (isPlanar points)
  | GetCentroid vectors => lift (getCentroid vectors)
  | PolyhedronGet name => Polyhedron_get isValidSolid getSolidData name
  | PolyhedronOf vertices faces => Polyhedron_of vertices faces
  | GetAllEdges this => getAllEdges this
  | Edges this => edges this
  | ToJSON this => toJSON this
  | GetFace this fIndex => getFace this fIndex
  | GetFaces this => getFaces this
  | BiggestFace this => biggestFace this
  | NumVertices this => numVertices this
  | NumFaces this => numFaces this
  | VIndices this => vIndices this
  | FIndices this => fIndices this
  | FaceCount this => faceCount this
  | FaceTypes this => faceTypes this
  | VertexVectorsAll this => vertexVectors_all this
  | VertexVectors this vIndices => vertexVectors this vIndices
  | VertexVector this vIndex => vertexVector this vIndex
  | AdjacentFaces this vIndices => adjacentFaces this vIndices
  | DirectedAdjacentFaces strict this vIndex =>
      directedAdjacentFaces strict this vIndex
  | AdjacentFaceCount this vIndex => adjacentFaceCount this vIndex
  | AdjacentVertexIndices this vIndices => adjacentVertexIndices this vIndices
  | VertexGraph this => vertexGraph this
  | VertexToFaceGraph this => vertexToFaceGraph this
  | FaceGraph this => faceGraph this
  | DirectedEdgeToFaceGraph this => directedEdgeToFaceGraph this
  | Transform t this => apply_transform t this
  | Centroid this => centroid this
  | EdgeFaces this e => edgeFaces this e
  | GetDihedralAngle this e => getDihedralAngle this e
  | FaceAdjacencyList this => faceAdjacencyList this
  | IsSame this other => isSame this other
  | Center this => center Vec3D_toArray this
  | FaceVIndices f => FaceObj_vIndices f
  | FaceNumSides f => FaceObj_numSides f
  | FaceDirectedEdges f => FaceObj_directedEdges f
  | FaceGetEdges f => FaceObj_getEdges f
  | FaceNextVertex f vIndex => FaceObj_nextVertex f vIndex
  | FacePrevVertex f vIndex => FaceObj_prevVertex f vIndex
  | FaceAdjacentFaces f => FaceObj_adjacentFaces f
  | FaceCentroid f => FaceObj_centroid f
  end.

(** The iteratee of [mapFaces] is code of the caller; it is taken to be
    deterministic itself: on stores that hold the same polyhedra it
    returns the same face. *)
Definition iteratee_deterministic {A} (c : call A) : Prop :=
  match c with
  | Transform (MapFaces iteratee) _ =>
      ∀ h1 h2 f, consistent h1 → consistent h2 → same_polyhedra h1 h2 →
                 iteratee h1 f = iteratee h2 f
  | _ => True
  end.
End Calls.

(** ** Example meshes *)

Section Examples.
(** Example meshes, with integer coordinates; no vector is ever computed
    in them, so the vector type is immaterial. *)
Definition tetrahedron_vertices : list (list Z) :=
  [[1; 1; 1]; [1; -1; -1]; [-1; 1; -1]; [-1; -1; 1]]%Z.
Definition tetrahedron_faces : list Face :=
  [[0; 1; 2]; [0; 3; 1]; [0; 2; 3]; [1; 3; 2]].
Definition tetrahedron : PolyObj Z unit :=
  constructed tetrahedron_vertices tetrahedron_faces None.

(** The tetrahedron with vertices 0 and 1 exchanged and its faces listed
    backwards. *)
Definition exchange01 (v : nat) : nat :=
  match v with 0 => 1 | 1 => 0 | _ => v end.
Definition tetrahedron_relabeled : PolyObj Z unit :=
  constructed tetrahedron_vertices
    [[0; 3; 2]; [1; 2; 3]; [1; 3; 0]; [1; 0; 2]] None.

(** A closed mesh of a nonagon, a heptagon and four triangles: the
    triangles [2,1,0], [4,3,2] and [6,5,4] have two edges on the nonagon
    and one on the heptagon, the triangle [7,6,9] one on the nonagon and
    two on the heptagon. *)
Definition ten_vertices : list (list Z) := replicate 10 [0; 0; 0]%Z.
Definition nonagon_faces : list Face :=
  [[0; 1; 2; 3; 4; 5; 6; 7; 8]; [2; 0; 8; 7; 9; 6; 4];
   [2; 1; 0]; [4; 3; 2]; [6; 5; 4]; [7; 6; 9]].
(** The same faces, the last one moved in front of the other
    triangles. *)
Definition nonagon_faces_reordered : list Face :=
  [[0; 1; 2; 3; 4; 5; 6; 7; 8]; [2; 0; 8; 7; 9; 6; 4];
   [7; 6; 9]; [2; 1; 0]; [4; 3; 2]; [6; 5; 4]].
Definition nonagon_mesh : PolyObj Z unit :=
  constructed ten_vertices nonagon_faces None.
Definition nonagon_mesh_reordered : PolyObj Z unit :=
  constructed ten_vertices nonagon_faces_reordered None.

(** Two tetrahedra that share vertex 0 and nothing else: the six faces
    at vertex 0 form two fans of three. *)
Definition two_tetrahedra_faces : list Face :=
  [[0; 1; 2]; [0; 2; 3]; [0; 3; 1]; [1; 3; 2];
   [0; 4; 5]; [0; 5; 6]; [0; 6; 4]; [4; 6; 5]].
Definition two_tetrahedra : PolyObj Z unit :=
  constructed (replicate 7 [0; 0; 0]%Z) two_tetrahedra_faces None.
End Examples.

(** A model of the geometry interface over the rationals, for examples
    that compute vectors: a vector is the list of its coordinates, with
    exact arithmetic; adding [undefined] yields the vector without
    coordinates, powers take the integer part of the exponent, and angles
    and plane distances, which no example inspects, are zero. *)
Global Instance rational_geometry : Toxiclibs QArith_base.Q (list QArith_base.Q) := {|
  Plane := list QArith_base.Q * list QArith_base.Q * list QArith_base.Q;
  Vec3D_new := λ p, p;
  Vec3D_add := zip_with QArith_base.Qplus;
  Vec3D_add_undefined := λ _, [];
  Vec3D_sub := zip_with QArith_base.Qminus;
  Vec3D_scale := λ v k, map (QArith_base.Qmult k) v;
  Vec3D_angleBetween := λ _ _ _, QArith_base.Qmake 0 1;
  Plane_new := λ a b c, (a, b, c);
  Plane_getDistanceToPoint := λ _ _, QArith_base.Qmake 0 1;
  number_of_nat := λ n, QArith_base.Qmake (Z.of_nat n) 1;
  number_half := QArith_base.Qmake 1 2;
  number_opp := QArith_base.Qopp;
  number_div := QArith_base.Qdiv;
  Math_pow := λ x y, QArith_base.Qpower x (Qround.Qfloor y);
  number_lt := λ x y,
    if QArith_base.Qlt_le_dec x y then true else false
|}.

(** The tetrahedron with rational coordinates. *)
Definition tetrahedron_rational : PolyObj QArith_base.Q (list QArith_base.Q) :=
  constructed
    (map (map (λ z, QArith_base.Qmake z 1)) tetrahedron_vertices)
    tetrahedron_faces None.

(** A single triangle: an open mesh, every edge of which has a face on
    one side only. *)
Definition open_triangle : PolyObj Z unit :=
  constructed (replicate 3 [0; 0; 0]%Z) [[0; 1; 2]] None.

(** Two triangles on the edge from 0 to 1, both traversing it in that
    direction: a mesh that is not consistently oriented. *)
Definition two_flaps : PolyObj Z unit :=
  constructed (replicate 4 [0; 0; 0]%Z) [[0; 1; 2]; [0; 1; 3]] None.

(** The tetrahedron as the constructor builds it from the same vertices
    and faces and an empty edge collection. *)
Definition tetrahedron_without_edges : PolyObj Z unit :=
  constructed tetrahedron_vertices tetrahedron_faces (Some []).

(** A catalog with one solid. *)
Definition one_solid_valid (name : string) : bool :=
  bool_decide (name = "tetrahedron"%string).
Definition one_solid_data (name : string) : BasePolyhedron Z :=
  mkBase tetrahedron_vertices tetrahedron_faces None None.

(** * Properties *)

(** Decidable statements about concrete meshes are settled by evaluation. *)
Ltac by_computation := apply (bool_decide_unpack _); vm_compute; exact I.

(** ** The lodash models on small inputs *)

Example countBy_sides :
  Lodash.countBy length [[1;2;3]; [4;5;6]; [1;2;3;4]] !! 3 = Some 2.
Proof. reflexivity. Qed.

Example sortBy_stable :
  Lodash.sortBy (λ p : nat * nat, [Some (fst p)]) [(2,0); (1,0); (2,1); (1,1)]
  = [(1,0); (1,1); (2,0); (2,1)].
Proof. reflexivity. Qed.

Example pullAt_positions :
  Lodash.pullAt [10;11;12;13;14] [3;1;3] = [10;12;14].
Proof. reflexivity. Qed.


(** ** The method monad and later stores *)

Section MonadFacts.
Context {number Vec3D : Type}.
Local Abbreviation PolyObj := (PolyObj number Vec3D).
Local Abbreviation heap := (heap number Vec3D).
Local Abbreviation M := (M number Vec3D).
Implicit Types (h : heap) (l this : loc) (o : PolyObj).

Lemma mesh_at_Some h l m :
  mesh_at h l = Some m ↔ ∃ o, h !! l = Some o ∧ mesh_of o = m.
Proof.
  unfold mesh_at. destruct (h !! l) as [o|]; simpl; split.
  - intros [= <-]. eauto.
  - intros (o' & [= <-] & <-). done.
  - done.
  - intros (o' & [=] & _).
Qed.

Lemma ext_refl h : wf_heap h → ext h h.
Proof. by split. Qed.

Lemma ext_trans h1 h2 h3 : ext h1 h2 → ext h2 h3 → ext h1 h3.
Proof. intros [_ H12] [Hwf H23]. split; [done | eauto]. Qed.

Lemma ext_wf h h' : ext h h' → wf_heap h'.
Proof. by intros [? _]. Qed.

Lemma ext_mesh h h' l m : ext h h' → mesh_at h l = Some m → mesh_at h' l = Some m.
Proof. intros [_ H]. apply H. Qed.

Lemma ext_length h h' : ext h h' → length h ≤ length h'.
Proof.
  intros [_ H]. destruct (decide (length h ≤ length h')) as [|Hn]; [done|].
  assert (Hlt : length h' < length h) by lia.
  destruct (lookup_lt_is_Some_2 h (length h') Hlt) as [o Ho].
  specialize (H (length h') (mesh_of o)). unfold mesh_at in H.
  rewrite Ho in H. specialize (H eq_refl).
  rewrite (lookup_ge_None_2 h' (length h')) in H; [done | lia].
Qed.

Lemma returns_ret {A} (a : A) h : wf_heap h → returns (ret a) h (Ok a).
Proof. intros. exists h. split; [done | by apply ext_refl]. Qed.

Lemma returns_throw {A} e h : wf_heap h → returns (throw (A:=A) e) h (Throw e).
Proof. intros. exists h. split; [done | by apply ext_refl]. Qed.

Lemma returns_lift {A} (r : result A) h : wf_heap h → returns (lift r) h r.
Proof. intros. exists h. split; [done | by apply ext_refl]. Qed.

Lemma reads_returns {A} (m : M A) h r : wf_heap h → reads m h r → returns m h r.
Proof. intros ? Hm. exists h. split; [done | by apply ext_refl]. Qed.

(** Sequencing: the continuation runs in any later store. *)
Lemma returns_bind {A B} (m : M A) (f : A → M B) h a r :
  returns m h (Ok a) →
  (∀ h', ext h h' → returns (f a) h' r) →
  returns (bind m f) h r.
Proof.
  intros (h1 & Hm & H1) Hf. destruct (Hf h1 H1) as (h2 & Hfa & H2).
  exists h2. unfold bind. rewrite Hm. split; [done | by eapply ext_trans].
Qed.

Lemma returns_bind_throw {A B} (m : M A) (f : A → M B) h e :
  returns m h (Throw e) → returns (bind m f) h (Throw e).
Proof.
  intros (h1 & Hm & H1). exists h1. unfold bind. by rewrite Hm.
Qed.

Lemma returns_bind_result {A B} (m : M A) (f : A → M B) h ra (g : A → result B) :
  returns m h ra →
  (∀ a h', ra = Ok a → ext h h' → returns (f a) h' (g a)) →
  returns (bind m f) h (result_bind ra g).
Proof.
  intros Hm Hf. destruct ra as [a|e]; simpl.
  - eapply returns_bind; [done|]. intros. by apply Hf.
  - by apply returns_bind_throw.
Qed.

Lemma reads_bind {A B} (m : M A) (f : A → M B) h a r :
  reads m h (Ok a) → reads (f a) h r → reads (bind m f) h r.
Proof. unfold reads, bind. by intros -> ->. Qed.

Lemma reads_bind_throw {A B} (m : M A) (f : A → M B) h e :
  reads m h (Throw e) → reads (bind m f) h (Throw e).
Proof. unfold reads, bind. by intros ->. Qed.

Lemma returns_inj {A} (m : M A) h r1 r2 :
  returns m h r1 → returns m h r2 → r1 = r2.
Proof. intros (h1 & H1 & _) (h2 & H2 & _). congruence. Qed.

Lemma deref_reads h l o : h !! l = Some o → reads (deref l) h (Ok o).
Proof. unfold reads, deref. by intros ->. Qed.

(** Writing a field that is no part of the mesh, with a value that keeps
    the object well-formed. *)
Lemma update_returns h l o (f : PolyObj → PolyObj) :
  wf_heap h → h !! l = Some o →
  wf_obj l (f o) → mesh_of (f o) = mesh_of o →
  returns (update l f) h (Ok tt).
Proof.
  intros Hwf Ho Hwfo Hmesh. exists (<[l := f o]> h).
  unfold update. rewrite Ho. split; [done|].
  assert (Hl : l < length h) by (by eapply lookup_lt_Some).
  split.
  - intros l' o'. destruct (decide (l = l')) as [<-|Hne].
    + rewrite list_lookup_insert_eq by done. by intros [= <-].
    + rewrite list_lookup_insert_ne by done. apply Hwf.
  - intros l' m. unfold mesh_at. destruct (decide (l = l')) as [<-|Hne].
    + rewrite list_lookup_insert_eq by done. rewrite Ho. simpl. by rewrite Hmesh.
    + by rewrite list_lookup_insert_ne by done.
Qed.

Lemma mapR_Ok {A B} (f : A → B) (xs : list A) :
  mapR (λ x, Ok (f x)) xs = Ok (map f xs).
Proof. induction xs as [|x xs IH]; simpl; [done|]. by rewrite IH. Qed.

Lemma mapR_ext {A B} (f g : A → result B) (xs : list A) :
  (∀ x, x ∈ xs → f x = g x) → mapR f xs = mapR g xs.
Proof.
  induction xs as [|x xs IH]; simpl; intros H; [done|].
  rewrite H by left. rewrite IH; [done|]. intros. apply H. by right.
Qed.

Lemma M_map_returns {A B} (f : A → M B) (g : A → result B) xs h :
  wf_heap h →
  (∀ x h', x ∈ xs → ext h h' → returns (f x) h' (g x)) →
  returns (M_map f xs) h (mapR g xs).
Proof.
  revert h. induction xs as [|x xs IH]; intros h Hwf Hf; simpl.
  - by apply returns_ret.
  - apply returns_bind_result.
    + apply Hf; [left | by apply ext_refl].
    + intros y h1 _ H1. apply returns_bind_result.
      * apply IH; [by eapply ext_wf|]. intros x' h2 Hx' H2.
        apply Hf; [by right | by eapply ext_trans].
      * intros ys h2 _ H2. apply returns_ret. by eapply ext_wf.
Qed.

Lemma M_fold_returns {A X} (f : A → X → M A) (g : A → X → result A) xs a h :
  wf_heap h →
  (∀ a x h', x ∈ xs → ext h h' → returns (f a x) h' (g a x)) →
  returns (M_fold f xs a) h (foldR g xs a).
Proof.
  revert h a. induction xs as [|x xs IH]; intros h a Hwf Hf; simpl.
  - by apply returns_ret.
  - apply returns_bind_result.
    + apply Hf; [left | by apply ext_refl].
    + intros a' h1 _ H1. apply IH; [by eapply ext_wf|].
      intros a'' x' h2 Hx' H2. apply Hf; [by right | by eapply ext_trans].
Qed.

Lemma foldR_Ok {A X} (g : A → X → A) xs a :
  foldR (λ a x, Ok (g a x)) xs a = Ok (fold_left g xs a).
Proof. revert a. induction xs as [|x xs IH]; intros a; simpl; [done|]. apply IH. Qed.

Lemma foldR_ext {A X} (f g : A → X → result A) xs a :
  (∀ a x, x ∈ xs → f a x = g a x) → foldR f xs a = foldR g xs a.
Proof.
  revert a. induction xs as [|x xs IH]; intros a H; simpl; [done|].
  rewrite H by left. destruct (g a x); simpl; [|done].
  apply IH. intros. apply H. by right.
Qed.
End MonadFacts.

(** ** What each accessor returns *)

Section AccessorFacts.
Context {number Vec3D : Type}.
Local Abbreviation PolyObj := (PolyObj number Vec3D).
Local Abbreviation heap := (heap number Vec3D).
Local Abbreviation M := (M number Vec3D).
Implicit Types (h : heap) (l this : loc) (o : PolyObj) (m : @Mesh number Vec3D).

Lemma numFaces_reads h this m :
  mesh_at h this = Some m → reads (numFaces this) h (Ok (length (mesh_faces m))).
Proof.
  intros (o & Ho & <-)%mesh_at_Some. unfold numFaces.
  eapply reads_bind; [by apply deref_reads | done].
Qed.

Lemma numVertices_reads h this m :
  mesh_at h this = Some m →
  reads (numVertices this) h (Ok (length (mesh_vertices m))).
Proof.
  intros (o & Ho & <-)%mesh_at_Some. unfold numVertices.
  eapply reads_bind; [by apply deref_reads | done].
Qed.

Lemma getFace_returns h this m i :
  wf_heap h → mesh_at h this = Some m →
  returns (getFace this i) h (Ok (mkFaceObj this i)).
Proof.
  intros Hwf (o & Ho & <-)%mesh_at_Some.
  pose proof (Hwf _ _ Ho) as Hwfo.
  unfold getFace, returns, bind, deref. rewrite Ho.
  destruct (getFace_cache o !! i) as [f|] eqn:Hc.
  - exists h. rewrite (wf_getFace _ _ Hwfo _ _ Hc). split; [done | by apply ext_refl].
  - destruct (update_returns h this o (set_getFace i (mkFaceObj this i)) Hwf Ho)
      as (h' & Hu & Hext).
    + destruct Hwfo as [H1 H2 H3 H4 H5]. split; simpl; try done.
      intros j f. destruct (decide (i = j)) as [<-|Hne].
      * rewrite lookup_insert_eq. by intros [= <-].
      * rewrite lookup_insert_ne by done. apply H1.
    + done.
    + exists h'. rewrite Hu. done.
Qed.

Lemma getFaces_returns h this m :
  wf_heap h → mesh_at h this = Some m →
  returns (getFaces this) h (Ok (face_views this (length (mesh_faces m)))).
Proof.
  intros Hwf Hm. unfold getFaces, fIndices.
  eapply returns_bind.
  { apply reads_returns; [done|]. eapply reads_bind; [by apply numFaces_reads | done]. }
  intros h1 H1. unfold face_views, Lodash.range. rewrite <- mapR_Ok.
  apply M_map_returns; [by eapply ext_wf|].
  intros i h2 _ H2. eapply getFace_returns; [by eapply ext_wf|].
  eapply ext_mesh; [done|]. by eapply ext_mesh.
Qed.

Lemma FaceObj_vIndices_reads h f m :
  mesh_at h (polyhedron f) = Some m →
  reads (FaceObj_vIndices f) h (view_vIndices (mesh_faces m) f).
Proof.
  intros (o & Ho & <-)%mesh_at_Some. unfold FaceObj_vIndices, reads, bind, deref.
  rewrite Ho. unfold view_vIndices. simpl. by destruct (faces o !! fIndex f).
Qed.

Lemma FaceObj_method_reads {A} (g : Face → A) h f m :
  mesh_at h (polyhedron f) = Some m →
  reads (vs <- FaceObj_vIndices f ;; ret (g vs)) h
    (result_bind (view_vIndices (mesh_faces m) f) (λ vs, Ok (g vs))).
Proof.
  intros Hm. pose proof (FaceObj_vIndices_reads _ _ _ Hm) as Hr.
  unfold reads, bind in *. rewrite Hr.
  by destruct (view_vIndices (mesh_faces m) f).
Qed.

Lemma mapR_face_views {A} (g : Face → A) this (faces : list Face) :
  mapR (λ f, result_bind (view_vIndices faces f) (λ vs, Ok (g vs)))
    (face_views this (length faces))
  = Ok (map g faces).
Proof.
  unfold face_views.
  assert (H : ∀ k (pre : list Face), length pre = k →
    mapR (λ f, result_bind (view_vIndices (pre ++ faces) f) (λ vs, Ok (g vs)))
      (map (mkFaceObj this) (seq k (length faces))) = Ok (map g faces)).
  { induction faces as [|face faces IH]; intros k pre Hk; simpl; [done|].
    unfold view_vIndices at 1. simpl.
    rewrite lookup_app_r by lia. rewrite Hk, Nat.sub_diag. simpl.
    specialize (IH (S k) (pre ++ [face])). rewrite <- app_assoc in IH.
    simpl in IH. rewrite IH; [done|]. rewrite length_app. simpl. lia. }
  apply (H 0 []). done.
Qed.

Lemma getAllEdges_returns h this m :
  wf_heap h → mesh_at h this = Some m →
  returns (getAllEdges this) h (Ok (all_edges (mesh_faces m))).
Proof.
  intros Hwf Hm. unfold getAllEdges.
  eapply returns_bind; [by eapply getFaces_returns|]. intros h1 H1.
  eapply returns_bind.
  - rewrite <- (mapR_face_views face_edges this).
    apply M_map_returns; [by eapply ext_wf|].
    intros f h2 Hf H2. apply reads_returns; [by eapply ext_wf|].
    apply (FaceObj_method_reads face_edges).
    apply list_elem_of_fmap in Hf as (i & -> & _). simpl.
    eapply ext_mesh; [done|]. by eapply ext_mesh.
  - intros h2 H2. apply returns_ret. by eapply ext_wf.
Qed.

Lemma edges_of_mesh o : mesh_edges (mesh_of o) = edges_of o.
Proof. done. Qed.

Lemma edges_returns h this m :
  wf_heap h → mesh_at h this = Some m →
  returns (edges this) h (Ok (mesh_edges m)).
Proof.
  intros Hwf Hm. pose proof Hm as (o & Ho & Hmo)%mesh_at_Some.
  unfold edges. unfold returns, bind at 1, deref. rewrite Ho.
  destruct (_edges o) as [es|] eqn:He.
  - exists h. subst m. simpl. unfold edges_of. rewrite He. split; [done | by apply ext_refl].
  - fold (returns (es <- getAllEdges this ;; update this (set_edges es) ;;; ret es) h
            (Ok (mesh_edges m))).
    eapply returns_bind; [by eapply getAllEdges_returns|]. intros h1 H1.
    pose proof (ext_mesh _ _ _ _ H1 Hm) as (o1 & Ho1 & Hmo1)%mesh_at_Some.
    assert (Hes : all_edges (mesh_faces m) = mesh_edges m).
    { subst m. simpl. unfold edges_of. by rewrite He. }
    assert (Hf1 : faces o1 = mesh_faces m) by (by rewrite <- Hmo1).
    assert (He1 : edges_of o1 = mesh_edges m) by (by rewrite <- Hmo1).
    eapply returns_bind.
    + eapply update_returns; [by eapply ext_wf | done | |].
      * destruct (ext_wf _ _ H1 _ _ Ho1) as [G1 G2 G3 G4 G5].
        split; simpl; try done.
        intros g Hg. unfold edges_of at 1. simpl. rewrite Hf1, Hes, <- He1, <- Hf1. by apply G4.
      * unfold mesh_of, edges_of. simpl. f_equal.
        rewrite Hf1, Hes. unfold edges_of in He1. by rewrite Hf1, Hes in He1.
    + intros h2 H2. rewrite Hes. apply returns_ret. by eapply ext_wf.
Qed.

Lemma toJSON_returns h this m :
  wf_heap h → mesh_at h this = Some m →
  returns (toJSON this) h
    (Ok (mkBase (mesh_vertices m) (mesh_faces m) (Some (mesh_edges m)) None)).
Proof.
  intros Hwf Hm. pose proof Hm as (o & Ho & Hmo)%mesh_at_Some.
  unfold toJSON. unfold returns, bind at 1, deref. rewrite Ho.
  fold (returns (es <- edges this ;; ret (mkBase (vertices o) (faces o) (Some es) None)) h
          (Ok (mkBase (mesh_vertices m) (mesh_faces m) (Some (mesh_edges m)) None))).
  eapply returns_bind; [by eapply edges_returns|]. intros h1 H1.
  subst m. apply returns_ret. by eapply ext_wf.
Qed.

Lemma faceCount_returns h this m :
  wf_heap h → mesh_at h this = Some m →
  returns (faceCount this) h (Ok (faceCount_of (mesh_faces m))).
Proof.
  intros Hwf Hm. unfold faceCount.
  eapply returns_bind; [by eapply getFaces_returns|]. intros h1 H1.
  eapply returns_bind.
  - rewrite <- (mapR_face_views length this).
    apply M_map_returns; [by eapply ext_wf|].
    intros f h2 Hf H2. apply reads_returns; [by eapply ext_wf|].
    apply (FaceObj_method_reads length).
    apply list_elem_of_fmap in Hf as (i & -> & _). simpl.
    eapply ext_mesh; [done|]. by eapply ext_mesh.
  - intros h2 H2. apply returns_ret. by eapply ext_wf.
Qed.
End AccessorFacts.

(** ** Sorting and removal by position *)

Section LodashFacts.
Import Lodash.

Lemma compareAscending_opp a b :
  compareAscending b a = CompOpp (compareAscending a b).
Proof. destruct a, b; simpl; try done. apply Nat.compare_antisym. Qed.

Lemma compareAscending_eq a b : compareAscending a b = Eq ↔ a = b.
Proof.
  destruct a as [a|], b as [b|]; simpl; [|split; congruence..].
  rewrite Nat.compare_eq_iff. split; congruence.
Qed.

Lemma compareAscending_lt_trans a b c :
  compareAscending a b = Lt → compareAscending b c = Lt →
  compareAscending a c = Lt.
Proof.
  destruct a as [a|], b as [b|], c as [c|]; simpl; try done.
  rewrite !Nat.compare_lt_iff. lia.
Qed.

Lemma compareMultiple_opp a b :
  compareMultiple b a = CompOpp (compareMultiple a b).
Proof.
  revert b. induction a as [|x a IH]; intros [|y b]; simpl; try done.
  rewrite (compareAscending_opp x y).
  destruct (compareAscending x y); simpl; [apply IH | done | done].
Qed.

Lemma criteria_le_total a b : criteria_le a b = false → criteria_le b a = true.
Proof.
  unfold criteria_le. rewrite (compareMultiple_opp a b).
  by destruct (compareMultiple a b).
Qed.

Lemma compareMultiple_eq a b :
  length a = length b → compareMultiple a b = Eq → a = b.
Proof.
  revert b. induction a as [|x a IH]; intros [|y b]; simpl; try done.
  intros [= Hl]. destruct (compareAscending x y) eqn:Hxy; try done.
  intros H. apply compareAscending_eq in Hxy as ->. f_equal. by apply IH.
Qed.

Lemma compareMultiple_lt_trans a b c :
  length a = length b → length b = length c →
  compareMultiple a b = Lt → compareMultiple b c ≠ Gt →
  compareMultiple a c = Lt.
Proof.
  revert b c. induction a as [|x a IH]; intros [|y b] [|z c]; simpl; try done.
  intros [= Hab] [= Hbc].
  destruct (compareAscending x y) eqn:Hxy; try done.
  - apply compareAscending_eq in Hxy as ->.
    destruct (compareAscending y z); [by apply IH | done | done].
  - intros _. destruct (compareAscending y z) eqn:Hyz; try done.
    + apply compareAscending_eq in Hyz as ->. by rewrite Hxy.
    + by rewrite (compareAscending_lt_trans _ _ _ Hxy Hyz).
Qed.

Lemma criteria_le_trans a b c :
  length a = length b → length b = length c →
  criteria_le a b = true → criteria_le b c = true → criteria_le a c = true.
Proof.
  unfold criteria_le. intros Hab Hbc H1 H2.
  destruct (compareMultiple a b) eqn:E1; try done.
  - apply compareMultiple_eq in E1 as ->; done.
  - rewrite (compareMultiple_lt_trans a b c); try done.
    by destruct (compareMultiple b c).
Qed.

Lemma criteria_le_antisym a b :
  length a = length b →
  criteria_le a b = true → criteria_le b a = true → a = b.
Proof.
  unfold criteria_le. intros Hl. rewrite (compareMultiple_opp a b).
  destruct (compareMultiple a b) eqn:E; simpl; try done.
  intros _ _. by apply compareMultiple_eq.
Qed.

Section sortBy.
Context {A : Type} (criteria : A → list (option nat)).

Local Abbreviation sorted_le := (sorted_le criteria).

Lemma sortBy_insert_perm x l : sortBy_insert criteria x l ≡ₚ x :: l.
Proof.
  induction l as [|y l IH]; simpl; [done|].
  destruct (criteria_le _ _); [done|]. rewrite IH. apply Permutation_swap.
Qed.

Lemma sortBy_perm l : sortBy criteria l ≡ₚ l.
Proof.
  induction l as [|x l IH]; simpl; [done|].
  unfold sortBy in *. simpl. by rewrite sortBy_insert_perm, IH.
Qed.

Lemma sortBy_insert_Sorted x l :
  Sorted sorted_le l → Sorted sorted_le (sortBy_insert criteria x l).
Proof.
  induction l as [|y l IH]; simpl; intros Hs.
  - by repeat constructor.
  - destruct (criteria_le (criteria x) (criteria y)) eqn:Hxy.
    + constructor; [done|]. by constructor.
    + apply Sorted_inv in Hs as [Hs Hhd]. constructor; [by apply IH|].
      destruct l as [|z l]; simpl.
      * constructor. by apply criteria_le_total.
      * destruct (criteria_le (criteria x) (criteria z)).
        -- constructor. by apply criteria_le_total.
        -- constructor. by inversion Hhd.
Qed.

Lemma sortBy_Sorted l : Sorted sorted_le (sortBy criteria l).
Proof.
  induction l as [|x l IH]; simpl; [constructor|].
  by apply sortBy_insert_Sorted.
Qed.

(** Two collections with the same elements sort to the same list when
    the criteria have a fixed length and tell the elements apart. *)
Lemma sortBy_unique k l1 l2 :
  (∀ x, length (criteria x) = k) →
  (∀ x y, x ∈ l1 → y ∈ l2 → criteria x = criteria y → x = y) →
  l1 ≡ₚ l2 → sortBy criteria l1 = sortBy criteria l2.
Proof.
  intros Hk Hinj Hp.
  assert (Htrans : Transitive sorted_le).
  { intros x y z. unfold sorted_le. apply criteria_le_trans; by rewrite !Hk. }
  apply (Sorted_unique_strong sorted_le).
  - intros x y Hx Hy Hxy Hyx. apply Hinj.
    + by rewrite <- (sortBy_perm l1).
    + by rewrite <- (sortBy_perm l2).
    + apply criteria_le_antisym; [by rewrite !Hk | done | done].
  - apply sortBy_Sorted.
  - apply sortBy_Sorted.
  - by rewrite !sortBy_perm.
Qed.
End sortBy.

(** *** [pullAt] deletes exactly the given positions *)

Lemma drop_where_none {A} (P : nat → bool) k (l : list A) :
  (∀ i, k ≤ i → P i = false) → drop_where P k l = l.
Proof.
  revert k. induction l as [|x l IH]; intros k H; simpl; [done|].
  rewrite H by lia. f_equal. apply IH. intros. apply H. lia.
Qed.

Lemma drop_where_ext {A} (P Q : nat → bool) k (l : list A) :
  (∀ i, P i = Q i) → drop_where P k l = drop_where Q k l.
Proof.
  intros H. revert k. induction l as [|x l IH]; intros k; simpl; [done|].
  by rewrite H, IH.
Qed.

Lemma drop_where_delete {A} (P : nat → bool) k d (l : list A) :
  (∀ i, P i = true → i < k + d) →
  drop_where P k (delete d l)
  = drop_where (λ i, bool_decide (i = k + d) || P i) k l.
Proof.
  revert k d. induction l as [|x l IH]; intros k d HP; [by destruct d|].
  destruct d as [|d]; simpl.
  - rewrite Nat.add_0_r. rewrite bool_decide_eq_true_2 by done. simpl.
    rewrite !drop_where_none; [done | |].
    + intros i Hi. rewrite bool_decide_eq_false_2 by lia. simpl.
      destruct (P i) eqn:E; [|done]. apply HP in E. lia.
    + intros i Hi. destruct (P i) eqn:E; [|done]. apply HP in E. lia.
  - rewrite bool_decide_eq_false_2 by lia. simpl.
    rewrite (IH (S k) d).
    + replace (S k + d) with (k + S d) by lia. done.
    + intros i Hi. apply HP in Hi. lia.
Qed.

Lemma bool_eq_iff (b1 b2 : bool) : (b1 = true ↔ b2 = true) → b1 = b2.
Proof. destruct b1, b2; intuition congruence. Qed.

Lemma basePullAt_drop {A} (array : list A) ds prev :
  StronglySorted ge ds →
  (∀ p, prev = Some p → Forall (λ d, d ≤ p) ds) →
  basePullAt array ds prev
  = drop_where (λ i, bool_decide (i ∈ ds) && negb (bool_decide (prev = Some i)))
      0 array.
Proof.
  revert array prev. induction ds as [|d ds IH]; intros array prev Hs Hp.
  - simpl. rewrite drop_where_none; [done|]. by intros i _.
  - apply StronglySorted_inv in Hs as [Hs Hd].
    rewrite Forall_forall in Hd. cbn [basePullAt].
    destruct (decide (prev = Some d)) as [->|Hne].
    + rewrite bool_decide_eq_true_2 by done.
      specialize (Hp d eq_refl). apply Forall_cons in Hp as [_ Hp].
      rewrite IH; [|done|by intros p [= <-]].
      apply drop_where_ext. intros i. apply bool_eq_iff.
      rewrite !andb_true_iff, !negb_true_iff, !bool_decide_eq_true,
        !bool_decide_eq_false, elem_of_cons.
      split; [intros [Hi Hn]; split; [by right | done]|].
      intros [[->|Hi] Hn]; [done|]. by split.
    + rewrite bool_decide_eq_false_2 by done. rewrite IH; [|done|].
      * rewrite (drop_where_delete _ 0 d).
        -- apply drop_where_ext. intros i. apply bool_eq_iff.
           rewrite !orb_true_iff, !andb_true_iff, !negb_true_iff,
             !bool_decide_eq_true, !bool_decide_eq_false, elem_of_cons.
           simpl. destruct (decide (i = d)) as [->|Hid].
           ++ split; [|by left]. intros _. split; [by left | congruence].
           ++ split.
              ** intros [?|[Hi _]]; [done|]. split; [by right|]. intros ->.
                 specialize (Hp i eq_refl). apply Forall_cons in Hp as [Hdi _].
                 specialize (Hd _ Hi). unfold ge in Hd. lia.
              ** intros [[?|Hi] _]; [done|]. right. split; [done | congruence].
        -- intros i. rewrite andb_true_iff, negb_true_iff,
             !bool_decide_eq_true, !bool_decide_eq_false.
           intros [Hi Hn]. specialize (Hd _ Hi). unfold ge in Hd. simpl.
           assert (i ≠ d) by congruence. lia.
      * intros p [= <-]. rewrite Forall_forall.
        intros x Hx. specialize (Hd _ Hx). unfold ge in Hd. lia.
Qed.

Lemma Sorted_weaken {A} (R1 R2 : relation A) l :
  (∀ x y, R1 x y → R2 x y) → Sorted R1 l → Sorted R2 l.
Proof.
  intros HR. induction 1 as [|x l Hs IH Hx]; constructor; [done|].
  destruct Hx; constructor. by apply HR.
Qed.

Lemma sortBy_nat_sorted (indexes : list nat) :
  StronglySorted le (sortBy (λ i, [Some i]) indexes).
Proof.
  apply Sorted_StronglySorted; [intros x y z; lia|].
  eapply Sorted_weaken; [|apply sortBy_Sorted].
  intros x y. unfold sorted_le, criteria_le. simpl.
  destruct (x ?= y) eqn:E; try done.
  - apply Nat.compare_eq_iff in E. lia.
  - apply Nat.compare_lt_iff in E. lia.
Qed.

Lemma StronglySorted_reverse_ge (l : list nat) :
  StronglySorted le l → StronglySorted ge (reverse l).
Proof.
  induction 1 as [|x l Hs IH Hx]; [constructor|].
  rewrite reverse_cons. apply StronglySorted_app_2; [|done|by repeat constructor].
  intros a b Ha Hb. apply list_elem_of_singleton in Hb as ->.
  rewrite elem_of_reverse in Ha. rewrite Forall_forall in Hx.
  specialize (Hx _ Ha). unfold ge. lia.
Qed.

Lemma pullAt_remove_positions {A} (array : list A) (indexes : list nat) :
  pullAt array indexes = remove_positions indexes array.
Proof.
  unfold pullAt, remove_positions. rewrite basePullAt_drop.
  - apply drop_where_ext. intros i. rewrite andb_true_r.
    apply bool_decide_ext. rewrite elem_of_reverse.
    by rewrite (sortBy_perm (λ i, [Some i]) indexes).
  - apply StronglySorted_reverse_ge, sortBy_nat_sorted.
  - done.
Qed.
End LodashFacts.

(** ** Construction and the structural transforms *)

Section TransformFacts.
Context {number Vec3D : Type}.
Local Abbreviation PolyObj := (PolyObj number Vec3D).
Local Abbreviation heap := (heap number Vec3D).
Local Abbreviation M := (M number Vec3D).
Implicit Types (h : heap) (l this : loc) (o : PolyObj) (m : @Mesh number Vec3D).

Lemma constructed_wf l vs fs es : wf_obj l (constructed vs fs es : PolyObj).
Proof. by split. Qed.

Lemma constructed_uncomputed vs fs es :
  graphs_uncomputed (constructed vs fs es : PolyObj).
Proof. by repeat split. Qed.

Lemma created_ext h h' l' vs fs es :
  created h h' l' (constructed vs fs es) → ext h h'.
Proof.
  intros (h1 & -> & -> & [Hwf Hm]). split.
  - intros l o Hl. apply lookup_app_Some in Hl as [Hl|[Hlen Hl]].
    + by apply Hwf.
    + apply list_lookup_singleton_Some in Hl as [Hl <-].
      replace l with (length h1) by lia. apply constructed_wf.
  - intros l m H. specialize (Hm _ _ H). unfold mesh_at in *.
    destruct (h1 !! l) as [o|] eqn:E; [|done].
    by rewrite (lookup_app_l_Some _ _ _ _ E).
Qed.

Lemma created_lookup h h' l' o' : created h h' l' o' → h' !! l' = Some o'.
Proof.
  intros (h1 & -> & -> & _). rewrite lookup_app_r by lia.
  by rewrite Nat.sub_diag.
Qed.

Lemma created_fresh h h' l' o' : created h h' l' o' → h !! l' = None.
Proof.
  intros (h1 & -> & -> & Hext). apply lookup_ge_None_2.
  by apply ext_length.
Qed.

Lemma created_keeps h h' l' o' l o :
  created h h' l' o' → h !! l = Some o →
  ∃ o1, h' !! l = Some o1 ∧ mesh_of o1 = mesh_of o.
Proof.
  intros (h1 & -> & -> & Hext) Hl.
  assert (Hm : mesh_at h l = Some (mesh_of o)) by (unfold mesh_at; by rewrite Hl).
  apply (ext_mesh _ _ _ _ Hext) in Hm as (o1 & Ho1 & Hm1)%mesh_at_Some.
  exists o1. split; [|done]. by rewrite (lookup_app_l_Some _ _ _ _ Ho1).
Qed.

Lemma created_trans h h1 h2 l' o' :
  ext h h1 → created h1 h2 l' o' → created h h2 l' o'.
Proof.
  intros H01 (h' & -> & -> & H1). exists h'. split; [done|]. split; [done|].
  by eapply ext_trans.
Qed.

Lemma Polyhedron_new_created h b :
  wf_heap h →
  ∃ h', Polyhedron_new b h = (h', Ok (length h)) ∧
        created h h' (length h)
          (constructed (base_vertices b) (base_faces b) (base_edges b)).
Proof.
  intros Hwf. eexists. split; [done|]. exists h. split; [done|]. split; [done|].
  by apply ext_refl.
Qed.

Lemma transformed_bind {A} (ma : M A) (f : A → M loc) h a vs fs es :
  returns ma h (Ok a) →
  (∀ h1, ext h h1 → transformed (f a) h1 vs fs es) →
  transformed (bind ma f) h vs fs es.
Proof.
  intros (h1 & Hma & H1) Hf. destruct (Hf h1 H1) as (h' & l' & Hfa & Hc).
  exists h', l'. unfold bind. rewrite Hma. split; [done|].
  by eapply created_trans.
Qed.

Lemma transformed_bind_run {A} (ma : M A) (f : A → M loc) h h1 a vs fs es :
  ma h = (h1, Ok a) → ext h h1 →
  transformed (f a) h1 vs fs es →
  transformed (bind ma f) h vs fs es.
Proof.
  intros Hma H1 (h' & l' & Hfa & Hc).
  exists h', l'. unfold bind. rewrite Hma. split; [done|].
  by eapply created_trans.
Qed.

Lemma withVertices_transformed h this m vs :
  wf_heap h → mesh_at h this = Some m →
  transformed (withVertices this vs) h vs (mesh_faces m) (mesh_edges m).
Proof.
  intros Hwf Hm. unfold withVertices.
  eapply transformed_bind; [by apply toJSON_returns|]. intros h1 H1. simpl.
  destruct (Polyhedron_new_created h1
              (mkBase vs (mesh_faces m) (Some (mesh_edges m)) None)
              (ext_wf _ _ H1)) as (h' & Hn & Hc).
  by exists h', (length h1).
Qed.

Lemma withFaces_transformed h this m fs :
  wf_heap h → mesh_at h this = Some m →
  transformed (withFaces this fs) h (mesh_vertices m) fs (mesh_edges m).
Proof.
  intros Hwf Hm. unfold withFaces.
  eapply transformed_bind; [by apply toJSON_returns|]. intros h1 H1. simpl.
  destruct (Polyhedron_new_created h1
              (mkBase (mesh_vertices m) fs (Some (mesh_edges m)) None)
              (ext_wf _ _ H1)) as (h' & Hn & Hc).
  by exists h', (length h1).
Qed.

Lemma deref_returns h l m :
  wf_heap h → mesh_at h l = Some m →
  ∃ o, mesh_of o = m ∧ returns (deref l) h (Ok o).
Proof.
  intros Hwf (o & Ho & Hm)%mesh_at_Some. exists o. split; [done|].
  apply reads_returns; [done|]. by apply deref_reads.
Qed.

Lemma M_map_pure_length {A B} (f : heap → A → B) xs h :
  wf_heap h →
  ∃ ys, returns (M_map (λ x, λ h, (h, Ok (f h x))) xs) h (Ok ys) ∧
        length ys = length xs.
Proof.
  intros Hwf. exists (map (f h) xs). split; [|by rewrite length_map].
  apply reads_returns; [done|]. unfold reads.
  induction xs as [|x xs IH]; simpl; [done|].
  unfold bind at 1. unfold bind at 1. by rewrite IH.
Qed.

Lemma apply_transform_transformed t h this m :
  wf_heap h → mesh_at h this = Some m → transform_ready h t →
  ∃ vs fs, transform_result t h m vs fs ∧
           transformed (apply_transform t this) h vs fs (mesh_edges m).
Proof.
  intros Hwf Hm Hready. destruct t; simpl in *.
  - eexists _, _. split; [done|]. by apply withVertices_transformed.
  - eexists _, _. split; [done|]. by apply withFaces_transformed.
  - eexists _, _. split; [done|]. unfold addVertices.
    destruct (deref_returns _ _ _ Hwf Hm) as (o & <- & Hd).
    eapply transformed_bind; [done|]. intros h1 H1.
    apply (withVertices_transformed h1 this (mesh_of o)); [by eapply ext_wf|].
    by eapply ext_mesh.
  - eexists _, _. split; [done|]. unfold addFaces.
    destruct (deref_returns _ _ _ Hwf Hm) as (o & <- & Hd).
    eapply transformed_bind; [done|]. intros h1 H1.
    apply (withFaces_transformed h1 this (mesh_of o)); [by eapply ext_wf|].
    by eapply ext_mesh.
  - destruct Hready as [oo Hoo].
    assert (Hmo : mesh_at h other = Some (mesh_of oo)).
    { unfold mesh_at. by rewrite Hoo. }
    eexists _, _. split; [exists (mesh_of oo); split; [done|]; split; reflexivity|].
    unfold addPolyhedron.
    eapply transformed_bind.
    { apply reads_returns; [done|]. by apply deref_reads. }
    intros h1 H1.
    pose proof (ext_mesh _ _ _ _ H1 Hm) as Hm1.
    destruct (deref_returns _ _ _ (ext_wf _ _ H1) Hm1) as (o & Hom & Hd).
    destruct (withVertices_transformed h1 this m
                (vertices o ++ vertices oo) (ext_wf _ _ H1) Hm1)
      as (h2 & l2 & Hw & Hc).
    assert (Hadd : addVertices this (vertices oo) h1 = (h2, Ok l2)).
    { unfold addVertices. destruct Hd as (hd & Hd & _).
      unfold bind. unfold deref in *. destruct (h1 !! this); by simplify_eq. }
    pose proof (created_ext _ _ _ _ _ _ Hc) as H2.
    pose proof (ext_mesh _ _ _ _ H2 Hm1) as Hm2.
    assert (Hnum : numVertices this h2 = (h2, Ok (length (mesh_vertices m)))).
    { by apply numVertices_reads. }
    assert (Hml2 : mesh_at h2 l2
                   = Some (mesh_of (constructed (vertices o ++ vertices oo)
                                      (mesh_faces m) (Some (mesh_edges m))))).
    { unfold mesh_at. by rewrite (created_lookup _ _ _ _ Hc). }
    destruct (deref_returns _ _ _ (ext_wf _ _ H2) Hml2) as (o2 & Ho2 & Hd2).
    destruct (withFaces_transformed h2 l2 _
                (faces o2 ++ map (map (λ v, v + length (mesh_vertices m))) (faces oo))
                (ext_wf _ _ H2) Hml2)
      as (h3 & l3 & Hw3 & Hc3).
    exists h3, l3. split.
    + unfold bind at 1. rewrite Hadd. unfold bind at 1. rewrite Hnum.
      unfold addFaces. destruct Hd2 as (hd & Hd2 & _).
      unfold bind. unfold deref in *. destruct (h2 !! l2); by simplify_eq.
    + apply (created_trans h1 h2); [exact H2|].
      simpl in Hc3. rewrite <- Hom. simpl.
      assert (Hf2 : faces o2 = mesh_faces m).
      { change (mesh_faces (mesh_of o2) = mesh_faces m). by rewrite Ho2. }
      rewrite Hf2, <- Hom in Hc3. simpl in Hc3. done.
  - eexists _, _. split; [done|]. unfold removeFace.
    destruct (deref_returns _ _ _ Hwf Hm) as (o & <- & Hd).
    eapply transformed_bind; [done|]. intros h1 H1.
    rewrite pullAt_remove_positions.
    apply (withFaces_transformed h1 this (mesh_of o)); [by eapply ext_wf|].
    by eapply ext_mesh.
  - eexists _, _. split; [done|]. unfold removeFaces.
    destruct (deref_returns _ _ _ Hwf Hm) as (o & <- & Hd).
    eapply transformed_bind; [done|]. intros h1 H1.
    rewrite pullAt_remove_positions.
    apply (withFaces_transformed h1 this (mesh_of o)); [by eapply ext_wf|].
    by eapply ext_mesh.
  - eexists _, _. split; [done|]. unfold mapVertices.
    destruct (deref_returns _ _ _ Hwf Hm) as (o & <- & Hd).
    eapply transformed_bind; [done|]. intros h1 H1.
    apply (withVertices_transformed h1 this (mesh_of o)); [by eapply ext_wf|].
    by eapply ext_mesh.
  - unfold mapFaces.
    destruct (getFaces_returns _ _ _ Hwf Hm) as (h1 & Hg & H1).
    destruct (M_map_pure_length iteratee
                (face_views this (length (mesh_faces m))) h1 (ext_wf _ _ H1))
      as (fs' & Hmap & Hlen).
    exists (mesh_vertices m), fs'. split.
    { split; [done|]. rewrite Hlen. unfold face_views.
      by rewrite length_map, length_seq. }
    eapply transformed_bind_run; [done | done |].
    destruct Hmap as (h2 & Hrun & H2).
    eapply transformed_bind_run; [done | done |].
    apply (withFaces_transformed h2 this m); [by eapply ext_wf|].
    eapply ext_mesh; [done|]. by eapply ext_mesh.
Qed.
End TransformFacts.


Section ClaimsTransforms.
Context {number Vec3D : Type}.
Local Abbreviation PolyObj := (PolyObj number Vec3D).
Local Abbreviation heap := (heap number Vec3D).
Implicit Types (h : heap) (l this : loc) (o : PolyObj).

Lemma wf_heap_constructed vs fs es :
  wf_heap [constructed vs fs es : PolyObj].
Proof.
  intros l o Hl. apply list_lookup_singleton_Some in Hl as [-> <-].
  apply constructed_wf.
Qed.

Lemma mesh_at_lookup h l o : h !! l = Some o → mesh_at h l = Some (mesh_of o).
Proof. unfold mesh_at. by intros ->. Qed.

(** C1 (amended): every structural transform returns a new instance, with
    the vertices and faces the transform calls for, whose memoised graphs,
    face-view cache and vector cache are uncomputed; a
    transform of the vertex collection hands the edge collection of the
    receiver over to the new instance together with the faces; and no
    object of the store has its vertices, faces or edge collection
    changed. *)
Theorem transform_new_instance (t : transform) h this o :
  wf_heap h → h !! this = Some o → transform_ready h t →
  ∃ h' l' o',
    apply_transform t this h = (h', Ok l') ∧
    h !! l' = None ∧ h' !! l' = Some o' ∧
    transform_result t h (mesh_of o) (vertices o') (faces o') ∧
    graphs_uncomputed o' ∧
    (keeps_faces t = true →
       faces o' = faces o ∧ _edges o' = Some (edges_of o)) ∧
    ∀ l o1, h !! l = Some o1 →
      ∃ o1', h' !! l = Some o1' ∧ mesh_of o1' = mesh_of o1.
Proof.
  intros Hwf Ho Hready.
  destruct (apply_transform_transformed t h this (mesh_of o) Hwf
              (mesh_at_lookup _ _ _ Ho) Hready)
    as (vs & fs & Hres & h' & l' & Hrun & Hc).
  exists h', l', (constructed vs fs (Some (edges_of o))).
  split; [done|]. split; [by eapply created_fresh|].
  split; [by eapply created_lookup|]. split; [exact Hres|].
  split; [apply constructed_uncomputed|]. split.
  - intros Hk. split; [|done]. simpl.
    destruct t; simpl in *; try done; by destruct Hres as [_ ->].
  - intros l o1 Hl. by eapply created_keeps.
Qed.

(** C5: the snapshot of [Polyhedron.of(p.vertices, p.faces)] has the
    vertices and the faces of the snapshot of [p], which are those of
    [p]. *)
Theorem of_toJSON_round_trip h p o :
  wf_heap h → h !! p = Some o →
  ∃ h1 h2 b b',
    toJSON p h = (h1, Ok b) ∧
    (q <- Polyhedron_of (vertices o) (faces o) ;; toJSON q) h = (h2, Ok b') ∧
    base_vertices b' = base_vertices b ∧ base_faces b' = base_faces b ∧
    base_vertices b' = vertices o ∧ base_faces b' = faces o.
Proof.
  intros Hwf Ho.
  destruct (toJSON_returns h p (mesh_of o) Hwf (mesh_at_lookup _ _ _ Ho))
    as (h1 & Hj & _).
  destruct (Polyhedron_new_created h (mkBase (vertices o) (faces o) None None) Hwf)
    as (h' & Hn & Hc).
  pose proof (created_ext _ _ _ _ _ _ Hc) as Hext.
  pose proof (created_lookup _ _ _ _ Hc) as Hq.
  destruct (toJSON_returns h' (length h) _ (ext_wf _ _ Hext)
              (mesh_at_lookup _ _ _ Hq)) as (h2 & Hj2 & _).
  eexists h1, h2, _, _. split; [done|]. split.
  - unfold bind, Polyhedron_of. rewrite Hn. exact Hj2.
  - done.
Qed.

Lemma drop_where_length {A} (P : nat → bool) k (l : list A) :
  length (drop_where P k l) + length (filter (λ i, P i = true) (seq k (length l)))
  = length l.
Proof.
  revert k. induction l as [|x l IH]; intros k; simpl; [done|].
  rewrite filter_cons. specialize (IH (S k)).
  destruct (decide (P k = true)) as [->|Hn]; simpl.
  - lia.
  - apply not_true_is_false in Hn. rewrite Hn. simpl. lia.
Qed.

Lemma remove_positions_length {A} (indexes : list nat) (l : list A) :
  NoDup indexes → Forall (λ i, i < length l) indexes →
  length (remove_positions indexes l) = length l - length indexes.
Proof.
  intros Hnd Hlt. unfold remove_positions.
  pose proof (drop_where_length (λ i, bool_decide (i ∈ indexes)) 0 l) as H.
  assert (Hp : filter (λ i, bool_decide (i ∈ indexes) = true) (seq 0 (length l))
               ≡ₚ indexes).
  { apply NoDup_Permutation; [apply NoDup_filter, NoDup_seq | done |].
    intros i. rewrite list_elem_of_filter, bool_decide_eq_true, elem_of_seq.
    rewrite Forall_forall in Hlt. split; [tauto|].
    intros Hi. specialize (Hlt _ Hi). split; [done | lia]. }
  rewrite Hp in H. lia.
Qed.

(** C10: [removeFaces] deletes exactly the positions of the given face
    views from the face list of the receiver, all read against the
    original list; the vertices are those of the receiver and the
    snapshots of both carry the same name. *)
Theorem removeFaces_positions h this o (faceObjs : list FaceObj) :
  wf_heap h → h !! this = Some o →
  NoDup (map fIndex faceObjs) →
  Forall (λ i, i < length (faces o)) (map fIndex faceObjs) →
  ∃ h' l' o',
    removeFaces this faceObjs h = (h', Ok l') ∧ h' !! l' = Some o' ∧
    faces o' = remove_positions (map fIndex faceObjs) (faces o) ∧
    length (faces o') = length (faces o) - length faceObjs ∧
    vertices o' = vertices o ∧
    ∃ h1 h2 b b',
      toJSON this h = (h1, Ok b) ∧ toJSON l' h' = (h2, Ok b') ∧
      base_name b' = base_name b ∧ base_vertices b' = base_vertices b.
Proof.
  intros Hwf Ho Hnd Hlt.
  destruct (apply_transform_transformed (RemoveFaces faceObjs) h this
              (mesh_of o) Hwf (mesh_at_lookup _ _ _ Ho) I)
    as (vs & fs & [-> ->] & h' & l' & Hrun & Hc).
  simpl in *. eexists h', l', _. split; [exact Hrun|].
  pose proof (created_lookup _ _ _ _ Hc) as Hl'.
  split; [exact Hl'|]. split; [done|]. split.
  { simpl. rewrite remove_positions_length by done. by rewrite length_map. }
  split; [done|].
  destruct (toJSON_returns h this (mesh_of o) Hwf (mesh_at_lookup _ _ _ Ho))
    as (h1 & Hj & _).
  pose proof (created_ext _ _ _ _ _ _ Hc) as Hext.
  destruct (toJSON_returns h' l' _ (ext_wf _ _ Hext) (mesh_at_lookup _ _ _ Hl'))
    as (h2 & Hj2 & _).
  by eexists h1, h2, _, _.
Qed.
End ClaimsTransforms.

Lemma transform_new_instance_witness :
  wf_heap [tetrahedron] ∧ [tetrahedron] !! 0 = Some tetrahedron ∧
  transform_ready [tetrahedron] (WithVertices []) ∧
  ∃ h' l' o',
    apply_transform (WithVertices []) 0 [tetrahedron] = (h', Ok l') ∧
    [tetrahedron] !! l' = None ∧ h' !! l' = Some o' ∧
    transform_result (WithVertices []) [tetrahedron] (mesh_of tetrahedron)
      (vertices o') (faces o') ∧
    graphs_uncomputed o' ∧
    (keeps_faces (WithVertices [] : @transform Z unit) = true →
       faces o' = faces tetrahedron ∧ _edges o' = Some (edges_of tetrahedron)) ∧
    ∀ l o1, [tetrahedron] !! l = Some o1 →
      ∃ o1', h' !! l = Some o1' ∧ mesh_of o1' = mesh_of o1.
Proof.
  split; [apply wf_heap_constructed|]. split; [reflexivity|]. split; [exact I|].
  apply (transform_new_instance (WithVertices []) [tetrahedron] 0 tetrahedron);
    [apply wf_heap_constructed | reflexivity | exact I].
Defined.

(** C1 as stated fails: the instance [withVertices] returns for a freshly
    built tetrahedron has its edge collection set, to the edges the call
    computed and stored in the receiver. *)
Lemma withVertices_inherits_edges :
  ∃ h' o' o0,
    withVertices 0 tetrahedron_vertices [tetrahedron] = (h', Ok 1) ∧
    h' !! 1 = Some o' ∧ h' !! 0 = Some o0 ∧
    _edges tetrahedron = None ∧
    _edges o0 = Some [(0, 1); (1, 2); (0, 2); (0, 3); (1, 3); (2, 3)] ∧
    _edges o' = Some [(0, 1); (1, 2); (0, 2); (0, 3); (1, 3); (2, 3)] ∧
    ¬ caches_uncomputed o'.
Proof.
  eexists _, _, _. split; [vm_compute; reflexivity|].
  split; [reflexivity|]. split; [reflexivity|]. split; [reflexivity|].
  split; [reflexivity|]. split; [reflexivity|].
  intros [H _]. discriminate H.
Qed.

Lemma of_toJSON_round_trip_witness :
  wf_heap [tetrahedron] ∧ [tetrahedron] !! 0 = Some tetrahedron ∧
  ∃ h1 h2 b b',
    toJSON 0 [tetrahedron] = (h1, Ok b) ∧
    (q <- Polyhedron_of (vertices tetrahedron) (faces tetrahedron) ;; toJSON q)
      [tetrahedron] = (h2, Ok b') ∧
    base_vertices b' = base_vertices b ∧ base_faces b' = base_faces b ∧
    base_vertices b' = vertices tetrahedron ∧ base_faces b' = faces tetrahedron.
Proof.
  split; [apply wf_heap_constructed|]. split; [reflexivity|].
  apply (of_toJSON_round_trip [tetrahedron] 0 tetrahedron);
    [apply wf_heap_constructed | reflexivity].
Defined.

Lemma removeFaces_positions_witness :
  wf_heap [tetrahedron] ∧ [tetrahedron] !! 0 = Some tetrahedron ∧
  NoDup (map fIndex [mkFaceObj 0 3; mkFaceObj 0 1]) ∧
  Forall (λ i, i < length (faces tetrahedron))
    (map fIndex [mkFaceObj 0 3; mkFaceObj 0 1]) ∧
  ∃ h' l' o',
    removeFaces 0 [mkFaceObj 0 3; mkFaceObj 0 1] [tetrahedron] = (h', Ok l') ∧
    h' !! l' = Some o' ∧
    faces o' = remove_positions (map fIndex [mkFaceObj 0 3; mkFaceObj 0 1])
                 (faces tetrahedron) ∧
    length (faces o') = length (faces tetrahedron) - 2 ∧
    vertices o' = vertices tetrahedron ∧
    ∃ h1 h2 b b',
      toJSON 0 [tetrahedron] = (h1, Ok b) ∧ toJSON l' h' = (h2, Ok b') ∧
      base_name b' = base_name b ∧ base_vertices b' = base_vertices b.
Proof.
  assert (Hnd : NoDup (map fIndex [mkFaceObj 0 3; mkFaceObj 0 1])).
  { simpl. apply NoDup_cons. split; [|apply NoDup_singleton].
    intros H. apply list_elem_of_singleton in H. discriminate H. }
  assert (Hlt : Forall (λ i, i < length (faces tetrahedron))
                  (map fIndex [mkFaceObj 0 3; mkFaceObj 0 1])).
  { simpl. repeat constructor. }
  split; [apply wf_heap_constructed|]. split; [reflexivity|].
  split; [exact Hnd|]. split; [exact Hlt|].
  apply (removeFaces_positions [tetrahedron] 0 tetrahedron
           [mkFaceObj 0 3; mkFaceObj 0 1]);
    [apply wf_heap_constructed | reflexivity | exact Hnd | exact Hlt].
Defined.

(** ** What the memoised graphs and the fingerprint return *)

Section GraphFacts.
Context {number Vec3D : Type}.
Local Abbreviation PolyObj := (PolyObj number Vec3D).
Local Abbreviation heap := (heap number Vec3D).
Local Abbreviation M := (M number Vec3D).
Implicit Types (h : heap) (l this : loc) (o : PolyObj) (m : @Mesh number Vec3D).

Lemma face_views_elem this count f :
  f ∈ face_views this count ↔ polyhedron f = this ∧ fIndex f < count.
Proof.
  unfold face_views. rewrite list_elem_of_fmap. split.
  - intros (i & -> & Hi). apply elem_of_seq in Hi. simpl. lia.
  - intros [<- Hi]. exists (fIndex f). split; [by destruct f|].
    apply elem_of_seq. lia.
Qed.

Lemma view_vIndices_valid (faces : list Face) f :
  fIndex f < length faces → view_vIndices faces f = Ok (view_face faces f).
Proof.
  intros Hi. unfold view_vIndices, view_face.
  destruct (lookup_lt_is_Some_2 faces _ Hi) as [vs ->]. done.
Qed.

(** Running a memoised method: the cache decides, and a computed value is
    stored when the body does not throw. *)
Lemma memoised_returns {A} (body : M A) (cache : PolyObj → option A)
    (set : A → PolyObj → PolyObj) (value : result A) h this m :
  wf_heap h → mesh_at h this = Some m →
  (∀ o a, mesh_of o = m → wf_obj this o → cache o = Some a → value = Ok a) →
  (∀ o a, mesh_of o = m → wf_obj this o → value = Ok a →
          wf_obj this (set a o) ∧ mesh_of (set a o) = mesh_of o) →
  (∀ h', ext h h' → returns body h' value) →
  returns (o <- deref this ;;
           match cache o with
           | Some g => ret g
           | None => g <- body ;; update this (set g) ;;; ret g
           end) h value.
Proof.
  intros Hwf Hm Hcache Hset Hbody.
  pose proof Hm as (o & Ho & Hmo)%mesh_at_Some.
  unfold returns, bind at 1, deref. rewrite Ho.
  destruct (cache o) as [a|] eqn:Hc.
  - rewrite (Hcache o a Hmo (Hwf _ _ Ho) Hc).
    exists h. split; [done | by apply ext_refl].
  - fold (returns (g <- body ;; update this (set g) ;;; ret g) h value).
    destruct value as [a|e].
    + eapply returns_bind; [apply Hbody; by apply ext_refl|]. intros h1 H1.
      pose proof (ext_mesh _ _ _ _ H1 Hm) as (o1 & Ho1 & Hmo1)%mesh_at_Some.
      destruct (Hset o1 a Hmo1 (ext_wf _ _ H1 _ _ Ho1) eq_refl) as [Hw1 Hm1].
      eapply returns_bind; [by eapply update_returns; [eapply ext_wf|..]|].
      intros h2 H2. apply returns_ret. by eapply ext_wf.
    + apply returns_bind_throw. apply Hbody. by apply ext_refl.
Qed.

Lemma replicate_map_nil {A B} (l : list A) :
  map (λ _, @nil B) l = replicate (length l) [].
Proof. induction l; simpl; [done | by f_equal]. Qed.

Lemma vertexToFaceGraph_body_returns h this m :
  wf_heap h → mesh_at h this = Some m →
  returns (vertexToFaceGraph_body this) h
    (vertexToFaceGraph_of this (length (mesh_vertices m)) (mesh_faces m)).
Proof.
  intros Hwf Hm. unfold vertexToFaceGraph_body.
  destruct (deref_returns _ _ _ Hwf Hm) as (o & Hmo & Hd).
  eapply returns_bind; [done|]. intros h1 H1.
  eapply returns_bind.
  { eapply getFaces_returns; [by eapply ext_wf | by eapply ext_mesh]. }
  intros h2 H2. unfold vertexToFaceGraph_of.
  rewrite replicate_map_nil.
  replace (length (vertices o)) with (length (mesh_vertices m)) by (by subst m).
  erewrite (foldR_ext (λ mapping face,
              foldR (vertexToFaceGraph_step face) (view_face (mesh_faces m) face)
                mapping)).
  - apply M_fold_returns; [by eapply ext_wf|].
    intros mapping face h3 Hf H3.
    apply face_views_elem in Hf as [Hp Hi].
    assert (Hm3 : mesh_at h3 (polyhedron face) = Some m).
    { rewrite Hp. eapply ext_mesh; [done|]. eapply ext_mesh; [done|].
      by eapply ext_mesh. }
    eapply returns_bind_result.
    + apply reads_returns; [by eapply ext_wf|].
      by apply FaceObj_vIndices_reads.
    + intros vs h4 Hvs H4. apply returns_lift. by eapply ext_wf.
  - intros mapping face Hf. apply face_views_elem in Hf as [Hp Hi].
    by rewrite view_vIndices_valid.
Qed.

Lemma vertexToFaceGraph_returns h this m :
  wf_heap h → mesh_at h this = Some m →
  returns (vertexToFaceGraph this) h
    (vertexToFaceGraph_of this (length (mesh_vertices m)) (mesh_faces m)).
Proof.
  intros Hwf Hm. unfold vertexToFaceGraph.
  apply (memoised_returns (vertexToFaceGraph_body this) _ _ _ h this m);
    try done.
  - intros o a <- Hw Hc. by apply (wf_vertexToFaceGraph _ _ Hw).
  - intros o a <- [G1 G2 G3 G4 G5] Hv. split; [|done].
    split; simpl; try done. by intros g [= <-].
  - intros h' H'. apply vertexToFaceGraph_body_returns;
      [by eapply ext_wf | by eapply ext_mesh].
Qed.

Lemma directedEdgeToFaceGraph_body_returns h this m :
  wf_heap h → mesh_at h this = Some m →
  returns (directedEdgeToFaceGraph_body this) h
    (Ok (directedEdgeToFaceGraph_of this (mesh_faces m))).
Proof.
  intros Hwf Hm. unfold directedEdgeToFaceGraph_body.
  eapply returns_bind; [by eapply getFaces_returns|]. intros h1 H1.
  unfold directedEdgeToFaceGraph_of. rewrite <- foldR_Ok.
  erewrite (foldR_ext (λ edgesToFaces face,
              Ok (fold_left (directedEdge_set face)
                    (consecutive_pairs (view_face (mesh_faces m) face))
                    edgesToFaces))).
  - apply M_fold_returns; [by eapply ext_wf|].
    intros g face h2 Hf H2.
    apply face_views_elem in Hf as [Hp Hi].
    assert (Hm2 : mesh_at h2 (polyhedron face) = Some m).
    { rewrite Hp. eapply ext_mesh; [done|]. by eapply ext_mesh. }
    eapply returns_bind_result.
    + unfold FaceObj_directedEdges. apply reads_returns; [by eapply ext_wf|].
      by apply (FaceObj_method_reads consecutive_pairs).
    + intros des h3 Hdes H3. apply returns_ret. by eapply ext_wf.
  - intros g face Hf. apply face_views_elem in Hf as [Hp Hi].
    by rewrite view_vIndices_valid.
Qed.

Lemma directedEdgeToFaceGraph_returns h this m :
  wf_heap h → mesh_at h this = Some m →
  returns (directedEdgeToFaceGraph this) h
    (Ok (directedEdgeToFaceGraph_of this (mesh_faces m))).
Proof.
  intros Hwf Hm. unfold directedEdgeToFaceGraph.
  apply (memoised_returns (directedEdgeToFaceGraph_body this) _ _ _ h this m);
    try done.
  - intros o a <- Hw Hc. f_equal. symmetry.
    by apply (wf_directedEdgeToFaceGraph _ _ Hw).
  - intros o a <- [G1 G2 G3 G4 G5] [= <-]. split; [|done].
    split; simpl; try done. by intros g [= <-].
  - intros h' H'. apply directedEdgeToFaceGraph_body_returns;
      [by eapply ext_wf | by eapply ext_mesh].
Qed.

Lemma edgeFaces_returns h this m e :
  wf_heap h → mesh_at h this = Some m →
  returns (edgeFaces this e) h
    (edgeFaces_in (directedEdgeToFaceGraph_of this (mesh_faces m)) e).
Proof.
  intros Hwf Hm. unfold edgeFaces.
  eapply returns_bind; [by eapply directedEdgeToFaceGraph_returns|].
  intros h1 H1. apply returns_lift. by eapply ext_wf.
Qed.

Lemma faceGraph_body_returns h this m :
  wf_heap h → mesh_at h this = Some m →
  returns (faceGraph_body this) h
    (faceGraph_of this (mesh_faces m) (mesh_edges m)).
Proof.
  intros Hwf Hm. unfold faceGraph_body.
  eapply returns_bind; [by eapply edges_returns|]. intros h1 H1.
  unfold faceGraph_of. apply M_fold_returns; [by eapply ext_wf|].
  intros g e h2 _ H2. eapply returns_bind_result.
  - apply edgeFaces_returns; [by eapply ext_wf|].
    eapply ext_mesh; [done|]. by eapply ext_mesh.
  - intros fs h3 _ H3. apply returns_lift. by eapply ext_wf.
Qed.

Lemma faceGraph_returns h this m :
  wf_heap h → mesh_at h this = Some m →
  returns (faceGraph this) h (faceGraph_of this (mesh_faces m) (mesh_edges m)).
Proof.
  intros Hwf Hm. unfold faceGraph.
  apply (memoised_returns (faceGraph_body this) _ _ _ h this m); try done.
  - intros o a <- Hw Hc. by apply (wf_faceGraph _ _ Hw).
  - intros o a <- [G1 G2 G3 G4 G5] Hv. split; [|done].
    split; simpl; try done. by intros g [= <-].
  - intros h' H'. apply faceGraph_body_returns;
      [by eapply ext_wf | by eapply ext_mesh].
Qed.

Lemma FaceObj_numSides_reads h this m f :
  mesh_at h this = Some m →
  polyhedron f = this →
  reads (FaceObj_numSides f) h (view_numSides this (mesh_faces m) f).
Proof.
  intros Hm Hp. unfold view_numSides. rewrite bool_decide_eq_true_2 by done.
  unfold FaceObj_numSides. rewrite <- Hp in Hm.
  pose proof (FaceObj_method_reads length h f m Hm) as Hr.
  unfold view_vIndices in Hr. by destruct (mesh_faces m !! fIndex f).
Qed.
End GraphFacts.

(** ** The directed-edge lookup *)

Section DirectedEdges.
Implicit Types (g : gmap nat (gmap nat FaceObj)) (e : nat * nat) (f : FaceObj).

Lemma directedEdge_lookup_set_eq g e f :
  directedEdge_lookup (directedEdge_set f g e) e = Some f.
Proof.
  unfold directedEdge_lookup, directedEdge_set.
  rewrite lookup_insert_eq. simpl. by rewrite lookup_insert_eq.
Qed.

Lemma directedEdge_lookup_set_ne g e e' f :
  e ≠ e' →
  directedEdge_lookup (directedEdge_set f g e) e' = directedEdge_lookup g e'.
Proof.
  intros Hne. unfold directedEdge_lookup, directedEdge_set.
  destruct (decide (e.1 = e'.1)) as [H1|H1].
  - rewrite H1, lookup_insert_eq. simpl.
    assert (H2 : e.2 ≠ e'.2).
    { intros H2. apply Hne. destruct e, e'; simpl in *; congruence. }
    rewrite lookup_insert_ne by done.
    by destruct (g !! e'.1).
  - by rewrite lookup_insert_ne.
Qed.

Lemma fold_enter_notin pairs g e :
  e ∉ pairs.*1 →
  directedEdge_lookup (fold_left enter pairs g) e = directedEdge_lookup g e.
Proof.
  revert g. induction pairs as [|[e' f'] pairs IH]; intros g Hn; simpl; [done|].
  simpl in Hn. apply not_elem_of_cons in Hn as [Hne Hn].
  rewrite IH by done. unfold enter. simpl.
  by apply directedEdge_lookup_set_ne.
Qed.

Lemma fold_enter_in pairs g e f :
  NoDup pairs.*1 → (e, f) ∈ pairs →
  directedEdge_lookup (fold_left enter pairs g) e = Some f.
Proof.
  revert g. induction pairs as [|[e' f'] pairs IH]; intros g Hnd Hin; simpl.
  - by apply elem_of_nil in Hin.
  - simpl in Hnd. apply NoDup_cons in Hnd as [Hn Hnd].
    apply elem_of_cons in Hin as [[= <- <-]|Hin].
    + rewrite fold_enter_notin by done. apply directedEdge_lookup_set_eq.
    + by apply IH.
Qed.

Lemma fold_enter_Some pairs g e f :
  directedEdge_lookup (fold_left enter pairs g) e = Some f →
  (e, f) ∈ pairs ∨ directedEdge_lookup g e = Some f.
Proof.
  revert g. induction pairs as [|[e' f'] pairs IH]; intros g H; simpl in *.
  - by right.
  - apply IH in H as [H|H]; [left; by right|].
    unfold enter in H. simpl in H.
    destruct (decide (e' = e)) as [->|Hne].
    + rewrite directedEdge_lookup_set_eq in H. injection H as ->. left. by left.
    + rewrite directedEdge_lookup_set_ne in H by done. by right.
Qed.

Lemma fold_directedEdge_set_enter f es g :
  fold_left (directedEdge_set f) es g
  = fold_left enter (map (λ e, (e, f)) es) g.
Proof. revert g. induction es as [|e es IH]; intros g; simpl; [done|]. apply IH. Qed.

Lemma directedEdgeToFaceGraph_of_enter this (faces : list (list nat)) :
  directedEdgeToFaceGraph_of this faces
  = fold_left enter (directed_list this faces) ∅.
Proof.
  unfold directedEdgeToFaceGraph_of, directed_list.
  generalize (face_views this (length faces)).
  generalize (∅ : gmap nat (gmap nat FaceObj)).
  intros g views. revert g.
  induction views as [|f views IH]; intros g; simpl; [done|].
  rewrite fold_left_app, <- fold_directedEdge_set_enter. apply IH.
Qed.

Lemma directedEdge_lookup_empty e : directedEdge_lookup ∅ e = None.
Proof. unfold directedEdge_lookup. by rewrite lookup_empty. Qed.

(** An entry of the lookup is a view of a face that has the directed
    edge. *)
Lemma directedEdgeToFaceGraph_of_Some this (faces : list (list nat)) e f :
  directedEdge_lookup (directedEdgeToFaceGraph_of this faces) e = Some f →
  (e, f) ∈ directed_list this faces.
Proof.
  rewrite directedEdgeToFaceGraph_of_enter. intros H.
  apply fold_enter_Some in H as [H|H]; [done|].
  by rewrite directedEdge_lookup_empty in H.
Qed.

Lemma directed_list_elem this (faces : list (list nat)) e f :
  (e, f) ∈ directed_list this faces ↔
  f ∈ face_views this (length faces) ∧
  e ∈ consecutive_pairs (view_face faces f).
Proof.
  unfold directed_list. rewrite list_elem_of_In, in_flat_map. split.
  - intros (f' & Hf' & Hin). apply list_elem_of_In, list_elem_of_fmap in Hin
      as (e' & [= -> ->] & He). split; [by apply list_elem_of_In | done].
  - intros [Hf He]. exists f. split; [by apply list_elem_of_In|].
    apply list_elem_of_In, list_elem_of_fmap. by exists e.
Qed.

Lemma flat_map_face_views {B} (F : list nat → list B) this (faces : list (list nat)) :
  flat_map (λ f, F (view_face faces f)) (face_views this (length faces))
  = flat_map F faces.
Proof.
  unfold face_views.
  assert (H : ∀ k (pre : list (list nat)), length pre = k →
    flat_map (λ f, F (view_face (pre ++ faces) f))
      (map (mkFaceObj this) (seq k (length faces))) = flat_map F faces).
  { induction faces as [|face faces IH]; intros k pre Hk; simpl; [done|].
    unfold view_face at 1. simpl.
    rewrite lookup_app_r by lia. rewrite Hk, Nat.sub_diag. simpl.
    specialize (IH (S k) (pre ++ [face])). rewrite <- app_assoc in IH.
    simpl in IH. rewrite IH; [done|]. rewrite length_app. simpl. lia. }
  apply (H 0 []). done.
Qed.

Lemma directed_list_fst this (faces : list (list nat)) :
  (directed_list this faces).*1 = flat_map consecutive_pairs faces.
Proof.
  unfold directed_list.
  rewrite <- (flat_map_face_views consecutive_pairs this faces).
  generalize (face_views this (length faces)). intros views.
  induction views as [|f views IH]; simpl; [done|].
  rewrite fmap_app, IH. f_equal.
  rewrite <- list_fmap_compose. simpl. apply list_fmap_id.
Qed.

Lemma edgeFaces_in_Ok g e x y :
  edgeFaces_in g e = Ok (x, y) →
  x = directedEdge_lookup g e ∧ y = directedEdge_lookup g (swap_pair e).
Proof.
  unfold edgeFaces_in, directedEdge_lookup, swap_pair. simpl.
  destruct (g !! e.1) as [r1|]; [|done].
  destruct (g !! e.2) as [r2|]; [|done]. simpl. by intros [= <- <-].
Qed.

Lemma edgeFaces_in_Some g e f1 f2 :
  directedEdge_lookup g e = Some f1 →
  directedEdge_lookup g (swap_pair e) = Some f2 →
  edgeFaces_in g e = Ok (Some f1, Some f2).
Proof.
  unfold edgeFaces_in, directedEdge_lookup, swap_pair. simpl.
  destruct (g !! e.1) as [r1|]; [|done].
  destruct (g !! e.2) as [r2|]; [|done]. simpl. by intros -> ->.
Qed.
End DirectedEdges.

(** ** The face-adjacency graph *)

Section FaceGraph.
Implicit Types (graph : gmap nat (list FaceObj)) (f : FaceObj).

Lemma faceGraph_step_lookup graph f1 f2 graph' i :
  faceGraph_step graph (Some f1, Some f2) = Ok graph' →
  default [] (graph' !! i)
  = default [] (graph !! i) ++ neighbours_step i (f1, f2).
Proof.
  unfold faceGraph_step, neighbours_step. simpl. intros [= <-].
  set (g1 := match graph !! fIndex f1 with
             | Some _ => graph | None => <[fIndex f1 := []]> graph end).
  set (g2 := match g1 !! fIndex f2 with
             | Some _ => g1 | None => <[fIndex f2 := []]> g1 end).
  assert (H1 : ∀ j, default [] (g1 !! j) = default [] (graph !! j)).
  { intros j. unfold g1. destruct (graph !! fIndex f1) eqn:E; [done|].
    destruct (decide (fIndex f1 = j)) as [<-|Hne].
    - by rewrite lookup_insert_eq, E.
    - by rewrite lookup_insert_ne. }
  assert (H2 : ∀ j, default [] (g2 !! j) = default [] (graph !! j)).
  { intros j. rewrite <- H1. unfold g2. destruct (g1 !! fIndex f2) eqn:E; [done|].
    destruct (decide (fIndex f2 = j)) as [<-|Hne].
    - by rewrite lookup_insert_eq, E.
    - by rewrite lookup_insert_ne. }
  assert (K1 : is_Some (g2 !! fIndex f1)).
  { unfold g2. destruct (g1 !! fIndex f2) eqn:E.
    - unfold g1. destruct (graph !! fIndex f1) eqn:E'; [by eexists|].
      rewrite lookup_insert_eq. by eexists.
    - destruct (decide (fIndex f2 = fIndex f1)) as [Heq|Hne].
      + rewrite Heq, lookup_insert_eq. by eexists.
      + rewrite lookup_insert_ne by done.
        unfold g1. destruct (graph !! fIndex f1) eqn:E'; [by eexists|].
        rewrite lookup_insert_eq. by eexists. }
  assert (K2 : is_Some (g2 !! fIndex f2)).
  { unfold g2. destruct (g1 !! fIndex f2) eqn:E; [by eexists|].
    rewrite lookup_insert_eq. by eexists. }
  rewrite <- (H2 i).
  destruct K1 as [l1 K1], K2 as [l2 K2].
  destruct (decide (i = fIndex f1)) as [E1|N1];
    destruct (decide (i = fIndex f2)) as [E2|N2].
  - rewrite !bool_decide_eq_true_2 by done.
    rewrite <- E1, <- E2 in *. rewrite lookup_alter_eq, lookup_alter_eq, K1.
    simpl. by rewrite <- app_assoc.
  - rewrite bool_decide_eq_true_2 by done.
    rewrite bool_decide_eq_false_2 by done. rewrite <- E1 in *.
    rewrite lookup_alter_ne by done. rewrite lookup_alter_eq, K1. simpl.
    by rewrite ?app_nil_r.
  - rewrite bool_decide_eq_false_2 by done.
    rewrite bool_decide_eq_true_2 by done. rewrite <- E2 in *.
    rewrite lookup_alter_eq. rewrite lookup_alter_ne by done.
    by rewrite K2, ?app_nil_r.
  - rewrite !bool_decide_eq_false_2 by done.
    rewrite !lookup_alter_ne by done. by rewrite ?app_nil_r.
Qed.

Lemma faceGraph_fold_neighbours deg es graph graph' i :
  foldR (λ graph e, result_bind (edgeFaces_in deg e) (faceGraph_step graph))
    es graph = Ok graph' →
  default [] (graph' !! i)
  = default [] (graph !! i)
    ++ flat_map (λ e, from_option (neighbours_step i) [] (resolve deg e)) es.
Proof.
  revert graph. induction es as [|e es IH]; intros graph;
    cbn [foldR flat_map].
  - intros [= <-]. by rewrite app_nil_r.
  - destruct (edgeFaces_in deg e) as [[x y]|] eqn:He; cbn [result_bind]; [|done].
    apply edgeFaces_in_Ok in He as [-> ->].
    unfold resolve.
    destruct (directedEdge_lookup deg e) as [f1|];
      destruct (directedEdge_lookup deg (swap_pair e)) as [f2|];
      cbn [from_option]; try done.
    destruct (faceGraph_step graph (Some f1, Some f2)) as [g1|] eqn:Hs;
      cbn [result_bind]; [|done].
    intros H. rewrite (IH _ H).
    rewrite (faceGraph_step_lookup _ _ _ _ i Hs). by rewrite <- app_assoc.
Qed.

Lemma faceGraph_fold_Ok deg es graph :
  (∀ e, e ∈ es → is_Some (resolve deg e)) →
  is_Ok (foldR (λ graph e, result_bind (edgeFaces_in deg e) (faceGraph_step graph))
           es graph) = true.
Proof.
  revert graph. induction es as [|e es IH]; intros graph H; simpl; [done|].
  destruct (H e) as [[f1 f2] Hr]; [by left|].
  unfold resolve in Hr.
  destruct (directedEdge_lookup deg e) as [f1'|] eqn:E1; [|done].
  destruct (directedEdge_lookup deg (swap_pair e)) as [f2'|] eqn:E2; [|done].
  rewrite (edgeFaces_in_Some _ _ _ _ E1 E2). simpl.
  apply IH. intros. apply H. by right.
Qed.

Lemma faceGraph_of_neighbours this (faces : list (list nat)) es graph i :
  faceGraph_of this faces es = Ok graph →
  default [] (graph !! i)
  = flat_map (λ e, from_option (neighbours_step i) []
                     (resolve (directedEdgeToFaceGraph_of this faces) e)) es.
Proof.
  intros H. apply (faceGraph_fold_neighbours _ _ _ _ i) in H.
  by rewrite lookup_empty in H.
Qed.

Lemma resolve_views this (faces : list (list nat)) e f1 f2 :
  resolve (directedEdgeToFaceGraph_of this faces) e = Some (f1, f2) →
  f1 ∈ face_views this (length faces) ∧ f2 ∈ face_views this (length faces).
Proof.
  unfold resolve.
  destruct (directedEdge_lookup _ e) as [f1'|] eqn:E1; [|done].
  destruct (directedEdge_lookup _ (swap_pair e)) as [f2'|] eqn:E2; [|done].
  intros [= <- <-].
  apply directedEdgeToFaceGraph_of_Some, directed_list_elem in E1 as [? _].
  apply directedEdgeToFaceGraph_of_Some, directed_list_elem in E2 as [? _].
  done.
Qed.

(** Every neighbour in the graph is a view of a face of the mesh. *)
Lemma faceGraph_of_views this (faces : list (list nat)) es graph i f :
  faceGraph_of this faces es = Ok graph →
  f ∈ default [] (graph !! i) → f ∈ face_views this (length faces).
Proof.
  intros H. rewrite (faceGraph_of_neighbours _ _ _ _ i H).
  rewrite list_elem_of_In, in_flat_map. intros (e & _ & Hin).
  destruct (resolve _ e) as [[f1 f2]|] eqn:Hr; simpl in Hin; [|done].
  apply resolve_views in Hr as [V1 V2].
  unfold neighbours_step in Hin. simpl in Hin.
  apply list_elem_of_In, elem_of_app in Hin as [Hin|Hin].
  - destruct (bool_decide _); [|by apply elem_of_nil in Hin].
    by apply list_elem_of_singleton in Hin as ->.
  - destruct (bool_decide _); [|by apply elem_of_nil in Hin].
    by apply list_elem_of_singleton in Hin as ->.
Qed.
End FaceGraph.

Section FingerprintFacts.
Context {number Vec3D : Type}.
Local Abbreviation PolyObj := (PolyObj number Vec3D).
Local Abbreviation heap := (heap number Vec3D).
Local Abbreviation M := (M number Vec3D).
Implicit Types (h : heap) (l this : loc) (o : PolyObj) (m : @Mesh number Vec3D).

Lemma FaceObj_adjacentFaces_returns h this m f :
  wf_heap h → mesh_at h this = Some m → polyhedron f = this →
  returns (FaceObj_adjacentFaces f) h
    (result_bind (faceGraph_of this (mesh_faces m) (mesh_edges m))
       (λ graph, Ok (graph !! fIndex f))).
Proof.
  intros Hwf Hm Hp. unfold FaceObj_adjacentFaces. rewrite Hp.
  apply returns_bind_result; [by apply faceGraph_returns|].
  intros graph h1 _ H1. apply returns_ret. by eapply ext_wf.
Qed.

Lemma faceAdjacencyCount_returns h this m f :
  wf_heap h → mesh_at h this = Some m → polyhedron f = this →
  returns (faceAdjacencyCount f) h
    (faceAdjacencyCount_of this (mesh_faces m) (mesh_edges m) f).
Proof.
  intros Hwf Hm Hp. unfold faceAdjacencyCount, faceAdjacencyCount_of.
  apply returns_bind_result.
  { apply reads_returns; [done|]. by apply FaceObj_numSides_reads. }
  intros n h1 _ H1.
  pose proof (FaceObj_adjacentFaces_returns h1 this m f (ext_wf _ _ H1)
                (ext_mesh _ _ _ _ H1 Hm) Hp) as Hadj.
  destruct (faceGraph_of this (mesh_faces m) (mesh_edges m)) as [graph|e] eqn:Hg;
    simpl in *; [|by apply returns_bind_throw].
  eapply returns_bind; [exact Hadj|]. intros h2 H2.
  apply returns_bind_result.
  - apply M_map_returns; [by eapply ext_wf|]. intros x h3 Hx H3.
    apply reads_returns; [by eapply ext_wf|].
    apply FaceObj_numSides_reads.
    + eapply ext_mesh; [done|]. eapply ext_mesh; [done|]. by eapply ext_mesh.
    + apply (faceGraph_of_views _ _ _ _ (fIndex f) x Hg) in Hx.
      by apply face_views_elem in Hx as [? _].
  - intros ns h3 _ H3. apply returns_ret. by eapply ext_wf.
Qed.

Lemma faceAdjacencyList_returns h this m :
  wf_heap h → mesh_at h this = Some m →
  returns (faceAdjacencyList this) h
    (faceAdjacencyList_of this (mesh_faces m) (mesh_edges m)).
Proof.
  intros Hwf Hm. unfold faceAdjacencyList, faceAdjacencyList_of.
  eapply returns_bind; [by eapply getFaces_returns|]. intros h1 H1.
  apply returns_bind_result.
  - apply M_map_returns; [by eapply ext_wf|]. intros f h2 Hf H2.
    apply face_views_elem in Hf as [Hp _].
    apply faceAdjacencyCount_returns; [by eapply ext_wf | | done].
    eapply ext_mesh; [done|]. by eapply ext_mesh.
  - intros counts h2 _ H2. apply returns_ret. by eapply ext_wf.
Qed.

Lemma isSame_returns h this other m1 m2 :
  wf_heap h → mesh_at h this = Some m1 → mesh_at h other = Some m2 →
  returns (isSame this other) h
    (isSame_of this other (mesh_faces m1) (mesh_edges m1)
       (mesh_faces m2) (mesh_edges m2)).
Proof.
  intros Hwf Hm1 Hm2. unfold isSame, isSame_of.
  eapply returns_bind; [by eapply faceCount_returns|]. intros h1 H1.
  eapply returns_bind.
  { eapply faceCount_returns; [by eapply ext_wf | by eapply ext_mesh]. }
  intros h2 H2.
  destruct (negb _); [apply returns_ret; by eapply ext_wf|].
  apply returns_bind_result.
  { apply faceAdjacencyList_returns; [by eapply ext_wf|].
    eapply ext_mesh; [done|]. by eapply ext_mesh. }
  intros fp1 h3 _ H3. apply returns_bind_result.
  { apply faceAdjacencyList_returns; [by eapply ext_wf|].
    eapply ext_mesh; [done|]. eapply ext_mesh; [done|]. by eapply ext_mesh. }
  intros fp2 h4 _ H4. apply returns_ret. by eapply ext_wf.
Qed.
End FingerprintFacts.

(** ** Lists without duplicates, histograms and unique owners *)

Section ListFacts.
Import Lodash.

Lemma uniqBy_from_id_elem {A} `{EqDecision A} (seen l : list A) x :
  x ∈ uniqBy_from (λ y, y) seen l ↔ x ∈ l ∧ x ∉ seen.
Proof.
  revert seen. induction l as [|y l IH]; intros seen; simpl.
  - split; [by intros ?%elem_of_nil | by intros [?%elem_of_nil _]].
  - destruct (decide (y ∈ seen)) as [Hy|Hy].
    + rewrite bool_decide_eq_true_2 by done. rewrite IH, elem_of_cons.
      split; [tauto|]. intros [[->|?] ?]; [done | tauto].
    + rewrite bool_decide_eq_false_2 by done.
      rewrite elem_of_cons, IH, !elem_of_cons.
      destruct (decide (x = y)) as [->|Hne]; tauto.
Qed.

Lemma uniqBy_from_id_NoDup {A} `{EqDecision A} (seen l : list A) :
  NoDup (uniqBy_from (λ y, y) seen l).
Proof.
  revert seen. induction l as [|y l IH]; intros seen; simpl; [constructor|].
  destruct (bool_decide (y ∈ seen)); [apply IH|].
  apply NoDup_cons. split; [|apply IH].
  rewrite uniqBy_from_id_elem. intros [_ Hn]. apply Hn. by left.
Qed.

Lemma uniq_elem {A} `{EqDecision A} (l : list A) x : x ∈ uniq l ↔ x ∈ l.
Proof.
  unfold uniq, uniqBy. rewrite uniqBy_from_id_elem.
  split; [tauto|]. intros ?. split; [done | apply not_elem_of_nil].
Qed.

Lemma uniq_NoDup {A} `{EqDecision A} (l : list A) : NoDup (uniq l).
Proof. apply uniqBy_from_id_NoDup. Qed.

(** The histogram counts the elements of every key. *)
Lemma countBy_fold_lookup {A} (f : A → nat) (l : list A)
    (acc : gmap nat nat) k :
  fold_left (λ acc x, <[f x := S (default 0 (acc !! f x))]> acc) l acc !! k
  = match length (filter (λ x, f x = k) l) with
    | 0 => acc !! k
    | S c => Some (S c + default 0 (acc !! k))
    end.
Proof.
  revert acc. induction l as [|x l IH]; intros acc; simpl; [done|].
  rewrite IH. rewrite filter_cons.
  destruct (decide (f x = k)) as [<-|Hne]; simpl.
  - rewrite lookup_insert_eq. simpl.
    destruct (length (filter _ l)); f_equal; lia.
  - by rewrite lookup_insert_ne.
Qed.

Lemma countBy_lookup {A} (f : A → nat) (l : list A) k :
  countBy f l !! k
  = match length (filter (λ x, f x = k) l) with
    | 0 => None
    | S c => Some (S c)
    end.
Proof.
  unfold countBy. rewrite countBy_fold_lookup, lookup_empty. simpl.
  destruct (length _); [done|]. f_equal. lia.
Qed.

Lemma countBy_perm {A} (f : A → nat) (l1 l2 : list A) :
  l1 ≡ₚ l2 → countBy f l1 = countBy f l2.
Proof.
  intros Hp. apply map_eq. intros k. rewrite !countBy_lookup.
  by rewrite Hp.
Qed.

Lemma countBy_key {A} (f : A → nat) (l : list A) k c :
  countBy f l !! k = Some c → ∃ x, x ∈ l ∧ f x = k.
Proof.
  rewrite countBy_lookup.
  destruct (filter (λ x, f x = k) l) as [|x rest] eqn:E; simpl; [done|].
  intros _. exists x.
  assert (Hx : x ∈ filter (λ x, f x = k) l) by (rewrite E; by left).
  by apply list_elem_of_filter in Hx as [? ?].
Qed.

(** In a collection of lists that share no element, the first list that
    has [d] is the only one. *)
Lemma find_owner {A B} `{EqDecision B} (F : A → list B) (l : list A) x d :
  NoDup (flat_map F l) → x ∈ l → d ∈ F x →
  List.find (λ y, bool_decide (d ∈ F y)) l = Some x.
Proof.
  induction l as [|y l IH]; intros Hnd Hx Hd; [by apply elem_of_nil in Hx|].
  simpl in *. apply NoDup_app in Hnd as (Hy & Hdisj & Hl).
  destruct (decide (d ∈ F y)) as [Hdy|Hdy].
  - rewrite bool_decide_eq_true_2 by done.
    apply elem_of_cons in Hx as [->|Hx]; [done|].
    exfalso. apply (Hdisj d Hdy).
    apply list_elem_of_In, in_flat_map. exists x.
    split; by apply list_elem_of_In.
  - rewrite bool_decide_eq_false_2 by done.
    apply elem_of_cons in Hx as [->|Hx]; [done|]. by apply IH.
Qed.

Lemma consecutive_pairs_map (σ : nat → nat) (face : list nat) :
  consecutive_pairs (map σ face)
  = map (λ e : nat * nat, (σ e.1, σ e.2)) (consecutive_pairs face).
Proof.
  destruct face as [|v rest]; [done|]. unfold consecutive_pairs.
  change (map σ (v :: rest)) with (σ v :: map σ rest).
  assert (H : ∀ (l1 l2 : list nat),
             zip (map σ l1) (map σ l2)
             = map (λ e : nat * nat, (σ e.1, σ e.2)) (zip l1 l2)).
  { induction l1 as [|a l1 IH]; intros [|b l2]; simpl; try done.
    by rewrite IH. }
  rewrite <- (H (v :: rest) (rest ++ [v])). f_equal.
  by rewrite map_app.
Qed.

Lemma flat_map_app_perm {A B} (F G : A → list B) (l : list A) :
  flat_map (λ x, F x ++ G x) l ≡ₚ flat_map F l ++ flat_map G l.
Proof.
  induction l as [|x l IH]; simpl; [done|]. rewrite IH.
  rewrite <- !app_assoc. apply Permutation_app_head.
  rewrite !app_assoc. apply Permutation_app_tail, Permutation_app_comm.
Qed.

Lemma flat_map_perm {A B} (F : A → list B) (l1 l2 : list A) :
  l1 ≡ₚ l2 → flat_map F l1 ≡ₚ flat_map F l2.
Proof.
  induction 1 as [|x l1 l2 _ IH|x y l|l1 l2 l3 _ IH1 _ IH2]; simpl.
  - done.
  - by rewrite IH.
  - rewrite !app_assoc. apply Permutation_app_tail, Permutation_app_comm.
  - by rewrite IH1.
Qed.

Lemma flat_map_map {A B C} (F : B → list C) (g : A → B) (l : list A) :
  flat_map F (map g l) = flat_map (λ x, F (g x)) l.
Proof. induction l as [|x l IH]; simpl; [done | by rewrite IH]. Qed.

Lemma flat_map_filter_map {A B} (P : A → bool) (g : A → B) (l : list A) :
  flat_map (λ x, if P x then [g x] else []) l
  = map g (filter (λ x, P x = true) l).
Proof.
  induction l as [|x l IH]; simpl; [done|]. rewrite filter_cons, IH.
  destruct (decide (P x = true)) as [E|E].
  - by rewrite E.
  - apply not_true_is_false in E. by rewrite E.
Qed.

Lemma map_face_views {B} (g : list nat → B) this (faces : list (list nat)) :
  map (λ f, g (view_face faces f)) (face_views this (length faces))
  = map g faces.
Proof.
  pose proof (flat_map_face_views (λ face, [g face]) this faces) as H.
  assert (Hs : ∀ {X} (k : X → B) (l : list X),
             flat_map (λ x, [k x]) l = map k l).
  { intros X k l. induction l as [|x l IH]; simpl; [done | by rewrite IH]. }
  by rewrite !Hs in H.
Qed.
End ListFacts.

(** ** The fingerprint of a closed mesh *)

Section ClosedMesh.
Context (this : nat) (faces : list (list nat)) (es : list (nat * nat)).
Hypothesis Hclosed : closed_mesh faces.
Hypothesis Hcover : edges_cover faces es.

Local Abbreviation deg := (directedEdgeToFaceGraph_of this faces).
Local Abbreviation views := (face_views this (length faces)).

Lemma directed_NoDup : NoDup (all_directed faces).
Proof using Hclosed. by destruct Hclosed. Qed.

Lemma view_face_elem f : f ∈ views → view_face faces f ∈ faces.
Proof.
  intros [_ Hi]%face_views_elem. unfold view_face.
  destruct (lookup_lt_is_Some_2 faces _ Hi) as [vs Hvs]. rewrite Hvs. simpl.
  by eapply list_elem_of_lookup_2.
Qed.

Lemma owner_lookup f d :
  f ∈ views → d ∈ consecutive_pairs (view_face faces f) →
  directedEdge_lookup deg d = Some f.
Proof using Hclosed.
  intros Hf Hd. rewrite directedEdgeToFaceGraph_of_enter.
  apply fold_enter_in.
  - rewrite directed_list_fst. apply directed_NoDup.
  - by apply directed_list_elem.
Qed.

Lemma directed_has_owner d :
  d ∈ all_directed faces →
  ∃ f, f ∈ views ∧ d ∈ consecutive_pairs (view_face faces f).
Proof.
  unfold all_directed. rewrite <- (directed_list_fst this).
  intros ([d' f] & -> & Hin)%list_elem_of_fmap. exists f.
  by apply directed_list_elem.
Qed.

Lemma side_of_owner f d :
  f ∈ views → d ∈ consecutive_pairs (view_face faces f) →
  side_of faces d = length (view_face faces f).
Proof using Hclosed.
  intros Hf Hd. unfold side_of.
  rewrite (find_owner consecutive_pairs faces (view_face faces f) d); try done.
  - apply directed_NoDup.
  - by apply view_face_elem.
Qed.

Lemma covered_directed e :
  e ∈ es → e ∈ all_directed faces ∧ swap_pair e ∈ all_directed faces.
Proof using Hcover.
  intros He. unfold edges_cover in Hcover. split.
  - rewrite <- Hcover. apply elem_of_app. by left.
  - rewrite <- Hcover. apply elem_of_app. right.
    apply list_elem_of_fmap. by exists e.
Qed.

Lemma covered_resolve e :
  e ∈ es →
  ∃ f1 f2, resolve deg e = Some (f1, f2) ∧
    f1 ∈ views ∧ e ∈ consecutive_pairs (view_face faces f1) ∧
    f2 ∈ views ∧ swap_pair e ∈ consecutive_pairs (view_face faces f2).
Proof using Hclosed Hcover.
  intros [H1 H2]%covered_directed.
  apply directed_has_owner in H1 as (f1 & V1 & P1).
  apply directed_has_owner in H2 as (f2 & V2 & P2).
  exists f1, f2. unfold resolve.
  rewrite (owner_lookup f1 e), (owner_lookup f2 (swap_pair e)); done.
Qed.

Lemma closed_faceGraph_Ok : ∃ graph, faceGraph_of this faces es = Ok graph.
Proof using Hclosed Hcover.
  pose proof (faceGraph_fold_Ok deg es ∅) as H.
  unfold faceGraph_of. destruct (foldR _ es ∅) as [graph|e]; [by eexists|].
  discriminate H. intros e' He'.
  destruct (covered_resolve e' He') as (f1 & f2 & Hr & _). by eexists.
Qed.

Local Abbreviation owner_index := (owner_index deg).
Local Abbreviation contributes := (contributes faces deg).

Lemma swap_pair_involutive e : swap_pair (swap_pair e) = e.
Proof. by destruct e. Qed.

Lemma neighbour_sides_covered i e :
  e ∈ es →
  map (λ x, length (view_face faces x))
    (from_option (neighbours_step i) [] (resolve deg e))
  = contributes i e ++ contributes i (swap_pair e).
Proof using Hclosed Hcover.
  intros He. destruct (covered_resolve e He) as (f1 & f2 & Hr & V1 & P1 & V2 & P2).
  rewrite Hr. simpl. unfold neighbours_step, contributes, owner_index. simpl.
  rewrite (owner_lookup f1 e), (owner_lookup f2 (swap_pair e)) by done.
  simpl. rewrite swap_pair_involutive.
  rewrite (side_of_owner f2 (swap_pair e)), (side_of_owner f1 e) by done.
  rewrite map_app.
  assert (Hb : ∀ j, bool_decide (Some j = Some i) = bool_decide (i = j)).
  { intros j. apply bool_decide_ext. split; congruence. }
  rewrite !Hb. by do 2 destruct (bool_decide _).
Qed.

Lemma flat_map_ext_elem {A B} (F G : A → list B) (l : list A) :
  (∀ x, x ∈ l → F x = G x) → flat_map F l = flat_map G l.
Proof.
  induction l as [|x l IH]; intros H; simpl; [done|].
  rewrite H by left. rewrite IH; [done|]. intros. apply H. by right.
Qed.

Lemma map_flat_map {A B C} (g : B → C) (F : A → list B) (l : list A) :
  map g (flat_map F l) = flat_map (λ x, map g (F x)) l.
Proof. induction l as [|x l IH]; simpl; [done|]. by rewrite map_app, IH. Qed.

Lemma NoDup_flat_map_elem {A B} (F : A → list B) (l : list A) x :
  NoDup (flat_map F l) → x ∈ l → NoDup (F x).
Proof.
  induction l as [|y l IH]; intros Hnd Hx; [by apply elem_of_nil in Hx|].
  simpl in Hnd. apply NoDup_app in Hnd as (Hy & _ & Hl).
  apply elem_of_cons in Hx as [->|Hx]; [done | by apply IH].
Qed.

Lemma owned_directed f :
  f ∈ views →
  filter (λ d, bool_decide (owner_index d = Some (fIndex f)) = true)
    (all_directed faces)
  ≡ₚ consecutive_pairs (view_face faces f).
Proof using Hclosed.
  intros Hf. apply NoDup_Permutation.
  - apply NoDup_filter, directed_NoDup.
  - apply (NoDup_flat_map_elem consecutive_pairs faces); [apply directed_NoDup|].
    by apply view_face_elem.
  - intros d. rewrite list_elem_of_filter, bool_decide_eq_true. split.
    + intros [Ho Hd]. apply directed_has_owner in Hd as (f' & V' & P').
      unfold owner_index in Ho. rewrite (owner_lookup f' d) in Ho by done.
      simpl in Ho. injection Ho as Ho.
      apply face_views_elem in Hf as [Hp1 _].
      pose proof V' as [Hp2 _]%face_views_elem.
      assert (f' = f) as <- by (destruct f, f'; simpl in *; congruence).
      done.
    + intros Hd. split.
      * unfold owner_index. by rewrite (owner_lookup f d).
      * apply list_elem_of_In, in_flat_map. exists (view_face faces f).
        split; apply list_elem_of_In; [by apply view_face_elem | done].
Qed.

Lemma neighbour_sides f graph :
  f ∈ views → faceGraph_of this faces es = Ok graph →
  map (λ x, length (view_face faces x)) (default [] (graph !! fIndex f))
  ≡ₚ map (λ d, side_of faces (swap_pair d))
       (consecutive_pairs (view_face faces f)).
Proof using Hclosed Hcover.
  intros Hf Hg.
  rewrite (faceGraph_of_neighbours _ _ _ _ (fIndex f) Hg).
  rewrite map_flat_map.
  rewrite (flat_map_ext_elem _
             (λ e, contributes (fIndex f) e ++ contributes (fIndex f) (swap_pair e)))
    by (intros; by apply neighbour_sides_covered).
  rewrite flat_map_app_perm.
  rewrite <- (flat_map_map (contributes (fIndex f)) swap_pair).
  rewrite <- flat_map_app.
  rewrite (flat_map_perm _ _ _ Hcover).
  unfold contributes. rewrite flat_map_filter_map.
  by rewrite (owned_directed f Hf).
Qed.

Lemma view_numSides_valid f :
  f ∈ views → view_numSides this faces f = Ok (length (view_face faces f)).
Proof.
  intros [Hp Hi]%face_views_elem. unfold view_numSides, view_face.
  rewrite bool_decide_eq_true_2 by done.
  by destruct (lookup_lt_is_Some_2 faces _ Hi) as [vs ->].
Qed.

Lemma closed_faceAdjacencyCount f :
  f ∈ views →
  faceAdjacencyCount_of this faces es f
  = Ok (entry_of faces (view_face faces f)).
Proof using Hclosed Hcover.
  intros Hf. unfold faceAdjacencyCount_of, entry_of.
  rewrite view_numSides_valid by done. simpl.
  destruct closed_faceGraph_Ok as [graph Hg]. rewrite Hg. simpl.
  rewrite (mapR_ext _ (λ x, Ok (length (view_face faces x)))).
  - rewrite mapR_Ok. simpl. do 2 f_equal.
    apply countBy_perm. by apply neighbour_sides.
  - intros x Hx. apply view_numSides_valid.
    by eapply faceGraph_of_views.
Qed.

(** The fingerprint of a closed mesh: the entries of its faces, sorted. *)
Lemma closed_faceAdjacencyList :
  faceAdjacencyList_of this faces es
  = Ok (Lodash.sortBy faceAdjacency_criteria (map (entry_of faces) faces)).
Proof using Hclosed Hcover.
  unfold faceAdjacencyList_of.
  rewrite (mapR_ext _ (λ f, Ok (entry_of faces (view_face faces f))))
    by apply closed_faceAdjacencyCount.
  rewrite mapR_Ok. simpl. by rewrite map_face_views.
Qed.
End ClosedMesh.

(** ** Relabelling a closed mesh *)

Section Relabel.
Context (σ : nat → nat) (faces faces' : list (list nat)).
Hypothesis Hclosed : closed_mesh faces.
Hypothesis Hrel : relabeled σ faces faces'.

Local Abbreviation rename := (rename_edge σ).

Lemma rename_inj e1 e2 : rename e1 = rename e2 → e1 = e2.
Proof using Hrel.
  destruct Hrel as [Hinj _]. destruct e1, e2. unfold rename. simpl.
  intros [= H1 H2]. f_equal; by apply Hinj.
Qed.

Lemma rename_swap e : rename (swap_pair e) = swap_pair (rename e).
Proof. done. Qed.

Lemma all_directed_renamed :
  all_directed faces' ≡ₚ map rename (all_directed faces).
Proof using Hrel.
  destruct Hrel as [_ Hp]. unfold all_directed.
  rewrite (flat_map_perm _ _ _ Hp). rewrite flat_map_map.
  rewrite map_flat_map.
  erewrite flat_map_ext; [done|]. intros face. apply consecutive_pairs_map.
Qed.

Lemma relabeled_closed : closed_mesh faces'.
Proof using Hclosed Hrel.
  destruct Hclosed as (Hnd & Hsw & Hloop).
  rewrite Forall_forall in Hsw, Hloop.
  unfold closed_mesh. rewrite !Forall_forall.
  split; [|split].
  - rewrite all_directed_renamed. apply NoDup_fmap_2; [|done].
    intros e1 e2. apply rename_inj.
  - intros e. rewrite !all_directed_renamed.
    intros (d & -> & Hd)%list_elem_of_fmap.
    apply list_elem_of_fmap. exists (swap_pair d). split; [done | by apply Hsw].
  - intros e. rewrite all_directed_renamed.
    intros (d & -> & Hd)%list_elem_of_fmap. simpl.
    destruct Hrel as [Hinj _]. intros H%Hinj. by apply (Hloop d).
Qed.

Lemma directed_face d :
  d ∈ all_directed faces → ∃ face, face ∈ faces ∧ d ∈ consecutive_pairs face.
Proof.
  intros (face & ? & ?)%list_elem_of_In%in_flat_map.
  exists face. split; by apply list_elem_of_In.
Qed.

Lemma side_of_renamed d :
  d ∈ all_directed faces → side_of faces' (rename d) = side_of faces d.
Proof using Hclosed Hrel.
  intros (face & Hface & Hd)%directed_face.
  pose proof relabeled_closed as (Hnd' & _ & _).
  destruct Hclosed as (Hnd & _ & _). destruct Hrel as [_ Hp].
  unfold side_of.
  rewrite (find_owner consecutive_pairs faces face d) by done.
  rewrite (find_owner consecutive_pairs faces' (map σ face) (rename d)); try done.
  - simpl. by rewrite length_map.
  - rewrite Hp. apply list_elem_of_fmap. by exists face.
  - rewrite consecutive_pairs_map. apply list_elem_of_fmap. by exists d.
Qed.

Lemma entry_of_renamed face :
  face ∈ faces → entry_of faces' (map σ face) = entry_of faces face.
Proof using Hclosed Hrel.
  intros Hface. unfold entry_of. rewrite length_map. f_equal. f_equal.
  rewrite consecutive_pairs_map, map_map.
  apply map_ext_in. intros d Hd%list_elem_of_In.
  change (swap_pair (σ d.1, σ d.2)) with (rename (swap_pair d)).
  apply side_of_renamed.
  destruct Hclosed as (_ & Hsw & _). rewrite Forall_forall in Hsw.
  apply Hsw. apply list_elem_of_In, in_flat_map. exists face.
  split; by apply list_elem_of_In.
Qed.

Lemma entries_renamed :
  map (entry_of faces') faces' ≡ₚ map (entry_of faces) faces.
Proof using Hclosed Hrel.
  destruct Hrel as [_ Hp]. rewrite Hp at 2. rewrite map_map.
  erewrite map_ext_in; [done|].
  intros face Hface%list_elem_of_In. by apply entry_of_renamed.
Qed.

Lemma faceCount_renamed : faceCount_of faces' = faceCount_of faces.
Proof using Hrel.
  destruct Hrel as [_ Hp]. unfold faceCount_of. apply countBy_perm.
  rewrite Hp, map_map. erewrite map_ext; [done|].
  intros face. simpl. apply length_map.
Qed.

Lemma sides_renamed : sides_in_key faces → sides_in_key faces'.
Proof using Hrel.
  destruct Hrel as [_ Hp]. unfold sides_in_key. rewrite Hp, Forall_fmap.
  intros H. eapply Forall_impl; [exact H|].
  intros face. simpl. by rewrite length_map.
Qed.
End Relabel.

Section KeyedEntries.
Context (faces : list (list nat)).
Hypothesis Hclosed : closed_mesh faces.
Hypothesis Hsides : sides_in_key faces.

Lemma side_of_in_key d :
  d ∈ all_directed faces → side_of faces d ∈ fingerprint_sides.
Proof using Hclosed Hsides.
  intros (face & Hface & Hd)%directed_face.
  destruct Hclosed as (Hnd & _ & _). unfold side_of.
  rewrite (find_owner consecutive_pairs faces face d) by done. simpl.
  unfold sides_in_key in Hsides. rewrite Forall_forall in Hsides.
  by apply Hsides.
Qed.

Lemma entry_keys face k c :
  face ∈ faces → AdjCount.adj (entry_of faces face) !! k = Some c →
  k ∈ fingerprint_sides.
Proof using Hclosed Hsides.
  intros Hface Hk. unfold entry_of in Hk. simpl in Hk.
  apply countBy_key in Hk as (s & Hs & <-).
  apply list_elem_of_fmap in Hs as (d & -> & Hd).
  apply side_of_in_key.
  destruct Hclosed as (_ & Hsw & _). rewrite Forall_forall in Hsw.
  apply Hsw. apply list_elem_of_In, in_flat_map. exists face.
  split; by apply list_elem_of_In.
Qed.
End KeyedEntries.

Section Fingerprint.
(** Entries whose histogram has keys among the side counts of the sort
    criteria are told apart by the criteria. *)
Lemma criteria_decide (x y : AdjCount.t) :
  (∀ k c, AdjCount.adj x !! k = Some c → k ∈ fingerprint_sides) →
  (∀ k c, AdjCount.adj y !! k = Some c → k ∈ fingerprint_sides) →
  faceAdjacency_criteria x = faceAdjacency_criteria y → x = y.
Proof.
  destruct x as [n1 adj1], y as [n2 adj2]. simpl. intros K1 K2.
  unfold faceAdjacency_criteria. simpl.
  intros [= -> H3 H4 H5 H6 H8 H10]. f_equal. apply map_eq. intros k.
  destruct (decide (k ∈ fingerprint_sides)) as [Hk|Hk].
  - unfold fingerprint_sides in Hk.
    repeat (apply elem_of_cons in Hk as [->|Hk]; [done|]).
    by apply elem_of_nil in Hk.
  - destruct (adj1 !! k) eqn:E1; [by apply K1 in E1|].
    destruct (adj2 !! k) eqn:E2; [by apply K2 in E2|]. done.
Qed.

Lemma criteria_length (x : AdjCount.t) : length (faceAdjacency_criteria x) = 8.
Proof. done. Qed.

Lemma fingerprint_renamed σ (faces faces' : list (list nat)) :
  closed_mesh faces → sides_in_key faces → relabeled σ faces faces' →
  Lodash.sortBy faceAdjacency_criteria (map (entry_of faces') faces')
  = Lodash.sortBy faceAdjacency_criteria (map (entry_of faces) faces).
Proof.
  intros Hc Hs Hr.
  pose proof (relabeled_closed σ faces faces' Hc Hr) as Hc'.
  pose proof (sides_renamed σ faces faces' Hr Hs) as Hs'.
  apply (sortBy_unique _ 8).
  - apply criteria_length.
  - intros x y (f1 & -> & H1)%list_elem_of_fmap (f2 & -> & H2)%list_elem_of_fmap.
    apply criteria_decide; intros k c.
    + by apply entry_keys.
    + by apply entry_keys.
  - by apply (entries_renamed σ).
Qed.

(** The derived edges of a closed mesh list every edge once. *)
Lemma all_edges_cover (faces : list (list nat)) :
  closed_mesh faces → edges_cover faces (all_edges faces).
Proof.
  intros (Hnd & Hsw & Hloop). rewrite Forall_forall in Hsw, Hloop.
  unfold edges_cover.
  assert (Hall : ∀ e, e ∈ all_edges faces ↔
                      ∃ d, d ∈ all_directed faces ∧ e = sort_pair d).
  { intros e. unfold all_edges. rewrite uniq_elem.
    unfold all_directed, face_edges.
    rewrite list_elem_of_In, in_concat. split.
    - intros (l & Hl & He). apply in_map_iff in Hl as (face & <- & Hface).
      apply in_map_iff in He as (d & <- & Hd). exists d. split; [|done].
      apply list_elem_of_In, in_flat_map. by exists face.
    - intros (d & Hd & ->). apply list_elem_of_In, in_flat_map in Hd
        as (face & Hface & Hd).
      exists (map sort_pair (consecutive_pairs face)). split.
      + apply in_map_iff. by exists face.
      + apply in_map_iff. by exists d. }
  assert (Hsort : ∀ d, d ∈ all_directed faces →
                       sort_pair d ∈ all_directed faces ∧
                       (sort_pair d).1 < (sort_pair d).2).
  { intros d Hd. pose proof (Hloop d Hd) as Hl. pose proof (Hsw d Hd) as Hs.
    unfold sort_pair. destruct (d.1 <=? d.2) eqn:E.
    - apply Nat.leb_le in E. split; [done | lia].
    - apply Nat.leb_gt in E. split; [done | simpl; lia]. }
  apply NoDup_Permutation; [|done|].
  - apply NoDup_app. split; [apply uniq_NoDup|]. split.
    + intros e He (e' & -> & He')%list_elem_of_fmap.
      apply Hall in He as (d & Hd & Heq), He' as (d' & Hd' & ->).
      pose proof (Hsort d Hd) as [_ H1]. pose proof (Hsort d' Hd') as [_ H2].
      rewrite <- Heq in H1. unfold swap_pair in H1. simpl in H1. lia.
    + apply NoDup_fmap_2; [|apply uniq_NoDup].
      intros [a b] [a' b']. unfold swap_pair. simpl. congruence.
  - intros e. rewrite elem_of_app, list_elem_of_fmap. split.
    + intros [He|(e' & -> & He')].
      * apply Hall in He as (d & Hd & ->). by apply Hsort.
      * apply Hall in He' as (d & Hd & ->). apply Hsw. by apply Hsort.
    + intros He. destruct (decide (e.1 < e.2)) as [Hlt|Hge].
      * left. apply Hall. exists e. split; [done|].
        unfold sort_pair. rewrite (proj2 (Nat.leb_le _ _)); [done | lia].
      * right. exists (swap_pair e). split; [by destruct e|].
        apply Hall. exists e. split; [done|].
        pose proof (Hloop e He). unfold sort_pair.
        rewrite (proj2 (Nat.leb_gt _ _)); [done | lia].
Qed.
End Fingerprint.

(** ** The fingerprint does not depend on the instance *)

Section Retarget.
Context (p q : nat) (faces : list (list nat)).

Local Abbreviation rt := (retarget q).

Local Abbreviation rt_rows := (retarget_rows q).
Local Abbreviation rt_graph := (retarget_graph q).
Local Abbreviation retarget_pair := (retarget_pair q).

Lemma retarget_fIndex f : fIndex (rt f) = fIndex f.
Proof. done. Qed.

Lemma face_views_retarget count :
  face_views q count = map rt (face_views p count).
Proof. unfold face_views. by rewrite map_map. Qed.

Lemma view_face_retarget f : view_face faces (rt f) = view_face faces f.
Proof. done. Qed.

Lemma directedEdge_set_retarget f (g : gmap nat (gmap nat FaceObj)) e :
  directedEdge_set (rt f) (rt_rows g) e
  = rt_rows (directedEdge_set f g e).
Proof.
  unfold directedEdge_set, rt_rows. rewrite fmap_insert. f_equal.
  rewrite fmap_insert. f_equal. rewrite lookup_fmap.
  destruct (g !! e.1); simpl; [done|]. by rewrite fmap_empty.
Qed.

Lemma directedEdgeToFaceGraph_of_retarget :
  directedEdgeToFaceGraph_of q faces
  = rt_rows (directedEdgeToFaceGraph_of p faces).
Proof.
  unfold directedEdgeToFaceGraph_of. rewrite face_views_retarget.
  generalize (face_views p (length faces)). intros views.
  assert (H : ∀ g : gmap nat (gmap nat FaceObj),
    fold_left (λ edgesToFaces face,
                 fold_left (directedEdge_set face)
                   (consecutive_pairs (view_face faces face)) edgesToFaces)
      (map rt views) (rt_rows g)
    = rt_rows
        (fold_left (λ edgesToFaces face,
                      fold_left (directedEdge_set face)
                        (consecutive_pairs (view_face faces face)) edgesToFaces)
           views g)).
  { induction views as [|f views IH]; intros g; simpl; [done|].
    rewrite <- IH. f_equal. rewrite view_face_retarget.
    generalize (consecutive_pairs (view_face faces f)). intros des. revert g.
    induction des as [|e des IHd]; intros g; simpl; [done|].
    by rewrite directedEdge_set_retarget, IHd. }
  specialize (H ∅). unfold rt_rows in H at 1. by rewrite fmap_empty in H.
Qed.

Lemma edgeFaces_in_retarget (g : gmap nat (gmap nat FaceObj)) e :
  edgeFaces_in (rt_rows g) e
  = result_bind (edgeFaces_in g e) (λ fs, Ok (retarget_pair fs)).
Proof.
  unfold edgeFaces_in, rt_rows. rewrite !lookup_fmap.
  destruct (g !! e.1) as [r1|]; simpl; [|done].
  destruct (g !! e.2) as [r2|]; simpl; [|done].
  unfold retarget_pair. simpl. by rewrite !lookup_fmap.
Qed.

Lemma ensure_retarget (graph : gmap nat (list FaceObj)) i :
  match rt_graph graph !! i with
  | Some _ => rt_graph graph
  | None => <[i := []]> (rt_graph graph)
  end
  = rt_graph match graph !! i with
             | Some _ => graph
             | None => <[i := []]> graph
             end.
Proof.
  unfold rt_graph. rewrite lookup_fmap.
  destruct (graph !! i); simpl; [done|]. by rewrite fmap_insert.
Qed.

Lemma alter_retarget (graph : gmap nat (list FaceObj)) i f :
  alter (λ l, l ++ [rt f]) i (rt_graph graph)
  = rt_graph (alter (λ l, l ++ [f]) i graph).
Proof.
  unfold rt_graph. symmetry. apply fmap_alter.
  intros x _. by rewrite map_app.
Qed.

Lemma faceGraph_step_retarget (graph : gmap nat (list FaceObj)) fs :
  faceGraph_step (rt_graph graph) (retarget_pair fs)
  = result_bind (faceGraph_step graph fs) (λ g, Ok (rt_graph g)).
Proof.
  destruct fs as [[f1|] [f2|]]; try done.
  unfold faceGraph_step, retarget_pair.
  cbn [fst snd fmap option_fmap option_map result_bind fIndex retarget].
  rewrite ensure_retarget, ensure_retarget.
  by rewrite !alter_retarget.
Qed.

Lemma faceGraph_of_retarget es :
  faceGraph_of q faces es
  = result_bind (faceGraph_of p faces es) (λ g, Ok (rt_graph g)).
Proof.
  unfold faceGraph_of. rewrite directedEdgeToFaceGraph_of_retarget.
  set (deg := directedEdgeToFaceGraph_of p faces).
  assert (H : ∀ graph : gmap nat (list FaceObj),
    foldR (λ graph e, result_bind (edgeFaces_in (rt_rows deg) e)
                        (faceGraph_step graph)) es (rt_graph graph)
    = result_bind
        (foldR (λ graph e, result_bind (edgeFaces_in deg e)
                             (faceGraph_step graph)) es graph)
        (λ g, Ok (rt_graph g))).
  { induction es as [|e es IH]; intros graph; cbn [foldR]; [done|].
    rewrite edgeFaces_in_retarget.
    destruct (edgeFaces_in deg e) as [fs|]; cbn [result_bind]; [|done].
    rewrite faceGraph_step_retarget.
    destruct (faceGraph_step graph fs) as [g'|]; cbn [result_bind]; [|done].
    apply IH. }
  specialize (H ∅). unfold rt_graph in H at 1. by rewrite fmap_empty in H.
Qed.

Lemma view_numSides_retarget f :
  polyhedron f = p → view_numSides q faces (rt f) = view_numSides p faces f.
Proof.
  intros Hp. unfold view_numSides. simpl.
  by rewrite !bool_decide_eq_true_2 by done.
Qed.

Lemma mapR_map {A B C} (g : B → result C) (k : A → B) (l : list A) :
  mapR g (map k l) = mapR (λ x, g (k x)) l.
Proof. induction l as [|x l IH]; simpl; [done | by rewrite IH]. Qed.

Lemma faceAdjacencyCount_of_retarget es f :
  f ∈ face_views p (length faces) →
  faceAdjacencyCount_of q faces es (rt f)
  = faceAdjacencyCount_of p faces es f.
Proof.
  intros Hf. pose proof Hf as [Hp Hi]%face_views_elem.
  unfold faceAdjacencyCount_of. rewrite view_numSides_retarget by done.
  destruct (view_numSides p faces f) as [n|]; simpl; [|done].
  rewrite faceGraph_of_retarget.
  destruct (faceGraph_of p faces es) as [graph|] eqn:Hg; simpl; [|done].
  unfold rt_graph. rewrite lookup_fmap.
  assert (Hd : default [] (map rt <$> graph !! fIndex f)
               = map rt (default [] (graph !! fIndex f))).
  { by destruct (graph !! fIndex f). }
  rewrite Hd, mapR_map.
  rewrite (mapR_ext _ (view_numSides p faces)); [done|].
  intros x Hx. apply view_numSides_retarget.
  apply (faceGraph_of_views _ _ _ _ _ _ Hg) in Hx.
  by apply face_views_elem in Hx as [? _].
Qed.

Lemma faceAdjacencyList_of_retarget es :
  faceAdjacencyList_of q faces es = faceAdjacencyList_of p faces es.
Proof.
  unfold faceAdjacencyList_of. rewrite face_views_retarget, mapR_map.
  rewrite (mapR_ext _ (faceAdjacencyCount_of p faces es)); [done|].
  intros f Hf. by apply faceAdjacencyCount_of_retarget.
Qed.
End Retarget.


Section ClaimsFingerprint.
Context {number Vec3D : Type}.
Local Abbreviation PolyObj := (PolyObj number Vec3D).
Local Abbreviation heap := (heap number Vec3D).
Implicit Types (h : heap) (o : PolyObj).

Lemma wf_heap_constructed2 vs1 fs1 es1 vs2 fs2 es2 :
  wf_heap [constructed vs1 fs1 es1 : PolyObj; constructed vs2 fs2 es2].
Proof.
  intros l o Hl. destruct l as [|[|l]]; simpl in Hl; try done;
    injection Hl as <-; apply constructed_wf.
Qed.

Lemma derived_edges_cover o :
  _edges o = None → closed_mesh (faces o) → edges_cover (faces o) (edges_of o).
Proof.
  intros He Hc. unfold edges_of. rewrite He. simpl. by apply all_edges_cover.
Qed.

(** The outcome of [isSame] is a function of the two face lists and edge
    collections: no vertex coordinate enters it. *)
Lemma isSame_outcome h p q op oq :
  wf_heap h → h !! p = Some op → h !! q = Some oq →
  (isSame p q h).2
  = isSame_of p q (faces op) (edges_of op) (faces oq) (edges_of oq).
Proof.
  intros Hwf Hp Hq.
  destruct (isSame_returns h p q _ _ Hwf (mesh_at_lookup _ _ _ Hp)
              (mesh_at_lookup _ _ _ Hq)) as (h2 & Hrun & _).
  by rewrite Hrun.
Qed.

(** [isSame(p, p)] on a closed mesh. *)
Lemma isSame_reflexive h p op :
  wf_heap h → h !! p = Some op →
  closed_mesh (faces op) → edges_cover (faces op) (edges_of op) →
  ∃ h1, isSame p p h = (h1, Ok true).
Proof.
  intros Hwf Hp Hc Hcov.
  pose proof (mesh_at_lookup _ _ _ Hp) as Hmp.
  destruct (isSame_returns h p p _ _ Hwf Hmp Hmp) as (h1 & Hrun & _).
  exists h1. rewrite Hrun. f_equal. unfold isSame_of. simpl.
  rewrite bool_decide_eq_true_2 by done. simpl.
  rewrite (closed_faceAdjacencyList p _ _ Hc Hcov). simpl.
  by rewrite bool_decide_eq_true_2.
Qed.


End ClaimsFingerprint.

Lemma exchange01_inj x y : exchange01 x = exchange01 y → x = y.
Proof.
  destruct x as [|[|x]], y as [|[|y]]; simpl; congruence.
Qed.



(** ** The fan of faces around a vertex *)

Section FanFacts.
Context {number Vec3D : Type}.
Local Abbreviation PolyObj := (PolyObj number Vec3D).
Local Abbreviation heap := (heap number Vec3D).
Local Abbreviation M := (M number Vec3D).
Implicit Types (h : heap) (this : loc) (o : PolyObj) (m : @Mesh number Vec3D).

Lemma vertexToFaceGraph_step_views this count face mapping v mapping' :
  face ∈ face_views this count →
  Forall (Forall (λ f, f ∈ face_views this count)) mapping →
  vertexToFaceGraph_step face mapping v = Ok mapping' →
  Forall (Forall (λ f, f ∈ face_views this count)) mapping'.
Proof.
  intros Hf Hall. unfold vertexToFaceGraph_step.
  destruct (mapping !! v) as [l|] eqn:E; [|done]. intros [= <-].
  apply Forall_insert; [done|]. apply Forall_app. split.
  - rewrite Forall_forall in Hall. apply Hall.
    by eapply list_elem_of_lookup_2.
  - by apply Forall_singleton.
Qed.

Lemma foldR_invariant {A X} (P : A → Prop) (f : A → X → result A) xs a a' :
  P a →
  (∀ a x a', x ∈ xs → P a → f a x = Ok a' → P a') →
  foldR f xs a = Ok a' → P a'.
Proof.
  revert a. induction xs as [|x xs IH]; intros a Ha Hstep; simpl.
  - by intros [= <-].
  - destruct (f a x) as [a1|] eqn:E; simpl; [|done].
    apply IH.
    + eapply Hstep; [by left | done | done].
    + intros a2 y a3 Hy. apply Hstep. by right.
Qed.

Lemma vertexToFaceGraph_of_views this vertex_count (faces : list (list nat))
    graph v l f :
  vertexToFaceGraph_of this vertex_count faces = Ok graph →
  graph !! v = Some l → f ∈ l → f ∈ face_views this (length faces).
Proof.
  unfold vertexToFaceGraph_of. intros Hg Hv Hf.
  assert (Hall : Forall (Forall (λ f, f ∈ face_views this (length faces))) graph).
  { eapply (foldR_invariant _ _ _ _ _ _ _ Hg). Unshelve.
    - apply Forall_replicate. constructor.
    - intros mapping face mapping' Hface Hm Hstep.
      eapply (foldR_invariant _ _ _ _ _ Hm _ Hstep). Unshelve.
      intros mapping1 w mapping2 _ Hm1 Hs.
      by eapply vertexToFaceGraph_step_views. }
  rewrite Forall_forall in Hall.
  specialize (Hall l (list_elem_of_lookup_2 _ _ _ Hv)).
  rewrite Forall_forall in Hall. by apply Hall.
Qed.

Lemma uniqBy_from_elem {A K} `{EqDecision K} (key : A → K) seen (l : list A) x :
  x ∈ Lodash.uniqBy_from key seen l → x ∈ l.
Proof.
  revert seen. induction l as [|y l IH]; intros seen; simpl; [done|].
  destruct (bool_decide _).
  - intros ?%IH. by right.
  - intros [->|?%IH]%elem_of_cons; [by left | by right].
Qed.

Lemma touching_of_views this vertex_count (faces : list (list nat)) v touching f :
  touching_of this vertex_count faces v = Ok touching →
  f ∈ touching → f ∈ face_views this (length faces).
Proof.
  unfold touching_of.
  destruct (vertexToFaceGraph_of this vertex_count faces) as [graph|] eqn:Hg;
    simpl; [|done].
  destruct (graph !! v) as [l|] eqn:Hv; [|done]. intros [= <-] Hf.
  apply uniqBy_from_elem in Hf. by eapply vertexToFaceGraph_of_views.
Qed.

Lemma adjacentFaces_returns h this m v :
  wf_heap h → mesh_at h this = Some m →
  returns (adjacentFaces this [v]) h
    (touching_of this (length (mesh_vertices m)) (mesh_faces m) v).
Proof.
  intros Hwf Hm. unfold adjacentFaces, touching_of. simpl.
  pose proof (vertexToFaceGraph_returns h this m Hwf Hm) as Hg.
  destruct (vertexToFaceGraph_of this _ _) as [graph|e]; simpl.
  - eapply returns_bind.
    { eapply returns_bind.
      - eapply returns_bind; [exact Hg|]. intros h1 H1.
        apply returns_ret. by eapply ext_wf.
      - intros h1 H1. eapply returns_bind.
        + apply returns_ret. by eapply ext_wf.
        + intros h2 H2. apply returns_ret. by eapply ext_wf. }
    intros h1 H1. simpl. destruct (graph !! v) as [l|]; simpl.
    + rewrite app_nil_r. apply returns_ret. by eapply ext_wf.
    + apply returns_throw. by eapply ext_wf.
  - apply returns_bind_throw. apply returns_bind_throw.
    by apply returns_bind_throw.
Qed.

(** *** The loop only reads the store *)

Lemma FaceObj_nextVertex_reads h this m f v :
  mesh_at h this = Some m → f ∈ face_views this (length (mesh_faces m)) →
  reads (FaceObj_nextVertex f v) h (Ok (next_of (mesh_faces m) v f)).
Proof.
  intros Hm [Hp Hi]%face_views_elem. rewrite <- Hp in Hm.
  pose proof (FaceObj_method_reads
                (λ vs, getCyclic vs (indexOf v vs + 1)) h f m Hm) as Hr.
  by rewrite view_vIndices_valid in Hr.
Qed.

Lemma FaceObj_prevVertex_reads h this m f v :
  mesh_at h this = Some m → f ∈ face_views this (length (mesh_faces m)) →
  reads (FaceObj_prevVertex f v) h (Ok (prev_of (mesh_faces m) v f)).
Proof.
  intros Hm [Hp Hi]%face_views_elem. rewrite <- Hp in Hm.
  pose proof (FaceObj_method_reads
                (λ vs, getCyclic vs (indexOf v vs - 1)) h f m Hm) as Hr.
  by rewrite view_vIndices_valid in Hr.
Qed.

Lemma checkVertex_reads h this m v nx f :
  mesh_at h this = Some m →
  nx ∈ face_views this (length (mesh_faces m)) →
  f ∈ face_views this (length (mesh_faces m)) →
  reads (checkVertex v (Some nx) f) h (Ok (follows (mesh_faces m) v nx f)).
Proof.
  intros Hm Hnx Hf. unfold checkVertex.
  eapply reads_bind; [by eapply FaceObj_prevVertex_reads|].
  eapply reads_bind; [by eapply FaceObj_nextVertex_reads|]. done.
Qed.

Lemma find_first_reads {A} (P : A → M bool) (p : A → bool) (l : list A) h :
  (∀ x, x ∈ l → reads (P x) h (Ok (p x))) →
  reads (find_first P l) h (Ok (List.find p l)).
Proof.
  induction l as [|x l IH]; intros H; simpl; [done|].
  eapply reads_bind; [apply H; by left|].
  destruct (p x); [done|]. apply IH. intros. apply H. by right.
Qed.

Lemma find_reads h this m strict v touching next :
  mesh_at h this = Some m →
  (∀ f, f ∈ touching → f ∈ face_views this (length (mesh_faces m))) →
  (∀ nx, next = Some nx → nx ∈ face_views this (length (mesh_faces m))) →
  reads (find strict touching (checkVertex v next)) h
    (find_step strict (mesh_faces m) v touching next).
Proof.
  intros Hm Ht Hn. unfold find, find_step. destruct next as [nx|].
  - eapply reads_bind.
    + apply (find_first_reads _ (follows (mesh_faces m) v nx)).
      intros f Hf. eapply checkVertex_reads; [done | by apply Hn | by apply Ht].
    + destruct (List.find _ touching); [done|]. by destruct strict.
  - destruct touching as [|f touching]; simpl.
    + unfold reads, bind. simpl. by destruct strict.
    + by apply reads_bind_throw.
Qed.

Lemma find_step_elem strict (faces : list (list nat)) v touching next g :
  find_step strict faces v touching next = Ok (Some g) → g ∈ touching.
Proof.
  unfold find_step. destruct next as [nx|].
  - destruct (List.find _ touching) as [x|] eqn:E.
    + intros [= <-]. apply find_some in E as [E _]. by apply list_elem_of_In.
    + by destruct strict.
  - destruct touching; by destruct strict.
Qed.

Lemma directedAdjacentFaces_loop_reads h this m strict v touching remaining
    next collected :
  mesh_at h this = Some m →
  (∀ f, f ∈ touching → f ∈ face_views this (length (mesh_faces m))) →
  (∀ nx, next = Some nx → nx ∈ face_views this (length (mesh_faces m))) →
  reads (directedAdjacentFaces_loop strict touching v remaining next collected) h
    (fan_loop strict (mesh_faces m) v touching remaining next collected).
Proof.
  intros Hm Ht. revert next collected.
  induction remaining as [|k IH]; intros next collected Hn; simpl.
  - pose proof (find_reads h this m strict v touching next Hm Ht Hn) as Hf.
    destruct (find_step strict (mesh_faces m) v touching next) as [next'|e];
      simpl; [by eapply reads_bind | by apply reads_bind_throw].
  - pose proof (find_reads h this m strict v touching next Hm Ht Hn) as Hf.
    destruct (find_step strict (mesh_faces m) v touching next) as [next'|e] eqn:E;
      simpl; [|by apply reads_bind_throw].
    eapply reads_bind; [done|]. apply IH.
    intros nx ->. apply Ht. by eapply find_step_elem.
Qed.

Lemma directedAdjacentFaces_returns h this m strict v :
  wf_heap h → mesh_at h this = Some m →
  returns (directedAdjacentFaces strict this v) h
    (directedAdjacentFaces_of strict this (length (mesh_vertices m))
       (mesh_faces m) v).
Proof.
  intros Hwf Hm. unfold directedAdjacentFaces, directedAdjacentFaces_of.
  apply returns_bind_result; [by apply adjacentFaces_returns|].
  intros touching h1 Ht H1. apply reads_returns; [by eapply ext_wf|].
  eapply directedAdjacentFaces_loop_reads.
  - by eapply ext_mesh.
  - intros f Hf. by eapply touching_of_views.
  - intros nx Hnx. eapply touching_of_views; [done|].
    destruct touching; simpl in Hnx; [done|]. injection Hnx as ->. by left.
Qed.

(** *** The loop on a consistent cycle *)

Lemma find_unique {A} (p : A → bool) (l : list A) x :
  x ∈ l → p x = true → (∀ y, y ∈ l → p y = true → y = x) →
  List.find p l = Some x.
Proof.
  induction l as [|y l IH]; intros Hx Hp Hu; [by apply elem_of_nil in Hx|].
  simpl. destruct (p y) eqn:E.
  - f_equal. apply Hu; [by left | done].
  - apply elem_of_cons in Hx as [->|Hx]; [congruence|].
    apply IH; [done | done |]. intros. apply Hu; [by right | done].
Qed.

Lemma fan_loop_length strict (faces : list (list nat)) v touching remaining
    next collected res :
  fan_loop strict faces v touching remaining next collected = Ok res →
  length res = length collected + S remaining.
Proof.
  revert next collected. induction remaining as [|k IH];
    intros next collected; simpl.
  - destruct (find_step _ _ _ _ _); simpl; [|done]. intros [= <-].
    rewrite length_app. simpl. lia.
  - destruct (find_step _ _ _ _ _); simpl; [|done]. intros H%IH.
    rewrite length_app in H. simpl in H. lia.
Qed.

Lemma fan_loop_cycle strict (faces : list (list nat)) v touching cycle :
  one_cycle faces v touching cycle →
  ∀ remaining i f,
    i + S remaining = length cycle → cycle !! i = Some f →
    fan_loop strict faces v touching remaining (Some f)
      (map Some (take i cycle))
    = Ok (map Some cycle).
Proof.
  intros (Hperm & Hne & Hhead & Hchain' & Hinj').
  assert (Hchain : ∀ i f g,
            cycle !! i = Some f → cycle !! (S i mod length cycle) = Some g →
            prev_of faces v f = next_of faces v g).
  { intros i f g Hi Hg. rewrite Forall_forall in Hchain'.
    specialize (Hchain' i). rewrite Hi, Hg in Hchain'. simpl in Hchain'.
    assert (Hin : i ∈ seq 0 (length cycle)).
    { apply elem_of_seq. apply lookup_lt_Some in Hi. lia. }
    specialize (Hchain' Hin). congruence. }
  assert (Hinj : ∀ f g, f ∈ touching → g ∈ touching →
                        next_of faces v f = next_of faces v g → f = g).
  { intros f g Hf Hg. rewrite Forall_forall in Hinj'.
    specialize (Hinj' f Hf). rewrite Forall_forall in Hinj'. by apply Hinj'. }
  clear Hchain' Hinj'.
  induction remaining as [|k IH]; intros i f Hlen Hi; simpl.
  - assert (Hg : ∃ g, cycle !! (S i mod length cycle) = Some g).
    { apply lookup_lt_is_Some_2. apply Nat.mod_upper_bound. lia. }
    destruct Hg as [g Hg].
    rewrite (find_unique _ touching g).
    + simpl. f_equal.
      replace (map Some (take i cycle) ++ [Some f])
        with (map Some (take (S i) cycle))
        by (by rewrite (take_S_r _ _ _ Hi), map_app).
      by rewrite take_ge by lia.
    + rewrite <- Hperm. by eapply list_elem_of_lookup_2.
    + unfold follows. apply bool_decide_eq_true. by eapply Hchain.
    + intros y Hy Hf. unfold follows in Hf. apply bool_decide_eq_true in Hf.
      apply Hinj; [done | | ].
      * rewrite <- Hperm. by eapply list_elem_of_lookup_2.
      * rewrite <- Hf. by eapply Hchain.
  - assert (Hmod : S i mod length cycle = S i).
    { apply Nat.mod_small. lia. }
    assert (Hg : ∃ g, cycle !! S i = Some g).
    { apply lookup_lt_is_Some_2. lia. }
    destruct Hg as [g Hg].
    rewrite (find_unique _ touching g).
    + simpl.
      replace (map Some (take i cycle) ++ [Some f])
        with (map Some (take (S i) cycle))
        by (by rewrite (take_S_r _ _ _ Hi), map_app).
      apply IH; [lia | done].
    + rewrite <- Hperm. by eapply list_elem_of_lookup_2.
    + unfold follows. apply bool_decide_eq_true.
      eapply Hchain; [done|]. by rewrite Hmod.
    + intros y Hy Hf. unfold follows in Hf. apply bool_decide_eq_true in Hf.
      apply Hinj; [done | | ].
      * rewrite <- Hperm. by eapply list_elem_of_lookup_2.
      * rewrite <- Hf. eapply Hchain; [done|]. by rewrite Hmod.
Qed.

(** On a consistent cycle the pure loop returns the cycle. *)
Lemma fan_loop_one_cycle strict (faces : list (list nat)) v touching cycle :
  one_cycle faces v touching cycle →
  fan_loop strict faces v touching (length touching - 1) (head touching) []
  = Ok (map Some cycle).
Proof.
  intros Hc. pose proof Hc as (Hperm & Hne & Hhead & _).
  destruct cycle as [|f cycle'] eqn:Ecy; [done|]. rewrite <- Ecy in *.
  assert (Hl : length touching = length cycle) by (by rewrite Hperm).
  assert (Hh : head touching = Some f) by (rewrite <- Hhead, Ecy; done).
  rewrite Hh.
  apply (fan_loop_cycle strict faces v touching cycle Hc
           (length touching - 1) 0 f).
  - rewrite Hl, Ecy. simpl. lia.
  - by rewrite Ecy.
Qed.
End FanFacts.


Section ClaimFan.
Context {number Vec3D : Type}.
Local Abbreviation PolyObj := (PolyObj number Vec3D).
Local Abbreviation heap := (heap number Vec3D).
Implicit Types (h : heap) (this : loc) (o : PolyObj).

Lemma adjacentFaces_outcome h this o v :
  wf_heap h → h !! this = Some o →
  (adjacentFaces this [v] h).2
  = touching_of this (length (vertices o)) (faces o) v.
Proof.
  intros Hwf Ho.
  destruct (adjacentFaces_returns h this _ v Hwf (mesh_at_lookup _ _ _ Ho))
    as (h1 & Hrun & _).
  by rewrite Hrun.
Qed.

(** The loop is bounded by the number of touching faces: a returned list
    has that many elements (one, when no face touches the vertex). *)
Lemma directedAdjacentFaces_length strict h this o v h' res :
  wf_heap h → h !! this = Some o →
  directedAdjacentFaces strict this v h = (h', Ok res) →
  ∃ touching, (adjacentFaces this [v] h).2 = Ok touching ∧
              length res = S (length touching - 1).
Proof.
  intros Hwf Ho Hrun.
  destruct (directedAdjacentFaces_returns h this _ strict v Hwf
              (mesh_at_lookup _ _ _ Ho)) as (h1 & Hrun' & _).
  rewrite Hrun in Hrun'. injection Hrun' as _ Hres.
  unfold directedAdjacentFaces_of in Hres. simpl in Hres.
  rewrite (adjacentFaces_outcome h this o v Hwf Ho).
  destruct (touching_of this _ _ v) as [touching|]; simpl in Hres; [|done].
  exists touching. split; [done|]. symmetry in Hres.
  by apply fan_loop_length in Hres.
Qed.

(** C2 (amended): when the faces touching a vertex form one consistent
    cycle, [directedAdjacentFaces] returns them in the order of the cycle:
    as many faces as touch the vertex, each followed by the face whose
    next vertex at [v] is its own previous vertex at [v]. *)
Theorem directedAdjacentFaces_fan strict h this o v touching cycle :
  wf_heap h → h !! this = Some o →
  (adjacentFaces this [v] h).2 = Ok touching →
  one_cycle (faces o) v touching cycle →
  (∃ h', directedAdjacentFaces strict this v h = (h', Ok (map Some cycle))) ∧
  length cycle = length touching ∧
  ∀ i f g, cycle !! i = Some f → cycle !! S i = Some g →
           next_of (faces o) v g = prev_of (faces o) v f.
Proof.
  intros Hwf Ho Ht Hc.
  rewrite (adjacentFaces_outcome h this o v Hwf Ho) in Ht.
  split; [|split].
  - destruct (directedAdjacentFaces_returns h this _ strict v Hwf
                (mesh_at_lookup _ _ _ Ho)) as (h1 & Hrun & _).
    exists h1. rewrite Hrun. f_equal.
    unfold directedAdjacentFaces_of. simpl. rewrite Ht. simpl.
    by apply fan_loop_one_cycle.
  - destruct Hc as (Hperm & _). by rewrite Hperm.
  - intros i f g Hi Hg. destruct Hc as (_ & _ & _ & Hchain & _).
    rewrite Forall_forall in Hchain. specialize (Hchain i).
    assert (Hlt : S i < length cycle) by (by eapply lookup_lt_Some).
    rewrite Nat.mod_small in Hchain by done.
    rewrite Hi, Hg in Hchain. simpl in Hchain.
    assert (Hin : i ∈ seq 0 (length cycle)) by (apply elem_of_seq; lia).
    specialize (Hchain Hin). congruence.
Qed.
End ClaimFan.

Lemma map_Some_inj {A} (l1 l2 : list A) : map Some l1 = map Some l2 → l1 = l2.
Proof.
  revert l2. induction l1 as [|x l1 IH]; intros [|y l2]; simpl; try done.
  intros [= -> H]. f_equal. by apply IH.
Qed.

Lemma directedAdjacentFaces_fan_witness :
  wf_heap [tetrahedron] ∧ [tetrahedron] !! 0 = Some tetrahedron ∧
  (adjacentFaces 0 [0] [tetrahedron]).2
  = Ok [mkFaceObj 0 0; mkFaceObj 0 1; mkFaceObj 0 2] ∧
  one_cycle (faces tetrahedron) 0
    [mkFaceObj 0 0; mkFaceObj 0 1; mkFaceObj 0 2]
    [mkFaceObj 0 0; mkFaceObj 0 2; mkFaceObj 0 1] ∧
  (∃ h', directedAdjacentFaces true 0 0 [tetrahedron]
         = (h', Ok (map Some [mkFaceObj 0 0; mkFaceObj 0 2; mkFaceObj 0 1]))) ∧
  length [mkFaceObj 0 0; mkFaceObj 0 2; mkFaceObj 0 1]
  = length [mkFaceObj 0 0; mkFaceObj 0 1; mkFaceObj 0 2] ∧
  ∀ i f g,
    [mkFaceObj 0 0; mkFaceObj 0 2; mkFaceObj 0 1] !! i = Some f →
    [mkFaceObj 0 0; mkFaceObj 0 2; mkFaceObj 0 1] !! S i = Some g →
    next_of (faces tetrahedron) 0 g = prev_of (faces tetrahedron) 0 f.
Proof.
  assert (Ht : (adjacentFaces 0 [0] [tetrahedron]).2
               = Ok [mkFaceObj 0 0; mkFaceObj 0 1; mkFaceObj 0 2])
    by (vm_compute; reflexivity).
  assert (Hc : one_cycle (faces tetrahedron) 0
                 [mkFaceObj 0 0; mkFaceObj 0 1; mkFaceObj 0 2]
                 [mkFaceObj 0 0; mkFaceObj 0 2; mkFaceObj 0 1])
    by by_computation.
  split; [apply wf_heap_constructed|]. split; [reflexivity|].
  split; [exact Ht|]. split; [exact Hc|].
  apply (directedAdjacentFaces_fan true [tetrahedron] 0 tetrahedron 0
           [mkFaceObj 0 0; mkFaceObj 0 1; mkFaceObj 0 2]
           [mkFaceObj 0 0; mkFaceObj 0 2; mkFaceObj 0 1]);
    [apply wf_heap_constructed | reflexivity | exact Ht | exact Hc].
Defined.

(** C2 as stated fails: the six faces at vertex 0 of the two tetrahedra do
    not form one cycle, and [directedAdjacentFaces] does not fail: whatever
    [find] does when nothing matches, it returns the first fan twice. *)
Lemma directedAdjacentFaces_two_fans :
  (adjacentFaces 0 [0] [two_tetrahedra]).2
  = Ok [mkFaceObj 0 0; mkFaceObj 0 1; mkFaceObj 0 2;
        mkFaceObj 0 4; mkFaceObj 0 5; mkFaceObj 0 6] ∧
  (∀ cycle, ¬ one_cycle (faces two_tetrahedra) 0
                [mkFaceObj 0 0; mkFaceObj 0 1; mkFaceObj 0 2;
                 mkFaceObj 0 4; mkFaceObj 0 5; mkFaceObj 0 6] cycle) ∧
  ∀ strict,
    (directedAdjacentFaces strict 0 0 [two_tetrahedra]).2
    = Ok (map Some [mkFaceObj 0 0; mkFaceObj 0 1; mkFaceObj 0 2;
                    mkFaceObj 0 0; mkFaceObj 0 1; mkFaceObj 0 2]).
Proof.
  split; [vm_compute; reflexivity|]. split.
  - intros cycle Hc.
    pose proof (fan_loop_one_cycle true _ _ _ _ Hc) as Hloop.
    vm_compute in Hloop. injection Hloop as Hloop.
    change (map Some [mkFaceObj 0 0; mkFaceObj 0 1; mkFaceObj 0 2;
                      mkFaceObj 0 0; mkFaceObj 0 1; mkFaceObj 0 2]
            = map Some cycle) in Hloop.
    apply map_Some_inj in Hloop. subst cycle.
    destruct Hc as (Hperm & _). revert Hperm.
    apply (bool_decide_eq_false_1 _). vm_compute. reflexivity.
  - intros [|]; vm_compute; reflexivity.
Qed.

(** ** Planes and dihedral angles *)

Section ClaimsGeometry.
Context {number Vec3D : Type} `{!Toxiclibs number Vec3D}.
Local Abbreviation PolyObj := (PolyObj number Vec3D).
Local Abbreviation heap := (heap number Vec3D).
Local Abbreviation M := (M number Vec3D).
Implicit Types (h : heap) (this : loc) (o : PolyObj).
Local Abbreviation only_TypeError :=
  (only_TypeError (number:=number) (Vec3D:=Vec3D)).

Lemma every_Forall (plane : Plane) (points : list Vec3D) :
  Lodash.every
    (λ v, number_lt (Plane_getDistanceToPoint plane v) PRECISION) points
  = bool_decide (Forall (within_tolerance plane) points).
Proof.
  unfold Lodash.every. apply bool_eq_iff.
  rewrite forallb_forall, bool_decide_eq_true, Forall_forall.
  split; intros H x Hx; apply H; by apply list_elem_of_In.
Qed.

(** C8: [getPlane] throws its error exactly when fewer than three points
    are given and otherwise returns the plane through the first three;
    [isPlanar] then tells whether every given point is within [PRECISION
    = Math.pow(10, -3)] of that plane. *)
Theorem getPlane_isPlanar (points : list Vec3D) :
  (length points < 3 ↔ getPlane points = Throw (Error getPlane_message)) ∧
  (length points < 3 ↔ isPlanar points = Throw (Error getPlane_message)) ∧
  PRECISION = Math_pow (number_of_nat 10) (number_opp (number_of_nat 3)) ∧
  match points with
  | a :: b :: c :: _ =>
      getPlane points = Ok (Plane_new a b c) ∧
      isPlanar points
      = Ok (bool_decide (Forall (within_tolerance (Plane_new a b c)) points))
  | _ => True
  end.
Proof.
  destruct points as [|a [|b [|c rest]]].
  - repeat split; try done; simpl; lia.
  - repeat split; try done; simpl; lia.
  - repeat split; try done; simpl; lia.
  - split; [|split; [|split; [done|]]].
    + split; [simpl; lia | done].
    + split; [simpl; lia|]. unfold isPlanar. simpl. done.
    + split; [done|]. unfold isPlanar.
      change (getPlane (a :: b :: c :: rest)) with (Ok (Plane_new a b c)).
      cbn [result_bind]. by rewrite every_Forall.
Qed.

(** *** No method of the chain throws an [Error] *)

Lemma only_ret {A} (a : A) : only_TypeError (ret a).
Proof. by intros h e. Qed.

Lemma only_throw {A} : only_TypeError (throw (A:=A) TypeError).
Proof. intros h e. simpl. congruence. Qed.

Lemma only_bind {A B} (m : M A) (f : A → M B) :
  only_TypeError m → (∀ a, only_TypeError (f a)) → only_TypeError (bind m f).
Proof.
  intros Hm Hf h e. unfold bind. specialize (Hm h).
  destruct (m h) as [h1 [a|e1]]; simpl in *.
  - apply Hf.
  - intros [= <-]. by apply Hm.
Qed.

Lemma only_deref l : only_TypeError (deref l).
Proof. intros h e. unfold deref. destruct (h !! l); simpl; congruence. Qed.

Lemma only_update l (f : PolyObj → PolyObj) : only_TypeError (update l f).
Proof. intros h e. unfold update. destruct (h !! l); simpl; congruence. Qed.

Lemma only_lift {A} (r : result A) :
  (∀ e, r = Throw e → e = TypeError) → only_TypeError (lift r).
Proof. intros H h e. simpl. apply H. Qed.

Lemma only_M_map {A B} (f : A → M B) xs :
  (∀ x, only_TypeError (f x)) → only_TypeError (M_map f xs).
Proof.
  intros Hf. induction xs as [|x xs IH]; simpl; [apply only_ret|].
  apply only_bind; [done|]. intros y. apply only_bind; [done|].
  intros ys. apply only_ret.
Qed.

Lemma only_M_fold {A X} (f : A → X → M A) xs a :
  (∀ a x, only_TypeError (f a x)) → only_TypeError (M_fold f xs a).
Proof.
  intros Hf. revert a. induction xs as [|x xs IH]; intros a; simpl;
    [apply only_ret|].
  apply only_bind; [done|]. intros y. apply IH.
Qed.

Lemma only_getFaces this : only_TypeError (getFaces this).
Proof.
  unfold getFaces, fIndices, numFaces.
  apply only_bind.
  - apply only_bind; [|intros; apply only_ret].
    apply only_bind; [apply only_deref | intros; apply only_ret].
  - intros idxs. apply only_M_map. intros i. unfold getFace.
    apply only_bind; [apply only_deref|]. intros o.
    destruct (getFace_cache o !! i); [apply only_ret|].
    apply only_bind; [apply only_update | intros; apply only_ret].
Qed.

Lemma only_FaceObj_vIndices f : only_TypeError (FaceObj_vIndices f).
Proof.
  unfold FaceObj_vIndices. apply only_bind; [apply only_deref|]. intros o.
  destruct (faces o !! fIndex f); [apply only_ret | apply only_throw].
Qed.

Lemma only_edgeFaces this e : only_TypeError (edgeFaces this e).
Proof.
  unfold edgeFaces. apply only_bind.
  - unfold directedEdgeToFaceGraph. apply only_bind; [apply only_deref|].
    intros o. destruct (directedEdgeToFaceGraph_cache o); [apply only_ret|].
    apply only_bind.
    + unfold directedEdgeToFaceGraph_body.
      apply only_bind; [apply only_getFaces|]. intros fs.
      apply only_M_fold. intros g f. apply only_bind.
      * unfold FaceObj_directedEdges.
        apply only_bind; [apply only_FaceObj_vIndices | intros; apply only_ret].
      * intros; apply only_ret.
    + intros g. apply only_bind; [apply only_update | intros; apply only_ret].
  - intros graph. apply only_lift. intros e0. unfold edgeFaces_in.
    destruct (graph !! e.1); [|congruence].
    destruct (graph !! e.2); congruence.
Qed.

Lemma only_vertexVectors this vIndices :
  only_TypeError (vertexVectors this vIndices).
Proof.
  unfold vertexVectors. apply only_bind; [|intros; apply only_ret].
  unfold vertexVectors_all. apply only_bind; [apply only_deref|]. intros o.
  destruct (_vertexVectors o); [apply only_ret|].
  apply only_bind; [apply only_update | intros; apply only_ret].
Qed.

Lemma only_FaceObj_centroid f : only_TypeError (FaceObj_centroid f).
Proof.
  unfold FaceObj_centroid.
  apply only_bind; [apply only_FaceObj_vIndices|]. intros vs.
  apply only_bind; [apply only_vertexVectors|]. intros vectors.
  apply only_lift. intros e. unfold getCentroid_entries.
  destruct vectors as [|[v|] rest]; congruence.
Qed.

(** The test [!c1 || !c2] of [getDihedralAngle] is never reached with a
    falsy operand: the method raises nothing but [TypeError]. *)
Lemma only_getDihedralAngle this e : only_TypeError (getDihedralAngle this e).
Proof.
  unfold getDihedralAngle.
  apply only_bind; [apply only_vertexVectors|]. intros vs.
  destruct vs as [|[v1|] [|v2 [|? ?]]]; try apply only_throw.
  apply only_bind; [apply only_edgeFaces|]. intros [[f1|] [f2|]];
    try apply only_throw.
  apply only_bind; [apply only_FaceObj_centroid|]. intros c1.
  apply only_bind; [apply only_FaceObj_centroid|]. intros c2.
  apply only_ret.
Qed.

(** C3 (the code departs from it): on a single triangle, whose edge
    [(0, 1)] has a face on one side only, [getDihedralAngle] ends in a
    [TypeError], raised by [face.centroid()] on [undefined]; and on no
    input does it throw the error of its own test. *)
Theorem getDihedralAngle_open_edge (v0 v1 v2 : list number) :
  ((p <- Polyhedron_of [v0; v1; v2] [[0; 1; 2]] ;;
    getDihedralAngle p (0, 1)) []).2 = Throw TypeError ∧
  ∀ h this e,
    (getDihedralAngle this e h).2 ≠ Throw (Error (getDihedralAngle_message e)).
Proof.
  split; [vm_compute; reflexivity|].
  intros h this e H. by apply only_getDihedralAngle in H.
Qed.
End ClaimsGeometry.

Section DihedralAngle.
Context {number Vec3D : Type} `{!Toxiclibs number Vec3D}.
Local Abbreviation PolyObj := (PolyObj number Vec3D).
Local Abbreviation heap := (heap number Vec3D).
Local Abbreviation M := (M number Vec3D).
Implicit Types (h : heap) (this : loc) (o : PolyObj) (m : @Mesh number Vec3D).

Lemma vertexVectors_all_run h this o :
  wf_heap h → h !! this = Some o → vectors_ok o →
  ∃ h1, vertexVectors_all this h = (h1, Ok (map vec (vertices o))) ∧
        wf_heap h1 ∧
        mesh_at h1 this
        = Some (mkMesh (vertices o) (faces o) (edges_of o)
                  (Some (map vec (vertices o)))).
Proof.
  intros Hwf Ho Hv. unfold vertexVectors_all, bind, deref. rewrite Ho.
  destruct (_vertexVectors o) as [vs|] eqn:E.
  - exists h. rewrite (Hv vs E). split; [done|]. split; [done|].
    unfold mesh_at. rewrite Ho. simpl. unfold mesh_of.
    by rewrite E, (Hv vs E).
  - unfold update. rewrite Ho.
    exists (<[this := set_vertexVectors (map vec (vertices o)) o]> h).
    split; [done|].
    assert (Hl : this < length h) by (by eapply lookup_lt_Some).
    split.
    + intros l' o'. destruct (decide (this = l')) as [<-|Hne].
      * rewrite list_lookup_insert_eq by done. intros [= <-].
        destruct (Hwf _ _ Ho) as [G1 G2 G3 G4 G5]. by split.
      * rewrite list_lookup_insert_ne by done. apply Hwf.
    + unfold mesh_at. by rewrite list_lookup_insert_eq by done.
Qed.

Lemma vertexVectors_reads h this m vs vIndices :
  mesh_at h this = Some m → mesh_vectors m = Some vs →
  reads (vertexVectors this vIndices) h (Ok (map (λ i, vs !! i) vIndices)).
Proof.
  intros (o & Ho & <-)%mesh_at_Some Hvs. simpl in Hvs.
  unfold vertexVectors, vertexVectors_all, reads, bind, deref.
  by rewrite Ho, Hvs.
Qed.

Lemma mapM_id_map {A B} (g : A → option B) (l : list A) :
  mapM (λ x, x) (map g l) = mapM g l.
Proof.
  induction l as [|x l IH]; simpl; [done|]. by rewrite IH.
Qed.

Lemma FaceObj_centroid_reads h this m vs f :
  mesh_at h this = Some m → mesh_vectors m = Some vs →
  f ∈ face_views this (length (mesh_faces m)) →
  reads (FaceObj_centroid f) h (centroid_of vs (view_face (mesh_faces m) f)).
Proof.
  intros Hm Hvs [Hp Hi]%face_views_elem. unfold FaceObj_centroid.
  rewrite <- Hp in Hm. eapply reads_bind.
  { pose proof (FaceObj_vIndices_reads h f m Hm) as Hr.
    rewrite view_vIndices_valid in Hr by done. exact Hr. }
  eapply reads_bind; [by eapply vertexVectors_reads|]. done.
Qed.

(** On an array without [undefined] entries the two readings of
    [getCentroid] agree. *)
Lemma getCentroid_entries_defined (vs : list Vec3D) :
  getCentroid_entries (map Some vs) = getCentroid vs.
Proof.
  destruct vs as [|v rest]; [done|]. simpl. rewrite length_map.
  do 2 f_equal. revert v. induction rest as [|w rest IH]; intros v; simpl;
    [done|]. apply IH.
Qed.

(** A corner that is no vertex: in the mesh below vertex 2 does not
    exist, so its vector is [undefined]; [getMidpoint] and the centroids
    of both faces add it as the library does, and an angle is returned. *)
Example getDihedralAngle_missing_vertex (p0 p1 : list number) :
  let m := Vec3D_scale (Vec3D_add_undefined (vec p0)) number_half in
  let third := number_div (number_of_nat 1) (number_of_nat 3) in
  let c1 :=
    Vec3D_scale (Vec3D_add_undefined (Vec3D_add (vec p1) (vec p0))) third in
  let c2 :=
    Vec3D_scale (Vec3D_add_undefined (Vec3D_add (vec p0) (vec p1))) third in
  ((p <- Polyhedron_of [p0; p1] [[0; 1; 2]; [1; 0; 2]] ;;
    getDihedralAngle p (0, 2)) []).2
  = Ok (Vec3D_angleBetween (Vec3D_sub c1 m) (Vec3D_sub c2 m) true).
Proof. vm_compute. reflexivity. Qed.

(** The other half of C3: when both directions of the edge resolve to a
    face, [getDihedralAngle] returns the angle between the centroids of
    the two faces, each taken from the midpoint of the edge. *)
Lemma getDihedralAngle_two_faces h this o e v1 v2 f1 f2 c1 c2 :
  wf_heap h → h !! this = Some o → vectors_ok o →
  map vec (vertices o) !! e.1 = Some v1 →
  map vec (vertices o) !! e.2 = Some v2 →
  edgeFaces_in (directedEdgeToFaceGraph_of this (faces o)) e
  = Ok (Some f1, Some f2) →
  centroid_of (map vec (vertices o)) (view_face (faces o) f1) = Ok c1 →
  centroid_of (map vec (vertices o)) (view_face (faces o) f2) = Ok c2 →
  ∃ h', getDihedralAngle this e h
        = (h', Ok (Vec3D_angleBetween
                     (Vec3D_sub c1 (getMidpoint v1 v2))
                     (Vec3D_sub c2 (getMidpoint v1 v2)) true)).
Proof.
  intros Hwf Ho Hv H1 H2 Hfs Hc1 Hc2.
  destruct (vertexVectors_all_run h this o Hwf Ho Hv) as (h1 & Hrun1 & Hwf1 & Hm1).
  set (m1 := mkMesh (vertices o) (faces o) (edges_of o)
               (Some (map vec (vertices o)))) in *.
  destruct (edgeFaces_returns h1 this m1 e Hwf1 Hm1) as (h2 & Hrun2 & X2).
  simpl in Hrun2. rewrite Hfs in Hrun2.
  pose proof (ext_mesh _ _ _ _ X2 Hm1) as Hm2.
  assert (V1 : f1 ∈ face_views this (length (faces o)) ∧
               f2 ∈ face_views this (length (faces o))).
  { apply (resolve_views this (faces o) e). unfold resolve.
    apply edgeFaces_in_Ok in Hfs as [<- <-]. done. }
  destruct V1 as [V1 V2].
  pose proof (FaceObj_centroid_reads h2 this m1 _ f1 Hm2 eq_refl V1) as R1.
  pose proof (FaceObj_centroid_reads h2 this m1 _ f2 Hm2 eq_refl V2) as R2.
  simpl in R1, R2. rewrite Hc1 in R1. rewrite Hc2 in R2.
  exists h2. unfold getDihedralAngle, vertexVectors.
  unfold bind at 1. unfold bind at 1. rewrite Hrun1.
  cbn [ret map]. rewrite H1, H2.
  unfold bind at 1. rewrite Hrun2.
  unfold bind at 1. rewrite R1. unfold bind at 1. rewrite R2. done.
Qed.
End DihedralAngle.

(** * Further properties of the mesh code *)

(** ** Side counts: [faceTypes], [biggestFace], [faceCount] *)

Section SideCounts.
Context {number Vec3D : Type}.
Local Abbreviation PolyObj := (PolyObj number Vec3D).
Local Abbreviation heap := (heap number Vec3D).
Local Abbreviation M := (M number Vec3D).
Implicit Types (h : heap) (l this : loc) (o : PolyObj) (m : @Mesh number Vec3D).

(** What a method computes from the views and the side counts of all
    faces. *)
Lemma side_counts_returns {A} (k : list FaceObj → list nat → A) h this m :
  wf_heap h → mesh_at h this = Some m →
  returns (fs <- getFaces this ;;
           ns <- M_map FaceObj_numSides fs ;;
           ret (k fs ns)) h
    (Ok (k (face_views this (length (mesh_faces m)))
           (map length (mesh_faces m)))).
Proof.
  intros Hwf Hm.
  eapply returns_bind; [by eapply getFaces_returns|]. intros h1 H1.
  eapply returns_bind.
  - rewrite <- (mapR_face_views length this).
    apply M_map_returns; [by eapply ext_wf|].
    intros f h2 Hf H2. apply reads_returns; [by eapply ext_wf|].
    apply (FaceObj_method_reads length).
    apply list_elem_of_fmap in Hf as (i & -> & _). simpl.
    eapply ext_mesh; [done|]. by eapply ext_mesh.
  - intros h2 H2. apply returns_ret. by eapply ext_wf.
Qed.

Lemma StronglySorted_le_NoDup_lt (l : list nat) :
  StronglySorted le l → NoDup l → StronglySorted lt l.
Proof.
  induction 1 as [|x l Hs IH Hx]; intros Hnd; [constructor|].
  apply NoDup_cons in Hnd as [Hx' Hnd]. constructor; [by apply IH|].
  rewrite Forall_forall in Hx |- *. intros y Hy.
  specialize (Hx y Hy). assert (x ≠ y) by (by intros ->). lia.
Qed.

(** X1: [faceTypes] returns the side counts that occur among the faces,
    each once, in strictly ascending order. *)
Theorem faceTypes_ascending h this o :
  wf_heap h → h !! this = Some o →
  ∃ h' types,
    faceTypes this h = (h', Ok types) ∧
    StronglySorted lt types ∧
    ∀ n, n ∈ types ↔ ∃ face, face ∈ faces o ∧ length face = n.
Proof.
  intros Hwf Ho.
  destruct (side_counts_returns
              (λ _ ns, Lodash.sortBy (λ n, [Some n]) (Lodash.uniq ns))
              h this (mesh_of o) Hwf (mesh_at_lookup _ _ _ Ho))
    as (h' & Hrun & _).
  eexists h', _. split; [exact Hrun|]. simpl. split.
  - apply StronglySorted_le_NoDup_lt; [apply sortBy_nat_sorted|].
    rewrite sortBy_perm. apply uniq_NoDup.
  - intros n. rewrite sortBy_perm, uniq_elem, list_elem_of_fmap.
    split; intros (face & H1 & H2); exists face; done.
Qed.

Lemma baseExtremum_Some {A} (key : A → nat) (array : list A) c x0 x :
  Lodash.baseExtremum key array (Some (c, x0)) = Some x →
  (x = x0 ∧ ∀ y, y ∈ array → key y ≤ c) ∨
  (∃ i, array !! i = Some x ∧ c < key x ∧
        (∀ j y, array !! j = Some y → key y ≤ key x) ∧
        (∀ j y, j < i → array !! j = Some y → key y < key x)).
Proof.
  revert c x0. induction array as [|value rest IH]; intros c x0; simpl.
  - intros [= <-]. left. split; [done|]. intros y Hy. by apply elem_of_nil in Hy.
  - destruct (c <? key value) eqn:E.
    + apply Nat.ltb_lt in E. intros [[-> Hall]|(i & Hi & Hc & Hall & Hbefore)]%IH.
      * right. exists 0. split; [done|]. split; [done|]. split.
        -- intros [|j] y; simpl; [by intros [= <-]|].
           intros Hy. apply Hall. by eapply list_elem_of_lookup_2.
        -- intros j y Hj. lia.
      * right. exists (S i). split; [done|]. split; [lia|]. split.
        -- intros [|j] y; simpl; [intros [= <-]; lia | apply Hall].
        -- intros [|j] y Hj; simpl; [intros [= <-]; lia|].
           apply Hbefore. lia.
    + apply Nat.ltb_ge in E. intros [[-> Hall]|(i & Hi & Hc & Hall & Hbefore)]%IH.
      * left. split; [done|]. intros y [->|Hy]%elem_of_cons; [done | by apply Hall].
      * right. exists (S i). split; [done|]. split; [done|]. split.
        -- intros [|j] y; simpl; [intros [= <-]; lia | apply Hall].
        -- intros [|j] y Hj; simpl; [intros [= <-]; lia|].
           apply Hbefore. lia.
Qed.

(** [_.maxBy] returns the first element whose key is the greatest. *)
Lemma maxBy_first_greatest {A} (key : A → nat) (array : list A) :
  match Lodash.maxBy key array with
  | None => array = []
  | Some x =>
      ∃ i, array !! i = Some x ∧
           (∀ j y, array !! j = Some y → key y ≤ key x) ∧
           (∀ j y, j < i → array !! j = Some y → key y < key x)
  end.
Proof.
  unfold Lodash.maxBy. destruct array as [|value rest]; simpl; [done|].
  destruct (Lodash.baseExtremum key rest (Some (key value, value))) as [x|] eqn:E.
  - apply baseExtremum_Some in E as [[-> Hall]|(i & Hi & Hc & Hall & Hbefore)].
    + exists 0. split; [done|]. split.
      * intros [|j] y; simpl; [by intros [= <-]|].
        intros Hy. apply Hall. by eapply list_elem_of_lookup_2.
      * intros j y Hj. lia.
    + exists (S i). split; [done|]. split.
      * intros [|j] y; simpl; [intros [= <-]; lia | apply Hall].
      * intros [|j] y Hj; simpl; [intros [= <-]; lia|].
        apply Hbefore. lia.
  - exfalso. revert E. generalize (key value, value). clear.
    induction rest as [|y rest IH]; intros [c x0]; simpl; [done|].
    destruct (c <? key y); apply IH.
Qed.

Lemma zip_views_lookup this (faces : list (list nat)) i f n :
  zip (face_views this (length faces)) (map length faces) !! i = Some (f, n) →
  f = mkFaceObj this i ∧ ∃ face, faces !! i = Some face ∧ n = length face.
Proof.
  intros H. apply lookup_zip_with_Some in H as (f' & n' & [= <- <-] & Hf & Hn).
  unfold face_views in Hf. rewrite list_lookup_fmap in Hf.
  apply fmap_Some in Hf as (j & Hj & ->).
  apply lookup_seq in Hj as [-> _].
  rewrite list_lookup_fmap in Hn. apply fmap_Some in Hn as (face & Hface & ->).
  split; [done|]. by exists face.
Qed.

Lemma zip_views_lookup_2 this (faces : list (list nat)) i face :
  faces !! i = Some face →
  zip (face_views this (length faces)) (map length faces) !! i
  = Some (mkFaceObj this i, length face).
Proof.
  intros H. apply lookup_zip_with_Some. eexists _, _. split; [done|]. split.
  - unfold face_views. rewrite list_lookup_fmap.
    rewrite lookup_seq_lt by (by eapply lookup_lt_Some). done.
  - by rewrite list_lookup_fmap, H.
Qed.

(** X2: [biggestFace] is [undefined] exactly for a polyhedron without
    faces; otherwise it is the view of the first face that has the
    greatest number of sides. *)
Theorem biggestFace_first_greatest h this o :
  wf_heap h → h !! this = Some o →
  ∃ h' r,
    biggestFace this h = (h', Ok r) ∧
    match r with
    | None => faces o = []
    | Some f =>
        polyhedron f = this ∧
        ∃ face, faces o !! fIndex f = Some face ∧
          (∀ j face', faces o !! j = Some face' → length face' ≤ length face) ∧
          (∀ j face', j < fIndex f → faces o !! j = Some face' →
                      length face' < length face)
    end.
Proof.
  intros Hwf Ho.
  destruct (side_counts_returns (λ fs ns, fst <$> Lodash.maxBy snd (zip fs ns))
              h this (mesh_of o) Hwf (mesh_at_lookup _ _ _ Ho))
    as (h' & Hrun & _).
  eexists h', _. split; [exact Hrun|]. simpl.
  pose proof (maxBy_first_greatest snd
                (zip (face_views this (length (faces o)))
                   (map length (faces o)))) as Hmax.
  destruct (Lodash.maxBy snd _) as [[f n]|]; simpl.
  - destruct Hmax as (i & Hi & Hall & Hbefore).
    apply zip_views_lookup in Hi as (-> & face & Hface & ->). simpl.
    split; [done|]. exists face. split; [done|]. split.
    + intros j face' Hj. apply (Hall j (mkFaceObj this j, length face')).
      by apply zip_views_lookup_2.
    + intros j face' Hlt Hj.
      apply (Hbefore j (mkFaceObj this j, length face')); [done|].
      by apply zip_views_lookup_2.
  - destruct (faces o) as [|face rest]; [done|]. simpl in Hmax.
    unfold face_views in Hmax. simpl in Hmax. discriminate Hmax.
Qed.

Lemma filter_map_length {A B} (g : A → B) `{EqDecision B} (k : B) (l : list A) :
  length (filter (λ x, x = k) (map g l))
  = length (filter (λ a, g a = k) l).
Proof.
  induction l as [|a l IH]; simpl; [done|].
  rewrite !filter_cons. destruct (decide (g a = k)); simpl; by rewrite IH.
Qed.

(** X3: [faceCount] maps every side count that occurs to the number of
    faces with that many sides, and has no entry for the others. *)
Theorem faceCount_histogram h this o :
  wf_heap h → h !! this = Some o →
  ∃ h' count,
    faceCount this h = (h', Ok count) ∧
    (∀ n, default 0 (count !! n)
          = length (filter (λ face, length face = n) (faces o))) ∧
    (∀ n, is_Some (count !! n) ↔ ∃ face, face ∈ faces o ∧ length face = n).
Proof.
  intros Hwf Ho.
  destruct (faceCount_returns h this (mesh_of o) Hwf (mesh_at_lookup _ _ _ Ho))
    as (h' & Hrun & _).
  eexists h', _. split; [exact Hrun|]. simpl. unfold faceCount_of.
  assert (Hk : ∀ n, Lodash.countBy (λ n0, n0) (map length (faces o)) !! n
                    = match length (filter (λ face, length face = n) (faces o)) with
                      | 0 => None | S c => Some (S c) end).
  { intros n. rewrite countBy_lookup. by rewrite filter_map_length. }
  split.
  - intros n. rewrite Hk. by destruct (length _).
  - intros n. rewrite Hk. split.
    + destruct (filter _ (faces o)) as [|face rest] eqn:E; simpl;
        [by intros [? ?]|]. intros _.
      assert (Hin : face ∈ filter (λ face, length face = n) (faces o))
        by (rewrite E; left).
      apply list_elem_of_filter in Hin as [? ?]. by exists face.
    + intros (face & Hin & Hlen).
      assert (Hin' : face ∈ filter (λ face, length face = n) (faces o))
        by (by apply list_elem_of_filter).
      destruct (filter _ (faces o)); [by apply elem_of_nil in Hin'|].
      simpl. by eexists.
Qed.
End SideCounts.

(** ** The transforms and the edge collection *)

Section TransformEdges.
Context {number Vec3D : Type}.
Local Abbreviation PolyObj := (PolyObj number Vec3D).
Local Abbreviation heap := (heap number Vec3D).
Local Abbreviation M := (M number Vec3D).
Implicit Types (h : heap) (l this : loc) (o : PolyObj) (m : @Mesh number Vec3D).

Lemma edges_given h l o es :
  h !! l = Some o → _edges o = Some es → edges l h = (h, Ok es).
Proof.
  intros Ho He. unfold edges, bind, deref. by rewrite Ho, He.
Qed.

(** X4: the instance a structural transform returns answers [edges] with
    the edge collection of the receiver, whatever its own faces are, and
    without computing anything; its snapshot carries the same edges. *)
Theorem transform_edges_inherited (t : transform) h this o :
  wf_heap h → h !! this = Some o → transform_ready h t →
  ∃ h' l' o',
    apply_transform t this h = (h', Ok l') ∧ h' !! l' = Some o' ∧
    _edges o' = Some (edges_of o) ∧
    edges l' h' = (h', Ok (edges_of o)) ∧
    ∃ b, toJSON l' h' = (h', Ok b) ∧ base_edges b = Some (edges_of o).
Proof.
  intros Hwf Ho Hready.
  destruct (apply_transform_transformed t h this (mesh_of o) Hwf
              (mesh_at_lookup _ _ _ Ho) Hready)
    as (vs & fs & Hres & h' & l' & Hrun & Hc).
  pose proof (created_lookup _ _ _ _ Hc) as Hl.
  exists h', l', (constructed vs fs (Some (edges_of o))).
  split; [done|]. split; [done|]. split; [done|].
  split; [by eapply edges_given|].
  eexists. split.
  - unfold toJSON. unfold bind at 1, deref. rewrite Hl.
    unfold bind. by erewrite edges_given.
  - done.
Qed.

(** X5: [withVertices] and [withFaces] can be applied in either order:
    both chains build an instance with the given vertices and faces and
    the edge collection of the receiver. *)
Theorem withVertices_withFaces_commute h this o vs fs :
  wf_heap h → h !! this = Some o →
  ∃ h1 l1 h2 l2,
    (p <- withVertices this vs ;; withFaces p fs) h = (h1, Ok l1) ∧
    (p <- withFaces this fs ;; withVertices p vs) h = (h2, Ok l2) ∧
    h1 !! l1 = Some (constructed vs fs (Some (edges_of o))) ∧
    h2 !! l2 = Some (constructed vs fs (Some (edges_of o))).
Proof.
  intros Hwf Ho. pose proof (mesh_at_lookup _ _ _ Ho) as Hm.
  destruct (withVertices_transformed h this _ vs Hwf Hm) as (ha & la & Ha & Ca).
  destruct (withFaces_transformed h this _ fs Hwf Hm) as (hb & lb & Hb & Cb).
  pose proof (created_ext _ _ _ _ _ _ Ca) as Xa.
  pose proof (created_ext _ _ _ _ _ _ Cb) as Xb.
  destruct (withFaces_transformed ha la _ fs (ext_wf _ _ Xa)
              (mesh_at_lookup _ _ _ (created_lookup _ _ _ _ Ca)))
    as (h1 & l1 & H1 & C1).
  destruct (withVertices_transformed hb lb _ vs (ext_wf _ _ Xb)
              (mesh_at_lookup _ _ _ (created_lookup _ _ _ _ Cb)))
    as (h2 & l2 & H2 & C2).
  exists h1, l1, h2, l2.
  split; [unfold bind; by rewrite Ha|].
  split; [unfold bind; by rewrite Hb|].
  split; [exact (created_lookup _ _ _ _ C1) | exact (created_lookup _ _ _ _ C2)].
Qed.

Lemma remove_positions_same {A} (is1 is2 : list nat) (l : list A) :
  (∀ i, i < length l → (i ∈ is1 ↔ i ∈ is2)) →
  remove_positions is1 l = remove_positions is2 l.
Proof.
  unfold remove_positions. intros H.
  assert (G : ∀ k, (∀ i, k ≤ i < k + length l → (i ∈ is1 ↔ i ∈ is2)) →
    drop_where (λ i, bool_decide (i ∈ is1)) k l
    = drop_where (λ i, bool_decide (i ∈ is2)) k l).
  { clear H. induction l as [|x l IH]; intros k Hk; simpl; [done|].
    rewrite (bool_decide_ext (k ∈ is1) (k ∈ is2)) by (apply Hk; simpl; lia).
    rewrite IH; [done|]. intros i Hi. apply Hk. simpl. lia. }
  apply G. intros i Hi. apply H. lia.
Qed.

Lemma remove_positions_lookup {A} (indexes : list nat) (l : list A) x :
  x ∈ remove_positions indexes l ↔ ∃ i, (i ∉ indexes) ∧ l !! i = Some x.
Proof.
  unfold remove_positions.
  assert (G : ∀ k, x ∈ drop_where (λ i, bool_decide (i ∈ indexes)) k l
                   ↔ ∃ i, ((k + i) ∉ indexes) ∧ l !! i = Some x).
  { induction l as [|y l IH]; intros k; simpl.
    - split; [by intros ?%elem_of_nil | by intros (i & _ & ?)].
    - destruct (bool_decide (k ∈ indexes)) eqn:E.
      + apply bool_decide_eq_true in E. rewrite IH. split.
        * intros (i & Hi & Hx). exists (S i). split; [|done].
          by replace (k + S i) with (S k + i) by lia.
        * intros ([|i] & Hi & Hx); simpl in Hx.
          -- by rewrite Nat.add_0_r in Hi.
          -- exists i. split; [|done].
             by replace (S k + i) with (k + S i) by lia.
      + apply bool_decide_eq_false in E. rewrite elem_of_cons, IH. split.
        * intros [->|(i & Hi & Hx)].
          -- exists 0. split; [by rewrite Nat.add_0_r | done].
          -- exists (S i). split; [|done].
             by replace (k + S i) with (S k + i) by lia.
        * intros ([|i] & Hi & Hx); simpl in Hx.
          -- left. congruence.
          -- right. exists i. split; [|done].
             by replace (S k + i) with (k + S i) by lia. }
  apply (G 0).
Qed.

(** X6: [removeFaces] with any list of face views, repeated or out of
    range ones included: the new face list keeps, in order, the faces at
    the positions no view names; only the set of named positions matters,
    and positions beyond the face list change nothing. *)
Theorem removeFaces_any_views h this o (faceObjs : list FaceObj) :
  wf_heap h → h !! this = Some o →
  ∃ h' l' o',
    removeFaces this faceObjs h = (h', Ok l') ∧ h' !! l' = Some o' ∧
    vertices o' = vertices o ∧
    faces o' = remove_positions (map fIndex faceObjs) (faces o) ∧
    (∀ face, face ∈ faces o' ↔
       ∃ i, (i ∉ map fIndex faceObjs) ∧ faces o !! i = Some face) ∧
    (Forall (λ f, length (faces o) ≤ fIndex f) faceObjs →
       faces o' = faces o) ∧
    (∀ faceObjs2 : list FaceObj,
       (∀ i, i ∈ map fIndex faceObjs ↔ i ∈ map fIndex faceObjs2) →
       ∃ h2 l2 o2,
         removeFaces this faceObjs2 h = (h2, Ok l2) ∧ h2 !! l2 = Some o2 ∧
         faces o2 = faces o').
Proof.
  intros Hwf Ho.
  assert (Hrun : ∀ fos : list FaceObj, ∃ h' l',
    removeFaces this fos h = (h', Ok l') ∧
    h' !! l' = Some (constructed (vertices o)
                       (remove_positions (map fIndex fos) (faces o))
                       (Some (edges_of o)))).
  { intros fos.
    destruct (apply_transform_transformed (RemoveFaces fos) h this
                (mesh_of o) Hwf (mesh_at_lookup _ _ _ Ho) I)
      as (vs & fs & [-> ->] & h' & l' & Hrun & Hc).
    exists h', l'. split; [exact Hrun|]. exact (created_lookup _ _ _ _ Hc). }
  destruct (Hrun faceObjs) as (h' & l' & Hr & Hl).
  eexists h', l', _. split; [exact Hr|]. split; [exact Hl|].
  split; [done|]. split; [done|]. split; [|split].
  - intros face. apply remove_positions_lookup.
  - intros Hout. simpl.
    rewrite (remove_positions_same _ [] (faces o)).
    + unfold remove_positions. by apply drop_where_none.
    + intros i Hi. split; [|by intros ?%elem_of_nil].
      intros (f & -> & Hf)%list_elem_of_fmap.
      rewrite Forall_forall in Hout. specialize (Hout f Hf). lia.
  - intros faceObjs2 Hsame.
    destruct (Hrun faceObjs2) as (h2 & l2 & Hr2 & Hl2).
    eexists h2, l2, _. split; [exact Hr2|]. split; [exact Hl2|]. simpl.
    apply remove_positions_same. intros i _. symmetry. apply Hsame.
Qed.

(** X7: [addPolyhedron] appends the vertices and the faces of the other
    polyhedron, the faces with their vertex indices raised by the number
    of vertices of the receiver: every vertex of the receiver keeps its
    index, and every corner of an appended face refers to the coordinates
    it had in the other polyhedron. *)
Theorem addPolyhedron_appends h this other o oo :
  wf_heap h → h !! this = Some o → h !! other = Some oo →
  ∃ h' l' o',
    addPolyhedron this other h = (h', Ok l') ∧ h' !! l' = Some o' ∧
    vertices o' = vertices o ++ vertices oo ∧
    faces o'
    = faces o ++ map (map (λ v, v + length (vertices o))) (faces oo) ∧
    (∀ v, v < length (vertices o) → vertices o' !! v = vertices o !! v) ∧
    (∀ i face, faces o !! i = Some face → faces o' !! i = Some face) ∧
    (∀ j face, faces oo !! j = Some face →
       ∃ face', faces o' !! (length (faces o) + j) = Some face' ∧
         length face' = length face ∧
         ∀ k v, face !! k = Some v →
           ∃ v', face' !! k = Some v' ∧ vertices o' !! v' = vertices oo !! v).
Proof.
  intros Hwf Ho Hoo.
  destruct (apply_transform_transformed (AddPolyhedron other) h this
              (mesh_of o) Hwf (mesh_at_lookup _ _ _ Ho) (mk_is_Some _ _ Hoo))
    as (vs & fs & (mo & Hmo & -> & ->) & h' & l' & Hrun & Hc).
  unfold mesh_at in Hmo. rewrite Hoo in Hmo. injection Hmo as <-. simpl in *.
  eexists h', l', _. split; [exact Hrun|].
  split; [exact (created_lookup _ _ _ _ Hc)|]. simpl.
  split; [done|]. split; [done|]. split; [|split].
  - intros v Hv. by rewrite lookup_app_l.
  - intros i face Hi. rewrite lookup_app_l by (by eapply lookup_lt_Some). done.
  - intros j face Hj.
    exists (map (λ v, v + length (vertices o)) face). split.
    + rewrite lookup_app_r by lia.
      replace (length (faces o) + j - length (faces o)) with j by lia.
      by rewrite list_lookup_fmap, Hj.
    + split; [by rewrite length_map|]. intros k v Hk.
      exists (v + length (vertices o)). split.
      * by rewrite list_lookup_fmap, Hk.
      * rewrite lookup_app_r by lia. f_equal. lia.
Qed.
End TransformEdges.

(** ** The catalog *)

Section Catalog.
Context {number Vec3D : Type}.
Local Abbreviation PolyObj := (PolyObj number Vec3D).
Local Abbreviation heap := (heap number Vec3D).
Implicit Types (h : heap) (l this : loc) (o : PolyObj).
Context (isValidSolid : string → bool).
Context (getSolidData : string → BasePolyhedron number).

(** X8: [Polyhedron.get] throws [Invalid solid name: ...] exactly for the
    names that are not in the catalog, leaving the store as it was; for a
    name of the catalog it builds a new instance from the catalog data,
    and the name is dropped: the snapshot of the instance has none. *)
Theorem Polyhedron_get_catalog (name : string) h :
  wf_heap h →
  (isValidSolid name = false ↔
   Polyhedron_get isValidSolid getSolidData name h
   = (h, Throw (Error ("Invalid solid name: " +:+ name)%string))) ∧
  (isValidSolid name = true →
   ∃ h' l' o',
     Polyhedron_get isValidSolid getSolidData name h = (h', Ok l') ∧
     h !! l' = None ∧ h' !! l' = Some o' ∧
     vertices o' = base_vertices (getSolidData name) ∧
     faces o' = base_faces (getSolidData name) ∧
     _edges o' = base_edges (getSolidData name) ∧
     graphs_uncomputed o' ∧
     ∃ h'' b, toJSON l' h' = (h'', Ok b) ∧ base_name b = None).
Proof.
  intros Hwf. unfold Polyhedron_get. split.
  - destruct (isValidSolid name); simpl; [|done].
    split; [done|]. unfold Polyhedron_new, alloc. intros [= _ ?].
  - intros ->. simpl.
    destruct (Polyhedron_new_created h
                (mkBase (base_vertices (getSolidData name))
                   (base_faces (getSolidData name))
                   (base_edges (getSolidData name)) (Some name)) Hwf)
      as (h' & Hrun & Hc).
    eexists h', _, _. split; [exact Hrun|].
    split; [by eapply created_fresh|].
    pose proof (created_lookup _ _ _ _ Hc) as Hl.
    split; [exact Hl|]. simpl. do 3 (split; [done|]).
    split; [apply constructed_uncomputed|].
    destruct (toJSON_returns h' (length h) _
                (ext_wf _ _ (created_ext _ _ _ _ _ _ Hc))
                (mesh_at_lookup _ _ _ Hl)) as (h'' & Hj & _).
    by eexists h'', _.
Qed.
End Catalog.

(** ** Vertex neighbours and the derived edges *)

Section ListTools.
Lemma elem_of_flat_map {A B} (F : A → list B) (l : list A) (x : B) :
  x ∈ flat_map F l ↔ ∃ y, y ∈ l ∧ x ∈ F y.
Proof.
  rewrite list_elem_of_In, in_flat_map. split.
  - intros (y & Hy & Hx). exists y. by rewrite !list_elem_of_In.
  - intros (y & Hy & Hx). exists y. by rewrite <- !list_elem_of_In.
Qed.

Lemma consecutive_pairs_fst (face : list nat) :
  (consecutive_pairs face).*1 = face.
Proof.
  destruct face as [|v rest]; [done|]. unfold consecutive_pairs.
  apply fst_zip. rewrite length_app. simpl. lia.
Qed.

Lemma consecutive_pairs_length (face : list nat) :
  length (consecutive_pairs face) = length face.
Proof. by rewrite <- (consecutive_pairs_fst face) at 2; rewrite length_fmap. Qed.

(** A vertex is a corner of a face exactly when it starts one of its
    directed edges. *)
Lemma corner_starts_edge (face : list nat) v :
  v ∈ face ↔ ∃ w, (v, w) ∈ consecutive_pairs face.
Proof.
  rewrite <- (consecutive_pairs_fst face) at 1. rewrite list_elem_of_fmap.
  split.
  - intros ([a b] & -> & H). by exists b.
  - intros (w & H). by exists (v, w).
Qed.

Lemma used_starts_edge (faces : list (list nat)) v :
  (∃ face, face ∈ faces ∧ v ∈ face) ↔ ∃ w, (v, w) ∈ all_directed faces.
Proof.
  unfold all_directed. split.
  - intros (face & Hf & (w & Hw)%corner_starts_edge). exists w.
    apply elem_of_flat_map. by exists face.
  - intros (w & (face & Hf & Hw)%elem_of_flat_map). exists face.
    split; [done|]. apply corner_starts_edge. by exists w.
Qed.

Lemma all_directed_length (faces : list (list nat)) :
  length (all_directed faces) = sum_list (map length faces).
Proof.
  unfold all_directed. induction faces as [|face faces IH]; simpl; [done|].
  by rewrite length_app, consecutive_pairs_length, IH.
Qed.

Lemma fold_left_flat_map {A B C} (step : A → C → A) (F : B → list C)
    (l : list B) (a : A) :
  fold_left (λ acc x, fold_left step (F x) acc) l a
  = fold_left step (flat_map F l) a.
Proof.
  revert a. induction l as [|x l IH]; intros a; simpl; [done|].
  by rewrite fold_left_app, IH.
Qed.
End ListTools.

Section VertexGraph.
Context {number Vec3D : Type}.
Local Abbreviation PolyObj := (PolyObj number Vec3D).
Local Abbreviation heap := (heap number Vec3D).
Local Abbreviation M := (M number Vec3D).
Implicit Types (h : heap) (l this : loc) (o : PolyObj) (m : @Mesh number Vec3D).

Lemma vertexGraph_returns h this m :
  wf_heap h → mesh_at h this = Some m →
  returns (vertexGraph this) h (Ok (vertexGraph_of (mesh_faces m))).
Proof.
  intros Hwf Hm. pose proof Hm as (o & Ho & Hmo)%mesh_at_Some.
  unfold vertexGraph. unfold returns, bind at 1, deref. rewrite Ho.
  destruct (vertexGraph_cache o) as [g|] eqn:Hc.
  - rewrite (wf_vertexGraph _ _ (Hwf _ _ Ho) g Hc). subst m.
    exists h. split; [done | by apply ext_refl].
  - fold (vertexGraph_of (faces o)).
    fold (returns (update this (set_vertexGraph (vertexGraph_of (faces o))) ;;;
                   ret (vertexGraph_of (faces o))) h
            (Ok (vertexGraph_of (mesh_faces m)))).
    subst m. simpl. eapply returns_bind.
    + eapply update_returns; [done | done | | done].
      destruct (Hwf _ _ Ho) as [G1 G2 G3 G4 G5].
      split; simpl; try done. by intros g [= <-].
    + intros h1 H1. apply returns_ret. by eapply ext_wf.
Qed.

Lemma vertexGraph_step_fold (es : list (nat * nat)) (g : gmap nat (list nat)) v :
  fold_left vertexGraph_step es g !! v
  = match filter (λ e, e.1 = v) es with
    | [] => g !! v
    | next => Some (default [] (g !! v) ++ next.*2)
    end.
Proof.
  revert g. induction es as [|[a b] es IH]; intros g; simpl; [done|].
  rewrite IH, filter_cons. simpl.
  assert (Hstep : vertexGraph_step g (a, b) !! v
                  = if decide (a = v) then Some (default [] (g !! v) ++ [b])
                    else g !! v).
  { unfold vertexGraph_step. simpl. destruct (decide (a = v)) as [->|Hne].
    - by rewrite lookup_insert_eq.
    - by rewrite lookup_insert_ne. }
  rewrite Hstep. destruct (decide (a = v)) as [->|Hne]; simpl; [|done].
  destruct (filter _ es) as [|e next]; simpl; [done|].
  by rewrite <- app_assoc.
Qed.

Lemma vertexGraph_of_lookup (faces : list (list nat)) v :
  vertexGraph_of faces !! v
  = match filter (λ e, e.1 = v) (all_directed faces) with
    | [] => None
    | next => Some next.*2
    end.
Proof.
  unfold vertexGraph_of, all_directed.
  rewrite (fold_left_flat_map vertexGraph_step consecutive_pairs).
  rewrite vertexGraph_step_fold, lookup_empty. done.
Qed.

Lemma vertexGraph_of_next (faces : list (list nat)) v w :
  w ∈ default [] (vertexGraph_of faces !! v) ↔ (v, w) ∈ all_directed faces.
Proof.
  rewrite vertexGraph_of_lookup.
  assert (H : w ∈ (filter (λ e, e.1 = v) (all_directed faces)).*2
              ↔ (v, w) ∈ all_directed faces).
  { rewrite list_elem_of_fmap. split.
    - intros ([a b] & -> & [Ha Hin]%list_elem_of_filter). simpl in Ha.
      by subst a.
    - intros Hin. exists (v, w). split; [done|].
      by apply list_elem_of_filter. }
  destruct (filter _ (all_directed faces)) eqn:E; simpl; [|done].
  rewrite <- H. simpl. split; by intros ?%elem_of_nil.
Qed.

Lemma vertexGraph_of_entry (faces : list (list nat)) v :
  is_Some (vertexGraph_of faces !! v) ↔ ∃ face, face ∈ faces ∧ v ∈ face.
Proof.
  rewrite vertexGraph_of_lookup, used_starts_edge.
  destruct (filter _ (all_directed faces)) as [|[a b] next] eqn:E.
  - split; [by intros [? ?]|]. intros (w & Hw). exfalso.
    assert (Hin : (v, w) ∈ filter (λ e, e.1 = v) (all_directed faces))
      by (by apply list_elem_of_filter).
    rewrite E in Hin. by apply elem_of_nil in Hin.
  - split; [|by eexists]. intros _.
    assert (Hin : (a, b) ∈ filter (λ e, e.1 = v) (all_directed faces))
      by (rewrite E; left).
    apply list_elem_of_filter in Hin as [Ha Hin]. simpl in Ha. subst a.
    by exists b.
Qed.

(** X9: [vertexGraph] has an entry exactly for the vertices that are a
    corner of some face, and the entry of a vertex lists the vertices
    that follow it in the faces. *)
Theorem vertexGraph_next_vertices h this o :
  wf_heap h → h !! this = Some o →
  ∃ h' graph,
    vertexGraph this h = (h', Ok graph) ∧
    (∀ v, is_Some (graph !! v) ↔ ∃ face, face ∈ faces o ∧ v ∈ face) ∧
    (∀ v next w, graph !! v = Some next →
       (w ∈ next ↔ ∃ face, face ∈ faces o ∧ (v, w) ∈ consecutive_pairs face)).
Proof.
  intros Hwf Ho.
  destruct (vertexGraph_returns h this _ Hwf (mesh_at_lookup _ _ _ Ho))
    as (h' & Hrun & _).
  eexists h', _. split; [exact Hrun|]. simpl. split.
  - apply vertexGraph_of_entry.
  - intros v next w Hv.
    pose proof (vertexGraph_of_next (faces o) v w) as H.
    rewrite Hv in H. simpl in H. rewrite H. unfold all_directed.
    apply elem_of_flat_map.
Qed.

(** X10: [adjacentVertexIndices] never fails on a live instance; it
    returns, without repetition, the vertices that follow one of the given
    vertices in some face, and [undefined] as well exactly when one of the
    given vertices is a corner of no face. *)
Theorem adjacentVertexIndices_next h this o (vIndices : list nat) :
  wf_heap h → h !! this = Some o →
  ∃ h' adjacent,
    adjacentVertexIndices this vIndices h = (h', Ok adjacent) ∧
    NoDup adjacent ∧
    (∀ w, Some w ∈ adjacent ↔
       ∃ v face, v ∈ vIndices ∧ face ∈ faces o ∧
                 (v, w) ∈ consecutive_pairs face) ∧
    (None ∈ adjacent ↔
       ∃ v, v ∈ vIndices ∧ ∀ face, face ∈ faces o → v ∉ face).
Proof.
  intros Hwf Ho. unfold adjacentVertexIndices.
  destruct (vertexGraph_returns h this _ Hwf (mesh_at_lookup _ _ _ Ho))
    as (h' & Hrun & _). simpl in Hrun.
  eexists h', _. split; [unfold bind; rewrite Hrun; reflexivity|].
  split; [apply uniq_NoDup|]. split.
  - intros w. rewrite uniq_elem, elem_of_flat_map. split.
    + intros (v & Hv & Hw). exists v.
      destruct (vertexGraph_of (faces o) !! v) as [next|] eqn:E.
      * apply list_elem_of_fmap in Hw as (w' & [= <-] & Hw).
        pose proof (vertexGraph_of_next (faces o) v w) as H.
        rewrite E in H. simpl in H. apply H in Hw.
        apply elem_of_flat_map in Hw as (face & Hf & Hw). by exists face.
      * apply list_elem_of_singleton in Hw. done.
    + intros (v & face & Hv & Hf & Hw). exists v. split; [done|].
      assert (Hin : (v, w) ∈ all_directed (faces o))
        by (apply elem_of_flat_map; by exists face).
      apply vertexGraph_of_next in Hin.
      destruct (vertexGraph_of (faces o) !! v) as [next|]; simpl in Hin.
      * apply list_elem_of_fmap. by exists w.
      * by apply elem_of_nil in Hin.
  - rewrite uniq_elem, elem_of_flat_map. split.
    + intros (v & Hv & Hn). exists v. split; [done|].
      destruct (vertexGraph_of (faces o) !! v) as [next|] eqn:E.
      * by apply list_elem_of_fmap in Hn as (w' & [=] & _).
      * intros face Hf Hin.
        assert (Hs : is_Some (vertexGraph_of (faces o) !! v))
          by (apply vertexGraph_of_entry; by exists face).
        rewrite E in Hs. by destruct Hs.
    + intros (v & Hv & Hno). exists v. split; [done|].
      destruct (vertexGraph_of (faces o) !! v) as [next|] eqn:E.
      * assert (Hs : is_Some (vertexGraph_of (faces o) !! v)) by (by rewrite E).
        apply vertexGraph_of_entry in Hs as (face & Hf & Hin).
        by destruct (Hno face Hf).
      * by apply list_elem_of_singleton.
Qed.

Lemma all_edges_elem (faces : list (list nat)) a b :
  (a, b) ∈ all_edges faces ↔
  a ≤ b ∧ ((a, b) ∈ all_directed faces ∨ (b, a) ∈ all_directed faces).
Proof.
  unfold all_edges, face_edges. rewrite uniq_elem.
  rewrite list_elem_of_In, in_concat. split.
  - intros (l & Hl & He). apply in_map_iff in Hl as (face & <- & Hface).
    apply in_map_iff in He as ([c d] & Heq & Hd).
    assert (Hin : (c, d) ∈ all_directed faces).
    { apply elem_of_flat_map. exists face. by rewrite !list_elem_of_In. }
    unfold sort_pair in Heq. simpl in Heq.
    destruct (c <=? d) eqn:E.
    + apply Nat.leb_le in E. injection Heq as <- <-. split; [done | by left].
    + apply Nat.leb_gt in E. injection Heq as <- <-. split; [lia | by right].
  - intros [Hle [Hin|Hin]].
    + apply elem_of_flat_map in Hin as (face & Hf & Hd).
      exists (map sort_pair (consecutive_pairs face)). split.
      * apply in_map_iff. exists face. by rewrite <- list_elem_of_In.
      * apply in_map_iff. exists (a, b). split; [|by apply list_elem_of_In].
        unfold sort_pair. simpl. by rewrite (proj2 (Nat.leb_le _ _)).
    + apply elem_of_flat_map in Hin as (face & Hf & Hd).
      exists (map sort_pair (consecutive_pairs face)). split.
      * apply in_map_iff. exists face. by rewrite <- list_elem_of_In.
      * apply in_map_iff. exists (b, a). split; [|by apply list_elem_of_In].
        unfold sort_pair. simpl. destruct (b <=? a) eqn:E; [|done].
        apply Nat.leb_le in E. by replace b with a by lia.
Qed.

(** X11: the edge collection an instance derives from its faces lists
    every pair of vertices that are consecutive in some face exactly once,
    the smaller index first; the receiver keeps it from then on. *)
Theorem edges_derived h this o :
  wf_heap h → h !! this = Some o → _edges o = None →
  ∃ h' es o',
    edges this h = (h', Ok es) ∧ NoDup es ∧
    (∀ a b, (a, b) ∈ es ↔
       a ≤ b ∧ ∃ face, face ∈ faces o ∧
         ((a, b) ∈ consecutive_pairs face ∨ (b, a) ∈ consecutive_pairs face)) ∧
    h' !! this = Some o' ∧ _edges o' = Some es ∧
    edges this h' = (h', Ok es).
Proof.
  intros Hwf Ho He.
  destruct (getAllEdges_returns h this _ Hwf (mesh_at_lookup _ _ _ Ho))
    as (h1 & Hrun & H1). simpl in Hrun.
  pose proof (ext_mesh _ _ _ _ H1 (mesh_at_lookup _ _ _ Ho))
    as (o1 & Ho1 & Hmo1)%mesh_at_Some.
  exists (<[this := set_edges (all_edges (faces o)) o1]> h1),
    (all_edges (faces o)), (set_edges (all_edges (faces o)) o1).
  assert (Hlt : this < length h1) by (by eapply lookup_lt_Some).
  assert (Hl : <[this := set_edges (all_edges (faces o)) o1]> h1 !! this
               = Some (set_edges (all_edges (faces o)) o1))
    by (by apply list_lookup_insert_eq).
  split.
  { unfold edges. unfold bind at 1, deref. rewrite Ho, He.
    unfold bind at 1. rewrite Hrun. unfold bind, update. by rewrite Ho1. }
  split; [apply uniq_NoDup|]. split.
  { intros a b. rewrite all_edges_elem. unfold all_directed. split.
    - intros [Hle [H|H]]; (split; [done|]);
        apply elem_of_flat_map in H as (face & Hf & H); exists face; auto.
    - intros [Hle (face & Hf & [H|H])]; (split; [done|]); [left|right];
        apply elem_of_flat_map; by exists face. }
  split; [done|]. split; [done|]. unfold edges, bind, deref; by rewrite Hl.
Qed.
End VertexGraph.

(** ** The faces at a vertex *)

Section FaceRows.
Implicit Types (mapping : list (list FaceObj)) (f face : FaceObj).

Lemma append_nil_fmap {A} (x : option (list A)) : (λ l, l ++ []) <$> x = x.
Proof. destruct x; simpl; [by rewrite app_nil_r | done]. Qed.

(** The inner loop of [vertexToFaceGraph]: it fails exactly when a corner
    has no slot, and otherwise appends the face once per corner. *)
Lemma vertexToFaceGraph_step_fold face (vs : list nat) mapping :
  match foldR (vertexToFaceGraph_step face) vs mapping with
  | Ok mapping' =>
      Forall (λ v, v < length mapping) vs ∧
      length mapping' = length mapping ∧
      ∀ v, mapping' !! v
           = (λ l, l ++ flat_map (λ w, if bool_decide (w = v) then [face] else [])
                          vs) <$> mapping !! v
  | Throw e => e = TypeError ∧ ¬ Forall (λ v, v < length mapping) vs
  end.
Proof.
  revert mapping. induction vs as [|v0 vs IH]; intros mapping;
    cbn [foldR result_bind].
  - split; [done|]. split; [done|]. intros v. simpl. by rewrite append_nil_fmap.
  - unfold vertexToFaceGraph_step at 1.
    destruct (mapping !! v0) as [l|] eqn:E; cbn [result_bind].
    + specialize (IH (<[v0 := l ++ [face]]> mapping)).
      rewrite length_insert in IH.
      pose proof (lookup_lt_Some _ _ _ E) as Hlt.
      destruct (foldR _ vs _) as [mapping'|e].
      * destruct IH as (Hall & Hlen & Hlook). split; [|split; [done|]].
        -- by constructor.
        -- intros v. rewrite Hlook. cbn [flat_map].
           destruct (decide (v0 = v)) as [->|Hne].
           ++ rewrite list_lookup_insert_eq by done. rewrite E. simpl.
              rewrite bool_decide_eq_true_2 by done. simpl.
              by rewrite <- app_assoc.
           ++ rewrite list_lookup_insert_ne by done.
              by rewrite bool_decide_eq_false_2 by done.
      * destruct IH as [-> Hn]. split; [done|]. intros H. apply Hn.
        by inversion H.
    + split; [done|]. intros H. inversion H as [|? ? Hlt _]; subst.
      apply lookup_ge_None in E. lia.
Qed.

Lemma fmap_app_compose {A} (x : option (list A)) (l1 l2 : list A) :
  (λ l, l ++ l2) <$> ((λ l, l ++ l1) <$> x) = (λ l, l ++ l1 ++ l2) <$> x.
Proof. destruct x; simpl; [by rewrite <- app_assoc | done]. Qed.

Lemma vertexToFaceGraph_fold (vsof : FaceObj → list nat) (views : list FaceObj)
    mapping :
  match foldR (λ mapping face,
                 foldR (vertexToFaceGraph_step face) (vsof face) mapping)
          views mapping with
  | Ok mapping' =>
      Forall (λ f, Forall (λ v, v < length mapping) (vsof f)) views ∧
      length mapping' = length mapping ∧
      ∀ v, mapping' !! v = (λ l, l ++ pushed vsof views v) <$> mapping !! v
  | Throw e =>
      e = TypeError ∧
      ¬ Forall (λ f, Forall (λ v, v < length mapping) (vsof f)) views
  end.
Proof.
  revert mapping. induction views as [|f views IH]; intros mapping;
    cbn [foldR result_bind].
  - split; [done|]. split; [done|]. intros v. unfold pushed. simpl.
    by rewrite append_nil_fmap.
  - pose proof (vertexToFaceGraph_step_fold f (vsof f) mapping) as Hin.
    destruct (foldR (vertexToFaceGraph_step f) (vsof f) mapping)
      as [mapping1|e]; cbn [result_bind].
    + destruct Hin as (Hall & Hlen & Hlook). specialize (IH mapping1).
      rewrite Hlen in IH.
      destruct (foldR _ views mapping1) as [mapping'|e].
      * destruct IH as (Hall' & Hlen' & Hlook'). split; [|split; [done|]].
        -- by constructor.
        -- intros v. rewrite Hlook', Hlook. unfold pushed. cbn [flat_map].
           apply fmap_app_compose.
      * destruct IH as [-> Hn]. split; [done|]. intros H. apply Hn.
        by inversion H.
    + destruct Hin as [-> Hn]. split; [done|]. intros H. apply Hn.
      by inversion H.
Qed.

Lemma Forall_face_views (P : list nat → Prop) this (faces : list (list nat)) :
  Forall (λ f, P (view_face faces f)) (face_views this (length faces))
  ↔ Forall P faces.
Proof.
  assert (E : view_face faces <$> face_views this (length faces) = faces).
  { pose proof (map_face_views (λ x, x) this faces) as E0.
    rewrite map_id in E0. exact E0. }
  assert (Hmem : ∀ vs : list nat, vs ∈ faces ↔
            ∃ f, vs = view_face faces f ∧ f ∈ face_views this (length faces)).
  { intros vs. rewrite <- list_elem_of_fmap. by rewrite E. }
  rewrite !Forall_forall. split; intros H.
  - intros vs (f & -> & Hf)%Hmem. by apply H.
  - intros f Hf. apply H, Hmem. by exists f.
Qed.

Lemma pushed_elem (vsof : FaceObj → list nat) views v f :
  f ∈ pushed vsof views v ↔ f ∈ views ∧ v ∈ vsof f.
Proof.
  unfold pushed. rewrite elem_of_flat_map. split.
  - intros (g & Hg & (w & Hw & Hin)%elem_of_flat_map).
    destruct (bool_decide (w = v)) eqn:E; [|by apply elem_of_nil in Hin].
    apply bool_decide_eq_true in E. apply list_elem_of_singleton in Hin.
    by subst.
  - intros [Hf Hv]. exists f. split; [done|]. apply elem_of_flat_map.
    exists v. split; [done|]. rewrite bool_decide_eq_true_2 by done. left.
Qed.

(** What [vertexToFaceGraph] computes. *)
Lemma vertexToFaceGraph_of_rows this n (faces : list (list nat)) :
  match vertexToFaceGraph_of this n faces with
  | Ok graph =>
      corners_in_range n faces ∧ length graph = n ∧
      ∀ v, v < n →
        graph !! v
        = Some (pushed (view_face faces) (face_views this (length faces)) v)
  | Throw e => e = TypeError ∧ ¬ corners_in_range n faces
  end.
Proof.
  unfold vertexToFaceGraph_of, corners_in_range.
  pose proof (vertexToFaceGraph_fold (view_face faces)
                (face_views this (length faces)) (replicate n [])) as H.
  rewrite length_replicate in H.
  destruct (foldR _ _ _) as [graph|e].
  - destruct H as (Hall & Hlen & Hlook). split; [|split; [done|]].
    + by apply (Forall_face_views (Forall (λ v, v < n)) this faces).
    + intros v Hv. rewrite Hlook, lookup_replicate_2 by done. done.
  - destruct H as [-> Hn]. split; [done|]. intros H. apply Hn.
    by apply (Forall_face_views (Forall (λ v, v < n)) this faces).
Qed.

Lemma uniqBy_from_keys {A K} `{EqDecision K} (key : A → K) seen (l : list A) :
  map key (Lodash.uniqBy_from key seen l)
  = Lodash.uniqBy_from (λ k, k) seen (map key l).
Proof.
  revert seen. induction l as [|x l IH]; intros seen; simpl; [done|].
  destruct (bool_decide (key x ∈ seen)); simpl; by rewrite IH.
Qed.

Lemma uniqBy_keys_NoDup {A K} `{EqDecision K} (key : A → K) (l : list A) :
  NoDup (map key (Lodash.uniqBy key l)).
Proof.
  unfold Lodash.uniqBy. rewrite uniqBy_from_keys. apply uniqBy_from_id_NoDup.
Qed.

Lemma uniqBy_elem_inj {A K} `{EqDecision K} (key : A → K) (l : list A) x :
  (∀ y, y ∈ l → key y = key x → y = x) → x ∈ l → x ∈ Lodash.uniqBy key l.
Proof.
  intros Hinj Hx.
  assert (Hk : key x ∈ map key (Lodash.uniqBy key l)).
  { unfold Lodash.uniqBy. rewrite uniqBy_from_keys.
    apply uniqBy_from_id_elem. split; [|by intros ?%elem_of_nil].
    apply list_elem_of_fmap. by exists x. }
  apply list_elem_of_fmap in Hk as (y & Hk & Hy).
  pose proof (uniqBy_from_elem _ _ _ _ Hy) as Hyl.
  by rewrite <- (Hinj y Hyl (eq_sym Hk)).
Qed.
End FaceRows.

Section FacesAtVertex.
Context {number Vec3D : Type}.
Local Abbreviation PolyObj := (PolyObj number Vec3D).
Local Abbreviation heap := (heap number Vec3D).
Local Abbreviation M := (M number Vec3D).
Implicit Types (h : heap) (l this : loc) (o : PolyObj) (m : @Mesh number Vec3D).

(** X12: [vertexToFaceGraph] raises a [TypeError] exactly when some face
    has a corner that is not the index of a vertex; otherwise it has one
    row per vertex, and the row of a vertex holds the views of the faces
    that have the vertex as a corner. *)
Theorem vertexToFaceGraph_rows h this o :
  wf_heap h → h !! this = Some o →
  ∃ h' r,
    vertexToFaceGraph this h = (h', r) ∧
    match r with
    | Ok graph =>
        corners_in_range (length (vertices o)) (faces o) ∧
        length graph = length (vertices o) ∧
        ∀ v row f, graph !! v = Some row →
          (f ∈ row ↔ polyhedron f = this ∧
                     ∃ face, faces o !! fIndex f = Some face ∧ v ∈ face)
    | Throw e =>
        e = TypeError ∧ ¬ corners_in_range (length (vertices o)) (faces o)
    end.
Proof.
  intros Hwf Ho.
  destruct (vertexToFaceGraph_returns h this _ Hwf (mesh_at_lookup _ _ _ Ho))
    as (h' & Hrun & _). simpl in Hrun.
  eexists h', _. split; [exact Hrun|].
  pose proof (vertexToFaceGraph_of_rows this (length (vertices o)) (faces o))
    as H.
  destruct (vertexToFaceGraph_of _ _ _) as [graph|e]; [|done].
  destruct H as (Hall & Hlen & Hlook). split; [done|]. split; [done|].
  intros v row f Hrow.
  assert (Hv : v < length (vertices o)).
  { rewrite <- Hlen. by eapply lookup_lt_Some. }
  rewrite (Hlook v Hv) in Hrow. injection Hrow as <-.
  rewrite pushed_elem, face_views_elem. unfold view_face. split.
  - intros [[Hp Hi] Hin]. split; [done|].
    destruct (faces o !! fIndex f) as [face|] eqn:E; [by exists face|].
    by apply elem_of_nil in Hin.
  - intros [Hp (face & Hf & Hin)]. rewrite Hf. simpl.
    split; [|done]. split; [done | by eapply lookup_lt_Some].
Qed.

Lemma adjacentFaces_list_returns h this m (vIndices : list nat) :
  wf_heap h → mesh_at h this = Some m →
  returns (adjacentFaces this vIndices) h
    (adjacentFaces_of this (length (mesh_vertices m)) (mesh_faces m) vIndices).
Proof.
  intros Hwf Hm. unfold adjacentFaces, adjacentFaces_of.
  eapply returns_bind_result.
  - apply M_map_returns; [done|]. intros v h1 _ H1.
    eapply returns_bind_result.
    + apply vertexToFaceGraph_returns; [by eapply ext_wf | by eapply ext_mesh].
    + intros graph h2 _ H2. apply returns_ret. by eapply ext_wf.
  - intros per_vertex h1 _ H1.
    destruct (mapM _ per_vertex);
      [apply returns_ret | apply returns_throw]; by eapply ext_wf.
Qed.

(** The faces at the given vertices, from the mesh alone. *)
Lemma adjacentFaces_of_touching this n (faces : list (list nat))
    (vIndices : list nat) :
  (vIndices ≠ [] → ¬ corners_in_range n faces →
     adjacentFaces_of this n faces vIndices = Throw TypeError) ∧
  (Exists (λ v, n ≤ v) vIndices →
     adjacentFaces_of this n faces vIndices = Throw TypeError) ∧
  (corners_in_range n faces → Forall (λ v, v < n) vIndices →
     adjacentFaces_of this n faces vIndices
     = Ok (Lodash.uniqBy fIndex
             (flat_map (pushed (view_face faces)
                          (face_views this (length faces))) vIndices))).
Proof.
  unfold adjacentFaces_of.
  pose proof (vertexToFaceGraph_of_rows this n faces) as H.
  destruct (vertexToFaceGraph_of this n faces) as [graph|e].
  - destruct H as (Hall & Hlen & Hlook).
    cbn [result_bind]. rewrite (mapR_Ok (λ v, graph !! v)). cbn [result_bind].
    rewrite mapM_id_map. split; [done|]. split.
    + intros Hex. destruct (mapM _ vIndices) as [lists|] eqn:E; [|done].
      exfalso. assert (Hs : is_Some (mapM (λ v, graph !! v) vIndices))
        by (by rewrite E).
      apply mapM_is_Some in Hs. apply Exists_exists in Hex as (v & Hv & Hge).
      rewrite Forall_forall in Hs. destruct (Hs v Hv) as [row Hrow].
      simpl in Hrow. apply lookup_lt_Some in Hrow. lia.
    + intros _ Hin.
      assert (E : mapM (λ v, graph !! v) vIndices
                  = Some (map (pushed (view_face faces)
                                 (face_views this (length faces))) vIndices)).
      { apply mapM_Some. apply Forall2_fmap_r, Forall_Forall2_diag.
        rewrite Forall_forall in Hin |- *. intros v Hv. by apply Hlook, Hin. }
      rewrite E. by rewrite flat_map_concat_map.
  - destruct H as [-> Hn].
    assert (Hthrow : vIndices ≠ [] →
      result_bind
        (mapR (λ v, result_bind (Throw TypeError : result (list (list FaceObj)))
                      (λ graph, Ok (graph !! v))) vIndices)
        (λ per_vertex,
           match mapM (λ x, x) per_vertex with
           | Some lists => Ok (Lodash.uniqBy fIndex (concat lists))
           | None => Throw TypeError
           end) = Throw TypeError).
    { destruct vIndices; [done|]. done. }
    split; [by intros Hne _; apply Hthrow|]. split; [|done].
    intros Hex. apply Hthrow. intros ->. by apply Exists_nil in Hex.
Qed.

(** X13: [adjacentFaces(...vIndices)] on a mesh whose corners are all
    vertices: a [TypeError] when one of the given indices is not a
    vertex; otherwise the views of the faces that have one of the given
    vertices as a corner, each face once. *)
Theorem adjacentFaces_touching h this o (vIndices : list nat) :
  wf_heap h → h !! this = Some o →
  corners_in_range (length (vertices o)) (faces o) →
  ∃ h' r,
    adjacentFaces this vIndices h = (h', r) ∧
    (Exists (λ v, length (vertices o) ≤ v) vIndices → r = Throw TypeError) ∧
    (Forall (λ v, v < length (vertices o)) vIndices →
       ∃ touching,
         r = Ok touching ∧ NoDup (map fIndex touching) ∧
         ∀ f, f ∈ touching ↔
           polyhedron f = this ∧
           ∃ face v, faces o !! fIndex f = Some face ∧
                     v ∈ vIndices ∧ v ∈ face).
Proof.
  intros Hwf Ho Hall.
  destruct (adjacentFaces_list_returns h this _ vIndices Hwf
              (mesh_at_lookup _ _ _ Ho)) as (h' & Hrun & _). simpl in Hrun.
  eexists h', _. split; [exact Hrun|].
  destruct (adjacentFaces_of_touching this (length (vertices o)) (faces o)
              vIndices) as (_ & Hout & Hin).
  split; [exact Hout|]. intros Hv. eexists. split; [by apply Hin|].
  split; [apply uniqBy_keys_NoDup|]. intros f.
  assert (Hraw : f ∈ flat_map (pushed (view_face (faces o))
                                 (face_views this (length (faces o)))) vIndices
                 ↔ polyhedron f = this ∧
                   ∃ face v, faces o !! fIndex f = Some face ∧
                             v ∈ vIndices ∧ v ∈ face).
  { rewrite elem_of_flat_map. split.
    - intros (v & Hvin & [[Hp Hi]%face_views_elem Hc]%pushed_elem).
      split; [done|]. unfold view_face in Hc.
      destruct (faces o !! fIndex f) as [face|] eqn:E;
        [by exists face, v | by apply elem_of_nil in Hc].
    - intros [Hp (face & v & Hf & Hvin & Hc)]. exists v. split; [done|].
      apply pushed_elem. split.
      + apply face_views_elem. split; [done | by eapply lookup_lt_Some].
      + unfold view_face. by rewrite Hf. }
  rewrite <- Hraw. split; [apply uniqBy_from_elem|].
  intros Hf. apply uniqBy_elem_inj; [|done].
  intros g Hg Hk. apply Hraw in Hf as [Hpf _].
  apply elem_of_flat_map in Hg as (v & _ & [[Hpg _]%face_views_elem _]%pushed_elem).
  destruct f, g. simpl in *. congruence.
Qed.

Lemma filter_fmap_length {A B} (g : A → B) (R : B → Prop)
    `{∀ x, Decision (R x)} (l : list A) :
  length (filter R (map g l)) = length (filter (λ a, R (g a)) l).
Proof.
  induction l as [|a l IH]; simpl; [done|].
  rewrite !filter_cons. destruct (decide (R (g a))); simpl; by rewrite IH.
Qed.

(** X14: [adjacentFaceCount] at a vertex of a mesh whose corners are all
    vertices maps a side count to the number of faces with that many
    sides that have the vertex as a corner. *)
Theorem adjacentFaceCount_histogram h this o (v : nat) :
  wf_heap h → h !! this = Some o →
  corners_in_range (length (vertices o)) (faces o) →
  v < length (vertices o) →
  ∃ h' count,
    adjacentFaceCount this v h = (h', Ok count) ∧
    ∀ k, default 0 (count !! k)
         = length (filter (λ face, v ∈ face ∧ length face = k) (faces o)).
Proof.
  intros Hwf Ho Hall Hv. pose proof (mesh_at_lookup _ _ _ Ho) as Hm.
  set (views := face_views this (length (faces o))).
  set (touching := Lodash.uniqBy fIndex
                     (flat_map (pushed (view_face (faces o)) views) [v])).
  assert (Hret : returns (adjacentFaceCount this v) h
            (Ok (Lodash.countBy (λ n, n)
                   (map (λ f, length (view_face (faces o) f)) touching)))).
  { unfold adjacentFaceCount. eapply returns_bind.
    - pose proof (adjacentFaces_list_returns h this _ [v] Hwf Hm) as Hr.
      destruct (adjacentFaces_of_touching this (length (vertices o)) (faces o)
                  [v]) as (_ & _ & Hin).
      simpl in Hr. rewrite Hin in Hr; [exact Hr | done | by constructor].
    - intros h1 H1. eapply returns_bind.
      + rewrite <- (mapR_Ok (λ f, length (view_face (faces o) f))).
        apply M_map_returns; [by eapply ext_wf|]. intros f h2 Hf H2.
        apply uniqBy_from_elem, elem_of_flat_map in Hf
          as (w & _ & [Hview _]%pushed_elem).
        apply reads_returns; [by eapply ext_wf|].
        rewrite <- (view_numSides_valid this (faces o) f Hview).
        apply (FaceObj_numSides_reads h2 this (mesh_of o)).
        * eapply ext_mesh; [done|]. by eapply ext_mesh.
        * by apply face_views_elem in Hview as [? _].
      + intros h2 H2. apply returns_ret. by eapply ext_wf. }
  destruct Hret as (h' & Hrun & _).
  eexists h', _. split; [exact Hrun|]. intros k.
  rewrite countBy_lookup, filter_map_length.
  assert (Hperm : touching ≡ₚ filter (λ f, v ∈ view_face (faces o) f) views).
  { apply NoDup_Permutation.
    - eapply NoDup_fmap_1. apply uniqBy_keys_NoDup.
    - apply NoDup_filter. unfold views, face_views.
      apply NoDup_fmap_2; [|apply NoDup_seq]. by intros i j [=].
    - intros f. rewrite list_elem_of_filter. unfold touching. split.
      + intros (w & Hw & [Hview Hc]%pushed_elem)%uniqBy_from_elem%elem_of_flat_map.
        apply list_elem_of_singleton in Hw. by subst w.
      + intros [Hc Hview]. apply uniqBy_elem_inj.
        * intros g (w & _ & [Hg _]%pushed_elem)%elem_of_flat_map Hk.
          apply face_views_elem in Hg as [Hpg _], Hview as [Hpf _].
          destruct f, g. simpl in *. congruence.
        * apply elem_of_flat_map. exists v. split; [left|].
          by apply pushed_elem. }
  assert (Hlen : length (filter (λ f, length (view_face (faces o) f) = k) touching)
                 = length (filter (λ face, v ∈ face ∧ length face = k) (faces o))).
  { rewrite Hperm, list_filter_filter.
    assert (E : map (view_face (faces o)) views = faces o).
    { pose proof (map_face_views (λ x, x) this (faces o)) as E0.
      rewrite map_id in E0. exact E0. }
    transitivity (length (filter (λ face, v ∈ face ∧ length face = k)
                            (map (view_face (faces o)) views)));
      [|by rewrite E].
    rewrite (filter_fmap_length (view_face (faces o))
               (λ face, v ∈ face ∧ length face = k)).
    f_equal. apply list_filter_iff. intros f. tauto. }
  rewrite Hlen. by destruct (length (filter _ (faces o))).
Qed.
End FacesAtVertex.

(** ** The faces at an edge and the face graph *)

Section EdgeRows.
Implicit Types (g : gmap nat (gmap nat FaceObj)) (e : nat * nat) (f : FaceObj).

Lemma enter_row g (p : nat * nat * FaceObj) v :
  is_Some (enter g p !! v) ↔ is_Some (g !! v) ∨ p.1.1 = v.
Proof.
  unfold enter, directedEdge_set. destruct (decide (p.1.1 = v)) as [<-|Hne].
  - rewrite lookup_insert_eq. split; [by right | by eexists].
  - rewrite lookup_insert_ne by done. split; [by left | by intros [?|?]].
Qed.

Lemma fold_enter_row (pairs : list (nat * nat * FaceObj)) g v :
  is_Some (fold_left enter pairs g !! v)
  ↔ is_Some (g !! v) ∨ ∃ p, p ∈ pairs ∧ p.1.1 = v.
Proof.
  revert g. induction pairs as [|p pairs IH]; intros g; simpl.
  - split; [by left|]. intros [?|(p & Hp & _)]; [done|].
    by apply elem_of_nil in Hp.
  - rewrite IH, enter_row. split.
    + intros [[?|?]|(q & Hq & ?)]; [by left | right | right].
      * exists p. split; [left | done].
      * exists q. split; [by right | done].
    + intros [?|(q & [->|Hq]%elem_of_cons & ?)]; [by left; left | by left; right |].
      right. by exists q.
Qed.

Lemma fold_enter_is_Some (pairs : list (nat * nat * FaceObj)) g e :
  e ∈ pairs.*1 ∨ is_Some (directedEdge_lookup g e) →
  is_Some (directedEdge_lookup (fold_left enter pairs g) e).
Proof.
  revert g. induction pairs as [|[e' f'] pairs IH]; intros g; simpl.
  - intros [?%elem_of_nil|?]; done.
  - intros H. apply IH. destruct (decide (e' = e)) as [->|Hne].
    + right. unfold enter. simpl. rewrite directedEdge_lookup_set_eq.
      by eexists.
    + destruct H as [[?|?]%elem_of_cons|H]; [done | by left |].
      right. unfold enter. simpl. by rewrite directedEdge_lookup_set_ne.
Qed.

(** A row of the directed-edge lookup exists for the vertices that start
    a directed edge, which are the corners of the faces. *)
Lemma directedEdgeToFaceGraph_of_row this (faces : list (list nat)) v :
  is_Some (directedEdgeToFaceGraph_of this faces !! v)
  ↔ ∃ face, face ∈ faces ∧ v ∈ face.
Proof.
  rewrite directedEdgeToFaceGraph_of_enter, fold_enter_row, lookup_empty.
  rewrite used_starts_edge. split.
  - intros [[? ?]|([[a b] f] & Hp & <-)]; [done|]. simpl. exists b.
    change (all_directed faces) with (flat_map consecutive_pairs faces).
    rewrite <- (directed_list_fst this). apply list_elem_of_fmap.
    by exists (a, b, f).
  - intros (w & Hw). right.
    change (all_directed faces) with (flat_map consecutive_pairs faces) in Hw.
    rewrite <- (directed_list_fst this) in Hw.
    apply list_elem_of_fmap in Hw as ([e f] & He & Hp). simpl in He. subst e.
    by exists (v, w, f).
Qed.

(** A directed edge resolves to a face that has it; it resolves to
    nothing exactly when no face has it. *)
Lemma directedEdge_lookup_of this (faces : list (list nat)) e :
  (∀ f, directedEdge_lookup (directedEdgeToFaceGraph_of this faces) e = Some f →
        polyhedron f = this ∧
        ∃ face, faces !! fIndex f = Some face ∧ e ∈ consecutive_pairs face) ∧
  (directedEdge_lookup (directedEdgeToFaceGraph_of this faces) e = None
   ↔ ∀ face, face ∈ faces → e ∉ consecutive_pairs face).
Proof.
  split.
  - intros f [[Hp Hi]%face_views_elem Hin]%directedEdgeToFaceGraph_of_Some%directed_list_elem.
    split; [done|]. unfold view_face in Hin.
    destruct (faces !! fIndex f) as [face|]; [by exists face|].
    by apply elem_of_nil in Hin.
  - assert (Hd : e ∈ all_directed faces
                 ↔ ∃ face, face ∈ faces ∧ e ∈ consecutive_pairs face)
      by apply elem_of_flat_map.
    split.
    + intros Hnone face Hface Hin.
      assert (Hs : is_Some (directedEdge_lookup
                              (directedEdgeToFaceGraph_of this faces) e)).
      { rewrite directedEdgeToFaceGraph_of_enter. apply fold_enter_is_Some.
        left. rewrite directed_list_fst. apply Hd. by exists face. }
      rewrite Hnone in Hs. by destruct Hs.
    + intros Hno. rewrite directedEdgeToFaceGraph_of_enter.
      rewrite fold_enter_notin; [done|]. rewrite directed_list_fst.
      intros (face & Hface & Hin)%Hd. by apply (Hno face).
Qed.
End EdgeRows.

Section FaceGraphFacts.
Context {number Vec3D : Type}.
Local Abbreviation PolyObj := (PolyObj number Vec3D).
Local Abbreviation heap := (heap number Vec3D).
Local Abbreviation M := (M number Vec3D).
Implicit Types (h : heap) (l this : loc) (o : PolyObj) (m : @Mesh number Vec3D).

(** X15: [edgeFaces] on any mesh.  It returns a pair exactly when both
    ends of the edge are corners of faces, and raises a [TypeError]
    exactly when one of them is a corner of no face; each entry of the
    pair is a face that has the edge in that direction, and is
    [undefined] exactly when no face has the edge in that direction. *)
Theorem edgeFaces_resolves h this o (e : nat * nat) :
  wf_heap h → h !! this = Some o →
  ∃ h' r,
    edgeFaces this e h = (h', r) ∧
    match r with
    | Ok (x, y) =>
        (∃ face, face ∈ faces o ∧ e.1 ∈ face) ∧
        (∃ face, face ∈ faces o ∧ e.2 ∈ face) ∧
        (∀ f, x = Some f →
           polyhedron f = this ∧
           ∃ face, faces o !! fIndex f = Some face ∧
                   e ∈ consecutive_pairs face) ∧
        (x = None ↔ ∀ face, face ∈ faces o → e ∉ consecutive_pairs face) ∧
        (∀ f, y = Some f →
           polyhedron f = this ∧
           ∃ face, faces o !! fIndex f = Some face ∧
                   swap_pair e ∈ consecutive_pairs face) ∧
        (y = None ↔
           ∀ face, face ∈ faces o → swap_pair e ∉ consecutive_pairs face)
    | Throw err =>
        err = TypeError ∧
        ¬ ((∃ face, face ∈ faces o ∧ e.1 ∈ face) ∧
           (∃ face, face ∈ faces o ∧ e.2 ∈ face))
    end.
Proof.
  intros Hwf Ho.
  destruct (edgeFaces_returns h this _ e Hwf (mesh_at_lookup _ _ _ Ho))
    as (h' & Hrun & _). simpl in Hrun.
  eexists h', _. split; [exact Hrun|].
  pose proof (directedEdgeToFaceGraph_of_row this (faces o) e.1) as R1.
  pose proof (directedEdgeToFaceGraph_of_row this (faces o) e.2) as R2.
  destruct (edgeFaces_in _ e) as [[x y]|err] eqn:E.
  - assert (Hrows : is_Some (directedEdgeToFaceGraph_of this (faces o) !! e.1) ∧
                    is_Some (directedEdgeToFaceGraph_of this (faces o) !! e.2)).
    { unfold edgeFaces_in in E.
      destruct (directedEdgeToFaceGraph_of this (faces o) !! e.1); [|done].
      destruct (directedEdgeToFaceGraph_of this (faces o) !! e.2); [|done].
      split; by eexists. }
    destruct Hrows as [C1%R1 C2%R2].
    apply edgeFaces_in_Ok in E as [-> ->].
    destruct (directedEdge_lookup_of this (faces o) e) as [H1 H2].
    destruct (directedEdge_lookup_of this (faces o) (swap_pair e)) as [H3 H4].
    done.
  - unfold edgeFaces_in in E.
    destruct (directedEdgeToFaceGraph_of this (faces o) !! e.1) as [row1|].
    + destruct (directedEdgeToFaceGraph_of this (faces o) !! e.2) as [row2|];
        [done|]. injection E as <-. split; [done|].
      intros [_ [? ?]%R2]. done.
    + injection E as <-. split; [done|]. intros [[? ?]%R1 _]. done.
Qed.

Lemma resolve_owners this (faces : list (list nat)) e f1 f2 :
  closed_mesh faces →
  f1 ∈ face_views this (length faces) →
  e ∈ consecutive_pairs (view_face faces f1) →
  f2 ∈ face_views this (length faces) →
  swap_pair e ∈ consecutive_pairs (view_face faces f2) →
  resolve (directedEdgeToFaceGraph_of this faces) e = Some (f1, f2).
Proof.
  intros Hc V1 E1 V2 E2. unfold resolve.
  by rewrite (owner_lookup this faces Hc f1 e V1 E1),
    (owner_lookup this faces Hc f2 (swap_pair e) V2 E2).
Qed.

Lemma view_face_lookup (faces : list (list nat)) this i face :
  faces !! i = Some face →
  mkFaceObj this i ∈ face_views this (length faces) ∧
  view_face faces (mkFaceObj this i) = face.
Proof.
  intros Hi. split.
  - apply face_views_elem. split; [done | by eapply lookup_lt_Some].
  - unfold view_face. simpl. by rewrite Hi.
Qed.

(** X16: on a closed, consistently oriented mesh whose edge collection
    lists every edge once, [faceGraph] succeeds; the entry of a face has
    as many neighbours as the face has sides, and a face is a neighbour
    of another exactly when the two have an edge in common, which they
    traverse in opposite directions. *)
Theorem faceGraph_neighbours h this o :
  wf_heap h → h !! this = Some o →
  closed_mesh (faces o) → edges_cover (faces o) (edges_of o) →
  ∃ h' graph,
    faceGraph this h = (h', Ok graph) ∧
    (∀ i face, faces o !! i = Some face →
       length (default [] (graph !! i)) = length face) ∧
    (∀ i g, g ∈ default [] (graph !! i) →
       polyhedron g = this ∧ fIndex g < length (faces o)) ∧
    (∀ i j face_i face_j,
       faces o !! i = Some face_i → faces o !! j = Some face_j →
       (mkFaceObj this j ∈ default [] (graph !! i) ↔
        ∃ d, d ∈ consecutive_pairs face_i ∧
             swap_pair d ∈ consecutive_pairs face_j)).
Proof.
  intros Hwf Ho Hc Hcov.
  destruct (faceGraph_returns h this _ Hwf (mesh_at_lookup _ _ _ Ho))
    as (h' & Hrun & _). simpl in Hrun.
  destruct (closed_faceGraph_Ok this _ _ Hc Hcov) as [graph Hg].
  rewrite Hg in Hrun. exists h', graph. split; [exact Hrun|].
  split; [|split].
  - intros i face Hi.
    destruct (view_face_lookup (faces o) this i face Hi) as [Hv Hf].
    pose proof (neighbour_sides this _ _ Hc Hcov _ graph Hv Hg) as Hp.
    simpl in Hp. apply Permutation_length in Hp.
    rewrite !length_map, Hf, consecutive_pairs_length in Hp. done.
  - intros i g Hin.
    by apply (faceGraph_of_views this _ _ _ _ _ Hg), face_views_elem in Hin.
  - intros i j face_i face_j Hi Hj.
    destruct (view_face_lookup (faces o) this i face_i Hi) as [Vi Fi].
    destruct (view_face_lookup (faces o) this j face_j Hj) as [Vj Fj].
    rewrite (faceGraph_of_neighbours this _ _ _ i Hg), elem_of_flat_map.
    split.
    + intros (e & He & Hn).
      destruct (covered_resolve this _ _ Hc Hcov e He)
        as (f1 & f2 & Hr & V1 & E1 & V2 & E2).
      rewrite Hr in Hn. simpl in Hn. unfold neighbours_step in Hn. simpl in Hn.
      apply elem_of_app in Hn as [Hn|Hn].
      * destruct (bool_decide (i = fIndex f1)) eqn:B;
          [|by apply elem_of_nil in Hn].
        apply bool_decide_eq_true in B. apply list_elem_of_singleton in Hn.
        subst f2. exists e.
        apply face_views_elem in V1 as [P1 _].
        assert (f1 = mkFaceObj this i) by (destruct f1; simpl in *; congruence).
        subst f1. rewrite Fi in E1. rewrite Fj in E2. done.
      * destruct (bool_decide (i = fIndex f2)) eqn:B;
          [|by apply elem_of_nil in Hn].
        apply bool_decide_eq_true in B. apply list_elem_of_singleton in Hn.
        subst f1. exists (swap_pair e).
        apply face_views_elem in V2 as [P2 _].
        assert (f2 = mkFaceObj this i) by (destruct f2; simpl in *; congruence).
        subst f2. rewrite Fi in E2. rewrite Fj in E1.
        by rewrite swap_pair_involutive.
    + intros (d & Hdi & Hdj).
      assert (Hall : d ∈ all_directed (faces o)).
      { apply elem_of_flat_map. exists face_i. split; [|done].
        by eapply list_elem_of_lookup_2. }
      unfold edges_cover in Hcov. rewrite <- Hcov in Hall.
      apply elem_of_app in Hall as [Hd|(e & -> & He)%list_elem_of_fmap].
      * exists d. split; [done|].
        rewrite (resolve_owners this (faces o) d (mkFaceObj this i)
                   (mkFaceObj this j)); try done; [|by rewrite Fi | by rewrite Fj].
        simpl. unfold neighbours_step. simpl.
        rewrite bool_decide_eq_true_2 by done. left.
      * exists e. split; [done|]. rewrite swap_pair_involutive in Hdj.
        rewrite (resolve_owners this (faces o) e (mkFaceObj this j)
                   (mkFaceObj this i)); try done; [|by rewrite Fj | by rewrite Fi].
        simpl. unfold neighbours_step. simpl. apply elem_of_app. right.
        rewrite bool_decide_eq_true_2 by done. left.
Qed.

Lemma foldR_throws {A X} (f : A → X → result A) (xs : list X) (a : A) (e : exn) x :
  (∀ a y e', f a y = Throw e' → e' = e) →
  x ∈ xs → (∀ a, f a x = Throw e) →
  foldR f xs a = Throw e.
Proof.
  intros Honly Hx Hfail. revert a.
  induction xs as [|y xs IH]; intros a; [by apply elem_of_nil in Hx|].
  simpl. destruct (f a y) as [a'|e'] eqn:E; simpl.
  - apply elem_of_cons in Hx as [->|Hx]; [by rewrite Hfail in E|]. by apply IH.
  - by rewrite (Honly _ _ _ E).
Qed.

Lemma faceGraph_round_throws (deg : gmap nat (gmap nat FaceObj))
    (graph : gmap nat (list FaceObj)) (e : nat * nat) err :
  result_bind (edgeFaces_in deg e) (faceGraph_step graph) = Throw err →
  err = TypeError.
Proof.
  unfold edgeFaces_in.
  destruct (deg !! e.1); [|by intros [= <-]].
  destruct (deg !! e.2); [|by intros [= <-]]. simpl.
  destruct (_ !! e.2) as [f1|]; [|by intros [= <-]].
  destruct (_ !! e.1) as [f2|]; [|by intros [= <-]]. done.
Qed.

Lemma faceGraph_round_unresolved (deg : gmap nat (gmap nat FaceObj))
    (graph : gmap nat (list FaceObj)) (e : nat * nat) :
  resolve deg e = None →
  result_bind (edgeFaces_in deg e) (faceGraph_step graph) = Throw TypeError.
Proof.
  unfold resolve, directedEdge_lookup, edgeFaces_in, swap_pair. simpl.
  destruct (deg !! e.1) as [row1|]; simpl; [|done].
  destruct (deg !! e.2) as [row2|]; simpl.
  - destruct (row1 !! e.2); simpl; [|done]. by destruct (row2 !! e.1).
  - by destruct (row1 !! e.2).
Qed.

Lemma mapR_head_throws {A B} (f : A → result B) x (xs : list A) e :
  f x = Throw e → mapR f (x :: xs) = Throw e.
Proof. intros H. simpl. by rewrite H. Qed.

Lemma mapR_Throw {A B} (f : A → result B) (xs : list A) e :
  mapR f xs = Throw e → ∃ x, x ∈ xs ∧ f x = Throw e.
Proof.
  induction xs as [|x xs IH]; simpl; [done|].
  destruct (f x) as [y|e'] eqn:E; simpl.
  - destruct (mapR f xs) as [ys|e'']; simpl; [done|].
    intros [= ->]. destruct (IH eq_refl) as (x' & Hx' & Hf).
    exists x'. split; [by right | done].
  - intros [= ->]. exists x. split; [left | done].
Qed.

Lemma mapR_length {A B} (f : A → result B) (xs : list A) ys :
  mapR f xs = Ok ys → length ys = length xs.
Proof.
  revert ys. induction xs as [|x xs IH]; intros ys; simpl; [by intros [= <-]|].
  destruct (f x) as [y|]; simpl; [|done].
  destruct (mapR f xs) as [ys'|]; simpl; [|done].
  intros [= <-]. simpl. by rewrite (IH ys').
Qed.

Lemma foldR_Throw {A X} (f : A → X → result A) (xs : list X) (a : A) e :
  foldR f xs a = Throw e → ∃ a' x, f a' x = Throw e.
Proof.
  revert a. induction xs as [|x xs IH]; intros a; simpl; [done|].
  destruct (f a x) as [a'|e'] eqn:E; simpl; [apply IH|].
  intros [= ->]. by exists a, x.
Qed.

Lemma view_numSides_Throw this (faces : list (list nat)) f e :
  view_numSides this faces f = Throw e → e = TypeError.
Proof.
  unfold view_numSides. destruct (bool_decide _); [|by intros [= <-]].
  destruct (faces !! fIndex f); [done | by intros [= <-]].
Qed.

Lemma faceGraph_of_Throw this (faces : list (list nat)) es e :
  faceGraph_of this faces es = Throw e → e = TypeError.
Proof.
  intros (a & x & H)%foldR_Throw. by apply faceGraph_round_throws in H.
Qed.

(** The fingerprint raises nothing but [TypeError]. *)
Lemma faceAdjacencyList_of_Throw this (faces : list (list nat)) es e :
  faceAdjacencyList_of this faces es = Throw e → e = TypeError.
Proof.
  unfold faceAdjacencyList_of.
  destruct (mapR _ _) as [counts|e'] eqn:E; simpl; [done|].
  intros [= ->]. apply mapR_Throw in E as (f & _ & Hf).
  unfold faceAdjacencyCount_of in Hf.
  destruct (view_numSides this faces f) as [n|e1] eqn:E1; simpl in Hf;
    [|injection Hf as <-; by eapply view_numSides_Throw].
  destruct (faceGraph_of this faces es) as [graph|e2] eqn:E2; simpl in Hf;
    [|injection Hf as <-; by eapply faceGraph_of_Throw].
  destruct (mapR _ (default [] (graph !! fIndex f))) as [ns|e3] eqn:E3;
    simpl in Hf; [done|]. injection Hf as <-.
  apply mapR_Throw in E3 as (g & _ & Hg). by eapply view_numSides_Throw.
Qed.

(** X17: when the edge collection holds an edge that some face lacks on
    one side (a boundary edge of an open mesh), [faceGraph] ends in a
    [TypeError]; on a polyhedron with at least one face so do
    [faceAdjacencyList] and [isSame], whatever the other polyhedron. *)
Theorem faceGraph_boundary_edge h this other o oo (e : nat * nat) :
  wf_heap h → h !! this = Some o → h !! other = Some oo →
  e ∈ edges_of o →
  (∀ face, face ∈ faces o → e ∉ consecutive_pairs face) ∨
  (∀ face, face ∈ faces o → swap_pair e ∉ consecutive_pairs face) →
  (faceGraph this h).2 = Throw TypeError ∧
  (faces o ≠ [] →
     (faceAdjacencyList this h).2 = Throw TypeError ∧
     (isSame this this h).2 = Throw TypeError ∧
     (faceCount_of (faces oo) = faceCount_of (faces o) →
        (isSame this other h).2 = Throw TypeError ∧
        (isSame other this h).2 = Throw TypeError)).
Proof.
  intros Hwf Ho Hoo He Hside.
  assert (Hres : resolve (directedEdgeToFaceGraph_of this (faces o)) e = None).
  { unfold resolve.
    destruct (directedEdge_lookup_of this (faces o) e) as [_ H1].
    destruct (directedEdge_lookup_of this (faces o) (swap_pair e)) as [_ H2].
    destruct Hside as [Hs|Hs].
    - by rewrite (proj2 H1 Hs).
    - rewrite (proj2 H2 Hs). by destruct (directedEdge_lookup _ e). }
  assert (Hg : faceGraph_of this (faces o) (edges_of o) = Throw TypeError).
  { unfold faceGraph_of. eapply foldR_throws; [|exact He|].
    - intros a y e'. apply faceGraph_round_throws.
    - intros a. by apply faceGraph_round_unresolved. }
  assert (Hfal : faces o ≠ [] →
    faceAdjacencyList_of this (faces o) (edges_of o) = Throw TypeError).
  { intros Hne. unfold faceAdjacencyList_of.
    destruct (faces o) as [|face rest] eqn:Ef; [done|].
    unfold face_views. cbn [length seq map].
    erewrite mapR_head_throws; [done|].
    unfold faceAdjacencyCount_of, view_numSides. simpl.
    rewrite bool_decide_eq_true_2 by done. simpl. by rewrite Hg. }
  split.
  { destruct (faceGraph_returns h this _ Hwf (mesh_at_lookup _ _ _ Ho))
      as (h' & Hrun & _). simpl in Hrun. by rewrite Hrun, Hg. }
  intros Hne. split.
  { destruct (faceAdjacencyList_returns h this _ Hwf (mesh_at_lookup _ _ _ Ho))
      as (h' & Hrun & _). simpl in Hrun. rewrite Hrun. simpl. by apply Hfal. }
  split.
  { rewrite (isSame_outcome h this this o o Hwf Ho Ho). unfold isSame_of.
    rewrite bool_decide_eq_true_2 by done. simpl. by rewrite (Hfal Hne). }
  intros Hcount. split.
  - rewrite (isSame_outcome h this other o oo Hwf Ho Hoo). unfold isSame_of.
    rewrite bool_decide_eq_true_2 by done. simpl. by rewrite (Hfal Hne).
  - rewrite (isSame_outcome h other this oo o Hwf Hoo Ho). unfold isSame_of.
    rewrite bool_decide_eq_true_2 by done. simpl. rewrite (Hfal Hne).
    destruct (faceAdjacencyList_of other (faces oo) (edges_of oo)) as [fp|err] eqn:E;
      [done|]. simpl. f_equal. by eapply faceAdjacencyList_of_Throw.
Qed.

Lemma histogram_total_insert (acc : gmap nat nat) k :
  histogram_total (<[k := S (default 0 (acc !! k))]> acc)
  = S (histogram_total acc).
Proof.
  unfold histogram_total.
  destruct (acc !! k) as [c|] eqn:E; simpl.
  - rewrite <- (insert_delete_id acc k c E) at 2.
    rewrite <- insert_delete_eq.
    rewrite !map_fold_insert_L; [lia | | apply lookup_delete_eq
                                 | | apply lookup_delete_eq];
      intros; lia.
  - rewrite map_fold_insert_L; [lia | | done]. intros; lia.
Qed.

Lemma countBy_total {A} (key : A → nat) (xs : list A) :
  histogram_total (Lodash.countBy key xs) = length xs.
Proof.
  unfold Lodash.countBy.
  assert (G : ∀ acc : gmap nat nat,
    histogram_total
      (fold_left (λ acc x, <[key x := S (default 0 (acc !! key x))]> acc) xs acc)
    = length xs + histogram_total acc).
  { induction xs as [|x xs IH]; intros acc; simpl; [done|].
    rewrite IH, histogram_total_insert. lia. }
  rewrite G. unfold histogram_total at 1. rewrite map_fold_empty. lia.
Qed.

(** X18: on a closed, consistently oriented mesh whose edge collection
    lists every edge once, [faceAdjacencyList] has one entry per face: the
    entries carry the side counts of the faces, and the histogram of an
    entry counts as many neighbours as the face has sides. *)
Theorem faceAdjacencyList_entries h this o :
  wf_heap h → h !! this = Some o →
  closed_mesh (faces o) → edges_cover (faces o) (edges_of o) →
  ∃ h' fp,
    faceAdjacencyList this h = (h', Ok fp) ∧
    length fp = length (faces o) ∧
    map AdjCount.n fp ≡ₚ map length (faces o) ∧
    ∀ c, c ∈ fp → histogram_total (AdjCount.adj c) = AdjCount.n c.
Proof.
  intros Hwf Ho Hc Hcov.
  destruct (faceAdjacencyList_returns h this _ Hwf (mesh_at_lookup _ _ _ Ho))
    as (h' & Hrun & _). simpl in Hrun.
  rewrite (closed_faceAdjacencyList this _ _ Hc Hcov) in Hrun.
  eexists h', _. split; [exact Hrun|].
  pose proof (sortBy_perm faceAdjacency_criteria
                (map (entry_of (faces o)) (faces o))) as Hp.
  split; [by rewrite Hp, length_map|]. split.
  - rewrite Hp. rewrite <- list_fmap_compose. done.
  - intros c Hin. rewrite Hp in Hin.
    apply list_elem_of_fmap in Hin as (face & -> & _). unfold entry_of. simpl.
    by rewrite countBy_total, length_map, consecutive_pairs_length.
Qed.

Lemma isSame_of_symmetric p q (f1 f2 : list (list nat)) es1 es2 :
  isSame_of p q f1 es1 f2 es2 = isSame_of q p f2 es2 f1 es1.
Proof.
  unfold isSame_of.
  destruct (decide (faceCount_of f1 = faceCount_of f2)) as [E|E].
  - rewrite !bool_decide_eq_true_2 by done. simpl.
    destruct (faceAdjacencyList_of p f1 es1) as [fp1|e1] eqn:E1;
    destruct (faceAdjacencyList_of q f2 es2) as [fp2|e2] eqn:E2; simpl.
    + f_equal. apply bool_decide_ext. split; congruence.
    + done.
    + done.
    + apply faceAdjacencyList_of_Throw in E1, E2. congruence.
  - rewrite !bool_decide_eq_false_2 by congruence. done.
Qed.

(** X19: [isSame] is symmetric: [p.isSame(q)] and [q.isSame(p)] end the
    same way, with the same answer or both with a [TypeError]. *)
Theorem isSame_symmetric h p q op oq :
  wf_heap h → h !! p = Some op → h !! q = Some oq →
  (isSame p q h).2 = (isSame q p h).2 ∧
  ∀ e, (isSame p q h).2 = Throw e → e = TypeError.
Proof.
  intros Hwf Hp Hq.
  rewrite (isSame_outcome h p q op oq Hwf Hp Hq),
    (isSame_outcome h q p oq op Hwf Hq Hp).
  split; [apply isSame_of_symmetric|].
  intros e. unfold isSame_of. destruct (negb _); [done|].
  destruct (faceAdjacencyList_of p _ _) as [fp1|e1] eqn:E1; simpl.
  - destruct (faceAdjacencyList_of q _ _) as [fp2|e2] eqn:E2; simpl; [done|].
    intros [= <-]. by eapply faceAdjacencyList_of_Throw.
  - intros [= <-]. by eapply faceAdjacencyList_of_Throw.
Qed.

Lemma isSame_of_true p q (f1 f2 : list (list nat)) es1 es2 :
  isSame_of p q f1 es1 f2 es2 = Ok true ↔
  faceCount_of f1 = faceCount_of f2 ∧
  ∃ fp, faceAdjacencyList_of p f1 es1 = Ok fp ∧
        faceAdjacencyList_of q f2 es2 = Ok fp.
Proof.
  unfold isSame_of.
  destruct (decide (faceCount_of f1 = faceCount_of f2)) as [E|E].
  - rewrite bool_decide_eq_true_2 by done. simpl.
    destruct (faceAdjacencyList_of p f1 es1) as [fp1|e1]; simpl.
    + destruct (faceAdjacencyList_of q f2 es2) as [fp2|e2]; simpl.
      * split.
        -- intros [= H%bool_decide_eq_true]. subst. eauto.
        -- intros [_ (fp & [= ->] & [= ->])]. by rewrite bool_decide_eq_true_2.
      * split; [done | by intros [_ (fp & _ & ?)]].
    + split; [done | by intros [_ (fp & ? & _)]].
  - rewrite bool_decide_eq_false_2 by done. simpl.
    split; [done | by intros [? _]].
Qed.

Lemma faceAdjacencyList_of_length this (faces : list (list nat)) es fp :
  faceAdjacencyList_of this faces es = Ok fp → length fp = length faces.
Proof.
  unfold faceAdjacencyList_of.
  destruct (mapR _ _) as [counts|] eqn:E; simpl; [|done].
  intros [= <-]. rewrite sortBy_perm. apply mapR_length in E.
  unfold face_views in E. by rewrite length_map, length_seq in E.
Qed.

(** X20: [isSame] is transitive, and two polyhedra it calls the same have
    the same number of faces and the same face-count histogram. *)
Theorem isSame_transitive h p q r op oq or :
  wf_heap h → h !! p = Some op → h !! q = Some oq → h !! r = Some or →
  (isSame p q h).2 = Ok true →
  length (faces op) = length (faces oq) ∧
  faceCount_of (faces op) = faceCount_of (faces oq) ∧
  ((isSame q r h).2 = Ok true → (isSame p r h).2 = Ok true).
Proof.
  intros Hwf Hp Hq Hr.
  rewrite (isSame_outcome h p q op oq Hwf Hp Hq),
    (isSame_outcome h q r oq or Hwf Hq Hr),
    (isSame_outcome h p r op or Hwf Hp Hr).
  intros [Hc (fp & H1 & H2)]%isSame_of_true.
  split; [|split; [done|]].
  - rewrite <- (faceAdjacencyList_of_length p _ _ _ H1).
    by rewrite (faceAdjacencyList_of_length q _ _ _ H2).
  - intros [Hc' (fp' & H3 & H4)]%isSame_of_true.
    apply isSame_of_true. split; [congruence|]. exists fp. split; [done|].
    rewrite H2 in H3. by injection H3 as <-.
Qed.

(** X21: on a closed, consistently oriented mesh the derived edge
    collection has half as many edges as the faces have sides in
    total. *)
Theorem edges_handshake h this o :
  wf_heap h → h !! this = Some o → _edges o = None →
  closed_mesh (faces o) →
  ∃ h' es,
    edges this h = (h', Ok es) ∧
    2 * length es = sum_list (map length (faces o)).
Proof.
  intros Hwf Ho He Hc.
  destruct (edges_returns h this _ Hwf (mesh_at_lookup _ _ _ Ho))
    as (h' & Hrun & _). simpl in Hrun.
  eexists h', _. split; [exact Hrun|].
  pose proof (derived_edges_cover o He Hc) as Hcov. unfold edges_cover in Hcov.
  apply Permutation_length in Hcov.
  rewrite length_app, length_map, all_directed_length in Hcov. lia.
Qed.
End FaceGraphFacts.

(** ** Vertex vectors and centring *)

Section Vectors.
Context {number Vec3D : Type} `{!Toxiclibs number Vec3D}.
Local Abbreviation PolyObj := (PolyObj number Vec3D).
Local Abbreviation heap := (heap number Vec3D).
Local Abbreviation M := (M number Vec3D).
Implicit Types (h : heap) (l this : loc) (o : PolyObj) (m : @Mesh number Vec3D).
Context (Vec3D_toArray : Vec3D → list number).

(** After the vectors have been asked for once, the receiver holds
    them. *)
Lemma vertexVectors_all_cached h this o :
  wf_heap h → h !! this = Some o → vectors_ok o →
  ∃ h1 o1,
    vertexVectors_all this h = (h1, Ok (map vec (vertices o))) ∧
    wf_heap h1 ∧ h1 !! this = Some o1 ∧
    vertices o1 = vertices o ∧ faces o1 = faces o ∧
    edges_of o1 = edges_of o ∧
    _vertexVectors o1 = Some (map vec (vertices o)).
Proof.
  intros Hwf Ho Hv.
  destruct (vertexVectors_all_run h this o Hwf Ho Hv) as (h1 & Hrun & Hwf1 & Hm1).
  apply mesh_at_Some in Hm1 as (o1 & Ho1 & Hmo1).
  exists h1, o1. split; [done|]. split; [done|]. split; [done|].
  injection Hmo1 as E1 E2 E3 E4. done.
Qed.

(** X22: [vertexVectors(vIndices)] returns one entry per given index: the
    vector of the vertex, or [undefined] when the index is not a vertex;
    it never fails, and keeps the vectors of all vertices in the
    receiver.  [vertexVector] returns the single entry. *)
Theorem vertexVectors_entries h this o (vIndices : list nat) :
  wf_heap h → h !! this = Some o → vectors_ok o →
  ∃ h' vs o',
    vertexVectors this vIndices h = (h', Ok vs) ∧
    length vs = length vIndices ∧
    (∀ i v, vIndices !! i = Some v → vs !! i = Some (vec <$> vertices o !! v)) ∧
    h' !! this = Some o' ∧
    _vertexVectors o' = Some (map vec (vertices o)) ∧
    ∀ v, vertexVector this v h = (h', Ok (vec <$> vertices o !! v)).
Proof.
  intros Hwf Ho Hv.
  destruct (vertexVectors_all_cached h this o Hwf Ho Hv)
    as (h1 & o1 & Hrun & Hwf1 & Ho1 & _ & _ & _ & Hc).
  exists h1, (map (λ v, map vec (vertices o) !! v) vIndices), o1.
  split; [unfold vertexVectors, bind; by rewrite Hrun|].
  split; [by rewrite length_map|]. split.
  - intros i v Hi. rewrite list_lookup_fmap, Hi. simpl.
    by rewrite list_lookup_fmap.
  - split; [done|]. split; [done|]. intros v.
    unfold vertexVector, vertexVectors, bind. rewrite Hrun. simpl.
    by rewrite list_lookup_fmap.
Qed.

(** X23: [center()] raises a [TypeError] for a polyhedron without
    vertices; otherwise it returns a new instance with the same faces and
    the edge collection of the receiver, vertex for vertex the array of
    the vector minus the centroid of all vertices. *)
Theorem center_translates h this o :
  wf_heap h → h !! this = Some o → vectors_ok o →
  match vertices o with
  | [] =>
      (centroid this h).2 = Throw TypeError ∧
      (center Vec3D_toArray this h).2 = Throw TypeError
  | p :: ps =>
      let c := Vec3D_scale (fold_left Vec3D_add (map vec ps) (vec p))
                 (number_div (number_of_nat 1)
                    (number_of_nat (length (vertices o)))) in
      (centroid this h).2 = Ok c ∧
      ∃ h' l' o',
        center Vec3D_toArray this h = (h', Ok l') ∧
        h !! l' = None ∧ h' !! l' = Some o' ∧
        vertices o'
        = map (λ q, Vec3D_toArray (Vec3D_sub (vec q) c)) (vertices o) ∧
        faces o' = faces o ∧ _edges o' = Some (edges_of o)
  end.
Proof.
  intros Hwf Ho Hv.
  destruct (vertexVectors_all_cached h this o Hwf Ho Hv)
    as (h1 & o1 & Hrun & Hwf1 & Ho1 & E1 & E2 & E3 & Hc).
  assert (Hrun1 : vertexVectors_all this h1 = (h1, Ok (map vec (vertices o)))).
  { unfold vertexVectors_all, bind, deref. by rewrite Ho1, Hc. }
  destruct (vertices o) as [|p ps] eqn:Ev.
  - split.
    + unfold centroid, bind. by rewrite Hrun.
    + unfold center, centroid, bind. by rewrite Hrun.
  - simpl. split.
    + unfold centroid, bind. rewrite Hrun. simpl. by rewrite length_map.
    + destruct (withVertices_transformed h1 this (mesh_of o1)
                  (map (λ v, Vec3D_toArray
                               (Vec3D_sub v
                                  (Vec3D_scale
                                     (fold_left Vec3D_add (map vec ps) (vec p))
                                     (number_div (number_of_nat 1)
                                        (number_of_nat (S (length ps)))))))
                     (map vec (p :: ps)))
                  Hwf1 (mesh_at_lookup _ _ _ Ho1))
        as (h2 & l2 & Hw & Hcr).
      eexists h2, l2, _. split.
      { assert (Hcen : getCentroid (map vec (p :: ps))
                       = Ok (Vec3D_scale
                               (fold_left Vec3D_add (map vec ps) (vec p))
                               (number_div (number_of_nat 1)
                                  (number_of_nat (S (length ps))))))
          by (simpl; by rewrite length_map).
        unfold center, centroid. unfold bind at 1. unfold bind at 1.
        rewrite Hrun. unfold lift. rewrite Hcen.
        unfold bind at 1. rewrite Hrun1. exact Hw. }
      split.
      { pose proof (created_fresh _ _ _ _ Hcr) as Hf.
        apply lookup_ge_None in Hf. apply lookup_ge_None.
        assert (length h = length h1); [|lia].
        clear -Hrun Ho. unfold vertexVectors_all, bind, deref, update in Hrun.
        rewrite Ho in Hrun. destruct (_vertexVectors o).
        - by injection Hrun as <-.
        - rewrite Ho in Hrun. injection Hrun as <-. by rewrite length_insert. }
      split; [exact (created_lookup _ _ _ _ Hcr)|]. simpl.
      split; [by rewrite <- list_fmap_compose|]. split; [done|].
      by rewrite <- E3.
Qed.
End Vectors.

(** ** Transforms and queries together *)

Section Together.
Context {number Vec3D : Type}.
Local Abbreviation PolyObj := (PolyObj number Vec3D).
Local Abbreviation heap := (heap number Vec3D).
Local Abbreviation M := (M number Vec3D).
Implicit Types (h : heap) (l this : loc) (o : PolyObj) (m : @Mesh number Vec3D).

(** X24: [isSame] does not look at the vertices: on a closed,
    consistently oriented mesh whose edge collection lists every edge
    once, a polyhedron and the instance [withVertices], [addVertices] or
    [mapVertices] makes of it are the same, in either order of the
    comparison. *)
Theorem isSame_vertex_transform (t : transform) h this o :
  wf_heap h → h !! this = Some o →
  closed_mesh (faces o) → edges_cover (faces o) (edges_of o) →
  keeps_faces t = true →
  ∃ h' l',
    apply_transform t this h = (h', Ok l') ∧
    (isSame this l' h').2 = Ok true ∧ (isSame l' this h').2 = Ok true.
Proof.
  intros Hwf Ho Hc Hcov Hk.
  assert (Hready : transform_ready h t) by (by destruct t).
  destruct (apply_transform_transformed t h this (mesh_of o) Hwf
              (mesh_at_lookup _ _ _ Ho) Hready)
    as (vs & fs & Hres & h' & l' & Hrun & Hcr).
  assert (Hfs : fs = faces o).
  { destruct t; simpl in *; try done; by destruct Hres as [_ ->]. }
  subst fs. exists h', l'. split; [exact Hrun|].
  pose proof (created_lookup _ _ _ _ Hcr) as Hl.
  destruct (created_keeps _ _ _ _ _ _ Hcr Ho) as (o1 & Ho1 & Hm1).
  pose proof (ext_wf _ _ (created_ext _ _ _ _ _ _ Hcr)) as Hwf'.
  assert (Hf1 : faces o1 = faces o) by (by injection Hm1).
  assert (He1 : edges_of o1 = edges_of o) by (by injection Hm1).
  assert (Hsame : ∀ p q,
    isSame_of p q (faces o) (edges_of o) (faces o) (edges_of o) = Ok true).
  { intros p q. apply isSame_of_true. split; [done|]. eexists. split.
    - by apply closed_faceAdjacencyList.
    - by apply closed_faceAdjacencyList. }
  split.
  - rewrite (isSame_outcome h' this l' _ _ Hwf' Ho1 Hl). simpl.
    rewrite Hf1, He1. apply Hsame.
  - rewrite (isSame_outcome h' l' this _ _ Hwf' Hl Ho1). simpl.
    rewrite Hf1, He1. apply Hsame.
Qed.

Lemma drop_where_app {A} (P : nat → bool) k (l1 l2 : list A) :
  drop_where P k (l1 ++ l2)
  = drop_where P k l1 ++ drop_where P (k + length l1) l2.
Proof.
  revert k. induction l1 as [|x l1 IH]; intros k; simpl.
  - by rewrite Nat.add_0_r.
  - rewrite IH. replace (S k + length l1) with (k + S (length l1)) by lia.
    by destruct (P k).
Qed.

Lemma drop_where_keep {A} (P : nat → bool) k (l : list A) :
  (∀ i, k ≤ i < k + length l → P i = false) → drop_where P k l = l.
Proof.
  revert k. induction l as [|x l IH]; intros k H; simpl; [done|].
  rewrite (H k) by (simpl; lia). f_equal. apply IH.
  intros i Hi. apply H. simpl. lia.
Qed.

Lemma drop_where_all {A} (P : nat → bool) k (l : list A) :
  (∀ i, k ≤ i < k + length l → P i = true) → drop_where P k l = [].
Proof.
  revert k. induction l as [|x l IH]; intros k H; simpl; [done|].
  rewrite (H k) by (simpl; lia). apply IH.
  intros i Hi. apply H. simpl. lia.
Qed.

Lemma remove_positions_appended {A} (l1 l2 : list A) :
  remove_positions (seq (length l1) (length l2)) (l1 ++ l2) = l1.
Proof.
  unfold remove_positions. rewrite drop_where_app. simpl.
  rewrite drop_where_keep, drop_where_all; [by rewrite app_nil_r | |].
  - intros i Hi. apply bool_decide_eq_true, elem_of_seq. lia.
  - intros i Hi. apply bool_decide_eq_false. rewrite elem_of_seq. lia.
Qed.

(** X25: removing the faces that [addFaces] appended gives the face list
    back: the views of the positions from the old number of faces on
    name exactly the new faces. *)
Theorem addFaces_removeFaces h this o (fs : list (list nat)) :
  wf_heap h → h !! this = Some o →
  ∃ h' l' o',
    (p <- addFaces this fs ;;
     removeFaces p (map (mkFaceObj p)
                      (seq (length (faces o)) (length fs)))) h
    = (h', Ok l') ∧
    h' !! l' = Some o' ∧
    faces o' = faces o ∧ vertices o' = vertices o.
Proof.
  intros Hwf Ho.
  destruct (apply_transform_transformed (AddFaces fs) h this (mesh_of o) Hwf
              (mesh_at_lookup _ _ _ Ho) I)
    as (vs1 & fs1 & [-> ->] & h1 & l1 & Hrun1 & Hc1).
  simpl in *.
  pose proof (created_lookup _ _ _ _ Hc1) as Hl1.
  pose proof (ext_wf _ _ (created_ext _ _ _ _ _ _ Hc1)) as Hwf1.
  destruct (apply_transform_transformed
              (RemoveFaces (map (mkFaceObj l1)
                              (seq (length (faces o)) (length fs))))
              h1 l1 _ Hwf1 (mesh_at_lookup _ _ _ Hl1) I)
    as (vs2 & fs2 & [-> ->] & h2 & l2 & Hrun2 & Hc2).
  simpl in *. eexists h2, l2, _. split.
  { unfold bind. rewrite Hrun1. exact Hrun2. }
  split; [exact (created_lookup _ _ _ _ Hc2)|]. simpl. split; [|done].
  assert (Hidx : ∀ s : list nat, map fIndex (map (mkFaceObj l1) s) = s).
  { intros s. induction s as [|i s IH]; simpl; [done | by rewrite IH]. }
  rewrite Hidx. apply remove_positions_appended.
Qed.

Lemma fan_loop_prefix strict (faces : list (list nat)) v touching remaining
    next collected res :
  fan_loop strict faces v touching remaining next collected = Ok res →
  ∃ rest, res = collected ++ next :: rest.
Proof.
  revert next collected. induction remaining as [|k IH];
    intros next collected; simpl.
  - destruct (find_step _ _ _ _ _); simpl; [|done]. intros [= <-].
    by exists [].
  - destruct (find_step _ _ _ _ _) as [next'|]; simpl; [|done].
    intros [rest ->]%IH. exists (next' :: rest). by rewrite <- app_assoc.
Qed.

Lemma fan_loop_entries strict (faces : list (list nat)) v touching remaining
    next collected res f :
  fan_loop strict faces v touching remaining next collected = Ok res →
  Some f ∈ res → Some f ∈ collected ∨ next = Some f ∨ f ∈ touching.
Proof.
  revert next collected. induction remaining as [|k IH];
    intros next collected; simpl.
  - destruct (find_step _ _ _ _ _); simpl; [|done]. intros [= <-].
    intros [?|?%list_elem_of_singleton]%elem_of_app; auto.
  - destruct (find_step _ _ _ _ _) as [next'|] eqn:E; simpl; [|done].
    intros Hrun Hin. destruct (IH _ _ Hrun Hin) as [H|[H|H]].
    + apply elem_of_app in H as [?|?%list_elem_of_singleton]; auto.
    + subst next'. right. right. by eapply find_step_elem.
    + auto.
Qed.

(** X26: [directedAdjacentFaces] goes round its loop once per touching
    face (once when there is none): a list it returns starts with the
    first touching face, has as many entries as faces touch the vertex,
    and every face in it is one of the touching faces. *)
Theorem directedAdjacentFaces_bounded strict h this o (v : nat) :
  wf_heap h → h !! this = Some o →
  ∃ h' r,
    directedAdjacentFaces strict this v h = (h', r) ∧
    ∀ res, r = Ok res →
      ∃ touching,
        (adjacentFaces this [v] h).2 = Ok touching ∧
        length res = Nat.max 1 (length touching) ∧
        head res = Some (head touching) ∧
        ∀ f, Some f ∈ res → f ∈ touching.
Proof.
  intros Hwf Ho.
  destruct (directedAdjacentFaces_returns h this _ strict v Hwf
              (mesh_at_lookup _ _ _ Ho)) as (h' & Hrun & _). simpl in Hrun.
  eexists h', _. split; [exact Hrun|]. intros res Hres.
  rewrite (adjacentFaces_outcome h this o v Hwf Ho).
  unfold directedAdjacentFaces_of in Hres.
  destruct (touching_of this _ _ v) as [touching|]; simpl in Hres; [|done].
  exists touching. split; [done|].
  pose proof (fan_loop_length _ _ _ _ _ _ _ _ Hres) as Hlen.
  destruct (fan_loop_prefix _ _ _ _ _ _ _ _ Hres) as [rest ->].
  split; [simpl in *; lia|]. split; [done|].
  intros f Hf.
  destruct (fan_loop_entries _ _ _ _ _ _ _ _ f Hres Hf) as [H|[H|H]];
    [by apply elem_of_nil in H | | done].
  destruct touching; [done|]. injection H as ->. left.
Qed.
End Together.

Section ClosedDihedral.
Context {number Vec3D : Type} `{!Toxiclibs number Vec3D}.
Local Abbreviation PolyObj := (PolyObj number Vec3D).
Local Abbreviation heap := (heap number Vec3D).
Implicit Types (h : heap) (l this : loc) (o : PolyObj).

Lemma centroid_of_corners (vectors : list Vec3D) (face : list nat) :
  face ≠ [] → Forall (λ v, v < length vectors) face →
  ∃ c, centroid_of vectors face = Ok c.
Proof.
  intros Hne Hall. unfold centroid_of.
  destruct face as [|i face]; [done|].
  apply Forall_cons in Hall as [Hi _].
  destruct (lookup_lt_is_Some_2 vectors i Hi) as [v Hv].
  simpl. rewrite Hv. by eexists.
Qed.

(** X27: on a closed, consistently oriented mesh whose corners are all
    vertices, [getDihedralAngle] succeeds for every edge of every face:
    it returns the angle between the centroids of the face that has the
    edge and of the face that has it reversed, each taken from the
    midpoint of the edge. *)
Theorem getDihedralAngle_closed h this o (e : nat * nat) :
  wf_heap h → h !! this = Some o → vectors_ok o →
  closed_mesh (faces o) →
  corners_in_range (length (vertices o)) (faces o) →
  (∃ face, face ∈ faces o ∧ e ∈ consecutive_pairs face) →
  ∃ h' face1 face2 p1 p2 c1 c2,
    face1 ∈ faces o ∧ e ∈ consecutive_pairs face1 ∧
    face2 ∈ faces o ∧ swap_pair e ∈ consecutive_pairs face2 ∧
    vertices o !! e.1 = Some p1 ∧ vertices o !! e.2 = Some p2 ∧
    centroid_of (map vec (vertices o)) face1 = Ok c1 ∧
    centroid_of (map vec (vertices o)) face2 = Ok c2 ∧
    getDihedralAngle this e h
    = (h', Ok (Vec3D_angleBetween
                 (Vec3D_sub c1 (getMidpoint (vec p1) (vec p2)))
                 (Vec3D_sub c2 (getMidpoint (vec p1) (vec p2))) true)).
Proof.
  intros Hwf Ho Hv Hc Hrange (face & Hface & He).
  assert (Hd : e ∈ all_directed (faces o))
    by (apply elem_of_flat_map; by exists face).
  pose proof Hc as (_ & Hsw & _). rewrite Forall_forall in Hsw.
  pose proof (Hsw e Hd) as Hd'.
  destruct (directed_has_owner this _ _ Hd) as (f1 & V1 & E1).
  destruct (directed_has_owner this _ _ Hd') as (f2 & V2 & E2).
  pose proof (view_face_elem this _ _ V1) as F1.
  pose proof (view_face_elem this _ _ V2) as F2.
  unfold corners_in_range in Hrange. rewrite Forall_forall in Hrange.
  pose proof (Hrange _ F1) as R1. pose proof (Hrange _ F2) as R2.
  assert (C1 : e.1 ∈ view_face (faces o) f1).
  { apply corner_starts_edge. exists e.2. by destruct e. }
  assert (C2 : e.2 ∈ view_face (faces o) f2).
  { apply corner_starts_edge. exists e.1. done. }
  rewrite Forall_forall in R1, R2.
  destruct (lookup_lt_is_Some_2 (vertices o) e.1 (R1 _ C1)) as [p1 Hp1].
  destruct (lookup_lt_is_Some_2 (vertices o) e.2 (R2 _ C2)) as [p2 Hp2].
  destruct (centroid_of_corners (map vec (vertices o)) (view_face (faces o) f1))
    as [c1 Hc1].
  { intros Hn. rewrite Hn in C1. by apply elem_of_nil in C1. }
  { rewrite length_map. by apply Forall_forall. }
  destruct (centroid_of_corners (map vec (vertices o)) (view_face (faces o) f2))
    as [c2 Hc2].
  { intros Hn. rewrite Hn in C2. by apply elem_of_nil in C2. }
  { rewrite length_map. by apply Forall_forall. }
  destruct (getDihedralAngle_two_faces h this o e (vec p1) (vec p2) f1 f2 c1 c2
              Hwf Ho Hv) as [h' Hrun]; try done.
  - by rewrite list_lookup_fmap, Hp1.
  - by rewrite list_lookup_fmap, Hp2.
  - apply edgeFaces_in_Some; by apply owner_lookup.
  - by exists h', (view_face (faces o) f1), (view_face (faces o) f2),
      p1, p2, c1, c2.
Qed.
End ClosedDihedral.

(** ** Which face a directed edge resolves to, and unequal histograms *)

Section LastFace.
Implicit Types (g : gmap nat (gmap nat FaceObj)) (e : nat * nat) (f : FaceObj).

Lemma corner_ends_edge (face : list nat) v w :
  (v, w) ∈ consecutive_pairs face → w ∈ face.
Proof.
  destruct face as [|a rest]; [by intros ?%elem_of_nil|].
  change (consecutive_pairs (a :: rest)) with (zip (a :: rest) (rest ++ [a])).
  intros H. apply (list_elem_of_fmap_2 snd) in H.
  rewrite snd_zip in H by (rewrite length_app; simpl; lia).
  simpl in H.
  apply elem_of_app in H as [H|H%list_elem_of_singleton]; [by right | subst; left].
Qed.

Lemma fold_enter_key (pairs : list (nat * nat * FaceObj)) g e f :
  e ∈ pairs.*1 →
  directedEdge_lookup (fold_left enter pairs g) e = Some f →
  (e, f) ∈ pairs.
Proof.
  revert g. induction pairs as [|[e' f'] pairs IH]; intros g Hin Hl;
    [by apply elem_of_nil in Hin|].
  simpl in *. destruct (decide (e ∈ pairs.*1)) as [Hp|Hp].
  - right. by eapply IH.
  - rewrite fold_enter_notin in Hl by done.
    apply elem_of_cons in Hin as [->|?]; [|done].
    unfold enter in Hl. simpl in Hl.
    rewrite directedEdge_lookup_set_eq in Hl. injection Hl as ->. left.
Qed.

(** The face a directed edge resolves to is the last of the views that
    has it. *)
Lemma fold_enter_last (vsof : FaceObj → list (nat * nat))
    (views : list FaceObj) g e f :
  directedEdge_lookup
    (fold_left enter (flat_map (λ x, map (λ d, (d, x)) (vsof x)) views) g) e
  = Some f →
  (∃ pre post, views = pre ++ f :: post ∧ e ∈ vsof f ∧
               ∀ x, x ∈ post → e ∉ vsof x) ∨
  ((∀ x, x ∈ views → e ∉ vsof x) ∧ directedEdge_lookup g e = Some f).
Proof.
  revert g. induction views as [|x views IH]; intros g; simpl.
  - intros H. right. split; [|done]. intros y Hy. by apply elem_of_nil in Hy.
  - rewrite fold_left_app.
    intros [(pre & post & -> & He & Hpost)|[Hno Hl]]%IH.
    + left. exists (x :: pre), post. split; [done|]. split; [done|]. exact Hpost.
    + destruct (decide (e ∈ vsof x)) as [Hx|Hx].
      * assert (Hk : e ∈ (map (λ d, (d, x)) (vsof x)).*1).
        { apply list_elem_of_fmap. exists (e, x). split; [done|].
          apply list_elem_of_fmap. by exists e. }
        pose proof (fold_enter_key _ _ _ _ Hk Hl) as Hin.
        apply list_elem_of_fmap in Hin as (d & [= -> ->] & _).
        left. exists [], views. split; [done|]. split; [exact Hx | exact Hno].
      * right. split.
        -- intros y [->|Hy]%elem_of_cons; [done | by apply Hno].
        -- rewrite fold_enter_notin in Hl; [done|].
           intros (p & -> & (d & -> & Hd)%list_elem_of_fmap)%list_elem_of_fmap.
           done.
Qed.

Lemma directedEdge_lookup_last this (faces : list (list nat)) e f :
  directedEdge_lookup (directedEdgeToFaceGraph_of this faces) e = Some f →
  ∀ j face, faces !! j = Some face → e ∈ consecutive_pairs face →
            j ≤ fIndex f.
Proof.
  rewrite directedEdgeToFaceGraph_of_enter. unfold directed_list.
  intros [(pre & post & Hv & He & Hpost)|[_ Hl]]%fold_enter_last;
    [|by rewrite directedEdge_lookup_empty in Hl].
  intros j face Hj Hin.
  destruct (decide (j ≤ fIndex f)) as [|Hgt]; [done|]. exfalso.
  assert (Hf : face_views this (length faces) !! length pre = Some f).
  { rewrite Hv. by apply list_lookup_middle. }
  unfold face_views in Hf. rewrite list_lookup_fmap in Hf.
  apply fmap_Some in Hf as (i & [-> _]%lookup_seq & ->). simpl in *.
  assert (Hvj : face_views this (length faces) !! j = Some (mkFaceObj this j)).
  { unfold face_views. rewrite list_lookup_fmap.
    by rewrite lookup_seq_lt by (by eapply lookup_lt_Some). }
  rewrite Hv in Hvj. rewrite lookup_app_r in Hvj by lia.
  destruct (j - length pre) as [|k] eqn:E; [lia|]. simpl in Hvj.
  apply (Hpost (mkFaceObj this j)); [by eapply list_elem_of_lookup_2|].
  unfold view_face. simpl. by rewrite Hj.
Qed.
End LastFace.

Section ShortCircuit.
Context {number Vec3D : Type}.
Local Abbreviation PolyObj := (PolyObj number Vec3D).
Local Abbreviation heap := (heap number Vec3D).
Implicit Types (h : heap) (l this : loc) (o : PolyObj).

(** X28: when faces have the directed edge, [edgeFaces] returns a pair
    whose first entry is the view of the last of them, the face of highest
    index that has the edge; the second entry is likewise the face of
    highest index that has the reversed edge, and [undefined] when no face
    has it.  So on a mesh that is not consistently oriented a later face
    hides an earlier one. *)
Theorem edgeFaces_last_face h this o (e : nat * nat) :
  wf_heap h → h !! this = Some o →
  (∃ face, face ∈ faces o ∧ e ∈ consecutive_pairs face) →
  ∃ h' k face y,
    edgeFaces this e h = (h', Ok (Some (mkFaceObj this k), y)) ∧
    faces o !! k = Some face ∧ e ∈ consecutive_pairs face ∧
    (∀ j face', faces o !! j = Some face' → e ∈ consecutive_pairs face' →
                j ≤ k) ∧
    match y with
    | Some f =>
        polyhedron f = this ∧
        (∃ face', faces o !! fIndex f = Some face' ∧
                  swap_pair e ∈ consecutive_pairs face') ∧
        ∀ j face', faces o !! j = Some face' →
                   swap_pair e ∈ consecutive_pairs face' → j ≤ fIndex f
    | None => ∀ face', face' ∈ faces o → swap_pair e ∉ consecutive_pairs face'
    end.
Proof.
  intros Hwf Ho (face0 & Hface0 & He0).
  destruct (edgeFaces_returns h this _ e Hwf (mesh_at_lookup _ _ _ Ho))
    as (h' & Hrun & _). simpl in Hrun.
  assert (C1 : e.1 ∈ face0).
  { apply corner_starts_edge. exists e.2. by destruct e. }
  assert (C2 : e.2 ∈ face0).
  { apply (corner_ends_edge face0 e.1). by destruct e. }
  destruct (proj2 (directedEdgeToFaceGraph_of_row this (faces o) e.1))
    as [row1 Hrow1]; [by exists face0|].
  destruct (proj2 (directedEdgeToFaceGraph_of_row this (faces o) e.2))
    as [row2 Hrow2]; [by exists face0|].
  assert (E : edgeFaces_in (directedEdgeToFaceGraph_of this (faces o)) e
              = Ok (directedEdge_lookup (directedEdgeToFaceGraph_of this (faces o)) e,
                    directedEdge_lookup (directedEdgeToFaceGraph_of this (faces o))
                      (swap_pair e))).
  { unfold edgeFaces_in, directedEdge_lookup, swap_pair. simpl.
    by rewrite Hrow1, Hrow2. }
  rewrite E in Hrun.
  destruct (directedEdge_lookup_of this (faces o) e) as [H1 H2].
  destruct (directedEdge_lookup_of this (faces o) (swap_pair e)) as [H3 H4].
  destruct (directedEdge_lookup (directedEdgeToFaceGraph_of this (faces o)) e)
    as [f|] eqn:Ef.
  2:{ exfalso. by apply (proj1 H2 eq_refl face0). }
  destruct (H1 f eq_refl) as (Hp & face & Hface & He).
  exists h', (fIndex f), face,
    (directedEdge_lookup (directedEdgeToFaceGraph_of this (faces o)) (swap_pair e)).
  split.
  { rewrite Hrun. destruct f as [p i]. simpl in Hp. by subst p. }
  split; [done|]. split; [done|]. split.
  { by apply (directedEdge_lookup_last this). }
  destruct (directedEdge_lookup (directedEdgeToFaceGraph_of this (faces o))
              (swap_pair e)) as [g|] eqn:Eg.
  - destruct (H3 g eq_refl) as (Hpg & Hg). split; [done|]. split; [done|].
    by apply (directedEdge_lookup_last this).
  - by apply H4.
Qed.

Lemma faceCount_of_total (faces : list (list nat)) :
  histogram_total (faceCount_of faces) = length faces.
Proof. unfold faceCount_of. by rewrite countBy_total, length_map. Qed.

(** X29: [isSame] compares the face-count histograms first: when they
    differ, in particular when the numbers of faces differ, it answers
    [false] without computing a fingerprint, hence without failing even
    on open meshes. *)
Theorem isSame_unequal_counts h p q op oq :
  wf_heap h → h !! p = Some op → h !! q = Some oq →
  (faceCount_of (faces op) ≠ faceCount_of (faces oq) →
     ∃ h', isSame p q h = (h', Ok false)) ∧
  (length (faces op) ≠ length (faces oq) →
     ∃ h', isSame p q h = (h', Ok false)).
Proof.
  intros Hwf Hp Hq.
  assert (H : faceCount_of (faces op) ≠ faceCount_of (faces oq) →
              ∃ h', isSame p q h = (h', Ok false)).
  { intros Hne.
    destruct (isSame_returns h p q _ _ Hwf (mesh_at_lookup _ _ _ Hp)
                (mesh_at_lookup _ _ _ Hq)) as (h' & Hrun & _).
    exists h'. rewrite Hrun. f_equal. simpl. unfold isSame_of.
    by rewrite bool_decide_eq_false_2. }
  split; [exact H|]. intros Hlen. apply H. intros Heq. apply Hlen.
  by rewrite <- !faceCount_of_total, Heq.
Qed.
End ShortCircuit.

Lemma edgeFaces_last_face_witness :
  wf_heap [two_flaps] ∧ [two_flaps] !! 0 = Some two_flaps ∧
  (∃ face, face ∈ faces two_flaps ∧ (0, 1) ∈ consecutive_pairs face) ∧
  (edgeFaces 0 (0, 1) [two_flaps]).2 = Ok (Some (mkFaceObj 0 1), None) ∧
  ∃ h' k face y,
    edgeFaces 0 (0, 1) [two_flaps] = (h', Ok (Some (mkFaceObj 0 k), y)) ∧
    faces two_flaps !! k = Some face ∧ (0, 1) ∈ consecutive_pairs face ∧
    (∀ j face', faces two_flaps !! j = Some face' →
                (0, 1) ∈ consecutive_pairs face' → j ≤ k) ∧
    match y with
    | Some f =>
        polyhedron f = 0 ∧
        (∃ face', faces two_flaps !! fIndex f = Some face' ∧
                  swap_pair (0, 1) ∈ consecutive_pairs face') ∧
        ∀ j face', faces two_flaps !! j = Some face' →
                   swap_pair (0, 1) ∈ consecutive_pairs face' → j ≤ fIndex f
    | None =>
        ∀ face', face' ∈ faces two_flaps →
                 swap_pair (0, 1) ∉ consecutive_pairs face'
    end.
Proof.
  assert (Hex : ∃ face, face ∈ faces two_flaps ∧ (0, 1) ∈ consecutive_pairs face).
  { exists [0; 1; 2]. split; by_computation. }
  split; [apply wf_heap_constructed|]. split; [reflexivity|].
  split; [exact Hex|]. split; [vm_compute; reflexivity|].
  apply (edgeFaces_last_face [two_flaps] 0 two_flaps (0, 1));
    [apply wf_heap_constructed | reflexivity | exact Hex].
Defined.

Lemma isSame_unequal_counts_witness :
  wf_heap [tetrahedron; open_triangle] ∧
  [tetrahedron; open_triangle] !! 0 = Some tetrahedron ∧
  [tetrahedron; open_triangle] !! 1 = Some open_triangle ∧
  (faceCount_of (faces tetrahedron) ≠ faceCount_of (faces open_triangle) →
     ∃ h', isSame 0 1 [tetrahedron; open_triangle] = (h', Ok false)) ∧
  (length (faces tetrahedron) ≠ length (faces open_triangle) →
     ∃ h', isSame 0 1 [tetrahedron; open_triangle] = (h', Ok false)).
Proof.
  split; [apply wf_heap_constructed2|]. split; [reflexivity|].
  split; [reflexivity|].
  apply (isSame_unequal_counts [tetrahedron; open_triangle] 0 1 tetrahedron
           open_triangle);
    [apply wf_heap_constructed2 | reflexivity | reflexivity].
Defined.

(** ** The further properties on the example meshes *)

Lemma wf_heap_nil {number Vec3D} : wf_heap ([] : list (PolyObj number Vec3D)).
Proof. intros l o H. by rewrite lookup_nil in H. Qed.

Lemma faceTypes_ascending_witness :
  wf_heap [tetrahedron] ∧ [tetrahedron] !! 0 = Some tetrahedron ∧
  ∃ h' types,
    faceTypes 0 [tetrahedron] = (h', Ok types) ∧
    StronglySorted lt types ∧
    ∀ n, n ∈ types ↔ ∃ face, face ∈ faces tetrahedron ∧ length face = n.
Proof.
  split; [apply wf_heap_constructed|]. split; [reflexivity|].
  apply (faceTypes_ascending [tetrahedron] 0 tetrahedron);
    [apply wf_heap_constructed | reflexivity].
Defined.

Lemma biggestFace_first_greatest_witness :
  wf_heap [tetrahedron] ∧ [tetrahedron] !! 0 = Some tetrahedron ∧
  ∃ h' r,
    biggestFace 0 [tetrahedron] = (h', Ok r) ∧
    match r with
    | None => faces tetrahedron = []
    | Some f =>
        polyhedron f = 0 ∧
        ∃ face, faces tetrahedron !! fIndex f = Some face ∧
          (∀ j face', faces tetrahedron !! j = Some face' →
                      length face' ≤ length face) ∧
          (∀ j face', j < fIndex f → faces tetrahedron !! j = Some face' →
                      length face' < length face)
    end.
Proof.
  split; [apply wf_heap_constructed|]. split; [reflexivity|].
  apply (biggestFace_first_greatest [tetrahedron] 0 tetrahedron);
    [apply wf_heap_constructed | reflexivity].
Defined.

Lemma faceCount_histogram_witness :
  wf_heap [tetrahedron] ∧ [tetrahedron] !! 0 = Some tetrahedron ∧
  ∃ h' count,
    faceCount 0 [tetrahedron] = (h', Ok count) ∧
    (∀ n, default 0 (count !! n)
          = length (filter (λ face, length face = n) (faces tetrahedron))) ∧
    (∀ n, is_Some (count !! n) ↔
          ∃ face, face ∈ faces tetrahedron ∧ length face = n).
Proof.
  split; [apply wf_heap_constructed|]. split; [reflexivity|].
  apply (faceCount_histogram [tetrahedron] 0 tetrahedron);
    [apply wf_heap_constructed | reflexivity].
Defined.

Lemma transform_edges_inherited_witness :
  wf_heap [tetrahedron] ∧ [tetrahedron] !! 0 = Some tetrahedron ∧
  transform_ready [tetrahedron] (RemoveFace (mkFaceObj 0 3)) ∧
  ∃ h' l' o',
    apply_transform (RemoveFace (mkFaceObj 0 3)) 0 [tetrahedron] = (h', Ok l') ∧
    h' !! l' = Some o' ∧
    _edges o' = Some (edges_of tetrahedron) ∧
    edges l' h' = (h', Ok (edges_of tetrahedron)) ∧
    ∃ b, toJSON l' h' = (h', Ok b) ∧
         base_edges b = Some (edges_of tetrahedron).
Proof.
  split; [apply wf_heap_constructed|]. split; [reflexivity|].
  split; [exact I|].
  apply (transform_edges_inherited (RemoveFace (mkFaceObj 0 3))
           [tetrahedron] 0 tetrahedron);
    [apply wf_heap_constructed | reflexivity | exact I].
Defined.

Lemma withVertices_withFaces_commute_witness :
  wf_heap [tetrahedron] ∧ [tetrahedron] !! 0 = Some tetrahedron ∧
  ∃ h1 l1 h2 l2,
    (p <- withVertices 0 ten_vertices ;; withFaces p [[0; 1; 2]]) [tetrahedron]
    = (h1, Ok l1) ∧
    (p <- withFaces 0 [[0; 1; 2]] ;; withVertices p ten_vertices) [tetrahedron]
    = (h2, Ok l2) ∧
    h1 !! l1 = Some (constructed ten_vertices [[0; 1; 2]]
                       (Some (edges_of tetrahedron))) ∧
    h2 !! l2 = Some (constructed ten_vertices [[0; 1; 2]]
                       (Some (edges_of tetrahedron))).
Proof.
  split; [apply wf_heap_constructed|]. split; [reflexivity|].
  apply (withVertices_withFaces_commute [tetrahedron] 0 tetrahedron
           ten_vertices [[0; 1; 2]]);
    [apply wf_heap_constructed | reflexivity].
Defined.

Lemma removeFaces_any_views_witness :
  wf_heap [tetrahedron] ∧ [tetrahedron] !! 0 = Some tetrahedron ∧
  ∃ h' l' o',
    removeFaces 0 [mkFaceObj 0 3; mkFaceObj 0 7; mkFaceObj 0 3] [tetrahedron]
    = (h', Ok l') ∧ h' !! l' = Some o' ∧
    vertices o' = vertices tetrahedron ∧
    faces o' = remove_positions
                 (map fIndex [mkFaceObj 0 3; mkFaceObj 0 7; mkFaceObj 0 3])
                 (faces tetrahedron) ∧
    (∀ face, face ∈ faces o' ↔
       ∃ i, (i ∉ map fIndex [mkFaceObj 0 3; mkFaceObj 0 7; mkFaceObj 0 3]) ∧
            faces tetrahedron !! i = Some face) ∧
    (Forall (λ f, length (faces tetrahedron) ≤ fIndex f)
       [mkFaceObj 0 3; mkFaceObj 0 7; mkFaceObj 0 3] →
       faces o' = faces tetrahedron) ∧
    (∀ faceObjs2 : list FaceObj,
       (∀ i, i ∈ map fIndex [mkFaceObj 0 3; mkFaceObj 0 7; mkFaceObj 0 3]
             ↔ i ∈ map fIndex faceObjs2) →
       ∃ h2 l2 o2,
         removeFaces 0 faceObjs2 [tetrahedron] = (h2, Ok l2) ∧
         h2 !! l2 = Some o2 ∧ faces o2 = faces o').
Proof.
  split; [apply wf_heap_constructed|]. split; [reflexivity|].
  apply (removeFaces_any_views [tetrahedron] 0 tetrahedron
           [mkFaceObj 0 3; mkFaceObj 0 7; mkFaceObj 0 3]);
    [apply wf_heap_constructed | reflexivity].
Defined.

Lemma addPolyhedron_appends_witness :
  wf_heap [tetrahedron; tetrahedron_relabeled] ∧
  [tetrahedron; tetrahedron_relabeled] !! 0 = Some tetrahedron ∧
  [tetrahedron; tetrahedron_relabeled] !! 1 = Some tetrahedron_relabeled ∧
  ∃ h' l' o',
    addPolyhedron 0 1 [tetrahedron; tetrahedron_relabeled] = (h', Ok l') ∧
    h' !! l' = Some o' ∧
    vertices o' = vertices tetrahedron ++ vertices tetrahedron_relabeled ∧
    faces o'
    = faces tetrahedron
      ++ map (map (λ v, v + length (vertices tetrahedron)))
           (faces tetrahedron_relabeled) ∧
    (∀ v, v < length (vertices tetrahedron) →
          vertices o' !! v = vertices tetrahedron !! v) ∧
    (∀ i face, faces tetrahedron !! i = Some face →
               faces o' !! i = Some face) ∧
    (∀ j face, faces tetrahedron_relabeled !! j = Some face →
       ∃ face', faces o' !! (length (faces tetrahedron) + j) = Some face' ∧
         length face' = length face ∧
         ∀ k v, face !! k = Some v →
           ∃ v', face' !! k = Some v' ∧
                 vertices o' !! v' = vertices tetrahedron_relabeled !! v).
Proof.
  split; [apply wf_heap_constructed2|]. split; [reflexivity|].
  split; [reflexivity|].
  apply (addPolyhedron_appends [tetrahedron; tetrahedron_relabeled] 0 1
           tetrahedron tetrahedron_relabeled);
    [apply wf_heap_constructed2 | reflexivity | reflexivity].
Defined.

Lemma Polyhedron_get_catalog_witness :
  wf_heap ([] : list (PolyObj Z unit)) ∧
  (one_solid_valid "tetrahedron" = false ↔
   Polyhedron_get one_solid_valid one_solid_data "tetrahedron"
     ([] : list (PolyObj Z unit))
   = ([], Throw (Error ("Invalid solid name: " +:+ "tetrahedron")%string))) ∧
  (one_solid_valid "tetrahedron" = true →
   ∃ h' l' o',
     Polyhedron_get one_solid_valid one_solid_data "tetrahedron"
       ([] : list (PolyObj Z unit)) = (h', Ok l') ∧
     ([] : list (PolyObj Z unit)) !! l' = None ∧ h' !! l' = Some o' ∧
     vertices o' = base_vertices (one_solid_data "tetrahedron") ∧
     faces o' = base_faces (one_solid_data "tetrahedron") ∧
     _edges o' = base_edges (one_solid_data "tetrahedron") ∧
     graphs_uncomputed o' ∧
     ∃ h'' b, toJSON l' h' = (h'', Ok b) ∧ base_name b = None).
Proof.
  split; [apply wf_heap_nil|].
  apply (Polyhedron_get_catalog one_solid_valid one_solid_data "tetrahedron"
           ([] : list (PolyObj Z unit))).
  apply wf_heap_nil.
Defined.

Lemma vertexGraph_next_vertices_witness :
  wf_heap [tetrahedron] ∧ [tetrahedron] !! 0 = Some tetrahedron ∧
  ∃ h' graph,
    vertexGraph 0 [tetrahedron] = (h', Ok graph) ∧
    (∀ v, is_Some (graph !! v) ↔
          ∃ face, face ∈ faces tetrahedron ∧ v ∈ face) ∧
    (∀ v next w, graph !! v = Some next →
       (w ∈ next ↔ ∃ face, face ∈ faces tetrahedron ∧
                           (v, w) ∈ consecutive_pairs face)).
Proof.
  split; [apply wf_heap_constructed|]. split; [reflexivity|].
  apply (vertexGraph_next_vertices [tetrahedron] 0 tetrahedron);
    [apply wf_heap_constructed | reflexivity].
Defined.

Lemma adjacentVertexIndices_next_witness :
  wf_heap [tetrahedron] ∧ [tetrahedron] !! 0 = Some tetrahedron ∧
  ∃ h' adjacent,
    adjacentVertexIndices 0 [0; 9] [tetrahedron] = (h', Ok adjacent) ∧
    NoDup adjacent ∧
    (∀ w, Some w ∈ adjacent ↔
       ∃ v face, v ∈ [0; 9] ∧ face ∈ faces tetrahedron ∧
                 (v, w) ∈ consecutive_pairs face) ∧
    (None ∈ adjacent ↔
       ∃ v, v ∈ [0; 9] ∧ ∀ face, face ∈ faces tetrahedron → v ∉ face).
Proof.
  split; [apply wf_heap_constructed|]. split; [reflexivity|].
  apply (adjacentVertexIndices_next [tetrahedron] 0 tetrahedron [0; 9]);
    [apply wf_heap_constructed | reflexivity].
Defined.

Lemma edges_derived_witness :
  wf_heap [tetrahedron] ∧ [tetrahedron] !! 0 = Some tetrahedron ∧
  _edges tetrahedron = None ∧
  ∃ h' es o',
    edges 0 [tetrahedron] = (h', Ok es) ∧ NoDup es ∧
    (∀ a b, (a, b) ∈ es ↔
       a ≤ b ∧ ∃ face, face ∈ faces tetrahedron ∧
         ((a, b) ∈ consecutive_pairs face ∨ (b, a) ∈ consecutive_pairs face)) ∧
    h' !! 0 = Some o' ∧ _edges o' = Some es ∧
    edges 0 h' = (h', Ok es).
Proof.
  split; [apply wf_heap_constructed|]. split; [reflexivity|].
  split; [reflexivity|].
  apply (edges_derived [tetrahedron] 0 tetrahedron);
    [apply wf_heap_constructed | reflexivity | reflexivity].
Defined.

Lemma vertexToFaceGraph_rows_witness :
  wf_heap [tetrahedron] ∧ [tetrahedron] !! 0 = Some tetrahedron ∧
  ∃ h' r,
    vertexToFaceGraph 0 [tetrahedron] = (h', r) ∧
    match r with
    | Ok graph =>
        corners_in_range (length (vertices tetrahedron)) (faces tetrahedron) ∧
        length graph = length (vertices tetrahedron) ∧
        ∀ v row f, graph !! v = Some row →
          (f ∈ row ↔ polyhedron f = 0 ∧
                     ∃ face, faces tetrahedron !! fIndex f = Some face ∧
                             v ∈ face)
    | Throw e =>
        e = TypeError ∧
        ¬ corners_in_range (length (vertices tetrahedron)) (faces tetrahedron)
    end.
Proof.
  split; [apply wf_heap_constructed|]. split; [reflexivity|].
  apply (vertexToFaceGraph_rows [tetrahedron] 0 tetrahedron);
    [apply wf_heap_constructed | reflexivity].
Defined.

Lemma adjacentFaces_touching_witness :
  wf_heap [tetrahedron] ∧ [tetrahedron] !! 0 = Some tetrahedron ∧
  corners_in_range (length (vertices tetrahedron)) (faces tetrahedron) ∧
  ∃ h' r,
    adjacentFaces 0 [0; 1] [tetrahedron] = (h', r) ∧
    (Exists (λ v, length (vertices tetrahedron) ≤ v) [0; 1] →
       r = Throw TypeError) ∧
    (Forall (λ v, v < length (vertices tetrahedron)) [0; 1] →
       ∃ touching,
         r = Ok touching ∧ NoDup (map fIndex touching) ∧
         ∀ f, f ∈ touching ↔
           polyhedron f = 0 ∧
           ∃ face v, faces tetrahedron !! fIndex f = Some face ∧
                     v ∈ [0; 1] ∧ v ∈ face).
Proof.
  assert (Hr : corners_in_range (length (vertices tetrahedron))
                 (faces tetrahedron)) by by_computation.
  split; [apply wf_heap_constructed|]. split; [reflexivity|].
  split; [exact Hr|].
  apply (adjacentFaces_touching [tetrahedron] 0 tetrahedron [0; 1]);
    [apply wf_heap_constructed | reflexivity | exact Hr].
Defined.

Lemma adjacentFaceCount_histogram_witness :
  wf_heap [tetrahedron] ∧ [tetrahedron] !! 0 = Some tetrahedron ∧
  corners_in_range (length (vertices tetrahedron)) (faces tetrahedron) ∧
  0 < length (vertices tetrahedron) ∧
  ∃ h' count,
    adjacentFaceCount 0 0 [tetrahedron] = (h', Ok count) ∧
    ∀ k, default 0 (count !! k)
         = length (filter (λ face, 0 ∈ face ∧ length face = k)
                     (faces tetrahedron)).
Proof.
  assert (Hr : corners_in_range (length (vertices tetrahedron))
                 (faces tetrahedron)) by by_computation.
  assert (Hv : 0 < length (vertices tetrahedron)) by (simpl; lia).
  split; [apply wf_heap_constructed|]. split; [reflexivity|].
  split; [exact Hr|]. split; [exact Hv|].
  apply (adjacentFaceCount_histogram [tetrahedron] 0 tetrahedron 0);
    [apply wf_heap_constructed | reflexivity | exact Hr | exact Hv].
Defined.

Lemma edgeFaces_resolves_witness :
  wf_heap [tetrahedron] ∧ [tetrahedron] !! 0 = Some tetrahedron ∧
  ∃ h' r,
    edgeFaces 0 (0, 1) [tetrahedron] = (h', r) ∧
    match r with
    | Ok (x, y) =>
        (∃ face, face ∈ faces tetrahedron ∧ (0, 1).1 ∈ face) ∧
        (∃ face, face ∈ faces tetrahedron ∧ (0, 1).2 ∈ face) ∧
        (∀ f, x = Some f →
           polyhedron f = 0 ∧
           ∃ face, faces tetrahedron !! fIndex f = Some face ∧
                   (0, 1) ∈ consecutive_pairs face) ∧
        (x = None ↔
           ∀ face, face ∈ faces tetrahedron → (0, 1) ∉ consecutive_pairs face) ∧
        (∀ f, y = Some f →
           polyhedron f = 0 ∧
           ∃ face, faces tetrahedron !! fIndex f = Some face ∧
                   swap_pair (0, 1) ∈ consecutive_pairs face) ∧
        (y = None ↔
           ∀ face, face ∈ faces tetrahedron →
                   swap_pair (0, 1) ∉ consecutive_pairs face)
    | Throw err =>
        err = TypeError ∧
        ¬ ((∃ face, face ∈ faces tetrahedron ∧ (0, 1).1 ∈ face) ∧
           (∃ face, face ∈ faces tetrahedron ∧ (0, 1).2 ∈ face))
    end.
Proof.
  split; [apply wf_heap_constructed|]. split; [reflexivity|].
  apply (edgeFaces_resolves [tetrahedron] 0 tetrahedron (0, 1));
    [apply wf_heap_constructed | reflexivity].
Defined.

Lemma faceGraph_neighbours_witness :
  wf_heap [tetrahedron] ∧ [tetrahedron] !! 0 = Some tetrahedron ∧
  closed_mesh (faces tetrahedron) ∧
  edges_cover (faces tetrahedron) (edges_of tetrahedron) ∧
  ∃ h' graph,
    faceGraph 0 [tetrahedron] = (h', Ok graph) ∧
    (∀ i face, faces tetrahedron !! i = Some face →
       length (default [] (graph !! i)) = length face) ∧
    (∀ i g, g ∈ default [] (graph !! i) →
       polyhedron g = 0 ∧ fIndex g < length (faces tetrahedron)) ∧
    (∀ i j face_i face_j,
       faces tetrahedron !! i = Some face_i →
       faces tetrahedron !! j = Some face_j →
       (mkFaceObj 0 j ∈ default [] (graph !! i) ↔
        ∃ d, d ∈ consecutive_pairs face_i ∧
             swap_pair d ∈ consecutive_pairs face_j)).
Proof.
  assert (Hc : closed_mesh (faces tetrahedron)) by by_computation.
  assert (Hcov : edges_cover (faces tetrahedron) (edges_of tetrahedron))
    by by_computation.
  split; [apply wf_heap_constructed|]. split; [reflexivity|].
  split; [exact Hc|]. split; [exact Hcov|].
  apply (faceGraph_neighbours [tetrahedron] 0 tetrahedron);
    [apply wf_heap_constructed | reflexivity | exact Hc | exact Hcov].
Defined.

Lemma faceGraph_boundary_edge_witness :
  wf_heap [open_triangle] ∧ [open_triangle] !! 0 = Some open_triangle ∧
  [open_triangle] !! 0 = Some open_triangle ∧
  (0, 1) ∈ edges_of open_triangle ∧
  ((∀ face, face ∈ faces open_triangle → (0, 1) ∉ consecutive_pairs face) ∨
   (∀ face, face ∈ faces open_triangle →
            swap_pair (0, 1) ∉ consecutive_pairs face)) ∧
  (faceGraph 0 [open_triangle]).2 = Throw TypeError ∧
  (faces open_triangle ≠ [] →
     (faceAdjacencyList 0 [open_triangle]).2 = Throw TypeError ∧
     (isSame 0 0 [open_triangle]).2 = Throw TypeError ∧
     (faceCount_of (faces open_triangle) = faceCount_of (faces open_triangle) →
        (isSame 0 0 [open_triangle]).2 = Throw TypeError ∧
        (isSame 0 0 [open_triangle]).2 = Throw TypeError)).
Proof.
  assert (He : (0, 1) ∈ edges_of open_triangle) by by_computation.
  assert (Hs : (∀ face, face ∈ faces open_triangle →
                        (0, 1) ∉ consecutive_pairs face) ∨
               (∀ face, face ∈ faces open_triangle →
                        swap_pair (0, 1) ∉ consecutive_pairs face)).
  { right. apply Forall_forall. by_computation. }
  split; [apply wf_heap_constructed|]. split; [reflexivity|].
  split; [reflexivity|]. split; [exact He|]. split; [exact Hs|].
  apply (faceGraph_boundary_edge [open_triangle] 0 0 open_triangle
           open_triangle (0, 1));
    [apply wf_heap_constructed | reflexivity | reflexivity | exact He
     | exact Hs].
Defined.

Lemma faceAdjacencyList_entries_witness :
  wf_heap [tetrahedron] ∧ [tetrahedron] !! 0 = Some tetrahedron ∧
  closed_mesh (faces tetrahedron) ∧
  edges_cover (faces tetrahedron) (edges_of tetrahedron) ∧
  ∃ h' fp,
    faceAdjacencyList 0 [tetrahedron] = (h', Ok fp) ∧
    length fp = length (faces tetrahedron) ∧
    map AdjCount.n fp ≡ₚ map length (faces tetrahedron) ∧
    ∀ c, c ∈ fp → histogram_total (AdjCount.adj c) = AdjCount.n c.
Proof.
  assert (Hc : closed_mesh (faces tetrahedron)) by by_computation.
  assert (Hcov : edges_cover (faces tetrahedron) (edges_of tetrahedron))
    by by_computation.
  split; [apply wf_heap_constructed|]. split; [reflexivity|].
  split; [exact Hc|]. split; [exact Hcov|].
  apply (faceAdjacencyList_entries [tetrahedron] 0 tetrahedron);
    [apply wf_heap_constructed | reflexivity | exact Hc | exact Hcov].
Defined.

Lemma isSame_symmetric_witness :
  wf_heap [tetrahedron; nonagon_mesh] ∧
  [tetrahedron; nonagon_mesh] !! 0 = Some tetrahedron ∧
  [tetrahedron; nonagon_mesh] !! 1 = Some nonagon_mesh ∧
  (isSame 0 1 [tetrahedron; nonagon_mesh]).2
  = (isSame 1 0 [tetrahedron; nonagon_mesh]).2 ∧
  ∀ e, (isSame 0 1 [tetrahedron; nonagon_mesh]).2 = Throw e → e = TypeError.
Proof.
  split; [apply wf_heap_constructed2|]. split; [reflexivity|].
  split; [reflexivity|].
  apply (isSame_symmetric [tetrahedron; nonagon_mesh] 0 1 tetrahedron
           nonagon_mesh);
    [apply wf_heap_constructed2 | reflexivity | reflexivity].
Defined.

Lemma isSame_transitive_witness :
  wf_heap [tetrahedron; tetrahedron_relabeled] ∧
  [tetrahedron; tetrahedron_relabeled] !! 0 = Some tetrahedron ∧
  [tetrahedron; tetrahedron_relabeled] !! 1 = Some tetrahedron_relabeled ∧
  [tetrahedron; tetrahedron_relabeled] !! 0 = Some tetrahedron ∧
  (isSame 0 1 [tetrahedron; tetrahedron_relabeled]).2 = Ok true ∧
  length (faces tetrahedron) = length (faces tetrahedron_relabeled) ∧
  faceCount_of (faces tetrahedron)
  = faceCount_of (faces tetrahedron_relabeled) ∧
  ((isSame 1 0 [tetrahedron; tetrahedron_relabeled]).2 = Ok true →
   (isSame 0 0 [tetrahedron; tetrahedron_relabeled]).2 = Ok true).
Proof.
  assert (Hs : (isSame 0 1 [tetrahedron; tetrahedron_relabeled]).2 = Ok true)
    by (vm_compute; reflexivity).
  split; [apply wf_heap_constructed2|]. split; [reflexivity|].
  split; [reflexivity|]. split; [reflexivity|]. split; [exact Hs|].
  apply (isSame_transitive [tetrahedron; tetrahedron_relabeled] 0 1 0
           tetrahedron tetrahedron_relabeled tetrahedron);
    [apply wf_heap_constructed2 | reflexivity | reflexivity | reflexivity
     | exact Hs].
Defined.

Lemma edges_handshake_witness :
  wf_heap [tetrahedron] ∧ [tetrahedron] !! 0 = Some tetrahedron ∧
  _edges tetrahedron = None ∧ closed_mesh (faces tetrahedron) ∧
  ∃ h' es,
    edges 0 [tetrahedron] = (h', Ok es) ∧
    2 * length es = sum_list (map length (faces tetrahedron)).
Proof.
  assert (Hc : closed_mesh (faces tetrahedron)) by by_computation.
  split; [apply wf_heap_constructed|]. split; [reflexivity|].
  split; [reflexivity|]. split; [exact Hc|].
  apply (edges_handshake [tetrahedron] 0 tetrahedron);
    [apply wf_heap_constructed | reflexivity | reflexivity | exact Hc].
Defined.

Lemma isSame_vertex_transform_witness :
  wf_heap [tetrahedron] ∧ [tetrahedron] !! 0 = Some tetrahedron ∧
  closed_mesh (faces tetrahedron) ∧
  edges_cover (faces tetrahedron) (edges_of tetrahedron) ∧
  keeps_faces (WithVertices ten_vertices : @transform Z unit) = true ∧
  ∃ h' l',
    apply_transform (WithVertices ten_vertices) 0 [tetrahedron] = (h', Ok l') ∧
    (isSame 0 l' h').2 = Ok true ∧ (isSame l' 0 h').2 = Ok true.
Proof.
  assert (Hc : closed_mesh (faces tetrahedron)) by by_computation.
  assert (Hcov : edges_cover (faces tetrahedron) (edges_of tetrahedron))
    by by_computation.
  split; [apply wf_heap_constructed|]. split; [reflexivity|].
  split; [exact Hc|]. split; [exact Hcov|]. split; [reflexivity|].
  apply (isSame_vertex_transform (WithVertices ten_vertices) [tetrahedron] 0
           tetrahedron);
    [apply wf_heap_constructed | reflexivity | exact Hc | exact Hcov
     | reflexivity].
Defined.

Lemma addFaces_removeFaces_witness :
  wf_heap [tetrahedron] ∧ [tetrahedron] !! 0 = Some tetrahedron ∧
  ∃ h' l' o',
    (p <- addFaces 0 [[0; 1; 2]; [1; 2; 3]] ;;
     removeFaces p (map (mkFaceObj p)
                      (seq (length (faces tetrahedron))
                         (length [[0; 1; 2]; [1; 2; 3]])))) [tetrahedron]
    = (h', Ok l') ∧
    h' !! l' = Some o' ∧
    faces o' = faces tetrahedron ∧ vertices o' = vertices tetrahedron.
Proof.
  split; [apply wf_heap_constructed|]. split; [reflexivity|].
  apply (addFaces_removeFaces [tetrahedron] 0 tetrahedron
           [[0; 1; 2]; [1; 2; 3]]);
    [apply wf_heap_constructed | reflexivity].
Defined.

Lemma directedAdjacentFaces_bounded_witness :
  wf_heap [two_tetrahedra] ∧ [two_tetrahedra] !! 0 = Some two_tetrahedra ∧
  ∃ h' r,
    directedAdjacentFaces false 0 0 [two_tetrahedra] = (h', r) ∧
    ∀ res, r = Ok res →
      ∃ touching,
        (adjacentFaces 0 [0] [two_tetrahedra]).2 = Ok touching ∧
        length res = Nat.max 1 (length touching) ∧
        head res = Some (head touching) ∧
        ∀ f, Some f ∈ res → f ∈ touching.
Proof.
  split; [apply wf_heap_constructed|]. split; [reflexivity|].
  apply (directedAdjacentFaces_bounded false [two_tetrahedra] 0 two_tetrahedra
           0);
    [apply wf_heap_constructed | reflexivity].
Defined.

Lemma vectors_ok_constructed vs fs es :
  vectors_ok (constructed vs fs es : PolyObj QArith_base.Q (list QArith_base.Q)).
Proof. intros ws H. discriminate H. Qed.

Lemma vertexVectors_entries_witness :
  wf_heap [tetrahedron_rational] ∧
  [tetrahedron_rational] !! 0 = Some tetrahedron_rational ∧
  vectors_ok tetrahedron_rational ∧
  ∃ h' vs o',
    vertexVectors 0 [0; 9] [tetrahedron_rational] = (h', Ok vs) ∧
    length vs = length [0; 9] ∧
    (∀ i v, [0; 9] !! i = Some v →
            vs !! i = Some (vec <$> vertices tetrahedron_rational !! v)) ∧
    h' !! 0 = Some o' ∧
    _vertexVectors o' = Some (map vec (vertices tetrahedron_rational)) ∧
    ∀ v, vertexVector 0 v [tetrahedron_rational]
         = (h', Ok (vec <$> vertices tetrahedron_rational !! v)).
Proof.
  split; [apply wf_heap_constructed|]. split; [reflexivity|].
  split; [apply vectors_ok_constructed|].
  apply (vertexVectors_entries [tetrahedron_rational] 0 tetrahedron_rational
           [0; 9]);
    [apply wf_heap_constructed | reflexivity | apply vectors_ok_constructed].
Defined.

Lemma center_translates_witness :
  wf_heap [tetrahedron_rational] ∧
  [tetrahedron_rational] !! 0 = Some tetrahedron_rational ∧
  vectors_ok tetrahedron_rational ∧
  match vertices tetrahedron_rational with
  | [] =>
      (centroid 0 [tetrahedron_rational]).2 = Throw TypeError ∧
      (center (λ v, v) 0 [tetrahedron_rational]).2 = Throw TypeError
  | p :: ps =>
      let c := Vec3D_scale (fold_left Vec3D_add (map vec ps) (vec p))
                 (number_div (number_of_nat 1)
                    (number_of_nat (length (vertices tetrahedron_rational)))) in
      (centroid 0 [tetrahedron_rational]).2 = Ok c ∧
      ∃ h' l' o',
        center (λ v, v) 0 [tetrahedron_rational] = (h', Ok l') ∧
        [tetrahedron_rational] !! l' = None ∧ h' !! l' = Some o' ∧
        vertices o'
        = map (λ q, Vec3D_sub (vec q) c) (vertices tetrahedron_rational) ∧
        faces o' = faces tetrahedron_rational ∧
        _edges o' = Some (edges_of tetrahedron_rational)
  end.
Proof.
  split; [apply wf_heap_constructed|]. split; [reflexivity|].
  split; [apply vectors_ok_constructed|].
  apply (center_translates (λ v, v) [tetrahedron_rational] 0
           tetrahedron_rational);
    [apply wf_heap_constructed | reflexivity | apply vectors_ok_constructed].
Defined.

Lemma getDihedralAngle_closed_witness :
  wf_heap [tetrahedron_rational] ∧
  [tetrahedron_rational] !! 0 = Some tetrahedron_rational ∧
  vectors_ok tetrahedron_rational ∧
  closed_mesh (faces tetrahedron_rational) ∧
  corners_in_range (length (vertices tetrahedron_rational))
    (faces tetrahedron_rational) ∧
  (∃ face, face ∈ faces tetrahedron_rational ∧
           (0, 1) ∈ consecutive_pairs face) ∧
  ∃ h' face1 face2 p1 p2 c1 c2,
    face1 ∈ faces tetrahedron_rational ∧ (0, 1) ∈ consecutive_pairs face1 ∧
    face2 ∈ faces tetrahedron_rational ∧
    swap_pair (0, 1) ∈ consecutive_pairs face2 ∧
    vertices tetrahedron_rational !! (0, 1).1 = Some p1 ∧
    vertices tetrahedron_rational !! (0, 1).2 = Some p2 ∧
    centroid_of (map vec (vertices tetrahedron_rational)) face1 = Ok c1 ∧
    centroid_of (map vec (vertices tetrahedron_rational)) face2 = Ok c2 ∧
    getDihedralAngle 0 (0, 1) [tetrahedron_rational]
    = (h', Ok (Vec3D_angleBetween
                 (Vec3D_sub c1 (getMidpoint (vec p1) (vec p2)))
                 (Vec3D_sub c2 (getMidpoint (vec p1) (vec p2))) true)).
Proof.
  assert (Hc : closed_mesh (faces tetrahedron_rational)) by by_computation.
  assert (Hr : corners_in_range (length (vertices tetrahedron_rational))
                 (faces tetrahedron_rational)) by by_computation.
  assert (He : ∃ face, face ∈ faces tetrahedron_rational ∧
                       (0, 1) ∈ consecutive_pairs face).
  { exists [0; 1; 2]. split; by_computation. }
  split; [apply wf_heap_constructed|]. split; [reflexivity|].
  split; [apply vectors_ok_constructed|]. split; [exact Hc|].
  split; [exact Hr|]. split; [exact He|].
  apply (getDihedralAngle_closed [tetrahedron_rational] 0 tetrahedron_rational
           (0, 1));
    [apply wf_heap_constructed | reflexivity | apply vectors_ok_constructed
     | exact Hc | exact Hr | exact He].
Defined.

(** * Determinism of the calls *)

Section KeepsFacts.
Context {number Vec3D : Type} `{!Toxiclibs number Vec3D}.
Local Abbreviation PolyObj := (PolyObj number Vec3D).
Local Abbreviation heap := (heap number Vec3D).
Local Abbreviation M := (M number Vec3D).
Implicit Types (h : heap) (l this : loc) (o : PolyObj).
Local Abbreviation keeps_length := (keeps_length (number:=number) (Vec3D:=Vec3D)).

Lemma keeps_ret {A} (a : A) : keeps_length (ret a).
Proof. by intros h. Qed.

Lemma keeps_throw {A} e : keeps_length (throw (A:=A) e).
Proof. by intros h. Qed.

Lemma keeps_lift {A} (r : result A) : keeps_length (lift r).
Proof. by intros h. Qed.

Lemma keeps_deref l : keeps_length (deref l).
Proof. intros h. unfold deref. by destruct (h !! l). Qed.

Lemma keeps_update l (f : PolyObj → PolyObj) : keeps_length (update l f).
Proof.
  intros h. unfold update. destruct (h !! l); simpl; [|done].
  by rewrite length_insert.
Qed.

Lemma keeps_bind {A B} (m : M A) (f : A → M B) :
  keeps_length m → (∀ a, keeps_length (f a)) → keeps_length (bind m f).
Proof.
  intros Hm Hf h. unfold bind. specialize (Hm h).
  destruct (m h) as [h1 [a|e]]; simpl in *; [|done].
  by rewrite Hf.
Qed.

Lemma keeps_M_map {A B} (f : A → M B) xs :
  (∀ x, keeps_length (f x)) → keeps_length (M_map f xs).
Proof.
  intros Hf. induction xs as [|x xs IH]; simpl; [apply keeps_ret|].
  apply keeps_bind; [done|]. intros y. apply keeps_bind; [done|].
  intros ys. apply keeps_ret.
Qed.

Lemma keeps_M_fold {A X} (f : A → X → M A) xs a :
  (∀ a x, keeps_length (f a x)) → keeps_length (M_fold f xs a).
Proof.
  intros Hf. revert a. induction xs as [|x xs IH]; intros a; simpl;
    [apply keeps_ret|].
  apply keeps_bind; [done|]. intros y. apply IH.
Qed.

Lemma keeps_find_first {A} (P : A → M bool) xs :
  (∀ x, keeps_length (P x)) → keeps_length (find_first P xs).
Proof.
  intros HP. induction xs as [|x xs IH]; simpl; [apply keeps_ret|].
  apply keeps_bind; [done|]. intros [|]; [apply keeps_ret | done].
Qed.

End KeepsFacts.

(** Steps of a proof that a method creates no object. *)
Ltac keeps_step :=
  first
    [ apply keeps_ret | apply keeps_throw | apply keeps_lift
    | apply keeps_deref | apply keeps_update
    | apply keeps_M_map; intros | apply keeps_M_fold; intros
    | apply keeps_find_first; intros
    | apply keeps_bind; [|intros]
    | match goal with
      | |- _ (match ?x with _ => _ end) => destruct x
      end ].

Ltac keeps := repeat keeps_step.

Section DetFacts.
Context {number Vec3D : Type} `{!Toxiclibs number Vec3D}.
Local Abbreviation PolyObj := (PolyObj number Vec3D).
Local Abbreviation heap := (heap number Vec3D).
Local Abbreviation M := (M number Vec3D).
Implicit Types (h : heap) (l this : loc) (o : PolyObj) (m : @Mesh number Vec3D).

Lemma same_polyhedron_refl o : same_polyhedron o o.
Proof. by repeat split. Qed.

Lemma same_polyhedra_refl h : same_polyhedra h h.
Proof.
  apply Forall2_same_length_lookup. split; [done|].
  intros i x y Hx Hy. simplify_eq. apply same_polyhedron_refl.
Qed.

Lemma same_polyhedra_sym h1 h2 : same_polyhedra h1 h2 → same_polyhedra h2 h1.
Proof.
  intros H. apply Forall2_flip. eapply Forall2_impl; [exact H|].
  intros o1 o2 (? & ? & ?). by repeat split.
Qed.

Lemma same_polyhedra_trans h1 h2 h3 :
  same_polyhedra h1 h2 → same_polyhedra h2 h3 → same_polyhedra h1 h3.
Proof.
  intros H12 H23. eapply Forall2_trans; [|exact H12|exact H23].
  intros o1 o2 o3 (? & ? & ?) (? & ? & ?). repeat split; congruence.
Qed.

Lemma same_polyhedra_lookup h1 h2 l o1 :
  same_polyhedra h1 h2 → h1 !! l = Some o1 →
  ∃ o2, h2 !! l = Some o2 ∧ same_polyhedron o1 o2.
Proof. intros H Hl. by eapply Forall2_lookup_l. Qed.

Lemma same_polyhedra_None h1 h2 l :
  same_polyhedra h1 h2 → h1 !! l = None → h2 !! l = None.
Proof.
  intros H Hl. apply lookup_ge_None. apply lookup_ge_None in Hl.
  by rewrite <- (Forall2_length _ _ _ H).
Qed.

(** A later store of the same length holds the same polyhedra, with
    caches as consistent as before. *)
Lemma ext_same h h' :
  ext h h' → length h' = length h → same_polyhedra h h'.
Proof.
  intros Hext Hlen. apply Forall2_same_length_lookup. split; [done|].
  intros i o o' Ho Ho'.
  pose proof (ext_mesh _ _ _ _ Hext (mesh_at_lookup _ _ _ Ho)) as Hm.
  unfold mesh_at in Hm. rewrite Ho' in Hm. injection Hm as E1 E2 E3 E4.
  by repeat split.
Qed.

Lemma ext_consistent h h' :
  ext h h' → length h' = length h → consistent h → consistent h'.
Proof.
  intros Hext Hlen [Hwf Hv]. split; [by eapply ext_wf|].
  apply Forall_lookup. intros i o' Ho'.
  destruct (lookup_lt_is_Some_2 h i) as [o Ho].
  { rewrite <- Hlen. by eapply lookup_lt_Some. }
  pose proof (ext_mesh _ _ _ _ Hext (mesh_at_lookup _ _ _ Ho)) as Hm.
  unfold mesh_at in Hm. rewrite Ho' in Hm. injection Hm as E1 E2 E3 E4.
  rewrite Forall_lookup in Hv. specialize (Hv i o Ho).
  intros vs Hvs. rewrite E1. apply Hv. by rewrite <- E4.
Qed.

Lemma det_intro {A} (c : M A) :
  (∀ h1 h2, consistent h1 → consistent h2 → same_polyhedra h1 h2 →
     ∃ h1' h2' r, c h1 = (h1', r) ∧ c h2 = (h2', r) ∧
                  consistent h1' ∧ consistent h2' ∧ same_polyhedra h1' h2') →
  deterministic c.
Proof.
  intros H h1 h2 C1 C2 S.
  destruct (H h1 h2 C1 C2 S) as (h1' & h2' & r & -> & -> & ? & ? & ?). done.
Qed.

Lemma det_ret {A} (a : A) : deterministic (ret a : M A).
Proof. by intros h1 h2 C1 C2 S. Qed.

Lemma det_throw {A} e : deterministic (throw e : M A).
Proof. by intros h1 h2 C1 C2 S. Qed.

Lemma det_lift {A} (r : result A) : deterministic (lift r : M A).
Proof. by intros h1 h2 C1 C2 S. Qed.

Lemma det_bind {A B} (m : M A) (f : A → M B) :
  deterministic m → (∀ a, deterministic (f a)) → deterministic (bind m f).
Proof.
  intros Hm Hf h1 h2 C1 C2 S. unfold bind.
  destruct (Hm h1 h2 C1 C2 S) as (Hr & C1' & C2' & S').
  destruct (m h1) as [h1' r1], (m h2) as [h2' r2]. simpl in *. subst r2.
  destruct r1 as [a|e]; [|done]. by apply Hf.
Qed.

Lemma det_M_map {A B} (f : A → M B) xs :
  (∀ x, deterministic (f x)) → deterministic (M_map f xs).
Proof.
  intros Hf. induction xs as [|x xs IH]; simpl; [apply det_ret|].
  apply det_bind; [done|]. intros y. apply det_bind; [done|].
  intros ys. apply det_ret.
Qed.

Lemma det_M_fold {A X} (f : A → X → M A) xs a :
  (∀ a x, deterministic (f a x)) → deterministic (M_fold f xs a).
Proof.
  intros Hf. revert a. induction xs as [|x xs IH]; intros a; simpl;
    [apply det_ret|].
  apply det_bind; [done|]. intros y. apply IH.
Qed.

Lemma det_find_first {A} (P : A → M bool) xs :
  (∀ x, deterministic (P x)) → deterministic (find_first P xs).
Proof.
  intros HP. induction xs as [|x xs IH]; simpl; [apply det_ret|].
  apply det_bind; [done|]. intros [|]; [apply det_ret | done].
Qed.

(** Reading the receiver, when what follows looks at its vertices, faces
    and edge collection only. *)
Lemma det_deref {A} l (k : PolyObj → M A) :
  (∀ o, deterministic (k o)) →
  (∀ o1 o2, same_polyhedron o1 o2 → k o1 = k o2) →
  deterministic (bind (deref l) k).
Proof.
  intros Hk Hsame h1 h2 C1 C2 S. unfold bind, deref.
  destruct (h1 !! l) as [o1|] eqn:E1.
  - destruct (same_polyhedra_lookup _ _ _ _ S E1) as (o2 & -> & Ho).
    rewrite (Hsame o1 o2 Ho). by apply Hk.
  - by rewrite (same_polyhedra_None _ _ _ S E1).
Qed.

(** A memoising accessor: what it returns is a function of the vertices,
    faces and edge collection of the receiver. *)
Lemma det_accessor {A} this (k : PolyObj → M A)
    (value : list (list number) → list Face → list Edge → result A) :
  keeps_length (bind (deref this) k) →
  (∀ h m, wf_heap h → mesh_at h this = Some m →
          returns (bind (deref this) k) h
            (value (mesh_vertices m) (mesh_faces m) (mesh_edges m))) →
  deterministic (bind (deref this) k).
Proof.
  intros Hkeep Hret. apply det_intro. intros h1 h2 C1 C2 S.
  destruct (h1 !! this) as [o1|] eqn:E1.
  - destruct (same_polyhedra_lookup _ _ _ _ S E1) as (o2 & E2 & Hv & Hf & He).
    destruct (Hret h1 _ (proj1 C1) (mesh_at_lookup _ _ _ E1)) as (h1' & R1 & X1).
    destruct (Hret h2 _ (proj1 C2) (mesh_at_lookup _ _ _ E2)) as (h2' & R2 & X2).
    pose proof (Hkeep h1) as L1. rewrite R1 in L1.
    pose proof (Hkeep h2) as L2. rewrite R2 in L2. simpl in L1, L2.
    exists h1', h2', (value (vertices o1) (faces o1) (edges_of o1)).
    split; [exact R1|]. split.
    { rewrite R2. simpl. by rewrite Hv, Hf, He. }
    split; [by eapply ext_consistent|]. split; [by eapply ext_consistent|].
    eapply same_polyhedra_trans; [|by apply ext_same].
    eapply same_polyhedra_trans; [|exact S].
    apply same_polyhedra_sym. by apply ext_same.
  - pose proof (same_polyhedra_None _ _ _ S E1) as E2.
    exists h1, h2, (Throw TypeError). unfold bind, deref. by rewrite E1, E2.
Qed.

Lemma det_getFace this i : deterministic (getFace this i).
Proof.
  apply (det_accessor this _ (λ _ _ _, Ok (mkFaceObj this i)));
    [keeps|]. intros h m. apply getFace_returns.
Qed.

Lemma det_edges this : deterministic (edges this).
Proof.
  apply (det_accessor this _ (λ _ _ es, Ok es)); [keeps|].
  intros h m. apply edges_returns.
Qed.

Lemma det_vertexGraph this : deterministic (vertexGraph this).
Proof.
  apply (det_accessor this _ (λ _ fs _, Ok (vertexGraph_of fs)));
    [keeps|]. intros h m. apply vertexGraph_returns.
Qed.

Lemma det_vertexToFaceGraph this : deterministic (vertexToFaceGraph this).
Proof.
  apply (det_accessor this _
           (λ vs fs _, vertexToFaceGraph_of this (length vs) fs));
    [keeps|].
  intros h m. apply vertexToFaceGraph_returns.
Qed.

Lemma det_directedEdgeToFaceGraph this :
  deterministic (directedEdgeToFaceGraph this).
Proof.
  apply (det_accessor this _
           (λ _ fs _, Ok (directedEdgeToFaceGraph_of this fs)));
    [keeps|].
  intros h m. apply directedEdgeToFaceGraph_returns.
Qed.

Lemma det_faceGraph this : deterministic (faceGraph this).
Proof.
  apply (det_accessor this _ (λ _ fs es, faceGraph_of this fs es));
    [keeps|]. intros h m. apply faceGraph_returns.
Qed.

(** [vertexVectors()] fills the vector cache of the receiver and nothing
    else. *)
Lemma det_vertexVectors_all this : deterministic (vertexVectors_all this).
Proof.
  assert (Hone : ∀ h o, consistent h → h !! this = Some o →
            ∃ h', vertexVectors_all this h = (h', Ok (map vec (vertices o))) ∧
                  consistent h' ∧ same_polyhedra h h').
  { intros h o [Hwf Hv] Ho.
    assert (Hvo : vectors_ok o) by (rewrite Forall_lookup in Hv; by eapply Hv).
    unfold vertexVectors_all, bind, deref. rewrite Ho.
    destruct (_vertexVectors o) as [vs|] eqn:E.
    - exists h. rewrite (Hvo vs E). split; [done|]. split; [done|].
      apply same_polyhedra_refl.
    - unfold update. rewrite Ho. eexists. split; [done|].
      assert (Hl : this < length h) by (by eapply lookup_lt_Some).
      split; [split|].
      + intros l' o'. destruct (decide (this = l')) as [<-|Hne].
        * rewrite list_lookup_insert_eq by done. intros [= <-].
          destruct (Hwf _ _ Ho) as [G1 G2 G3 G4 G5]. by split.
        * rewrite list_lookup_insert_ne by done. apply Hwf.
      + apply Forall_insert; [done|]. intros vs. simpl. by intros [= <-].
      + apply Forall2_same_length_lookup. split; [by rewrite length_insert|].
        intros i o1 o2 H1. destruct (decide (this = i)) as [<-|Hne].
        * rewrite list_lookup_insert_eq by done. intros [= <-].
          rewrite Ho in H1. injection H1 as <-. by repeat split.
        * rewrite list_lookup_insert_ne by done. intros H2.
          rewrite H1 in H2. injection H2 as <-. apply same_polyhedron_refl. }
  apply det_intro. intros h1 h2 C1 C2 S.
  destruct (h1 !! this) as [o1|] eqn:E1.
  - destruct (same_polyhedra_lookup _ _ _ _ S E1) as (o2 & E2 & Hv & Hf & He).
    destruct (Hone h1 o1 C1 E1) as (h1' & R1 & C1' & S1).
    destruct (Hone h2 o2 C2 E2) as (h2' & R2 & C2' & S2).
    exists h1', h2', (Ok (map vec (vertices o1))).
    split; [done|]. split; [by rewrite R2, Hv|].
    split; [done|]. split; [done|].
    eapply same_polyhedra_trans; [|exact S2].
    eapply same_polyhedra_trans; [|exact S].
    by apply same_polyhedra_sym.
  - pose proof (same_polyhedra_None _ _ _ S E1) as E2.
    exists h1, h2, (Throw TypeError).
    unfold vertexVectors_all, bind, deref. by rewrite E1, E2.
Qed.

(** [new Polyhedron]: the same object at the same address. *)
Lemma det_Polyhedron_new (b : BasePolyhedron number) :
  deterministic (Polyhedron_new b).
Proof.
  intros h1 h2 [W1 V1] [W2 V2] S. unfold Polyhedron_new, alloc. simpl.
  assert (Hc : ∀ h, wf_heap h → Forall vectors_ok h →
            consistent (h ++ [constructed (base_vertices b) (base_faces b)
                                (base_edges b)])).
  { intros h W V. split.
    - intros l o Hl. apply lookup_app_Some in Hl as [Hl|[Hlen Hl]].
      + by apply W.
      + apply list_lookup_singleton_Some in Hl as [Hl <-].
        apply constructed_wf.
    - apply Forall_app. split; [done|]. apply Forall_singleton. by intros vs. }
  split; [by rewrite (Forall2_length _ _ _ S)|].
  split; [by apply Hc|]. split; [by apply Hc|].
  apply Forall2_app; [done|]. apply Forall2_cons_2; [|constructor].
  apply same_polyhedron_refl.
Qed.
End DetFacts.

Create HintDb det discriminated.

(** Steps of a proof that a method is deterministic. *)
Ltac det_step :=
  first
    [ apply det_ret | apply det_throw | apply det_lift
    | solve [auto 1 with det nocore]
    | lazymatch goal with
      | |- deterministic (M_map _ _) => apply det_M_map; intros
      | |- deterministic (M_fold _ _ _) => apply det_M_fold; intros
      | |- deterministic (find_first _ _) => apply det_find_first; intros
      | |- deterministic (bind (deref _) _) =>
          apply det_deref;
          [intros | intros ? ? (?Hv & ?Hf & ?He); rewrite ?Hv, ?Hf, ?He; reflexivity]
      | |- deterministic (bind _ _) => apply det_bind; [|intros]
      | |- deterministic (match ?x with _ => _ end) => destruct x
      | |- deterministic (if ?x then _ else _) => destruct x
      end ].

Ltac det := repeat det_step.

#[local] Hint Resolve det_getFace det_edges det_vertexGraph
  det_vertexToFaceGraph det_directedEdgeToFaceGraph det_faceGraph
  det_vertexVectors_all det_Polyhedron_new : det.

Section CallFacts.
Context {number Vec3D : Type} `{!Toxiclibs number Vec3D}.
Local Abbreviation M := (M number Vec3D).
Local Abbreviation deterministic := (deterministic (number:=number) (Vec3D:=Vec3D)).
Context (isValidSolid : string → bool).
Context (getSolidData : string → BasePolyhedron number).
Context (Vec3D_toArray : Vec3D → list number).

Lemma det_numVertices this : deterministic (numVertices this).
Proof. unfold numVertices. det. Qed.

Lemma det_numFaces this : deterministic (numFaces this).
Proof. unfold numFaces. det. Qed.

Lemma det_vIndices this : deterministic (vIndices this).
Proof. unfold vIndices. det. apply det_numVertices. Qed.

Lemma det_fIndices this : deterministic (fIndices this).
Proof. unfold fIndices. det. apply det_numFaces. Qed.

Lemma det_getFaces this : deterministic (getFaces this).
Proof. unfold getFaces. det. apply det_fIndices. Qed.

Lemma det_FaceObj_vIndices f : deterministic (FaceObj_vIndices f).
Proof. unfold FaceObj_vIndices. det. Qed.
#[local] Hint Resolve det_numVertices det_numFaces det_vIndices det_fIndices
  det_getFaces det_FaceObj_vIndices : det.

Lemma det_FaceObj_numSides f : deterministic (FaceObj_numSides f).
Proof. unfold FaceObj_numSides. det. Qed.

Lemma det_FaceObj_directedEdges f : deterministic (FaceObj_directedEdges f).
Proof. unfold FaceObj_directedEdges. det. Qed.

Lemma det_FaceObj_getEdges f : deterministic (FaceObj_getEdges f).
Proof. unfold FaceObj_getEdges. det. Qed.

Lemma det_FaceObj_nextVertex f v : deterministic (FaceObj_nextVertex f v).
Proof. unfold FaceObj_nextVertex. det. Qed.

Lemma det_FaceObj_prevVertex f v : deterministic (FaceObj_prevVertex f v).
Proof. unfold FaceObj_prevVertex. det. Qed.

Lemma det_FaceObj_adjacentFaces f : deterministic (FaceObj_adjacentFaces f).
Proof. unfold FaceObj_adjacentFaces. det. Qed.
#[local] Hint Resolve det_FaceObj_numSides det_FaceObj_directedEdges
  det_FaceObj_getEdges det_FaceObj_nextVertex det_FaceObj_prevVertex
  det_FaceObj_adjacentFaces : det.

Lemma det_getAllEdges this : deterministic (getAllEdges this).
Proof. unfold getAllEdges. det. Qed.

Lemma det_toJSON this : deterministic (toJSON this).
Proof. unfold toJSON. det. Qed.

Lemma det_faceCount this : deterministic (faceCount this).
Proof. unfold faceCount. det. Qed.

Lemma det_biggestFace this : deterministic (biggestFace this).
Proof. unfold biggestFace. det. Qed.

Lemma det_faceTypes this : deterministic (faceTypes this).
Proof. unfold faceTypes. det. Qed.

Lemma det_vertexVectors this vIndices :
  deterministic (vertexVectors this vIndices).
Proof. unfold vertexVectors. det. Qed.
#[local] Hint Resolve det_getAllEdges det_toJSON det_faceCount det_vertexVectors : det.

Lemma det_vertexVector this v : deterministic (vertexVector this v).
Proof. unfold vertexVector. det. Qed.

Lemma det_centroid this : deterministic (centroid this).
Proof. unfold centroid. det. Qed.

Lemma det_FaceObj_centroid f : deterministic (FaceObj_centroid f).
Proof. unfold FaceObj_centroid. det. Qed.

Lemma det_adjacentFaces this vIndices :
  deterministic (adjacentFaces this vIndices).
Proof. unfold adjacentFaces. det. Qed.

Lemma det_edgeFaces this e : deterministic (edgeFaces this e).
Proof. unfold edgeFaces. det. Qed.
#[local] Hint Resolve det_centroid det_FaceObj_centroid det_adjacentFaces
  det_edgeFaces : det.

Lemma det_checkVertex v next f : deterministic (checkVertex v next f).
Proof. unfold checkVertex. det. Qed.

Lemma det_find {A} strict (array : list A) (predicate : A → M bool) :
  (∀ x, deterministic (predicate x)) →
  deterministic (find strict array predicate).
Proof. intros Hp. unfold find. det. Qed.

Lemma det_directedAdjacentFaces_loop strict touching v remaining next result :
  deterministic
    (directedAdjacentFaces_loop strict touching v remaining next result).
Proof.
  revert next result. induction remaining as [|n IH]; intros next result; simpl.
  - apply det_bind; [|intros; apply det_ret].
    apply det_find. intros. apply det_checkVertex.
  - apply det_bind; [|intros; apply IH].
    apply det_find. intros. apply det_checkVertex.
Qed.

Lemma det_directedAdjacentFaces strict this v :
  deterministic (directedAdjacentFaces strict this v).
Proof.
  unfold directedAdjacentFaces.
  apply det_bind; [apply det_adjacentFaces|]. intros touching.
  apply det_directedAdjacentFaces_loop.
Qed.

Lemma det_adjacentFaceCount this v : deterministic (adjacentFaceCount this v).
Proof. unfold adjacentFaceCount. det. Qed.

Lemma det_adjacentVertexIndices this vIndices :
  deterministic (adjacentVertexIndices this vIndices).
Proof. unfold adjacentVertexIndices. det. Qed.

Lemma det_getDihedralAngle this e : deterministic (getDihedralAngle this e).
Proof. unfold getDihedralAngle. det. Qed.

Lemma det_faceAdjacencyCount f : deterministic (faceAdjacencyCount f).
Proof. unfold faceAdjacencyCount. det. Qed.

Lemma det_faceAdjacencyList this : deterministic (faceAdjacencyList this).
Proof.
  unfold faceAdjacencyList. det. apply det_faceAdjacencyCount.
Qed.

Lemma det_isSame this other : deterministic (isSame this other).
Proof. unfold isSame. det; apply det_faceAdjacencyList. Qed.

Lemma det_withVertices this vs : deterministic (withVertices this vs).
Proof. unfold withVertices. det. Qed.

Lemma det_withFaces this fs : deterministic (withFaces this fs).
Proof. unfold withFaces. det. Qed.
#[local] Hint Resolve det_withVertices det_withFaces : det.

Lemma det_addVertices this vs : deterministic (addVertices this vs).
Proof. unfold addVertices. det. Qed.

Lemma det_addFaces this fs : deterministic (addFaces this fs).
Proof. unfold addFaces. det. Qed.
#[local] Hint Resolve det_addVertices det_addFaces : det.

Lemma det_addPolyhedron this other : deterministic (addPolyhedron this other).
Proof. unfold addPolyhedron. det. Qed.

Lemma det_removeFace this face : deterministic (removeFace this face).
Proof. unfold removeFace. det. Qed.

Lemma det_removeFaces this faceObjs : deterministic (removeFaces this faceObjs).
Proof. unfold removeFaces. det. Qed.

Lemma det_mapVertices this iteratee : deterministic (mapVertices this iteratee).
Proof. unfold mapVertices. det. Qed.

Lemma det_mapFaces this (iteratee : heap number Vec3D → FaceObj → Face) :
  (∀ h1 h2 f, consistent h1 → consistent h2 → same_polyhedra h1 h2 →
              iteratee h1 f = iteratee h2 f) →
  deterministic (mapFaces this iteratee).
Proof.
  intros Hit. unfold mapFaces. det.
  intros h1 h2 C1 C2 S. simpl. split; [|done]. f_equal. by apply Hit.
Qed.

Lemma det_center this : deterministic (center Vec3D_toArray this).
Proof. unfold center. det. Qed.

Lemma det_Polyhedron_of vs fs : deterministic (Polyhedron_of vs fs).
Proof. unfold Polyhedron_of. det. Qed.

Lemma det_Polyhedron_get name :
  deterministic (Polyhedron_get isValidSolid getSolidData name).
Proof. unfold Polyhedron_get. det. Qed.

Lemma det_run {A} (c : call A) :
  iteratee_deterministic c →
  deterministic (run isValidSolid getSolidData Vec3D_toArray c).
Proof.
  destruct c; simpl; intros Hit;
    try first
      [ apply det_ret | apply det_lift
      | apply det_Polyhedron_get | apply det_Polyhedron_of
      | apply det_biggestFace | apply det_faceTypes | apply det_vertexVector
      | apply det_directedAdjacentFaces | apply det_adjacentFaceCount
      | apply det_adjacentVertexIndices | apply det_getDihedralAngle
      | apply det_faceAdjacencyList | apply det_isSame | apply det_center
      | solve [auto 1 with det nocore] ].
  destruct t; simpl;
    first [ apply det_withVertices | apply det_withFaces
          | apply det_addVertices | apply det_addFaces
          | apply det_addPolyhedron | apply det_removeFace
          | apply det_removeFaces | apply det_mapVertices
          | by apply det_mapFaces ].
Qed.

(** The side counts of the entries of a fingerprint, before sorting, are
    those of the faces. *)
Lemma faceAdjacencyCounts_sides this (faces : list Face) es counts :
  mapR (faceAdjacencyCount_of this faces es) (face_views this (length faces))
  = Ok counts →
  map AdjCount.n counts = map length faces.
Proof.
  rewrite <- (map_face_views length this faces).
  assert (H : ∀ views cs,
            (∀ f, f ∈ views → f ∈ face_views this (length faces)) →
            mapR (faceAdjacencyCount_of this faces es) views = Ok cs →
            map AdjCount.n cs
            = map (λ f, length (view_face faces f)) views).
  { induction views as [|f views IH]; intros cs Hv Hc; simpl in *;
      [by injection Hc as <-|].
    destruct (faceAdjacencyCount_of this faces es f) as [c|] eqn:Ec;
      simpl in Hc; [|done].
    destruct (mapR _ views) as [cs'|] eqn:Ecs; simpl in Hc; [|done].
    injection Hc as <-. simpl. f_equal.
    - unfold faceAdjacencyCount_of in Ec.
      rewrite view_numSides_valid in Ec by (apply Hv; left). simpl in Ec.
      destruct (faceGraph_of this faces es) as [g|]; simpl in Ec; [|done].
      destruct (mapR (view_numSides this faces) _) as [ns|]; simpl in Ec;
        [|done].
      by injection Ec as <-.
    - apply IH; [|done]. intros g Hg. apply Hv. by right. }
  intros Hc. by apply H.
Qed.
End CallFacts.

Section ClaimDeterminism.
Context {number Vec3D : Type} `{!Toxiclibs number Vec3D}.
Local Abbreviation PolyObj := (PolyObj number Vec3D).
Local Abbreviation heap := (heap number Vec3D).
Implicit Types (h : heap) (o : PolyObj).
Context (isValidSolid : string → bool).
Context (getSolidData : string → BasePolyhedron number).
Context (Vec3D_toArray : Vec3D → list number).

End ClaimDeterminism.

Lemma keeps_isSame {number Vec3D} this other :
  keeps_length (isSame this other : M number Vec3D bool).
Proof. keeps. Qed.

Lemma consistent_constructed {number Vec3D} `{!Toxiclibs number Vec3D}
    vs fs es :
  consistent [constructed vs fs es : PolyObj number Vec3D].
Proof.
  split; [apply wf_heap_constructed|]. apply Forall_singleton. by intros ?.
Qed.


